(** * cxxhotplug: hot-swapping a dynamically loaded score operator

    A shallow embedding of [operator_interface.h], [score_op_v1.cpp],
    [score_op_v2.cpp] and [main.cpp], and the properties of the
    specification proved (or refuted) on it.

    Conventions.
    - [double] is IEEE binary64, i.e. Rocq's primitive [float];
      [std::atomic<uint64_t>] is a [Z] kept in [0, 2^64) with the wrap-around
      of [++] written out; C++ [int] values are [Z] (the program only builds
      small non-negative ones) and loop indices are [nat].
    - A raw pointer is an [option]: [None] is [nullptr].
    - [std::shared_ptr<OperatorHolder>] is an address into a heap of control
      blocks, each with its strong count; copying a shared pointer increments
      the count, destroying one decrements it and runs [~OperatorHolder] when
      it reaches zero.
    - The default [std::atomic_load]/[std::atomic_store] on a shared pointer
      are sequentially consistent, so one call is one step of the
      interleaving semantics.
    - Console output and [sleep_for] do not influence control flow; output is
      an event of the trace and sleeping is a scheduling point.
    - A call of a virtual function of an operator returns, and [name]
      returns a C string, never a null pointer: [compute_score] and [name]
      are functions. The two shipped operators are like that, and that the
      demo neither crashes nor hangs is stated for them only.
    - The process is built in three layers: [State], the threads that
      touch the slot; [Process], with the statistics thread and the output
      of [print_stats]; [System], with [g_print_mutex]. *)

From Stdlib Require Import ZArith Lia PrimInt63 PrimFloat.
From stdpp Require Import base list strings.

Set Warnings "-inexact-float".

Open Scope Z_scope.

(* ********************************************************************* *)
(** * Part I: the embedding of the sources *)
(* ********************************************************************* *)

(* ===================================================================== *)
(** * operator_interface.h *)
(* ===================================================================== *)

(** [int] to [double] conversion, exact on the whole [int] range. *)
Fixpoint uint63_of_pos (p : positive) : PrimInt63.int :=
  match p with
  | xH => 1%uint63
  | xO q => PrimInt63.lsl (uint63_of_pos q) 1%uint63
  | xI q => PrimInt63.lor (PrimInt63.lsl (uint63_of_pos q) 1%uint63) 1%uint63
  end.

Definition double_of_int (z : Z) : float :=
  match z with
  | Z0 => 0%float
  | Zpos p => PrimFloat.of_uint63 (uint63_of_pos p)
  | Zneg p => PrimFloat.opp (PrimFloat.of_uint63 (uint63_of_pos p))
  end.

Record Feature := mkFeature {
  user_id : Z;
  item_id : Z;
  user_feature : float;
  item_feature : float
}.

(** Process memory that code behind a virtual call could read or write
    (globals of the plug-in, [errno], ...): a store of integer cells. *)
Definition Mem := list Z.

(** A C++ method: it may read and write memory besides computing a result. *)
Definition Method (A : Type) := Mem -> A * Mem.

Definition pure_method {A} (a : A) : Method A := fun m => (a, m).

(** The abstract base class: one entry per virtual function. A call
    returns, and the [const char*] of [name] is a string. *)
Record IScoreOperator := mkOperator {
  compute_score : Feature -> Method float;
  name : Method string
}.

(* ===================================================================== *)
(** * score_op_v1.cpp and score_op_v2.cpp *)
(* ===================================================================== *)

Definition ScoreOperatorV1 : IScoreOperator := {|
  compute_score := fun feature =>
    pure_method (user_feature feature * 0.7 + item_feature feature * 0.3)%float;
  name := pure_method "ScoreOperatorV1"
|}.

(** [sin] is libm's; the operator is parameterised by it. *)
Definition ScoreOperatorV2 (sin : float -> float) : IScoreOperator := {|
  compute_score := fun feature =>
    let base_score :=
      (user_feature feature * 0.4 + item_feature feature * 0.6)%float in
    pure_method
      (base_score * (1.0 + 0.1 * sin (double_of_int (user_id feature) * 0.1)) + 2.0)%float;
  name := pure_method "ScoreOperatorV2"
|}.

(** [IScoreOperator* ()]: the factory returns an instance or [nullptr]. *)
Definition CreateFunc := unit -> option IScoreOperator.

(** [void (IScoreOperator* )]: its only observable effect is the call. *)
Inductive DestroyFunc := delete_op.

Definition create_operator_v1 : CreateFunc := fun _ => Some ScoreOperatorV1.
Definition create_operator_v2 (sin : float -> float) : CreateFunc :=
  fun _ => Some (ScoreOperatorV2 sin).
Definition destroy_operator : DestroyFunc := delete_op.

(* ===================================================================== *)
(** * main.cpp: Statistics *)
(* ===================================================================== *)

Definition uint64_modulus : Z := 2 ^ 64.

(** [x++] on a [std::atomic<uint64_t>]. *)
Definition incr64 (x : Z) : Z := (x + 1) mod uint64_modulus.

Record Statistics := mkStatistics {
  total_requests : Z;
  v1_requests : Z;
  v2_requests : Z;
  hot_update_count : Z
}.

Definition Statistics_init : Statistics := mkStatistics 0 0 0 0.

Definition inc_total_requests (s : Statistics) : Statistics :=
  mkStatistics (incr64 (total_requests s)) (v1_requests s) (v2_requests s)
               (hot_update_count s).

Definition inc_v1_requests (s : Statistics) : Statistics :=
  mkStatistics (total_requests s) (incr64 (v1_requests s)) (v2_requests s)
               (hot_update_count s).

Definition inc_v2_requests (s : Statistics) : Statistics :=
  mkStatistics (total_requests s) (v1_requests s) (incr64 (v2_requests s))
               (hot_update_count s).

Definition inc_hot_update_count (s : Statistics) : Statistics :=
  mkStatistics (total_requests s) (v1_requests s) (v2_requests s)
               (incr64 (hot_update_count s)).

(** The [if]/[else if] of [record_request], after [total_requests++]. *)
Definition record_variant (op_name : string) (s : Statistics) : Statistics :=
  if String.eqb op_name "ScoreOperatorV1" then inc_v1_requests s
  else if String.eqb op_name "ScoreOperatorV2" then inc_v2_requests s
  else s.

Definition record_request (op_name : string) (s : Statistics) : Statistics :=
  record_variant op_name (inc_total_requests s).

(** A sequence of [record_request] calls, in order. *)
Definition record_all (names : list string) (s : Statistics) : Statistics :=
  fold_left (fun acc n => record_request n acc) names s.

(** Requests whose operator name is neither of the two counted ones. *)
Definition is_other (op_name : string) : bool :=
  negb (String.eqb op_name "ScoreOperatorV1")
  && negb (String.eqb op_name "ScoreOperatorV2").

Fixpoint other_requests (names : list string) : Z :=
  match names with
  | [] => 0
  | n :: rest => (if is_other n then 1 else 0) + other_requests rest
  end.

(** The counter equation of the specification. *)
Definition counters_consistent (names : list string) (s : Statistics) : Prop :=
  total_requests s = v1_requests s + v2_requests s + other_requests names.

(* ===================================================================== *)
(** * main.cpp: OperatorHolder, the heap of shared pointers, the trace *)
(* ===================================================================== *)

(** A module handle returned by [dlopen], and the address of a control
    block created by [std::make_shared<OperatorHolder>]. *)
Abbreviation Handle := nat (only parsing).
Abbreviation ptr := nat (only parsing).

Record OperatorHolder := mkHolder {
  handle : option Handle;
  op : option IScoreOperator;
  destroy_func : option DestroyFunc
}.

(** The member initialisers: all three fields start as [nullptr]. *)
Definition OperatorHolder_default : OperatorHolder := mkHolder None None None.

Inductive Thread := TMain | TController | TWorker (tid : nat).

(** What the program does to the outside world and to the slot. *)
Inductive Event :=
| EvDlopen (so_file : string) (result : option Handle)
| EvDlclose (h : Handle)
| EvCreate (h : Handle) (null_result : bool)
| EvDtor (this : ptr)                (* [~OperatorHolder] entered *)
| EvDestroy (this : ptr)             (* [destroy_func(op)] *)
| EvLoad (who : Thread) (v : option ptr)   (* [std::atomic_load(&g_operator)] *)
| EvStore (who : Thread) (v : option ptr)  (* [std::atomic_store(&g_operator, v)] *)
| EvCompute (tid : nat) (p : ptr) (round : nat)
| EvLog (msg : string).

(** [~OperatorHolder]: the instance first, the module afterwards. *)
Definition OperatorHolder_dtor (this : ptr) (hd : OperatorHolder) : list Event :=
  [EvDtor this]
  ++ (match op hd, destroy_func hd with
      | Some _, Some _ => [EvDestroy this]
      | _, _ => []
      end)
  ++ (match handle hd with
      | Some h => [EvDlclose h]
      | None => []
      end).

(** The control block of a shared pointer. *)
Record Block := mkBlock {
  obj : OperatorHolder;
  strong : nat
}.

(** Everything the threads share. Events are kept in the order they
    happened. *)
Record Shared := mkShared {
  heap : list Block;
  g_operator : option ptr;
  g_stats : Statistics;
  mem : Mem;
  trace : list Event
}.

Definition set_heap (hp : list Block) (sh : Shared) : Shared :=
  mkShared hp (g_operator sh) (g_stats sh) (mem sh) (trace sh).
Definition set_g_operator (v : option ptr) (sh : Shared) : Shared :=
  mkShared (heap sh) v (g_stats sh) (mem sh) (trace sh).
Definition set_g_stats (s : Statistics) (sh : Shared) : Shared :=
  mkShared (heap sh) (g_operator sh) s (mem sh) (trace sh).
Definition set_mem (m : Mem) (sh : Shared) : Shared :=
  mkShared (heap sh) (g_operator sh) (g_stats sh) m (trace sh).
Definition add_events (evs : list Event) (sh : Shared) : Shared :=
  mkShared (heap sh) (g_operator sh) (g_stats sh) (mem sh) (trace sh ++ evs).

(** ** The monad of one thread's code

    [None] means the process is gone: a null pointer was dereferenced or
    [assert] called [abort]. *)
Definition M (A : Type) := Shared -> option (A * Shared).

Definition ret {A} (a : A) : M A := fun sh => Some (a, sh).
Definition bind {A B} (m : M A) (k : A -> M B) : M B :=
  fun sh => match m sh with
            | Some (a, sh') => k a sh'
            | None => None
            end.
Definition crash {A} : M A := fun _ => None.

Notation "'let*' x ':=' m 'in' k" := (bind m (fun x => k))
  (at level 10, x name, m at level 100, k at level 200).

Definition modify (f : Shared -> Shared) : M unit := fun sh => Some (tt, f sh).
Definition emit (evs : list Event) : M unit := modify (add_events evs).
Definition log (msg : string) : M unit := emit [EvLog msg].

(** Calling a virtual method threads the memory through it. *)
Definition call {A} (f : Method A) : M A :=
  fun sh => let '(a, m') := f (mem sh) in Some (a, set_mem m' sh).

(** ** std::shared_ptr *)

Definition set_strong (n : nat) (b : Block) : Block := mkBlock (obj b) n.
Definition set_obj (hd : OperatorHolder) (b : Block) : Block := mkBlock hd (strong b).

(** [std::make_shared<OperatorHolder>()]: a fresh block owned once. *)
Definition make_shared (hd : OperatorHolder) : M ptr :=
  fun sh => Some (length (heap sh), set_heap (heap sh ++ [mkBlock hd 1]) sh).

(** [*p]; dereferencing an address with no block is a crash. *)
Definition deref (p : ptr) : M OperatorHolder :=
  fun sh => match heap sh !! p with
            | Some b => Some (obj b, sh)
            | None => None
            end.

(** [p->field = ...] *)
Definition update (p : ptr) (f : OperatorHolder -> OperatorHolder) : M unit :=
  fun sh => match heap sh !! p with
            | Some b => Some (tt, set_heap (<[p := set_obj (f (obj b)) b]> (heap sh)) sh)
            | None => None
            end.

(** Copy construction of a shared pointer. *)
Definition sp_copy (v : option ptr) : M unit :=
  match v with
  | None => ret tt
  | Some p =>
      fun sh => match heap sh !! p with
                | Some b => Some (tt, set_heap (<[p := set_strong (S (strong b)) b]> (heap sh)) sh)
                | None => None
                end
  end.

(** Destruction of a shared pointer: the count drops, and the holder's
    destructor runs when it has dropped to zero. *)
Definition sp_release (v : option ptr) : M unit :=
  match v with
  | None => ret tt
  | Some p =>
      fun sh => match heap sh !! p with
                | Some b =>
                    let n := Nat.pred (strong b) in
                    let sh' := set_heap (<[p := set_strong n b]> (heap sh)) sh in
                    Some (tt, if Nat.eqb n 0
                              then add_events (OperatorHolder_dtor p (obj b)) sh'
                              else sh')
                | None => None
                end
  end.

(** [std::atomic_load(&g_operator)]: the result is a new owner. *)
Definition atomic_load (who : Thread) : M (option ptr) :=
  fun sh => (let* _ := sp_copy (g_operator sh) in
             let* _ := emit [EvLoad who (g_operator sh)] in
             ret (g_operator sh)) sh.

(** [std::atomic_store(&g_operator, r)]: [r] is passed by value (a copy),
    swapped with the slot, and the previous content dies with the
    parameter. *)
Definition atomic_store (who : Thread) (r : option ptr) : M unit :=
  fun sh => (let* _ := sp_copy r in
             let* _ := modify (set_g_operator r) in
             let* _ := emit [EvStore who r] in
             sp_release (g_operator sh)) sh.

(* ===================================================================== *)
(** * main.cpp: load_operator and hot_update *)
(* ===================================================================== *)

(** The dynamic linker as the program sees it: what [dlopen] answers for a
    path, and what [dlsym] answers for the two entry points of a handle
    ([None] is a null result). *)
Record DynLinker := mkDynLinker {
  dlopen : string -> option Handle;
  dlsym_create_operator : Handle -> option CreateFunc;
  dlsym_destroy_operator : Handle -> option DestroyFunc
}.

Definition set_handle (h : option Handle) (hd : OperatorHolder) : OperatorHolder :=
  mkHolder h (op hd) (destroy_func hd).
Definition set_op (o : option IScoreOperator) (hd : OperatorHolder) : OperatorHolder :=
  mkHolder (handle hd) o (destroy_func hd).
Definition set_destroy_func (d : option DestroyFunc) (hd : OperatorHolder) : OperatorHolder :=
  mkHolder (handle hd) (op hd) d.

Definition is_null {A} (o : option A) : bool :=
  match o with Some _ => false | None => true end.

(** [load_operator]. Returning [nullptr] destroys the local [holder], the
    only owner of the block made on entry. *)
Definition load_operator (dl : DynLinker) (so_file : string) : M (option ptr) :=
  let* holder := make_shared OperatorHolder_default in
  let h := dlopen dl so_file in
  let* _ := emit [EvDlopen so_file h] in
  let* _ := update holder (set_handle h) in
  match h with
  | None =>
      let* _ := log "dlerror" in
      let* _ := sp_release (Some holder) in
      ret None
  | Some hnd =>
      let create := dlsym_create_operator dl hnd in
      let destroy := dlsym_destroy_operator dl hnd in
      match create, destroy with
      | Some create_f, Some destroy_f =>
          let o := create_f tt in
          let* _ := emit [EvCreate hnd (is_null o)] in
          let* _ := update holder (set_op o) in
          let* _ := update holder (set_destroy_func (Some destroy_f)) in
          ret (Some holder)
      | _, _ =>
          let* _ := log "dlsym fail" in
          let* _ := emit [EvDlclose hnd] in
          let* _ := sp_release (Some holder) in
          ret None
      end
  end.

(** [new_holder->op->name()]: both arrows dereference. *)
Definition holder_name (p : ptr) : M string :=
  let* hd := deref p in
  match op hd with
  | Some o => call (name o)
  | None => crash
  end.

Definition incr_hot_update_count : M unit :=
  modify (fun sh => set_g_stats (inc_hot_update_count (g_stats sh)) sh).

(** [hot_update], run without interruption. The locals die in reverse
    order of declaration: [old_holder] before [new_holder]. *)
Definition hot_update (dl : DynLinker) (who : Thread) (so_file : string) : M bool :=
  let* _ := log "[HotUpdate] begin" in
  let* new_holder := load_operator dl so_file in
  match new_holder with
  | None =>
      let* _ := log "[HotUpdate] failed" in
      ret false
  | Some new_p =>
      let* old_holder := atomic_load who in
      let* _ := atomic_store who (Some new_p) in
      let* _ := incr_hot_update_count in
      let* _ := holder_name new_p in
      let* _ := log "[HotUpdate] switched" in
      let* _ := sp_release old_holder in
      let* _ := sp_release (Some new_p) in
      ret true
  end.

(** ** hot_update as the steps another thread can observe

    One constructor per program point between two accesses to shared
    state. *)
Inductive HotUpdatePc :=
| HU_entry (so_file : string)
| HU_loaded (new_holder : ptr)                          (* line 103 *)
| HU_have_old (new_holder : ptr) (old_holder : option ptr)  (* line 104 *)
| HU_stored (new_holder : ptr) (old_holder : option ptr)    (* line 105 *)
| HU_counted (new_holder : ptr) (old_holder : option ptr)   (* line 107 *)
| HU_leaving (new_holder : ptr) (old_holder : option ptr)   (* lines 110-114 *)
| HU_drop_new (new_holder : ptr)
| HU_ret (result : bool).

Definition hot_update_step (dl : DynLinker) (who : Thread) (pc : HotUpdatePc)
  : M HotUpdatePc :=
  match pc with
  | HU_entry so_file =>
      let* _ := log "[HotUpdate] begin" in
      let* new_holder := load_operator dl so_file in
      match new_holder with
      | None => let* _ := log "[HotUpdate] failed" in ret (HU_ret false)
      | Some new_p => ret (HU_loaded new_p)
      end
  | HU_loaded new_p =>
      let* old_holder := atomic_load who in
      ret (HU_have_old new_p old_holder)
  | HU_have_old new_p old_holder =>
      let* _ := atomic_store who (Some new_p) in
      ret (HU_stored new_p old_holder)
  | HU_stored new_p old_holder =>
      let* _ := incr_hot_update_count in
      ret (HU_counted new_p old_holder)
  | HU_counted new_p old_holder =>
      let* _ := holder_name new_p in
      let* _ := log "[HotUpdate] switched" in
      ret (HU_leaving new_p old_holder)
  | HU_leaving new_p old_holder =>
      let* _ := sp_release old_holder in
      ret (HU_drop_new new_p)
  | HU_drop_new new_p =>
      let* _ := sp_release (Some new_p) in
      ret (HU_ret true)
  | HU_ret b => ret (HU_ret b)
  end.

(** Running the steps of one call to its return. *)
Fixpoint hot_update_run (dl : DynLinker) (who : Thread) (fuel : nat)
  (pc : HotUpdatePc) : M (option bool) :=
  match pc, fuel with
  | HU_ret b, _ => ret (Some b)
  | _, O => ret None
  | _, S fuel' =>
      let* pc' := hot_update_step dl who pc in
      hot_update_run dl who fuel' pc'
  end.

(* ===================================================================== *)
(** * main.cpp: business_thread_func *)
(* ===================================================================== *)

Definition total_rounds : nat := 20.

(** [Feature f{tid, i, tid * 0.1 + i * 0.05, tid * 0.2 + i * 0.1}] *)
Definition make_feature (tid i : nat) : Feature :=
  let t := double_of_int (Z.of_nat tid) in
  let r := double_of_int (Z.of_nat i) in
  mkFeature (Z.of_nat tid) (Z.of_nat i)
            (t * 0.1 + r * 0.05)%float (t * 0.2 + r * 0.1)%float.

(** Program points of a worker; [i] is the loop variable, [op_ptr] the
    snapshot it owns. *)
Inductive WorkerPc :=
| W_loop (i : nat)                                   (* line 121 *)
| W_check (i : nat) (op_ptr : option ptr)            (* line 125 *)
| W_record (i : nat) (op_ptr : ptr) (score : float)  (* line 136 *)
| W_variant (i : nat) (op_ptr : ptr) (score : float) (op_name : string)
                                                     (* lines 33-37 *)
| W_print (i : nat) (op_ptr : ptr) (score : float)   (* lines 139-150 *)
| W_done.

Definition incr_total_requests : M unit :=
  modify (fun sh => set_g_stats (inc_total_requests (g_stats sh)) sh).
Definition apply_record_variant (op_name : string) : M unit :=
  modify (fun sh => set_g_stats (record_variant op_name (g_stats sh)) sh).

Definition null_operator_msg : string := "operator pointer is null".

Definition worker_step (tid : nat) (pc : WorkerPc) : M WorkerPc :=
  match pc with
  | W_loop i =>
      if Nat.ltb i total_rounds then
        let* op_ptr := atomic_load (TWorker tid) in
        ret (W_check i op_ptr)
      else
        let* _ := log "worker finished" in
        ret W_done
  | W_check i op_ptr =>
      match op_ptr with
      | None =>
          (* [!op_ptr]: log, [continue] *)
          let* _ := log null_operator_msg in
          let* _ := sp_release op_ptr in
          ret (W_loop (S i))
      | Some p =>
          let* hd := deref p in
          match op hd with
          | None =>
              (* [!op_ptr->op]: log, [continue] *)
              let* _ := log null_operator_msg in
              let* _ := sp_release op_ptr in
              ret (W_loop (S i))
          | Some o =>
              let* score := call (compute_score o (make_feature tid i)) in
              let* _ := emit [EvCompute tid p i] in
              ret (W_record i p score)
          end
      end
  | W_record i p score =>
      let* op_name := holder_name p in
      let* _ := incr_total_requests in
      ret (W_variant i p score op_name)
  | W_variant i p score op_name =>
      let* _ := apply_record_variant op_name in
      ret (W_print i p score)
  | W_print i p score =>
      let* _ := holder_name p in
      let* _ := log "round" in
      let* _ := sp_release (Some p) in
      ret (W_loop (S i))
  | W_done => ret W_done
  end.

(* ===================================================================== *)
(** * main.cpp: hot_swap_controller and main *)
(* ===================================================================== *)

(** A thread that executes [assert(hot_update(p))] for each path of a
    list, in order. *)
Inductive DriverPc :=
| D_at (rest : list string)
| D_in (rest : list string) (pc : HotUpdatePc).

(** The outcome of one step of such a thread. *)
Inductive DriverStep :=
| DriverContinues (pc : DriverPc)
| DriverAborts                         (* the [assert] failed *)
| DriverFinished.

Definition driver_step (dl : DynLinker) (who : Thread) (d : DriverPc) : M DriverStep :=
  match d with
  | D_at [] => ret DriverFinished
  | D_at (so_file :: rest) => ret (DriverContinues (D_in rest (HU_entry so_file)))
  | D_in rest (HU_ret true) => ret (DriverContinues (D_at rest))
  | D_in rest (HU_ret false) => ret DriverAborts
  | D_in rest pc =>
      let* pc' := hot_update_step dl who pc in
      ret (DriverContinues (D_in rest pc'))
  end.

Definition controller_script : list string :=
  ["./score_op_v2.so"; "./score_op_v1.so"; "./score_op_v2.so"].

Definition main_script : list string := ["./score_op_v1.so"].

Definition THREAD_NUM : nat := 4.

Inductive MainPc :=
| Main_init (d : DriverPc)    (* line 178 *)
| Main_spawn                  (* lines 185-198 *)
| Main_join                   (* lines 201-205 *)
| Main_exited.                (* after [return 0] and static destruction *)

(** The whole process. [workers] and [controller] are empty until [main]
    has started the threads. *)
Record State := mkState {
  shared : Shared;
  main_pc : MainPc;
  workers : list WorkerPc;
  controller : option DriverPc;
  crashed : bool
}.

Definition Shared_init : Shared := mkShared [] None Statistics_init [] [].

Definition State_init : State :=
  mkState Shared_init (Main_init (D_at main_script)) [] None false.

Definition is_done (w : WorkerPc) : bool :=
  match w with W_done => true | _ => false end.

Definition driver_done (d : option DriverPc) : bool :=
  match d with Some (D_at []) => true | _ => false end.

Inductive Label := L_main | L_controller | L_worker (tid : nat).

Definition crash_state (st : State) : State :=
  mkState (shared st) (main_pc st) (workers st) (controller st) true.

(** One step of the thread named by the label; [None] when that thread
    has nothing to do (not started, finished, waiting in [join], or the
    process is gone). *)
Definition step (dl : DynLinker) (l : Label) (st : State) : option State :=
  if crashed st then None else
  match l with
  | L_main =>
      match main_pc st with
      | Main_init d =>
          match driver_step dl TMain d (shared st) with
          | None => Some (crash_state st)
          | Some (DriverContinues d', sh') =>
              Some (mkState sh' (Main_init d') (workers st) (controller st) false)
          | Some (DriverAborts, _) => Some (crash_state st)
          | Some (DriverFinished, sh') =>
              Some (mkState sh' Main_spawn (workers st) (controller st) false)
          end
      | Main_spawn =>
          Some (mkState (shared st) Main_join
                        (replicate THREAD_NUM (W_loop 0))
                        (Some (D_at controller_script)) false)
      | Main_join =>
          if forallb is_done (workers st) && driver_done (controller st) then
            (* [return 0]: the global [g_operator] is destroyed *)
            match (let* _ := sp_release (g_operator (shared st)) in
                   modify (set_g_operator None)) (shared st) with
            | Some (_, sh') =>
                Some (mkState sh' Main_exited (workers st) (controller st) false)
            | None => Some (crash_state st)
            end
          else None
      | Main_exited => None
      end
  | L_controller =>
      match controller st with
      | None => None
      | Some d =>
          match driver_step dl TController d (shared st) with
          | None => Some (crash_state st)
          | Some (DriverContinues d', sh') =>
              Some (mkState sh' (main_pc st) (workers st) (Some d') false)
          | Some (DriverAborts, _) => Some (crash_state st)
          | Some (DriverFinished, _) => None
          end
      end
  | L_worker tid =>
      match workers st !! tid with
      | None => None
      | Some W_done => None
      | Some w =>
          match worker_step tid w (shared st) with
          | None => Some (crash_state st)
          | Some (w', sh') =>
              Some (mkState sh' (main_pc st) (<[tid := w']> (workers st))
                            (controller st) false)
          end
      end
  end.

(** Running a schedule: the labels say which thread moves next. *)
Fixpoint run (dl : DynLinker) (sched : list Label) (st : State) : option State :=
  match sched with
  | [] => Some st
  | l :: rest =>
      match step dl l st with
      | Some st' => run dl rest st'
      | None => None
      end
  end.

Definition reachable (dl : DynLinker) (st : State) : Prop :=
  exists sched, run dl sched State_init = Some st.

(* ===================================================================== *)
(** * main.cpp: print_stats, the statistics thread and the end of main *)
(* ===================================================================== *)

(** The four counters one call of [print_stats] writes, in the order of
    its lines. The elapsed time it also writes depends on the clock only
    and is left out. *)
Record Report := mkReport {
  r_total : Z;
  r_v1 : Z;
  r_v2 : Z;
  r_updates : Z
}.

(** [print_stats], run without interruption. It changes no counter. *)
Definition print_stats (s : Statistics) : Report :=
  mkReport (total_requests s) (v1_requests s) (v2_requests s) (hot_update_count s).

(** Program points of [print_stats]: one before each atomic [load()]; the
    values already read are carried along. *)
Inductive PrintPc :=
| PS_total                      (* line 46 *)
| PS_v1 (t : Z)                 (* line 47 *)
| PS_v2 (t a : Z)               (* line 48 *)
| PS_updates (t a b : Z).       (* line 49 *)

(** One load; the last one completes the report. *)
Definition print_stats_step (pc : PrintPc) (s : Statistics) : PrintPc + Report :=
  match pc with
  | PS_total => inl (PS_v1 (total_requests s))
  | PS_v1 t => inl (PS_v2 t (v1_requests s))
  | PS_v2 t a => inl (PS_updates t a (v2_requests s))
  | PS_updates t a b => inr (mkReport t a b (hot_update_count s))
  end.

(** The thread of lines 193-198: six times, sleep and print. *)
Definition stats_rounds : nat := 6.

Inductive StatsPc :=
| ST_loop (i : nat)                   (* line 194 *)
| ST_print (i : nat) (pc : PrintPc)   (* line 196 *)
| ST_done.

Definition stats_step (pc : StatsPc) (s : Statistics) : StatsPc * list Report :=
  match pc with
  | ST_loop i =>
      if Nat.ltb i stats_rounds then (ST_print i PS_total, []) else (ST_done, [])
  | ST_print i p =>
      match print_stats_step p s with
      | inl p' => (ST_print i p', [])
      | inr r => (ST_loop (S i), [r])
      end
  | ST_done => (ST_done, [])
  end.

(** [main] from the joins on: it waits for all threads, prints the final
    statistics (line 209) and returns. *)
Inductive MainTail :=
| MT_joining                    (* lines 201-205 *)
| MT_print (pc : PrintPc)       (* line 209 *)
| MT_printed.                   (* lines 211-217 *)

(** The process with its statistics output: [base] is the process as
    described so far, [printed] what [print_stats] has written, oldest
    first. *)
Record Process := mkProcess {
  base : State;
  stats_thread : option StatsPc;
  main_tail : MainTail;
  printed : list Report
}.

Definition Process_init : Process := mkProcess State_init None MT_joining [].

Definition stats_done (s : option StatsPc) : bool :=
  match s with Some ST_done => true | _ => false end.

Inductive XLabel := XL (l : Label) | XL_stats.

Definition with_base (p : Process) (st : option State) : option Process :=
  match st with
  | Some st' => Some (mkProcess st' (stats_thread p) (main_tail p) (printed p))
  | None => None
  end.

(** One step of the thread named by the label. The threads of [base]
    move as before, except that [main] also starts the statistics thread,
    also waits for it, and prints before it returns. *)
Definition xstep (dl : DynLinker) (l : XLabel) (p : Process) : option Process :=
  if crashed (base p) then None else
  match l with
  | XL L_main =>
      match main_pc (base p) with
      | Main_spawn =>
          match step dl L_main (base p) with
          | Some st' => Some (mkProcess st' (Some (ST_loop 0)) (main_tail p) (printed p))
          | None => None
          end
      | Main_join =>
          match main_tail p with
          | MT_joining =>
              if forallb is_done (workers (base p))
                 && driver_done (controller (base p))
                 && stats_done (stats_thread p)
              then Some (mkProcess (base p) (stats_thread p) (MT_print PS_total)
                                   (printed p))
              else None
          | MT_print pc =>
              match print_stats_step pc (g_stats (shared (base p))) with
              | inl pc' =>
                  Some (mkProcess (base p) (stats_thread p) (MT_print pc') (printed p))
              | inr r =>
                  Some (mkProcess (base p) (stats_thread p) MT_printed (printed p ++ [r]))
              end
          | MT_printed => with_base p (step dl L_main (base p))
          end
      | _ => with_base p (step dl L_main (base p))
      end
  | XL l' => with_base p (step dl l' (base p))
  | XL_stats =>
      match stats_thread p with
      | None | Some ST_done => None
      | Some pc =>
          let '(pc', out) := stats_step pc (g_stats (shared (base p))) in
          Some (mkProcess (base p) (Some pc') (main_tail p) (printed p ++ out))
      end
  end.

Fixpoint xrun (dl : DynLinker) (sched : list XLabel) (p : Process) : option Process :=
  match sched with
  | [] => Some p
  | l :: rest =>
      match xstep dl l p with
      | Some p' => xrun dl rest p'
      | None => None
      end
  end.

Definition xreachable (dl : DynLinker) (p : Process) : Prop :=
  exists sched, xrun dl sched Process_init = Some p.

(* ===================================================================== *)
(** * main.cpp: g_print_mutex *)
(* ===================================================================== *)

(** The process with the mutex that serialises the output of the
    workers. A worker locks it at line 140, for the line of a round, and
    at line 152, for its last line; the [lock_guard] releases it at the
    end of its block (line 147) or of the function (line 154). No other
    thread locks it. [g_print_mutex] is the number of the worker that
    holds the mutex. *)
Record System := mkSystem {
  process : Process;
  g_print_mutex : option nat
}.

Definition System_init : System := mkSystem Process_init None.

(** The worker is about to construct a [lock_guard]. *)
Definition at_lock_guard (w : WorkerPc) : bool :=
  match w with
  | W_print _ _ _ => true
  | W_loop i => negb (Nat.ltb i total_rounds)
  | _ => false
  end.

Definition with_process (m : option nat) (p : option Process) : option System :=
  match p with
  | Some p' => Some (mkSystem p' m)
  | None => None
  end.

(** One step of the thread named by the label. A worker at a
    [lock_guard] takes the mutex when it is free and waits while another
    worker holds it; holding it, it prints and releases it. *)
Definition mstep (dl : DynLinker) (l : XLabel) (s : System) : option System :=
  match l with
  | XL (L_worker tid) =>
      match workers (base (process s)) !! tid with
      | Some w =>
          if at_lock_guard w then
            match g_print_mutex s with
            | None =>
                if crashed (base (process s)) then None
                else Some (mkSystem (process s) (Some tid))
            | Some owner =>
                if Nat.eqb owner tid
                then with_process None (xstep dl l (process s))
                else None
            end
          else with_process (g_print_mutex s) (xstep dl l (process s))
      | None => None
      end
  | _ => with_process (g_print_mutex s) (xstep dl l (process s))
  end.

Fixpoint mrun (dl : DynLinker) (sched : list XLabel) (s : System) : option System :=
  match sched with
  | [] => Some s
  | l :: rest =>
      match mstep dl l s with
      | Some s' => mrun dl rest s'
      | None => None
      end
  end.

Definition mreachable (dl : DynLinker) (s : System) : Prop :=
  exists sched, mrun dl sched System_init = Some s.

(* ===================================================================== *)
(** * Concrete environments and schedules, for evaluation *)
(* ===================================================================== *)

(** A polynomial stand-in for libm's [sin], so that runs can be evaluated;
    no statement depends on its values. *)
Definition sin_model (x : float) : float :=
  (x - x * x * x / 6 + x * x * x * x * x / 120)%float.

(** The two shipped plug-ins, built and placed next to the executable. *)
Definition demo_linker : DynLinker := {|
  dlopen := fun so_file =>
    if String.eqb so_file "./score_op_v1.so" then Some 1%nat
    else if String.eqb so_file "./score_op_v2.so" then Some 2%nat
    else None;
  dlsym_create_operator := fun h =>
    match h with
    | 1%nat => Some create_operator_v1
    | 2%nat => Some (create_operator_v2 sin_model)
    | _ => None
    end;
  dlsym_destroy_operator := fun h =>
    match h with
    | 1%nat | 2%nat => Some destroy_operator
    | _ => None
    end
|}.

(** A module that opens but exports neither entry point. *)
Definition no_symbol_linker : DynLinker := {|
  dlopen := fun _ => Some 7%nat;
  dlsym_create_operator := fun _ => None;
  dlsym_destroy_operator := fun _ => None
|}.

(** A module whose factory returns [nullptr]. *)
Definition null_factory_linker : DynLinker := {|
  dlopen := fun _ => Some 9%nat;
  dlsym_create_operator := fun _ => Some (fun _ => None);
  dlsym_destroy_operator := fun _ => Some destroy_operator
|}.

(** The shipped v1 first, then a v2 whose factory returns [nullptr]. *)
Definition null_v2_linker : DynLinker := {|
  dlopen := dlopen demo_linker;
  dlsym_create_operator := fun h =>
    match h with
    | 1%nat => Some create_operator_v1
    | _ => Some (fun _ => None)
    end;
  dlsym_destroy_operator := fun _ => Some destroy_operator
|}.

Definition all_workers : list Label :=
  [L_worker 0; L_worker 1; L_worker 2; L_worker 3].

(** One complete schedule of the demo: [main] loads and starts the
    threads, the controller and the workers take turns, the workers finish
    their rounds, [main] joins and returns. *)
Definition demo_schedule : list Label :=
  replicate 11 L_main
  ++ concat (replicate 27 (L_controller :: all_workers))
  ++ concat (replicate 74 all_workers)
  ++ [L_main].

(* ********************************************************************* *)
(** * Part II: the vocabulary of the statements

    Predicates, counters and invariants over the embedding. Nothing here
    is code of the repository; each definition is used to state or prove a
    property of it. *)
(* ********************************************************************* *)

(* ===================================================================== *)
(** * Statistics: the counter equation *)
(* ===================================================================== *)

(** Unbounded counts of the names a sequence of calls records. *)
Fixpoint count_name (target : string) (names : list string) : Z :=
  match names with
  | [] => 0
  | n :: rest => (if String.eqb n target then 1 else 0) + count_name target rest
  end.

Definition in_uint64 (x : Z) : Prop := 0 <= x < uint64_modulus.

Definition Statistics_wf (s : Statistics) : Prop :=
  in_uint64 (total_requests s) /\ in_uint64 (v1_requests s)
  /\ in_uint64 (v2_requests s) /\ in_uint64 (hot_update_count s).

(** 2^64 requests, all with a name that is neither counted variant. *)
Definition wrap_names : list string :=
  replicate (Z.to_nat uint64_modulus) "ScoreOperatorV3".

(* ===================================================================== *)
(** * The shipped operators *)
(* ===================================================================== *)

(** A method is pure when its result does not depend on the memory it
    runs in and it leaves that memory as it found it. *)
Definition pure_in_memory {A} (f : Method A) : Prop :=
  (forall m1 m2, fst (f m1) = fst (f m2)) /\ (forall m, snd (f m) = m).

(* ===================================================================== *)
(** * load_operator *)
(* ===================================================================== *)

(** What one call of [load_operator] leaves behind, for a block created at
    address [p]: the result, the final content of the block, and the
    events in order. *)
Definition load_outcome (dl : DynLinker) (so_file : string) (p : ptr)
  : option ptr * Block * list Event :=
  match dlopen dl so_file with
  | None =>
      (None, mkBlock (mkHolder None None None) 0,
       [EvDlopen so_file None; EvLog "dlerror"; EvDtor p])
  | Some h =>
      match dlsym_create_operator dl h, dlsym_destroy_operator dl h with
      | Some c, Some d =>
          (Some p, mkBlock (mkHolder (Some h) (c tt) (Some d)) 1,
           [EvDlopen so_file (Some h); EvCreate h (is_null (c tt))])
      | _, _ =>
          (None, mkBlock (mkHolder (Some h) None None) 0,
           [EvDlopen so_file (Some h); EvLog "dlsym fail"; EvDlclose h;
            EvDtor p; EvDlclose h])
      end
  end.

(** Whether a load fails is decided by the linker alone. *)
Definition load_fails (dl : DynLinker) (so_file : string) : bool :=
  match dlopen dl so_file with
  | None => true
  | Some h =>
      match dlsym_create_operator dl h, dlsym_destroy_operator dl h with
      | Some _, Some _ => false
      | _, _ => true
      end
  end.

Fixpoint count_dlclose (h : Handle) (evs : list Event) : nat :=
  match evs with
  | [] => 0
  | EvDlclose h' :: rest =>
      ((if Nat.eqb h h' then 1 else 0) + count_dlclose h rest)%nat
  | _ :: rest => count_dlclose h rest
  end.

Fixpoint count_dlopen (h : Handle) (evs : list Event) : nat :=
  match evs with
  | [] => 0
  | EvDlopen _ (Some h') :: rest =>
      ((if Nat.eqb h h' then 1 else 0) + count_dlopen h rest)%nat
  | _ :: rest => count_dlopen h rest
  end.

(* ===================================================================== *)
(** * hot_update: a failed load changes nothing *)
(* ===================================================================== *)

(** The shared state once [main] has installed v1. *)
Definition v1_installed : Shared :=
  default Shared_init
    (snd <$> hot_update demo_linker TMain "./score_op_v1.so" Shared_init).

(* ===================================================================== *)
(** * business_thread_func: the soft failure of a round *)
(* ===================================================================== *)

Definition is_compute (e : Event) : bool :=
  match e with EvCompute _ _ _ => true | _ => false end.

(** A snapshot a worker cannot use: a null shared pointer, or a holder
    whose instance pointer is null. *)
Definition unusable (sh : Shared) (op_ptr : option ptr) : Prop :=
  op_ptr = None
  \/ exists p b, op_ptr = Some p /\ heap sh !! p = Some b /\ op (obj b) = None.

(** The controller has published a holder whose factory returned
    [nullptr] and has not yet reached line 107; worker 0 has taken it as the
    snapshot of its first round. *)
Definition null_instance_schedule : list Label :=
  replicate 11 L_main ++ replicate 4 L_controller ++ [L_worker 0].

Definition null_instance_state : State :=
  default State_init (run null_v2_linker null_instance_schedule State_init).

(** The same with a null shared pointer, in a state made by hand. *)
Definition null_snapshot_state : State :=
  mkState Shared_init Main_join [W_check 3 None; W_loop 0] (Some (D_at [])) false.

(* ===================================================================== *)
(** * Reference counting: every count equals the number of owners *)
(* ===================================================================== *)

(** The strong count stored for an address (0 where no block exists). *)
Definition strong_at (hp : list Block) (p : ptr) : nat :=
  match hp !! p with Some b => strong b | None => 0%nat end.

(** Multiplicity of an address in a list of owners. *)
Fixpoint occ (p : ptr) (l : list ptr) : nat :=
  match l with
  | [] => 0
  | q :: rest => ((if Nat.eqb p q then 1 else 0) + occ p rest)%nat
  end.

(** How often the destructor of the holder at [p] has been entered. *)
Fixpoint dtor_count (p : ptr) (t : list Event) : nat :=
  match t with
  | [] => 0
  | EvDtor q :: rest => ((if Nat.eqb p q then 1 else 0) + dtor_count p rest)%nat
  | _ :: rest => dtor_count p rest
  end.

(** One destructor run for a block whose count is zero, none otherwise. *)
Definition expected_dtors (hp : list Block) (p : ptr) : nat :=
  if Nat.ltb p (length hp) && Nat.eqb (strong_at hp p) 0 then 1%nat else 0%nat.

(** The heap and the trace agree with a list of owners [R] (the shared
    pointers alive in the process, with repetition). *)
Definition counted (hp : list Block) (tr : list Event) (R : list ptr) : Prop :=
  forall p, strong_at hp p = occ p R /\ dtor_count p tr = expected_dtors hp p.

Definition oroot (v : option ptr) : list ptr :=
  match v with Some p => [p] | None => [] end.

Definition hu_roots (pc : HotUpdatePc) : list ptr :=
  match pc with
  | HU_entry _ => []
  | HU_loaded n => [n]
  | HU_have_old n o | HU_stored n o | HU_counted n o | HU_leaving n o => n :: oroot o
  | HU_drop_new n => [n]
  | HU_ret _ => []
  end.

Definition driver_roots (d : DriverPc) : list ptr :=
  match d with D_at _ => [] | D_in _ pc => hu_roots pc end.

Definition worker_roots (w : WorkerPc) : list ptr :=
  match w with
  | W_loop _ => []
  | W_check _ v => oroot v
  | W_record _ p _ | W_variant _ p _ _ | W_print _ p _ => [p]
  | W_done => []
  end.

Definition main_roots (m : MainPc) : list ptr :=
  match m with Main_init d => driver_roots d | _ => [] end.

Definition controller_roots (c : option DriverPc) : list ptr :=
  match c with Some d => driver_roots d | None => [] end.

Fixpoint workers_roots (ws : list WorkerPc) : list ptr :=
  match ws with
  | [] => []
  | w :: rest => worker_roots w ++ workers_roots rest
  end.

(** All owners in a state: the slot and the locals of every thread. *)
Definition roots (st : State) : list ptr :=
  oroot (g_operator (shared st))
  ++ main_roots (main_pc st)
  ++ controller_roots (controller st)
  ++ workers_roots (workers st).

Definition refcounts_ok (st : State) : Prop :=
  counted (heap (shared st)) (trace (shared st)) (roots st).

(** The reference-count reading of a shared state. *)
Definition cnt (sh : Shared) (R : list ptr) : Prop :=
  counted (heap sh) (trace sh) R.

(* ===================================================================== *)
(** * The invariant of the whole process *)
(* ===================================================================== *)

(** Which threads exist at each point of [main]. *)
Definition threads_ok (st : State) : Prop :=
  match main_pc st with
  | Main_init _ | Main_spawn => workers st = [] /\ controller st = None
  | Main_join => controller st <> None
  | Main_exited =>
      forallb is_done (workers st) = true
      /\ driver_done (controller st) = true
      /\ g_operator (shared st) = None
  end.

Definition Inv (st : State) : Prop := refcounts_ok st /\ threads_ok st.

(* ===================================================================== *)
(** * What a piece of code does to the slot, the trace and the heap *)
(* ===================================================================== *)

(** The values published by the stores of a trace, oldest first. *)
Fixpoint stores (evs : list Event) : list (option ptr) :=
  match evs with
  | [] => []
  | EvStore _ v :: rest => v :: stores rest
  | _ :: rest => stores rest
  end.

(** The content of the slot after a trace that started with [cur] in it. *)
Fixpoint final (cur : option ptr) (evs : list Event) : option ptr :=
  match evs with
  | [] => cur
  | EvStore _ v :: rest => final v rest
  | _ :: rest => final cur rest
  end.

(** Every load of a trace returned the content the slot had at that
    moment: the value of the latest store before it. *)
Fixpoint loads_ok (cur : option ptr) (evs : list Event) : Prop :=
  match evs with
  | [] => True
  | EvLoad _ v :: rest => v = cur /\ loads_ok cur rest
  | EvStore _ v :: rest => loads_ok v rest
  | _ :: rest => loads_ok cur rest
  end.

(** Events that neither read nor write the slot. *)
Definition is_quiet (e : Event) : bool :=
  match e with EvLoad _ _ | EvStore _ _ => false | _ => true end.

(** [trans ss extra sh sh']: going from [sh] to [sh'] appended events
    whose stores are [ss] and whose loads saw the slot as it was, left in
    the slot what the last store put there, and appended blocks holding
    [extra] to the heap without touching the holders already there. *)
Definition trans (ss : list (option ptr)) (extra : list OperatorHolder)
  (sh sh' : Shared) : Prop :=
  exists evs,
    trace sh' = trace sh ++ evs
    /\ stores evs = ss
    /\ loads_ok (g_operator sh) evs
    /\ g_operator sh' = final (g_operator sh) evs
    /\ map obj (heap sh') = map obj (heap sh) ++ extra.

Definition eff {A} (m : M A) (ss : list (option ptr)) (extra : list OperatorHolder) : Prop :=
  forall sh a sh', m sh = Some (a, sh') -> trans ss extra sh sh'.

(** The holder a load leaves in its block, whatever the address. *)
Definition loaded_holder (dl : DynLinker) (so_file : string) : OperatorHolder :=
  obj (load_outcome dl so_file 0%nat).1.2.

Definition hu_stores (pc : HotUpdatePc) : list (option ptr) :=
  match pc with HU_have_old n _ => [Some n] | _ => [] end.

Definition hu_objs (dl : DynLinker) (pc : HotUpdatePc) : list OperatorHolder :=
  match pc with HU_entry f => [loaded_holder dl f] | _ => [] end.

Definition driver_stores (d : DriverPc) : list (option ptr) :=
  match d with D_in _ pc => hu_stores pc | D_at _ => [] end.

Definition driver_objs (dl : DynLinker) (d : DriverPc) : list OperatorHolder :=
  match d with D_in _ pc => hu_objs dl pc | D_at _ => [] end.

(* ===================================================================== *)
(** * The steps of the process as a relation *)
(* ===================================================================== *)

(** The next program point of [hot_update], decided by the state the
    step starts in. *)
Definition hu_succ (dl : DynLinker) (pc : HotUpdatePc) (sh : Shared) : HotUpdatePc :=
  match pc with
  | HU_entry f =>
      if load_fails dl f then HU_ret false else HU_loaded (length (heap sh))
  | HU_loaded n => HU_have_old n (g_operator sh)
  | HU_have_old n o => HU_stored n o
  | HU_stored n o => HU_counted n o
  | HU_counted n o => HU_leaving n o
  | HU_leaving n o => HU_drop_new n
  | HU_drop_new n => HU_ret true
  | HU_ret b => HU_ret b
  end.

(** The moves of a thread that runs a list of hot updates. *)
Inductive driver_move (dl : DynLinker) (who : Thread) (sh : Shared)
  : DriverPc -> DriverPc -> Shared -> Prop :=
| DM_begin f rest :
    driver_move dl who sh (D_at (f :: rest)) (D_in rest (HU_entry f)) sh
| DM_return rest :
    driver_move dl who sh (D_in rest (HU_ret true)) (D_at rest) sh
| DM_step rest pc sh' :
    hot_update_step dl who pc sh = Some (hu_succ dl pc sh, sh') ->
    (forall b, pc <> HU_ret b) ->
    driver_move dl who sh (D_in rest pc) (D_in rest (hu_succ dl pc sh)) sh'.

(** One step of the process, by cases. *)
Inductive step_rel (dl : DynLinker) (st : State) : State -> Prop :=
| SR_crash :
    step_rel dl st (crash_state st)
| SR_main_drive d d' sh' :
    main_pc st = Main_init d ->
    driver_move dl TMain (shared st) d d' sh' ->
    step_rel dl st (mkState sh' (Main_init d') (workers st) (controller st) false)
| SR_main_loaded :
    main_pc st = Main_init (D_at []) ->
    step_rel dl st (mkState (shared st) Main_spawn (workers st) (controller st) false)
| SR_spawn :
    main_pc st = Main_spawn ->
    step_rel dl st (mkState (shared st) Main_join (replicate THREAD_NUM (W_loop 0))
                            (Some (D_at controller_script)) false)
| SR_exit u sh1 :
    main_pc st = Main_join ->
    forallb is_done (workers st) = true ->
    driver_done (controller st) = true ->
    sp_release (g_operator (shared st)) (shared st) = Some (u, sh1) ->
    step_rel dl st (mkState (set_g_operator None sh1) Main_exited (workers st)
                            (controller st) false)
| SR_controller d d' sh' :
    controller st = Some d ->
    driver_move dl TController (shared st) d d' sh' ->
    step_rel dl st (mkState sh' (main_pc st) (workers st) (Some d') false)
| SR_worker tid w w' sh' :
    workers st !! tid = Some w ->
    is_done w = false ->
    worker_step tid w (shared st) = Some (w', sh') ->
    step_rel dl st (mkState sh' (main_pc st) (<[tid := w']> (workers st))
                            (controller st) false).

(* ===================================================================== *)
(** * The slot and the trace agree *)
(* ===================================================================== *)

(** Every load of the trace returned the latest store before it, and
    while the process runs the slot holds the latest store. *)
Definition slot_ok (st : State) : Prop :=
  loads_ok None (trace (shared st))
  /\ (main_pc st <> Main_exited ->
      g_operator (shared st) = final None (trace (shared st))).

(* ===================================================================== *)
(** * Every bundle is published at most once *)
(* ===================================================================== *)

(** The bundle a call of [hot_update] has loaded and not yet stored. *)
Definition hu_pending (pc : HotUpdatePc) : list ptr :=
  match pc with HU_loaded n | HU_have_old n _ => [n] | _ => [] end.

Definition driver_pending (d : DriverPc) : list ptr :=
  match d with D_in _ pc => hu_pending pc | D_at _ => [] end.

Definition pending (st : State) : list ptr :=
  match main_pc st with Main_init d => driver_pending d | _ => [] end
  ++ match controller st with Some d => driver_pending d | None => [] end.

Definition allocated (hp : list Block) (v : option ptr) : Prop :=
  exists q, v = Some q /\ (q < length hp)%nat.

(** Candidates for publication and published bundles are pairwise
    distinct blocks of the heap. *)
Definition fresh (hp : list Block) (tr : list Event) (P : list ptr) : Prop :=
  NoDup (map Some P ++ stores tr) /\ Forall (allocated hp) (map Some P ++ stores tr).

Definition fresh_ok (st : State) : Prop :=
  fresh (heap (shared st)) (trace (shared st)) (pending st).

(** All the invariants of reachable states together. *)
Definition Inv_all (st : State) : Prop :=
  Inv st /\ slot_ok st /\ fresh_ok st.

(* ===================================================================== *)
(** * Exactly-once teardown *)
(* ===================================================================== *)

(** The state at the end of the complete demo schedule. *)
Definition demo_final : State :=
  default State_init (run demo_linker demo_schedule State_init).

(* ===================================================================== *)
(** * Monotonic visibility *)
(* ===================================================================== *)

(** [main] has published the first bundle and worker 0 has taken its first
    snapshot. *)
Definition first_snapshot_schedule : list Label := replicate 11 L_main ++ [L_worker 0].

Definition first_snapshot_state : State :=
  default State_init (run demo_linker first_snapshot_schedule State_init).

(* ===================================================================== *)
(** * Which steps touch the statistics *)
(* ===================================================================== *)

Definition keeps_stats {A} (m : M A) : Prop :=
  forall sh a sh', m sh = Some (a, sh') -> g_stats sh' = g_stats sh.

(* ===================================================================== *)
(** * The scripted demo run *)
(* ===================================================================== *)

(** A load succeeds: the module opens, both entry points resolve and the
    factory returns an instance. *)
Definition load_succeeds (dl : DynLinker) (so_file : string) : Prop :=
  load_fails dl so_file = false /\ op (loaded_holder dl so_file) <> None.

Definition all_loads_succeed (dl : DynLinker) : Prop :=
  Forall (load_succeeds dl) (main_script ++ controller_script).

(** Calls of [hot_update] that have not yet incremented the counter. *)
Definition hu_uncounted (pc : HotUpdatePc) : nat :=
  match pc with
  | HU_counted _ _ | HU_leaving _ _ | HU_drop_new _ | HU_ret true => 0
  | _ => 1
  end.

Definition driver_updates_left (d : DriverPc) : nat :=
  match d with
  | D_at rest => length rest
  | D_in rest pc => (length rest + hu_uncounted pc)%nat
  end.

Definition updates_left (st : State) : nat :=
  match main_pc st with
  | Main_init d => (driver_updates_left d + length controller_script)%nat
  | Main_spawn => length controller_script
  | _ => match controller st with Some d => driver_updates_left d | None => 0%nat end
  end.

(** Rounds of a worker that have not yet incremented [total_requests]. *)
Definition worker_rounds_left (w : WorkerPc) : nat :=
  match w with
  | W_loop i | W_check i _ | W_record i _ _ => (total_rounds - i)%nat
  | W_variant i _ _ _ | W_print i _ _ => (total_rounds - S i)%nat
  | W_done => 0%nat
  end.

Fixpoint workers_rounds_left (ws : list WorkerPc) : nat :=
  match ws with
  | [] => 0
  | w :: rest => (worker_rounds_left w + workers_rounds_left rest)%nat
  end.

Definition requests_left (st : State) : nat :=
  match main_pc st with
  | Main_init _ | Main_spawn => (THREAD_NUM * total_rounds)%nat
  | _ => workers_rounds_left (workers st)
  end.

Definition hu_published (pc : HotUpdatePc) : bool :=
  match pc with
  | HU_stored _ _ | HU_counted _ _ | HU_leaving _ _ | HU_drop_new _ | HU_ret true => true
  | _ => false
  end.

Definition driver_published (d : DriverPc) : bool :=
  match d with
  | D_at [] => true
  | D_at _ => false
  | D_in _ pc => hu_published pc
  end.

Definition driver_good (dl : DynLinker) (d : DriverPc) : Prop :=
  match d with
  | D_at rest => Forall (load_succeeds dl) rest
  | D_in rest pc =>
      Forall (load_succeeds dl) rest
      /\ match pc with
         | HU_entry f => load_succeeds dl f
         | HU_ret b => b = true
         | _ => True
         end
  end.

(** A worker inside a round is below the round limit, and the snapshot it
    is about to test is not null. *)
Definition worker_ok (w : WorkerPc) : Prop :=
  match w with
  | W_check i v => v <> None /\ (i < total_rounds)%nat
  | W_record i _ _ | W_variant i _ _ _ | W_print i _ _ => (i < total_rounds)%nat
  | _ => True
  end.

Record demo_inv (dl : DynLinker) (st : State) : Prop := mkDemoInv {
  heap_good : Forall (fun hd => op hd <> None) (map obj (heap (shared st)));
  main_good :
    match main_pc st with
    | Main_init d =>
        driver_good dl d
        /\ (driver_published d = true -> g_operator (shared st) <> None)
    | Main_spawn | Main_join => g_operator (shared st) <> None
    | Main_exited => True
    end;
  controller_good :
    match controller st with Some d => driver_good dl d | None => True end;
  workers_good : Forall worker_ok (workers st);
  updates_nonneg : 0 <= hot_update_count (g_stats (shared st));
  requests_nonneg : 0 <= total_requests (g_stats (shared st));
  updates_eq :
    hot_update_count (g_stats (shared st)) + Z.of_nat (updates_left st) = 4;
  requests_eq :
    total_requests (g_stats (shared st)) + Z.of_nat (requests_left st) = 80
}.

(* ===================================================================== *)
(** * The plug-in's destructor is called by the holder's destructor only *)
(* ===================================================================== *)

(** How often [destroy_func] was called on the instance of the holder at
    [p]. *)
Fixpoint destroy_count (p : ptr) (t : list Event) : nat :=
  match t with
  | [] => 0
  | EvDestroy q :: rest => ((if Nat.eqb p q then 1 else 0) + destroy_count p rest)%nat
  | _ :: rest => destroy_count p rest
  end.

(** The test of line 65. *)
Definition has_instance (hd : OperatorHolder) : bool :=
  match op hd, destroy_func hd with
  | Some _, Some _ => true
  | _, _ => false
  end.

(** For a holder with an instance, [destroy_func] has been called as
    often as the destructor has run; for one without, never. *)
Definition destroys_ok (sh : Shared) : Prop :=
  forall p,
    match heap sh !! p with
    | Some b =>
        destroy_count p (trace sh)
        = if has_instance (obj b) then dtor_count p (trace sh) else 0%nat
    | None => destroy_count p (trace sh) = 0%nat /\ dtor_count p (trace sh) = 0%nat
    end.

Definition no_teardown (evs : list Event) : Prop :=
  forall p, dtor_count p evs = 0%nat /\ destroy_count p evs = 0%nat.

Definition keeps_destroys {A} (m : M A) : Prop :=
  forall sh a sh', destroys_ok sh -> m sh = Some (a, sh') -> destroys_ok sh'.

(* ===================================================================== *)
(** * Termination *)
(* ===================================================================== *)

(** Steps a call of [hot_update] has left, counting its return. *)
Definition hu_rank (pc : HotUpdatePc) : nat :=
  match pc with
  | HU_entry _ => 9
  | HU_loaded _ => 8
  | HU_have_old _ _ => 7
  | HU_stored _ _ => 6
  | HU_counted _ _ => 5
  | HU_leaving _ _ => 4
  | HU_drop_new _ => 3
  | HU_ret _ => 2
  end.

Definition driver_measure (d : DriverPc) : nat :=
  match d with
  | D_at rest => (10 * length rest)%nat
  | D_in rest pc => (10 * length rest + hu_rank pc)%nat
  end.

(** Steps a worker has left, at most. *)
Definition worker_measure (w : WorkerPc) : nat :=
  match w with
  | W_loop i => (6 * (total_rounds - i) + 1)%nat
  | W_check i _ => (6 * (total_rounds - S i) + 5)%nat
  | W_record i _ _ => (6 * (total_rounds - S i) + 4)%nat
  | W_variant i _ _ _ => (6 * (total_rounds - S i) + 3)%nat
  | W_print i _ _ => (6 * (total_rounds - S i) + 2)%nat
  | W_done => 0%nat
  end.

Fixpoint workers_measure (ws : list WorkerPc) : nat :=
  match ws with
  | [] => 0
  | w :: rest => (worker_measure w + workers_measure rest)%nat
  end.

(** What the threads started by [main] have to do. *)
Definition spawned_measure : nat :=
  (THREAD_NUM * worker_measure (W_loop 0) + driver_measure (D_at controller_script))%nat.

Definition main_measure (m : MainPc) : nat :=
  match m with
  | Main_init d => (driver_measure d + spawned_measure + 3)%nat
  | Main_spawn => (spawned_measure + 2)%nat
  | Main_join => 1%nat
  | Main_exited => 0%nat
  end.

(** An upper bound on the number of steps the process can still take. *)
Definition measure (st : State) : nat :=
  if crashed st then 0%nat
  else (1 + main_measure (main_pc st)
        + match controller st with Some d => driver_measure d | None => 0%nat end
        + workers_measure (workers st))%nat.

(* ===================================================================== *)
(** * load_operator and hot_update, case by case *)
(* ===================================================================== *)

Definition is_dlopen (e : Event) : bool :=
  match e with EvDlopen _ _ => true | _ => false end.

(* ===================================================================== *)
(** * One worker running alone *)
(* ===================================================================== *)

(** [n] consecutive steps of one worker, no other thread in between. *)
Fixpoint worker_steps (tid : nat) (n : nat) (pc : WorkerPc) : M WorkerPc :=
  match n with
  | O => ret pc
  | S n' =>
      let* pc' := worker_step tid pc in
      worker_steps tid n' pc'
  end.

(* ===================================================================== *)
(** * The events of one step *)
(* ===================================================================== *)

(** What destroying a shared pointer [v] adds to the trace: the teardown
    of the holder when [v] was its last owner, nothing otherwise. *)
Definition release_events (hp : list Block) (v : option ptr) : list Event :=
  match v with
  | Some p =>
      match hp !! p with
      | Some b =>
          if Nat.eqb (Nat.pred (strong b)) 0 then OperatorHolder_dtor p (obj b) else []
      | None => []
      end
  | None => []
  end.

(** The events of one step of [hot_update] other than a teardown, and the
    shared pointer that step destroys. *)
Definition hu_body (dl : DynLinker) (who : Thread) (pc : HotUpdatePc) (sh : Shared)
  : list Event :=
  match pc with
  | HU_entry f =>
      EvLog "[HotUpdate] begin" :: (load_outcome dl f (length (heap sh))).2
      ++ (if load_fails dl f then [EvLog "[HotUpdate] failed"] else [])
  | HU_loaded _ => [EvLoad who (g_operator sh)]
  | HU_have_old n _ => [EvStore who (Some n)]
  | HU_counted _ _ => [EvLog "[HotUpdate] switched"]
  | _ => []
  end.

Definition hu_released (pc : HotUpdatePc) (sh : Shared) : option ptr :=
  match pc with
  | HU_have_old _ _ => g_operator sh
  | HU_leaving _ o => o
  | HU_drop_new n => Some n
  | _ => None
  end.

Definition driver_events (dl : DynLinker) (who : Thread) (d : DriverPc) (sh : Shared)
  : list Event :=
  match d with
  | D_at _ => []
  | D_in _ pc => hu_body dl who pc sh ++ release_events (heap sh) (hu_released pc sh)
  end.

(** Whether the holder at [p] has an instance. *)
Definition usable_at (hp : list Block) (p : ptr) : bool :=
  match hp !! p with
  | Some b => negb (is_null (op (obj b)))
  | None => false
  end.

Definition worker_body (tid : nat) (w : WorkerPc) (sh : Shared) : list Event :=
  match w with
  | W_loop i =>
      if Nat.ltb i total_rounds then [EvLoad (TWorker tid) (g_operator sh)]
      else [EvLog "worker finished"]
  | W_check i None => [EvLog null_operator_msg]
  | W_check i (Some p) =>
      if usable_at (heap sh) p then [EvCompute tid p i] else [EvLog null_operator_msg]
  | W_print _ _ _ => [EvLog "round"]
  | _ => []
  end.

Definition worker_released (w : WorkerPc) (sh : Shared) : option ptr :=
  match w with
  | W_check _ (Some p) => if usable_at (heap sh) p then None else Some p
  | W_print _ p _ => Some p
  | _ => None
  end.

Definition worker_events (tid : nat) (w : WorkerPc) (sh : Shared) : list Event :=
  worker_body tid w sh ++ release_events (heap sh) (worker_released w sh).

(* ===================================================================== *)
(** * No use after teardown *)
(* ===================================================================== *)

(** Every [compute_score] of a trace ran on a holder that has an
    instance, and before that holder's destructor, if that has run at
    all. *)
Definition computes_live (hp : list Block) (tr : list Event) : Prop :=
  forall k tid p i,
    tr !! k = Some (EvCompute tid p i) ->
    usable_at hp p = true
    /\ forall j, tr !! j = Some (EvDtor p) -> (k < j)%nat.

Definition no_compute (evs : list Event) : Prop :=
  forallb (fun e => negb (is_compute e)) evs = true.

(** The plug-in's [destroy_operator] is only ever called from inside a
    holder's destructor. *)
Definition destroy_follows_dtor (tr : list Event) : Prop :=
  forall j q,
    tr !! j = Some (EvDestroy q) ->
    exists j', (j' < j)%nat /\ tr !! j' = Some (EvDtor q).

(* ===================================================================== *)
(** * Every module is closed as often as it was opened *)
(* ===================================================================== *)

Definition has_handle (h : Handle) (hd : OperatorHolder) : bool :=
  match handle hd with
  | Some h' => Nat.eqb h h'
  | None => false
  end.

(** The holders that keep [h] open. *)
Definition holders_with (h : Handle) (objs : list OperatorHolder) : nat :=
  length (List.filter (has_handle h) objs).

(** How often the destructor has run on a holder of [h]; [base] is the
    address of the first holder of the list. *)
Fixpoint torn_down (h : Handle) (objs : list OperatorHolder) (base : ptr)
  (tr : list Event) : nat :=
  match objs with
  | [] => 0
  | hd :: rest =>
      ((if has_handle h hd then dtor_count base tr else 0)
       + torn_down h rest (S base) tr)%nat
  end.

(** A call of [hot_update] has returned [false] and its [assert] has not
    yet fired. *)
Definition driver_failed (d : DriverPc) : bool :=
  match d with D_in _ (HU_ret false) => true | _ => false end.

Definition load_failed (st : State) : bool :=
  match main_pc st with Main_init d => driver_failed d | _ => false end
  || match controller st with Some d => driver_failed d | None => false end.

(** Each successful [dlopen] has made one holder of its handle, and,
    unless a load has just failed, each [dlclose] comes from the
    destructor of one such holder. *)
Definition modules_balanced (st : State) : Prop :=
  forall h,
    count_dlopen h (trace (shared st))
    = holders_with h (map obj (heap (shared st)))
    /\ (load_failed st = false ->
        count_dlclose h (trace (shared st))
        = torn_down h (map obj (heap (shared st))) 0 (trace (shared st))).

(** Events that neither open nor close a module nor start a destructor. *)
Definition no_module_events (evs : list Event) : Prop :=
  (forall h, count_dlopen h evs = 0%nat /\ count_dlclose h evs = 0%nat)
  /\ (forall p, dtor_count p evs = 0%nat).

(* ===================================================================== *)
(** * Publishes follow the script *)
(* ===================================================================== *)

(** The paths the process loads, in order: [main]'s, then the
    controller's. *)
Definition all_scripts : list string := main_script ++ controller_script.

(** The paths a driver has not yet passed to [load_operator]. *)
Definition driver_todo (d : DriverPc) : list string :=
  match d with
  | D_at rest => rest
  | D_in rest (HU_entry f) => f :: rest
  | D_in rest _ => rest
  end.

Definition paths_todo (st : State) : list string :=
  match main_pc st with
  | Main_init d => driver_todo d ++ controller_script
  | Main_spawn => controller_script
  | _ => match controller st with Some d => driver_todo d | None => [] end
  end.

(** The thread that is running hot updates, if any. *)
Definition active_driver (st : State) : option DriverPc :=
  match main_pc st with
  | Main_init d => Some d
  | Main_spawn => None
  | _ => controller st
  end.

(** The newest block is not in the slot: its load has failed, or its
    store is still to come. *)
Definition hu_unpublished (pc : HotUpdatePc) : bool :=
  match pc with
  | HU_loaded _ | HU_have_old _ _ | HU_ret false => true
  | _ => false
  end.

Definition driver_unpublished (d : DriverPc) : nat :=
  match d with
  | D_in _ pc => if hu_unpublished pc then 1 else 0
  | D_at _ => 0
  end.

(** The newest block comes from a load that failed. *)
Definition driver_failed_blocks (d : DriverPc) : nat :=
  if driver_failed d then 1 else 0.

(** A store that [hot_update_count] does not yet reflect. *)
Definition driver_stored_uncounted (d : DriverPc) : nat :=
  match d with
  | D_in _ (HU_stored _ _) => 1
  | _ => 0
  end.

Definition of_active (f : DriverPc -> nat) (st : State) : nat :=
  match active_driver st with Some d => f d | None => 0 end.

(** How far the script has got, as the heap, the trace and the counter
    show it: [todo] are the paths still to load, [u] tells whether the
    newest block is unpublished, [fl] whether its load failed, [su] whether
    the latest store is not yet counted, and [pend] holds the bundle
    waiting to be stored. *)
Definition pub_state (dl : DynLinker) (todo : list string) (u fl su : nat)
  (pend : list ptr) (sh : Shared) : Prop :=
  todo = drop (length (heap sh)) all_scripts
  /\ map obj (heap sh)
     = map (loaded_holder dl) (take (length (heap sh)) all_scripts)
  /\ stores (trace sh) = map Some (seq 0 (length (heap sh) - u))
  /\ Forall (fun n => S n = length (heap sh)) pend
  /\ Forall (fun f => load_fails dl f = false)
            (take (length (heap sh) - fl) all_scripts)
  /\ 0 <= hot_update_count (g_stats sh)
  /\ hot_update_count (g_stats sh) + Z.of_nat su
     = Z.of_nat (length (stores (trace sh))).

Definition publish_inv (dl : DynLinker) (st : State) : Prop :=
  pub_state dl (paths_todo st)
    (of_active driver_unpublished st) (of_active driver_failed_blocks st)
    (of_active driver_stored_uncounted st) (pending st) (shared st).

(* ===================================================================== *)
(** * Each round is computed at most once *)
(* ===================================================================== *)

(** How often worker [tid] has called [compute_score] in round [i]. *)
Fixpoint count_compute (tid i : nat) (t : list Event) : nat :=
  match t with
  | [] => 0
  | EvCompute tid' _ i' :: rest =>
      ((if Nat.eqb tid tid' && Nat.eqb i i' then 1 else 0)
       + count_compute tid i rest)%nat
  | _ :: rest => count_compute tid i rest
  end.

(** The rounds for which a worker has already decided between computing
    and skipping. *)
Definition rounds_passed (w : WorkerPc) : nat :=
  match w with
  | W_loop j | W_check j _ => j
  | W_record j _ _ | W_variant j _ _ _ | W_print j _ _ => S j
  | W_done => total_rounds
  end.

Definition rounds_passed_of (st : State) (tid : nat) : nat :=
  match workers st !! tid with
  | Some w => rounds_passed w
  | None => 0
  end.

Definition worker_bound (w : WorkerPc) : Prop :=
  match w with
  | W_loop j => (j <= total_rounds)%nat
  | W_check j _ | W_record j _ _ | W_variant j _ _ _ | W_print j _ _ =>
      (j < total_rounds)%nat
  | W_done => True
  end.

(** Every snapshot a worker is about to test is usable. *)
Definition snapshots_usable (st : State) : Prop :=
  forall tid i v,
    workers st !! tid = Some (W_check i v) ->
    exists p, v = Some p /\ usable_at (heap (shared st)) p = true.

(** Once [main] has started them there are [THREAD_NUM] workers. *)
Definition workers_started (m : MainPc) (ws : list WorkerPc) : Prop :=
  match m with
  | Main_init _ | Main_spawn => True
  | _ => length ws = THREAD_NUM
  end.

(** A round that has been passed was computed at most once, a round still
    to come not at all; with [exact], a passed round was computed. *)
Definition rounds_inv (exact : bool) (st : State) : Prop :=
  Forall worker_bound (workers st)
  /\ workers_started (main_pc st) (workers st)
  /\ forall tid i,
       let b := if Nat.ltb i (rounds_passed_of st tid) then 1%nat else 0%nat in
       (count_compute tid i (trace (shared st)) <= b)%nat
       /\ (exact = true -> count_compute tid i (trace (shared st)) = b).

(* ===================================================================== *)
(** * The request counters under concurrency *)
(* ===================================================================== *)

(** A worker between the two increments of [record_request] whose second
    increment will count: the name it recorded is one of the two variants. *)
Definition variant_pending (w : WorkerPc) : nat :=
  match w with
  | W_variant _ _ _ nm => if is_other nm then 0 else 1
  | _ => 0
  end.

Fixpoint sum_workers (f : WorkerPc -> nat) (ws : list WorkerPc) : nat :=
  match ws with
  | [] => 0
  | w :: rest => (f w + sum_workers f rest)%nat
  end.

(** Every operator the scripts load reports one of the two counted
    names. *)
Definition known_names (dl : DynLinker) : Prop :=
  Forall (fun f => forall o m, op (loaded_holder dl f) = Some o ->
                               is_other (fst (name o m)) = false)
         all_scripts.

Definition heap_names_known (sh : Shared) : Prop :=
  forall p b o m,
    heap sh !! p = Some b -> op (obj b) = Some o -> is_other (fst (name o m)) = false.

(** [exact] adds that no request was recorded under another name. *)
Definition counters_inv (exact : bool) (st : State) : Prop :=
  let s := g_stats (shared st) in
  0 <= v1_requests s
  /\ 0 <= v2_requests s
  /\ v1_requests s + v2_requests s
     + Z.of_nat (sum_workers variant_pending (workers st)) <= total_requests s
  /\ total_requests s + Z.of_nat (requests_left st) <= 80
  /\ (exact = true ->
      v1_requests s + v2_requests s
      + Z.of_nat (sum_workers variant_pending (workers st)) = total_requests s).

(* ===================================================================== *)
(** * The statistics output *)
(* ===================================================================== *)

Definition report_le (r1 r2 : Report) : Prop :=
  r_total r1 <= r_total r2 /\ r_v1 r1 <= r_v1 r2
  /\ r_v2 r1 <= r_v2 r2 /\ r_updates r1 <= r_updates r2.

(** The values a call of [print_stats] has read so far are at least
    those of the report [r] ... *)
Definition partial_ge (pc : PrintPc) (r : Report) : Prop :=
  match pc with
  | PS_total => True
  | PS_v1 t => r_total r <= t
  | PS_v2 t a => r_total r <= t /\ r_v1 r <= a
  | PS_updates t a b => r_total r <= t /\ r_v1 r <= a /\ r_v2 r <= b
  end.

(** ... at most those of the counters [s] ... *)
Definition partial_le (pc : PrintPc) (s : Statistics) : Prop :=
  match pc with
  | PS_total => True
  | PS_v1 t => t <= total_requests s
  | PS_v2 t a => t <= total_requests s /\ a <= v1_requests s
  | PS_updates t a b =>
      t <= total_requests s /\ a <= v1_requests s /\ b <= v2_requests s
  end.

(** ... equal to those of the counters [s]. *)
Definition partial_eq (pc : PrintPc) (s : Statistics) : Prop :=
  match pc with
  | PS_total => True
  | PS_v1 t => t = total_requests s
  | PS_v2 t a => t = total_requests s /\ a = v1_requests s
  | PS_updates t a b =>
      t = total_requests s /\ a = v1_requests s /\ b = v2_requests s
  end.

(** The calls of [print_stats] in progress. *)
Definition printing (p : Process) : list PrintPc :=
  match stats_thread p with Some (ST_print _ pc) => [pc] | _ => [] end
  ++ match main_tail p with MT_print pc => [pc] | _ => [] end.

(** Reports come out in the order of the counters: each is at most the
    current counters and at most every later report, and so is what a
    call in progress has read. *)
Definition order_inv (p : Process) : Prop :=
  let cur := g_stats (shared (base p)) in
  Forall (fun r => report_le r (print_stats cur)) (printed p)
  /\ (forall i j r1 r2,
         (i <= j)%nat -> printed p !! i = Some r1 -> printed p !! j = Some r2 ->
         report_le r1 r2)
  /\ Forall (fun pc => Forall (partial_ge pc) (printed p) /\ partial_le pc cur)
            (printing p)
  /\ (main_tail p = MT_joining \/ stats_done (stats_thread p) = true).

(** Reports the statistics thread has completed. *)
Definition stats_count (s : option StatsPc) : nat :=
  match s with
  | None => 0
  | Some (ST_loop i) | Some (ST_print i _) => i
  | Some ST_done => stats_rounds
  end.

Definition stats_bound (s : option StatsPc) : Prop :=
  match s with
  | Some (ST_loop i) => (i <= stats_rounds)%nat
  | Some (ST_print i _) => (i < stats_rounds)%nat
  | _ => True
  end.

Definition tail_count (t : MainTail) : nat :=
  match t with MT_printed => 1 | _ => 0 end.

(** Once [main] is past the joins every other thread has finished, so
    the counters no longer move: the final report is a true snapshot. *)
Definition tail_inv (p : Process) : Prop :=
  length (printed p) = (stats_count (stats_thread p) + tail_count (main_tail p))%nat
  /\ stats_bound (stats_thread p)
  /\ match main_pc (base p) with
     | Main_init _ | Main_spawn => stats_thread p = None
     | _ => stats_thread p <> None
     end
  /\ match main_tail p with
     | MT_joining => main_pc (base p) <> Main_exited
     | MT_print pc =>
         main_pc (base p) = Main_join
         /\ forallb is_done (workers (base p)) = true
         /\ driver_done (controller (base p)) = true
         /\ stats_done (stats_thread p) = true
         /\ partial_eq pc (g_stats (shared (base p)))
     | MT_printed =>
         (main_pc (base p) = Main_join \/ main_pc (base p) = Main_exited)
         /\ forallb is_done (workers (base p)) = true
         /\ driver_done (controller (base p)) = true
         /\ stats_done (stats_thread p) = true
         /\ last (printed p) = Some (print_stats (g_stats (shared (base p))))
     end.

(** The complete demo with its statistics output: the statistics thread
    runs once the workers and the controller are done, then [main] joins,
    prints and returns. *)
Definition xdemo_schedule : list XLabel :=
  map XL (removelast demo_schedule)
  ++ replicate 31 XL_stats
  ++ replicate 6 (XL L_main).

Definition xdemo_final : Process :=
  default Process_init (xrun demo_linker xdemo_schedule Process_init).

(** The statistics thread reads [total_requests], worker 0 then records a
    whole request, and the thread reads the other counters. *)
Definition torn_report_schedule : list XLabel :=
  replicate 11 (XL L_main)
  ++ [XL_stats; XL_stats]
  ++ replicate 4 (XL (L_worker 0))
  ++ [XL_stats; XL_stats; XL_stats].

Definition torn_report_state : Process :=
  default Process_init (xrun demo_linker torn_report_schedule Process_init).

(* ===================================================================== *)
(** * The slot is never empty once the workers run *)
(* ===================================================================== *)

Definition is_null_snapshot (w : WorkerPc) : bool :=
  match w with W_check _ None => true | _ => false end.

(** [main] has published before it starts the workers, and no worker
    holds a null snapshot. *)
Definition slot_filled (st : State) : Prop :=
  (match main_pc st with
   | Main_init _ => True
   | _ => stores (trace (shared st)) <> []
   end)
  /\ forallb (fun w => negb (is_null_snapshot w)) (workers st) = true.

(* ===================================================================== *)
(** * Every dlclose is accounted for *)
(* ===================================================================== *)

(** The holders of [h] whose symbol lookup failed: [load_operator] has
    closed their module itself (line 85) and left the handle in the
    holder. They are the holders with a handle and no [destroy_func]. *)
Definition closed_by_loader (h : Handle) (objs : list OperatorHolder) : nat :=
  length (List.filter (fun hd => has_handle h hd && is_null (destroy_func hd)) objs).

(** Each [dlclose] of [h] in the trace is the one of line 66, in the
    destructor of a holder of [h], or the one of line 85. *)
Definition closes_accounted (st : State) : Prop :=
  forall h,
    count_dlclose h (trace (shared st))
    = (torn_down h (map obj (heap (shared st))) 0 (trace (shared st))
       + closed_by_loader h (map obj (heap (shared st))))%nat.

(** The events of the destructor of [hd], at address [p], are in the
    trace from position [k] on. *)
Definition teardown_at (tr : list Event) (k : nat) (p : ptr) (hd : OperatorHolder)
  : Prop :=
  forall i e, OperatorHolder_dtor p hd !! i = Some e -> tr !! (k + i)%nat = Some e.

(** Wherever a destructor starts in the trace, all its events follow
    without another thread's events in between. *)
Definition teardowns_whole (objs : list OperatorHolder) (tr : list Event) : Prop :=
  forall k p,
    tr !! k = Some (EvDtor p) ->
    exists hd, objs !! p = Some hd /\ teardown_at tr k p hd.

(* ===================================================================== *)
(** * Each round is counted once *)
(* ===================================================================== *)

(** The rounds for which a worker has executed the [total_requests++] of
    [record_request]. *)
Definition rounds_counted (w : WorkerPc) : nat :=
  match w with
  | W_loop i | W_check i _ | W_record i _ _ => i
  | W_variant i _ _ _ | W_print i _ _ => S i
  | W_done => total_rounds
  end.

(* ===================================================================== *)
(** * The demo with the shipped plug-ins *)
(* ===================================================================== *)

(** One of the two operators of the repository. Their methods return,
    and [name] returns a string literal. *)
Definition shipped_operator (o : IScoreOperator) : Prop :=
  o = ScoreOperatorV1 \/ exists sin, o = ScoreOperatorV2 sin.

(** Every path of the scripts loads, and what its factory makes is a
    shipped operator. *)
Definition shipped_plugins (dl : DynLinker) : Prop :=
  Forall (fun f => load_fails dl f = false
                   /\ exists o, op (loaded_holder dl f) = Some o
                                /\ shipped_operator o)
         all_scripts.

(** Loads a call of [print_stats] still has to do. *)
Definition loads_left (pc : PrintPc) : nat :=
  match pc with
  | PS_total => 4
  | PS_v1 _ => 3
  | PS_v2 _ _ => 2
  | PS_updates _ _ _ => 1
  end.

(** Steps the statistics thread has left; it has all of them until
    [main] starts it. *)
Definition stats_measure (s : option StatsPc) : nat :=
  match s with
  | None => (5 * stats_rounds + 1)%nat
  | Some (ST_loop i) => (5 * (stats_rounds - i) + 1)%nat
  | Some (ST_print i pc) => (5 * (stats_rounds - S i) + 1 + loads_left pc)%nat
  | Some ST_done => 0%nat
  end.

(** Steps of [main] between the joins and its return, the return not
    counted. *)
Definition tail_measure (t : MainTail) : nat :=
  match t with
  | MT_joining => 5
  | MT_print pc => loads_left pc
  | MT_printed => 0
  end.

(** An upper bound on the number of steps the process can still take:
    each step of a worker may be preceded by taking the mutex. *)
Definition mmeasure (s : System) : nat :=
  if crashed (base (process s)) then 0%nat
  else (2 * measure (base (process s))
        + stats_measure (stats_thread (process s))
        + tail_measure (main_tail (process s))
        + match g_print_mutex s with None => 1 | Some _ => 0 end)%nat.

(** The mutex is held by a worker that is at a [lock_guard]. *)
Definition mutex_inv (s : System) : Prop :=
  match g_print_mutex s with
  | Some tid =>
      exists w, workers (base (process s)) !! tid = Some w /\ at_lock_guard w = true
  | None => True
  end.

(** What holds of every state of the process with its mutex. *)
Definition minv_holds (dl : DynLinker) (s : System) : Prop :=
  reachable dl (base (process s)) /\ order_inv (process s)
  /\ tail_inv (process s) /\ mutex_inv s.

Definition all_xworkers : list XLabel := map XL all_workers.

(** One round of the four workers with a step of the controller after
    each of their first three steps: they take their snapshots, compute
    and record, and then print one after the other, each taking the mutex
    first. *)
Definition mdemo_round (c : list XLabel) : list XLabel :=
  all_xworkers ++ c ++ all_xworkers ++ c ++ all_xworkers ++ c ++ all_xworkers
  ++ concat (map (fun l => [l; l]) all_xworkers).

(** A complete schedule of the demo: [main] loads and starts the
    threads; nine rounds with the controller at work, eleven without; the
    workers print their last line; the statistics thread prints six
    times; [main] joins, prints and returns. *)
Definition mdemo_schedule : list XLabel :=
  replicate 11 (XL L_main)
  ++ concat (replicate 9 (mdemo_round [XL L_controller]))
  ++ concat (replicate 11 (mdemo_round []))
  ++ concat (map (fun l => [l; l]) all_xworkers)
  ++ replicate 31 XL_stats
  ++ replicate 6 (XL L_main).

Definition mdemo_final : System :=
  default System_init (mrun demo_linker mdemo_schedule System_init).

(** The workers hold their first snapshots: [main] has loaded v1 and
    started the threads, and each worker has read the slot. *)
Definition msnapshots_schedule : list XLabel :=
  replicate 11 (XL L_main) ++ all_xworkers.

Definition msnapshots_state : System :=
  default System_init (mrun demo_linker msnapshots_schedule System_init).

(* ********************************************************************* *)
(** * Part III: lemmas and theorems *)
(* ********************************************************************* *)

(* ===================================================================== *)
(** * Statistics: the counter equation *)
(* ===================================================================== *)

Section StatisticsFacts.

Lemma uint64_modulus_pos : 0 < uint64_modulus.
Proof. reflexivity. Qed.

Lemma incr64_range x : in_uint64 (incr64 x).
Proof. unfold in_uint64, incr64. apply Z.mod_pos_bound, uint64_modulus_pos. Qed.

(** The counters stay 64-bit values. *)
Lemma Statistics_init_wf : Statistics_wf Statistics_init.
Proof. unfold Statistics_wf, in_uint64, uint64_modulus; cbn. lia. Qed.

Lemma record_request_wf nm s : Statistics_wf s -> Statistics_wf (record_request nm s).
Proof.
  unfold Statistics_wf, record_request, record_variant.
  intros (Ht & H1 & H2 & Hh).
  destruct (String.eqb nm "ScoreOperatorV1"); [|destruct (String.eqb nm "ScoreOperatorV2")];
    cbn; auto using incr64_range.
Qed.

Lemma inc_hot_update_count_wf s :
  Statistics_wf s -> Statistics_wf (inc_hot_update_count s).
Proof.
  unfold Statistics_wf. intros (Ht & H1 & H2 & Hh). cbn. auto using incr64_range.
Qed.

Lemma record_all_wf names : forall s,
  Statistics_wf s -> Statistics_wf (record_all names s).
Proof.
  unfold record_all. induction names as [|n names IH]; intros s Hs; cbn; [exact Hs|].
  apply IH, record_request_wf, Hs.
Qed.

Lemma incr64_mod x :
  incr64 (x mod uint64_modulus) = (x + 1) mod uint64_modulus.
Proof. unfold incr64. apply Zplus_mod_idemp_l. Qed.

Lemma names_partition names :
  Z.of_nat (length names)
  = count_name "ScoreOperatorV1" names + count_name "ScoreOperatorV2" names
    + other_requests names.
Proof.
  induction names as [|n rest IH]; [reflexivity|].
  cbn [length count_name other_requests]. rewrite Nat2Z.inj_succ, IH.
  unfold is_other.
  destruct (String.eqb n "ScoreOperatorV1") eqn:E1;
    destruct (String.eqb n "ScoreOperatorV2") eqn:E2; cbn [negb andb]; try lia.
  apply String.eqb_eq in E1, E2. subst n. discriminate E2.
Qed.

Lemma count_name_nonneg t names : 0 <= count_name t names.
Proof. induction names as [|n rest IH]; cbn; [lia|]. destruct (String.eqb n t); lia. Qed.

Lemma other_requests_nonneg names : 0 <= other_requests names.
Proof. induction names as [|n rest IH]; cbn; [lia|]. destruct (is_other n); lia. Qed.

(** The counters after any sequence of calls, as residues. *)
Lemma record_all_closed_form names : forall t a b h,
  record_all names
    (mkStatistics (t mod uint64_modulus) (a mod uint64_modulus)
                  (b mod uint64_modulus) h)
  = mkStatistics
      ((t + Z.of_nat (length names)) mod uint64_modulus)
      ((a + count_name "ScoreOperatorV1" names) mod uint64_modulus)
      ((b + count_name "ScoreOperatorV2" names) mod uint64_modulus)
      h.
Proof.
  induction names as [|n rest IH]; intros t a b h.
  - cbn. rewrite !Z.add_0_r. reflexivity.
  - cbn [record_all fold_left length count_name].
    change (fold_left _ rest ?s) with (record_all rest s).
    unfold record_request, record_variant, inc_total_requests.
    cbn [total_requests v1_requests v2_requests hot_update_count].
    rewrite (incr64_mod t).
    destruct (String.eqb n "ScoreOperatorV1") eqn:E1.
    + apply String.eqb_eq in E1. subst n.
      unfold inc_v1_requests. cbn [total_requests v1_requests v2_requests hot_update_count].
      rewrite (incr64_mod a), IH. cbn [String.eqb Ascii.eqb Bool.eqb].
      f_equal; f_equal; lia.
    + destruct (String.eqb n "ScoreOperatorV2") eqn:E2.
      * unfold inc_v2_requests. cbn [total_requests v1_requests v2_requests hot_update_count].
        rewrite (incr64_mod b), IH. f_equal; f_equal; lia.
      * rewrite IH. f_equal; f_equal; lia.
Qed.

Lemma record_all_from_init names :
  record_all names Statistics_init
  = mkStatistics
      (Z.of_nat (length names) mod uint64_modulus)
      (count_name "ScoreOperatorV1" names mod uint64_modulus)
      (count_name "ScoreOperatorV2" names mod uint64_modulus)
      0.
Proof.
  change Statistics_init with
    (mkStatistics (0 mod uint64_modulus) (0 mod uint64_modulus) (0 mod uint64_modulus) 0).
  rewrite record_all_closed_form. reflexivity.
Qed.

Lemma counters_consistent_below_wrap names :
  Z.of_nat (length names) < uint64_modulus ->
  counters_consistent names (record_all names Statistics_init).
Proof.
  intros Hlen. unfold counters_consistent. rewrite record_all_from_init.
  cbn [total_requests v1_requests v2_requests].
  pose proof (names_partition names) as Hp.
  pose proof (count_name_nonneg "ScoreOperatorV1" names).
  pose proof (count_name_nonneg "ScoreOperatorV2" names).
  pose proof (other_requests_nonneg names).
  rewrite !Z.mod_small by lia. exact Hp.
Qed.

Lemma replicate_other_counts n (x : string) :
  is_other x = true ->
  count_name "ScoreOperatorV1" (replicate n x) = 0
  /\ count_name "ScoreOperatorV2" (replicate n x) = 0
  /\ other_requests (replicate n x) = Z.of_nat n.
Proof.
  intros Hx. unfold is_other in Hx. apply andb_prop in Hx as [H1 H2].
  apply negb_true_iff in H1, H2.
  induction n as [|n (IH1 & IH2 & IH3)]; [cbn; auto|].
  cbn [replicate count_name other_requests]. unfold is_other.
  rewrite H1, H2, IH1, IH2, IH3. cbn [negb andb]. lia.
Qed.

End StatisticsFacts.

(** C6, as amended: for every sequence of fewer than 2^64
    [record_request] calls, at every observation point between calls (after
    any prefix of the sequence), [total_requests] equals [v1_requests] plus
    [v2_requests] plus the number of recorded requests whose name was
    neither "ScoreOperatorV1" nor "ScoreOperatorV2". *)
Theorem counters_consistent_at_every_observation (names : list string) (k : nat) :
  Z.of_nat (length names) < uint64_modulus ->
  counters_consistent (take k names) (record_all (take k names) Statistics_init).
Proof.
  intros Hlen. apply counters_consistent_below_wrap.
  rewrite length_take. lia.
Qed.

Lemma counters_consistent_at_every_observation_witness :
  Z.of_nat (length ["ScoreOperatorV1"; "ScoreOperatorV2"; "Other"]) < uint64_modulus
  /\ counters_consistent
       (take 2 ["ScoreOperatorV1"; "ScoreOperatorV2"; "Other"])
       (record_all (take 2 ["ScoreOperatorV1"; "ScoreOperatorV2"; "Other"])
                   Statistics_init).
Proof.
  split; [reflexivity|].
  apply (counters_consistent_at_every_observation
           ["ScoreOperatorV1"; "ScoreOperatorV2"; "Other"] 2).
  reflexivity.
Defined.

(** C6 as stated fails once the 64-bit counters wrap: after 2^64 calls
    [total_requests] is back at 0 while 2^64 requests of another name were
    recorded. *)
Lemma counters_wrap_after_2_64_calls :
  total_requests (record_all wrap_names Statistics_init) = 0
  /\ v1_requests (record_all wrap_names Statistics_init)
     + v2_requests (record_all wrap_names Statistics_init)
     + other_requests wrap_names = uint64_modulus
  /\ ~ counters_consistent wrap_names (record_all wrap_names Statistics_init).
Proof.
  assert (Hn : Z.of_nat (Z.to_nat uint64_modulus) = uint64_modulus)
    by (apply Z2Nat.id; discriminate).
  destruct (replicate_other_counts (Z.to_nat uint64_modulus) "ScoreOperatorV3" eq_refl)
    as (H1 & H2 & H3).
  unfold counters_consistent, wrap_names.
  rewrite record_all_from_init, H1, H2, H3, length_replicate, Hn.
  cbn [total_requests v1_requests v2_requests].
  rewrite Z.mod_same by discriminate.
  change (0 mod uint64_modulus) with 0.
  split; [reflexivity|]. split; [reflexivity|].
  intros H. vm_compute in H. discriminate H.
Qed.

(* ===================================================================== *)
(** * The shipped operators *)
(* ===================================================================== *)

(** C10: for ScoreOperatorV1 and ScoreOperatorV2, [compute_score] is a
    function of its Feature argument alone and [name] is a constant: two
    invocations with equal features return equal scores whatever the memory
    they run in, [name] always returns the same string, and neither method
    changes the memory. *)
Theorem shipped_operators_pure (sin : float -> float) (o : IScoreOperator) :
  o = ScoreOperatorV1 \/ o = ScoreOperatorV2 sin ->
  (forall f1 f2 m1 m2,
      f1 = f2 -> fst (compute_score o f1 m1) = fst (compute_score o f2 m2))
  /\ (forall f, pure_in_memory (compute_score o f))
  /\ pure_in_memory (name o)
  /\ (exists s, forall m, fst (name o m) = s).
Proof.
  intros [-> | ->].
  - repeat split; intros; subst; try reflexivity.
    exists "ScoreOperatorV1". reflexivity.
  - repeat split; intros; subst; try reflexivity.
    exists "ScoreOperatorV2". reflexivity.
Qed.

Lemma shipped_operators_pure_witness :
  (forall f1 f2 m1 m2,
      f1 = f2 ->
      fst (compute_score (ScoreOperatorV2 sin_model) f1 m1)
      = fst (compute_score (ScoreOperatorV2 sin_model) f2 m2))
  /\ (forall f, pure_in_memory (compute_score (ScoreOperatorV2 sin_model) f))
  /\ pure_in_memory (name (ScoreOperatorV2 sin_model))
  /\ (exists s, forall m, fst (name (ScoreOperatorV2 sin_model) m) = s).
Proof.
  apply (shipped_operators_pure sin_model (ScoreOperatorV2 sin_model)).
  right. reflexivity.
Defined.

(* ===================================================================== *)
(** * load_operator *)
(* ===================================================================== *)

Lemma lookup_at_end {A} (l : list A) (x : A) : (l ++ [x]) !! length l = Some x.
Proof. apply list_lookup_middle. reflexivity. Qed.

Lemma insert_at_end {A} (l : list A) (x y : A) : <[length l := y]> (l ++ [x]) = l ++ [y].
Proof.
  replace (length l) with (length l + 0)%nat at 1 by lia.
  rewrite insert_app_r. reflexivity.
Qed.

Ltac unfold_setters :=
  unfold set_heap, set_g_operator, set_g_stats, set_mem, add_events, set_obj,
    set_strong, set_handle, set_op, set_destroy_func, OperatorHolder_default in *.

Lemma load_operator_outcome dl so_file sh :
  let '(r, b, evs) := load_outcome dl so_file (length (heap sh)) in
  load_operator dl so_file sh
  = Some (r, mkShared (heap sh ++ [b]) (g_operator sh) (g_stats sh) (mem sh)
                      (trace sh ++ evs)).
Proof.
  unfold load_outcome, load_operator, update, make_shared, log, emit, modify,
    bind, ret, sp_release.
  simpl. rewrite lookup_at_end, insert_at_end.
  destruct (dlopen dl so_file) as [h|];
    [destruct (dlsym_create_operator dl h) as [c|],
              (dlsym_destroy_operator dl h) as [d|] |];
    simpl; rewrite ?lookup_at_end, ?insert_at_end; simpl;
    rewrite ?lookup_at_end, ?insert_at_end; simpl;
    unfold_setters; unfold OperatorHolder_dtor; simpl;
    rewrite <- ?app_assoc; reflexivity.
Qed.

Lemma load_operator_eq dl so_file sh r b evs :
  load_outcome dl so_file (length (heap sh)) = (r, b, evs) ->
  load_operator dl so_file sh
  = Some (r, mkShared (heap sh ++ [b]) (g_operator sh) (g_stats sh) (mem sh)
                      (trace sh ++ evs)).
Proof.
  intros H. pose proof (load_operator_outcome dl so_file sh) as L.
  rewrite H in L. exact L.
Qed.

(** [load_operator] always returns; it never dereferences a null pointer. *)
Lemma load_operator_total dl so_file sh :
  exists r b evs,
    load_outcome dl so_file (length (heap sh)) = (r, b, evs)
    /\ load_operator dl so_file sh
       = Some (r, mkShared (heap sh ++ [b]) (g_operator sh) (g_stats sh) (mem sh)
                           (trace sh ++ evs)).
Proof.
  destruct (load_outcome dl so_file (length (heap sh))) as [[r b] evs] eqn:E.
  exists r, b, evs. split; [reflexivity|]. apply load_operator_eq, E.
Qed.

Lemma load_outcome_result dl so_file p :
  (load_outcome dl so_file p).1.1 = if load_fails dl so_file then None else Some p.
Proof.
  unfold load_outcome, load_fails.
  destruct (dlopen dl so_file) as [h|]; [|reflexivity].
  destruct (dlsym_create_operator dl h), (dlsym_destroy_operator dl h); reflexivity.
Qed.

Lemma load_operator_fails_iff dl so_file sh :
  fst <$> load_operator dl so_file sh = Some None <-> load_fails dl so_file = true.
Proof.
  destruct (load_operator_total dl so_file sh) as (r & b & evs & Ho & ->).
  pose proof (load_outcome_result dl so_file (length (heap sh))) as Hr.
  rewrite Ho in Hr. cbn in Hr. cbn. subst r.
  destruct (load_fails dl so_file); split; intros H; congruence.
Qed.

(** C5 fails on the code: when [dlopen] succeeds and a [dlsym] fails,
    [load_operator] returns [nullptr], but the handle it opened once is
    closed twice: by the explicit [dlclose] of line 85 and again by the
    destructor of the discarded holder, whose [handle] field was never
    reset. *)
Theorem load_operator_dlsym_failure_closes_twice
  (dl : DynLinker) (so_file : string) (sh : Shared) (h : Handle) :
  dlopen dl so_file = Some h ->
  dlsym_create_operator dl h = None \/ dlsym_destroy_operator dl h = None ->
  exists sh' added,
    load_operator dl so_file sh = Some (None, sh')
    /\ trace sh' = trace sh ++ added
    /\ count_dlopen h added = 1%nat
    /\ count_dlclose h added = 2%nat.
Proof.
  intros Hopen Hsym.
  assert (Ho : load_outcome dl so_file (length (heap sh))
               = (None, mkBlock (mkHolder (Some h) None None) 0,
                  [EvDlopen so_file (Some h); EvLog "dlsym fail"; EvDlclose h;
                   EvDtor (length (heap sh)); EvDlclose h])).
  { unfold load_outcome. rewrite Hopen.
    destruct Hsym as [-> | ->]; [reflexivity|].
    destruct (dlsym_create_operator dl h); reflexivity. }
  eexists _, _. split; [apply load_operator_eq, Ho|].
  split; [reflexivity|]. cbn. rewrite Nat.eqb_refl. split; reflexivity.
Qed.

Lemma load_operator_dlsym_failure_closes_twice_witness :
  exists sh' added,
    load_operator no_symbol_linker "./broken.so" Shared_init = Some (None, sh')
    /\ trace sh' = trace Shared_init ++ added
    /\ count_dlopen 7%nat added = 1%nat
    /\ count_dlclose 7%nat added = 2%nat.
Proof.
  apply (load_operator_dlsym_failure_closes_twice
           no_symbol_linker "./broken.so" Shared_init 7%nat).
  - reflexivity.
  - left. reflexivity.
Defined.

(** C4 fails on the code: when the module opens, both entry points
    resolve and the factory returns [nullptr], [load_operator] still
    returns a holder, and its instance pointer is null. [hot_update], which
    dereferences that pointer unconditionally at line 107, then crashes. *)
Theorem load_operator_null_instance_returned
  (dl : DynLinker) (so_file : string) (sh : Shared) (h : Handle)
  (c : CreateFunc) (d : DestroyFunc) :
  dlopen dl so_file = Some h ->
  dlsym_create_operator dl h = Some c ->
  dlsym_destroy_operator dl h = Some d ->
  c tt = None ->
  exists p sh' b,
    load_operator dl so_file sh = Some (Some p, sh')
    /\ heap sh' !! p = Some b
    /\ handle (obj b) = Some h
    /\ op (obj b) = None.
Proof.
  intros Hopen Hc Hd Hnull.
  assert (Ho : load_outcome dl so_file (length (heap sh))
               = (Some (length (heap sh)),
                  mkBlock (mkHolder (Some h) None (Some d)) 1,
                  [EvDlopen so_file (Some h); EvCreate h true])).
  { unfold load_outcome. rewrite Hopen, Hc, Hd, Hnull. reflexivity. }
  eexists _, _, _. split; [apply load_operator_eq, Ho|].
  cbn [heap]. rewrite lookup_at_end. auto.
Qed.

Lemma load_operator_null_instance_returned_witness :
  exists p sh' b,
    load_operator null_factory_linker "./null.so" Shared_init = Some (Some p, sh')
    /\ heap sh' !! p = Some b
    /\ handle (obj b) = Some 9%nat
    /\ op (obj b) = None.
Proof.
  apply (load_operator_null_instance_returned
           null_factory_linker "./null.so" Shared_init 9%nat
           (fun _ => None) destroy_operator); reflexivity.
Defined.

(** The crash that follows in [hot_update]. *)
Example hot_update_null_instance_crashes :
  hot_update null_factory_linker TMain "./null.so" Shared_init = None.
Proof. reflexivity. Qed.

(* ===================================================================== *)
(** * hot_update: a failed load changes nothing *)
(* ===================================================================== *)

Lemma hot_update_on_load_failure dl who so_file sh :
  load_fails dl so_file = true ->
  exists b evs,
    hot_update dl who so_file sh
    = Some (false,
            mkShared (heap sh ++ [b]) (g_operator sh) (g_stats sh) (mem sh)
                     (trace sh ++ evs)).
Proof.
  intros Hf. unfold hot_update, bind, log, emit, modify.
  destruct (load_operator_total dl so_file (add_events [EvLog "[HotUpdate] begin"] sh))
    as (r & b & evs & Ho & ->).
  pose proof (load_outcome_result dl so_file
                (length (heap (add_events [EvLog "[HotUpdate] begin"] sh)))) as Hr.
  rewrite Ho, Hf in Hr. cbn in Hr. subst r.
  exists b, ([EvLog "[HotUpdate] begin"] ++ evs ++ [EvLog "[HotUpdate] failed"]).
  unfold ret, add_events. cbn. rewrite <- !app_assoc. reflexivity.
Qed.

Lemma hot_update_run_S dl who fuel pc :
  (forall b, pc <> HU_ret b) ->
  hot_update_run dl who (S fuel) pc
  = bind (hot_update_step dl who pc) (hot_update_run dl who fuel).
Proof. intros H. destruct pc; try reflexivity. destruct (H result eq_refl). Qed.

Lemma hot_update_run_ret dl who fuel b sh :
  hot_update_run dl who fuel (HU_ret b) sh = Some (Some b, sh).
Proof. destruct fuel; reflexivity. Qed.

Ltac run_one_step :=
  rewrite hot_update_run_S by discriminate; cbn [hot_update_step]; unfold bind.

Lemma hot_update_run_drop_new dl who n p sh :
  hot_update_run dl who (S n) (HU_drop_new p) sh
  = (let* _ := sp_release (Some p) in ret (Some true)) sh.
Proof.
  run_one_step. destruct (sp_release (Some p) sh) as [[u s]|]; [|reflexivity].
  unfold ret. apply hot_update_run_ret.
Qed.

Lemma hot_update_run_leaving dl who n p o sh :
  hot_update_run dl who (S (S n)) (HU_leaving p o) sh
  = (let* _ := sp_release o in
     let* _ := sp_release (Some p) in ret (Some true)) sh.
Proof.
  run_one_step. destruct (sp_release o sh) as [[u s]|]; [|reflexivity].
  unfold ret at 1. apply hot_update_run_drop_new.
Qed.

Lemma hot_update_run_counted dl who n p o sh :
  hot_update_run dl who (S (S (S n))) (HU_counted p o) sh
  = (let* _ := holder_name p in
     let* _ := log "[HotUpdate] switched" in
     let* _ := sp_release o in
     let* _ := sp_release (Some p) in ret (Some true)) sh.
Proof.
  run_one_step. destruct (holder_name p sh) as [[u s]|]; [|reflexivity].
  unfold log, emit, modify, ret at 1. apply hot_update_run_leaving.
Qed.

Lemma hot_update_run_stored dl who n p o sh :
  hot_update_run dl who (S (S (S (S n)))) (HU_stored p o) sh
  = (let* _ := incr_hot_update_count in
     let* _ := holder_name p in
     let* _ := log "[HotUpdate] switched" in
     let* _ := sp_release o in
     let* _ := sp_release (Some p) in ret (Some true)) sh.
Proof.
  run_one_step. unfold incr_hot_update_count, modify, ret at 1.
  apply hot_update_run_counted.
Qed.

Lemma hot_update_run_have_old dl who n p o sh :
  hot_update_run dl who (S (S (S (S (S n))))) (HU_have_old p o) sh
  = (let* _ := atomic_store who (Some p) in
     let* _ := incr_hot_update_count in
     let* _ := holder_name p in
     let* _ := log "[HotUpdate] switched" in
     let* _ := sp_release o in
     let* _ := sp_release (Some p) in ret (Some true)) sh.
Proof.
  run_one_step. destruct (atomic_store who (Some p) sh) as [[u s]|]; [|reflexivity].
  unfold ret at 1. apply hot_update_run_stored.
Qed.

Lemma hot_update_run_loaded dl who n p sh :
  hot_update_run dl who (S (S (S (S (S (S n)))))) (HU_loaded p) sh
  = (let* o := atomic_load who in
     let* _ := atomic_store who (Some p) in
     let* _ := incr_hot_update_count in
     let* _ := holder_name p in
     let* _ := log "[HotUpdate] switched" in
     let* _ := sp_release o in
     let* _ := sp_release (Some p) in ret (Some true)) sh.
Proof.
  run_one_step. destruct (atomic_load who sh) as [[o s]|]; [|reflexivity].
  unfold ret at 1. apply hot_update_run_have_old.
Qed.

(** The uninterrupted [hot_update] is the sequence of its steps. *)
Lemma hot_update_run_eq dl who so_file sh :
  hot_update_run dl who 8 (HU_entry so_file) sh
  = match hot_update dl who so_file sh with
    | Some (b, sh') => Some (Some b, sh')
    | None => None
    end.
Proof.
  unfold hot_update. run_one_step. unfold log, emit, modify.
  destruct (load_operator dl so_file _) as [[[p|] s1]|]; try reflexivity.
  unfold ret at 1. rewrite hot_update_run_loaded.
  unfold bind, incr_hot_update_count, log, emit, modify.
  destruct (atomic_load who s1) as [[o s2]|]; [|reflexivity].
  destruct (atomic_store who (Some p) s2) as [[? s3]|]; [|reflexivity].
  destruct (holder_name p _) as [[? s4]|]; [|reflexivity].
  destruct (sp_release o _) as [[? s5]|]; [|reflexivity].
  destruct (sp_release (Some p) s5) as [[? s6]|]; reflexivity.
Qed.

(** C3: when [load_operator] fails, [hot_update] returns [false];
    [g_operator] refers to the same bundle as before, no counter of the
    statistics (in particular [hot_update_count]) has changed, every block
    that existed is untouched, and a snapshot taken afterwards yields the
    same bundle as one taken before. *)
Theorem failed_hot_update_changes_nothing
  (dl : DynLinker) (who : Thread) (so_file : string) (sh : Shared) :
  fst <$> load_operator dl so_file sh = Some None ->
  exists sh',
    hot_update dl who so_file sh = Some (false, sh')
    /\ g_operator sh' = g_operator sh
    /\ g_stats sh' = g_stats sh
    /\ hot_update_count (g_stats sh') = hot_update_count (g_stats sh)
    /\ (forall p b, heap sh !! p = Some b -> heap sh' !! p = Some b)
    /\ (forall reader v sh1,
           atomic_load reader sh = Some (v, sh1) ->
           exists sh1', atomic_load reader sh' = Some (v, sh1')).
Proof.
  intros Hfail. apply load_operator_fails_iff in Hfail.
  destruct (hot_update_on_load_failure dl who so_file sh Hfail) as (b & evs & ->).
  eexists. split; [reflexivity|]. cbn [g_operator g_stats heap].
  repeat split; try reflexivity.
  - intros p blk Hp. apply lookup_app_l_Some, Hp.
  - intros reader v sh1. unfold atomic_load, bind, sp_copy, emit, modify, ret.
    cbn [g_operator heap].
    destruct (g_operator sh) as [p|]; cbn.
    + destruct (heap sh !! p) as [blk|] eqn:Hp; [|discriminate].
      rewrite (lookup_app_l_Some _ _ _ _ Hp).
      intros [= <- <-]. eexists. reflexivity.
    + intros [= <- <-]. eexists. reflexivity.
Qed.

Lemma failed_hot_update_changes_nothing_witness :
  exists sh',
    hot_update demo_linker TController "/nonexistent.module" v1_installed
    = Some (false, sh')
    /\ g_operator sh' = g_operator v1_installed
    /\ g_stats sh' = g_stats v1_installed
    /\ hot_update_count (g_stats sh') = hot_update_count (g_stats v1_installed)
    /\ (forall p b, heap v1_installed !! p = Some b -> heap sh' !! p = Some b)
    /\ (forall reader v sh1,
           atomic_load reader v1_installed = Some (v, sh1) ->
           exists sh1', atomic_load reader sh' = Some (v, sh1')).
Proof.
  apply (failed_hot_update_changes_nothing
           demo_linker TController "/nonexistent.module" v1_installed).
  reflexivity.
Defined.

(* ===================================================================== *)
(** * business_thread_func: the soft failure of a round *)
(* ===================================================================== *)

Lemma dtor_no_compute p hd : forallb (fun e => negb (is_compute e)) (OperatorHolder_dtor p hd) = true.
Proof.
  unfold OperatorHolder_dtor. destruct (op hd), (destroy_func hd), (handle hd); reflexivity.
Qed.

Lemma worker_check_unusable tid i op_ptr sh :
  unusable sh op_ptr ->
  exists sh' added,
    worker_step tid (W_check i op_ptr) sh = Some (W_loop (S i), sh')
    /\ g_stats sh' = g_stats sh
    /\ trace sh' = trace sh ++ EvLog null_operator_msg :: added
    /\ forallb (fun e => negb (is_compute e)) added = true.
Proof.
  intros [-> | (p & b & -> & Hp & Hop)].
  - exists (add_events [EvLog null_operator_msg] sh), []. repeat split.
  - unfold worker_step, deref, bind, log, emit, modify, sp_release, ret.
    rewrite Hp, Hop. cbn [heap add_events]. rewrite Hp.
    destruct (Nat.pred (strong b) =? 0)%nat.
    + eexists _, (OperatorHolder_dtor p (obj b)). split; [reflexivity|].
      cbn. rewrite <- app_assoc. repeat split. apply dtor_no_compute.
    + eexists _, []. split; [reflexivity|]. repeat split.
Qed.

(** C9: a worker whose snapshot is unusable logs the error and goes to
    the test of its loop with the next index; the round adds no call of
    [compute_score] to the trace and leaves every counter of the
    statistics unchanged; the process has not crashed and the worker can
    take its next step. *)
Theorem worker_round_soft_fails
  (dl : DynLinker) (st : State) (tid i : nat) (op_ptr : option ptr) :
  crashed st = false ->
  workers st !! tid = Some (W_check i op_ptr) ->
  unusable (shared st) op_ptr ->
  exists st' added,
    step dl (L_worker tid) st = Some st'
    /\ crashed st' = false
    /\ workers st' !! tid = Some (W_loop (S i))
    /\ g_stats (shared st') = g_stats (shared st)
    /\ trace (shared st') = trace (shared st) ++ EvLog null_operator_msg :: added
    /\ forallb (fun e => negb (is_compute e)) added = true
    /\ (exists st'', step dl (L_worker tid) st' = Some st'').
Proof.
  intros Hc Hw Hu.
  destruct (worker_check_unusable tid i op_ptr (shared st) Hu)
    as (sh' & added & Hstep & Hstats & Htrace & Hnc).
  unfold step. rewrite Hc, Hw, Hstep.
  eexists _, added. split; [reflexivity|].
  cbn [crashed workers shared].
  assert (Hlook : <[tid := W_loop (S i)]> (workers st) !! tid = Some (W_loop (S i))).
  { apply list_lookup_insert_eq. eapply lookup_lt_Some, Hw. }
  repeat split; auto.
  rewrite Hlook.
  destruct (worker_step tid (W_loop (S i)) sh') as [[w' sh'']|]; eexists; reflexivity.
Qed.

Lemma worker_round_soft_fails_witness :
  exists st' added,
    step null_v2_linker (L_worker 0) null_instance_state = Some st'
    /\ crashed st' = false
    /\ workers st' !! 0%nat = Some (W_loop 1)
    /\ g_stats (shared st') = g_stats (shared null_instance_state)
    /\ trace (shared st')
       = trace (shared null_instance_state) ++ EvLog null_operator_msg :: added
    /\ forallb (fun e => negb (is_compute e)) added = true
    /\ (exists st'', step null_v2_linker (L_worker 0) st' = Some st'').
Proof.
  apply (worker_round_soft_fails null_v2_linker null_instance_state 0 0 (Some 1%nat)).
  - reflexivity.
  - reflexivity.
  - right. eexists 1%nat, _. split; [reflexivity|]. split; reflexivity.
Defined.

Example worker_round_soft_fails_null_pointer :
  exists st',
    step demo_linker (L_worker 0) null_snapshot_state = Some st'
    /\ workers st' !! 0%nat = Some (W_loop 4)
    /\ g_stats (shared st') = g_stats (shared null_snapshot_state)
    /\ trace (shared st') = [EvLog null_operator_msg].
Proof. eexists. repeat split. Qed.

(* ===================================================================== *)
(** * Reference counting: every count equals the number of owners *)
(* ===================================================================== *)

Section Counting.

Lemma occ_app p l1 l2 : occ p (l1 ++ l2) = (occ p l1 + occ p l2)%nat.
Proof. induction l1 as [|q l1 IH]; cbn; [reflexivity|]. rewrite IH. lia. Qed.

Lemma dtor_count_app p t1 t2 :
  dtor_count p (t1 ++ t2) = (dtor_count p t1 + dtor_count p t2)%nat.
Proof.
  induction t1 as [|e t1 IH]; cbn; [reflexivity|].
  destruct e; cbn; rewrite ?IH; lia.
Qed.

Lemma dtor_count_dtor p q hd :
  dtor_count p (OperatorHolder_dtor q hd) = if Nat.eqb p q then 1%nat else 0%nat.
Proof.
  unfold OperatorHolder_dtor.
  destruct (op hd), (destroy_func hd), (handle hd); cbn; lia.
Qed.

Lemma strong_at_insert hp p b b' q :
  hp !! p = Some b ->
  strong_at (<[p := b']> hp) q = if Nat.eqb q p then strong b' else strong_at hp q.
Proof.
  intros Hp. unfold strong_at.
  destruct (Nat.eqb_spec q p) as [-> | Hne].
  - rewrite list_lookup_insert_eq by (eapply lookup_lt_Some, Hp). reflexivity.
  - rewrite list_lookup_insert_ne by congruence. reflexivity.
Qed.

Lemma strong_at_snoc hp b q :
  strong_at (hp ++ [b]) q = if Nat.eqb q (length hp) then strong b else strong_at hp q.
Proof.
  unfold strong_at.
  destruct (Nat.eqb_spec q (length hp)) as [-> | Hne].
  - rewrite lookup_at_end. reflexivity.
  - destruct (Nat.lt_ge_cases q (length hp)) as [Hlt | Hge].
    + rewrite lookup_app_l by exact Hlt. reflexivity.
    + rewrite !(proj2 (lookup_ge_None _ _)); [reflexivity | exact Hge |].
      rewrite length_app. cbn. lia.
Qed.

Lemma strong_at_outside hp q : (length hp <= q)%nat -> strong_at hp q = 0%nat.
Proof. intros H. unfold strong_at. rewrite (proj2 (lookup_ge_None _ _)); auto. Qed.

Lemma counted_perm hp tr R R' :
  counted hp tr R -> (forall p, occ p R = occ p R') -> counted hp tr R'.
Proof. intros H E p. rewrite <- E. apply H. Qed.

(** An owner always points to a block. *)
Lemma counted_owner_allocated hp tr R p :
  counted hp tr R -> (1 <= occ p R)%nat -> exists b, hp !! p = Some b /\ (1 <= strong b)%nat.
Proof.
  intros H Hm. destruct (H p) as [Hs _]. unfold strong_at in Hs.
  destruct (hp !! p) as [b|]; [|lia]. exists b. split; [reflexivity | lia].
Qed.

Lemma counted_copy hp tr R p b :
  counted hp tr R -> hp !! p = Some b -> (1 <= occ p R)%nat ->
  counted (<[p := set_strong (S (strong b)) b]> hp) tr (p :: R).
Proof.
  intros H Hp Hm q. destruct (H q) as [Hs Hd].
  unfold expected_dtors in *. rewrite length_insert.
  rewrite (strong_at_insert hp p b _ q Hp). cbn [occ set_strong strong].
  destruct (Nat.eqb_spec q p) as [E | Hne]; [subst q|].
  - assert (strong_at hp p = strong b) as Hb by (unfold strong_at; rewrite Hp; reflexivity).
    split; [lia|]. rewrite Hd.
    destruct (Nat.eqb_spec (strong_at hp p) 0); [lia|].
    rewrite !andb_false_r. reflexivity.
  - split; [lia | exact Hd].
Qed.

Lemma counted_release hp tr R p b :
  counted hp tr (p :: R) -> hp !! p = Some b ->
  counted (<[p := set_strong (Nat.pred (strong b)) b]> hp)
          (tr ++ (if Nat.eqb (Nat.pred (strong b)) 0
                  then OperatorHolder_dtor p (obj b) else []))
          R.
Proof.
  intros H Hp q. destruct (H q) as [Hs Hd]. cbn [occ] in Hs.
  unfold expected_dtors in *. rewrite length_insert.
  rewrite (strong_at_insert hp p b _ q Hp). cbn [set_strong strong].
  rewrite dtor_count_app.
  assert (Hlt : (p < length hp)%nat) by (eapply lookup_lt_Some, Hp).
  destruct (Nat.eqb_spec q p) as [E | Hne]; [subst q|].
  - assert (strong_at hp p = strong b) as Hb by (unfold strong_at; rewrite Hp; reflexivity).
    split; [lia|]. rewrite Hd.
    apply Nat.ltb_lt in Hlt. rewrite Hlt. cbn [andb].
    destruct (Nat.eqb_spec (strong_at hp p) 0); [lia|].
    destruct (Nat.eqb_spec (Nat.pred (strong b)) 0).
    + rewrite dtor_count_dtor, Nat.eqb_refl. reflexivity.
    + reflexivity.
  - split; [lia|]. rewrite Hd.
    destruct (Nat.pred (strong b) =? 0)%nat; cbn [dtor_count]; [|lia].
    rewrite dtor_count_dtor. apply Nat.eqb_neq in Hne. rewrite Hne. lia.
Qed.

Lemma counted_events hp tr R evs :
  counted hp tr R -> (forall p, dtor_count p evs = 0%nat) -> counted hp (tr ++ evs) R.
Proof.
  intros H He p. destruct (H p) as [Hs Hd].
  rewrite dtor_count_app, He. split; [exact Hs | lia].
Qed.

(** A block made by [load_operator]: owned once when the load succeeded,
    already destroyed (once) when it failed. *)
Lemma counted_load dl so_file hp tr R r b evs :
  counted hp tr R ->
  load_outcome dl so_file (length hp) = (r, b, evs) ->
  counted (hp ++ [b]) (tr ++ evs) (oroot r ++ R).
Proof.
  intros H Ho q. destruct (H q) as [Hs Hd].
  assert (Hout : strong_at hp (length hp) = 0%nat) by (apply strong_at_outside; lia).
  unfold expected_dtors in *. rewrite length_app, strong_at_snoc, dtor_count_app, occ_app.
  cbn [length].
  assert (Hcases :
    (r = Some (length hp) /\ strong b = 1%nat /\ forall x, dtor_count x evs = 0%nat)
    \/ (r = None /\ strong b = 0%nat
        /\ forall x, dtor_count x evs = if Nat.eqb x (length hp) then 1%nat else 0%nat)).
  { unfold load_outcome in Ho.
    destruct (dlopen dl so_file) as [h|].
    - destruct (dlsym_create_operator dl h) as [c|], (dlsym_destroy_operator dl h) as [d|];
        injection Ho as <- <- <-; [left | right | right | right];
        repeat split; intros; cbn; lia.
    - injection Ho as <- <- <-. right. repeat split. intros; cbn; lia. }
  destruct (Nat.eqb_spec q (length hp)) as [E | Hne]; [subst q|].
  - rewrite Hout in Hs. rewrite Hout in Hd.
    rewrite Nat.ltb_irrefl in Hd. cbn [andb] in Hd.
    assert (Hlt : (length hp <? length hp + 1)%nat = true) by (apply Nat.ltb_lt; lia).
    rewrite Hlt. cbn [andb].
    destruct Hcases as [(-> & -> & He) | (-> & -> & He)]; rewrite He; cbn [oroot occ].
    + rewrite Nat.eqb_refl. cbn. lia.
    + rewrite Nat.eqb_refl. cbn. lia.
  - assert (He : dtor_count q evs = 0%nat).
    { destruct Hcases as [(_ & _ & He) | (_ & _ & He)]; rewrite He; [reflexivity|].
      apply Nat.eqb_neq in Hne. rewrite Hne. reflexivity. }
    assert (Hr : occ q (oroot r) = 0%nat).
    { destruct Hcases as [(-> & _) | (-> & _)]; cbn; [|reflexivity].
      apply Nat.eqb_neq in Hne. rewrite Hne. reflexivity. }
    rewrite He, Hr, Hd. split; [lia|].
    destruct (Nat.lt_ge_cases q (length hp)) as [Hlt | Hge].
    + assert ((q <? length hp)%nat = true) as -> by (apply Nat.ltb_lt; lia).
      assert ((q <? length hp + 1)%nat = true) as -> by (apply Nat.ltb_lt; lia).
      lia.
    + assert ((q <? length hp)%nat = false) as -> by (apply Nat.ltb_ge; lia).
      assert ((q <? length hp + 1)%nat = false) as -> by (apply Nat.ltb_ge; lia).
      reflexivity.
Qed.

End Counting.

Lemma bind_Some {A B} (m : M A) (k : A -> M B) sh b sh' :
  bind m k sh = Some (b, sh') <->
  exists a s, m sh = Some (a, s) /\ k a s = Some (b, sh').
Proof.
  unfold bind. split.
  - destruct (m sh) as [[a s]|]; [|discriminate]. intros H. exists a, s. auto.
  - intros (a & s & -> & H). exact H.
Qed.

Ltac inv_bind H :=
  let a := fresh "a" in let s := fresh "s" in let E := fresh "E" in
  apply bind_Some in H as (a & s & E & H).

Ltac solve_occ :=
  intros;
  repeat first
    [ rewrite occ_app
    | progress cbn [oroot hu_roots worker_roots driver_roots app occ] ];
  rewrite ?Nat.eqb_refl;
  repeat match goal with
         | |- context [if Nat.eqb ?a ?b then _ else _] => destruct (Nat.eqb a b)
         end;
  lia.

Lemma cnt_perm sh R R' : cnt sh R -> (forall p, occ p R = occ p R') -> cnt sh R'.
Proof. apply counted_perm. Qed.

Lemma emit_cnt evs sh u sh' R :
  cnt sh R -> (forall p, dtor_count p evs = 0%nat) ->
  emit evs sh = Some (u, sh') ->
  cnt sh' R /\ g_operator sh' = g_operator sh.
Proof.
  intros H He [= _ <-]. split; [|reflexivity].
  unfold cnt, add_events. cbn [heap trace]. apply counted_events; assumption.
Qed.

Lemma sp_copy_cnt v sh u sh' R :
  cnt sh R -> (forall p, v = Some p -> (1 <= occ p R)%nat) ->
  sp_copy v sh = Some (u, sh') ->
  cnt sh' (oroot v ++ R) /\ g_operator sh' = g_operator sh.
Proof.
  intros H Hv Hs. destruct v as [p|]; cbn in Hs.
  - destruct (heap sh !! p) as [b|] eqn:Hp; [|discriminate].
    injection Hs as _ <-. split; [|reflexivity].
    unfold cnt, set_heap. cbn [heap trace oroot app].
    apply counted_copy; auto.
  - injection Hs as _ <-. split; [exact H | reflexivity].
Qed.

Lemma sp_release_cnt v sh u sh' R :
  cnt sh (oroot v ++ R) ->
  sp_release v sh = Some (u, sh') ->
  cnt sh' R /\ g_operator sh' = g_operator sh.
Proof.
  intros H Hs. destruct v as [p|]; cbn in Hs.
  - destruct (heap sh !! p) as [b|] eqn:Hp; [|discriminate].
    injection Hs as _ <-.
    pose proof (counted_release _ _ _ _ _ H Hp) as Hr.
    destruct (Nat.pred (strong b) =? 0)%nat.
    + split; [exact Hr | reflexivity].
    + rewrite app_nil_r in Hr. split; [exact Hr | reflexivity].
  - injection Hs as _ <-. split; [exact H | reflexivity].
Qed.

Lemma atomic_load_cnt who sh v sh' R :
  cnt sh R -> (forall p, g_operator sh = Some p -> (1 <= occ p R)%nat) ->
  atomic_load who sh = Some (v, sh') ->
  v = g_operator sh /\ g_operator sh' = g_operator sh /\ cnt sh' (oroot v ++ R).
Proof.
  intros H Hg Hl. unfold atomic_load in Hl.
  inv_bind Hl. inv_bind Hl. injection Hl as <- <-.
  destruct (sp_copy_cnt _ _ _ _ _ H Hg E) as [H1 G1].
  destruct (emit_cnt [EvLoad who (g_operator sh)] _ _ _ _ H1 (fun _ => eq_refl) E0)
    as [H2 G2].
  split; [reflexivity | split; [congruence | exact H2]].
Qed.

Lemma atomic_store_cnt who r sh u sh' R :
  cnt sh (oroot (g_operator sh) ++ R) ->
  (forall p, r = Some p -> (1 <= occ p R)%nat) ->
  atomic_store who r sh = Some (u, sh') ->
  g_operator sh' = r /\ cnt sh' (oroot r ++ R).
Proof.
  intros H Hr Hs. unfold atomic_store in Hs.
  inv_bind Hs. inv_bind Hs. inv_bind Hs.
  assert (Hr' : forall p, r = Some p -> (1 <= occ p (oroot (g_operator sh) ++ R))%nat).
  { intros p Hp. specialize (Hr p Hp). rewrite occ_app. lia. }
  destruct (sp_copy_cnt _ _ _ _ _ H Hr' E) as [H1 G1].
  injection E0 as _ <-.
  assert (H2 : cnt (set_g_operator r s) (oroot (g_operator sh) ++ oroot r ++ R)).
  { unfold cnt, set_g_operator. cbn [heap trace].
    eapply counted_perm; [exact H1|]. solve_occ. }
  destruct (emit_cnt [EvStore who r] _ _ _ _ H2 (fun _ => eq_refl) E1) as [H3 G3].
  destruct (sp_release_cnt _ _ _ _ _ H3 Hs) as [H4 G4].
  split; [|exact H4]. rewrite G4, G3. reflexivity.
Qed.

Lemma load_operator_cnt dl so_file sh r sh' R :
  cnt sh R ->
  load_operator dl so_file sh = Some (r, sh') ->
  cnt sh' (oroot r ++ R) /\ g_operator sh' = g_operator sh.
Proof.
  intros H Hl.
  destruct (load_operator_total dl so_file sh) as (r0 & b & evs & Ho & Heq).
  rewrite Heq in Hl. injection Hl as <- <-.
  split; [|reflexivity]. unfold cnt. cbn [heap trace].
  eapply counted_load; eassumption.
Qed.

Lemma holder_name_same p sh n sh' :
  holder_name p sh = Some (n, sh') ->
  heap sh' = heap sh /\ trace sh' = trace sh /\ g_operator sh' = g_operator sh
  /\ g_stats sh' = g_stats sh.
Proof.
  unfold holder_name, deref, bind, call, crash.
  destruct (heap sh !! p) as [b|]; [|discriminate].
  destruct (op (obj b)) as [o|]; [|discriminate].
  destruct (name o (mem sh)) as [n0 m']. intros [= _ <-]. repeat split.
Qed.

Ltac inv_ret H := injection H as ? ?; subst.

Lemma log_cnt msg sh u sh' R :
  cnt sh R -> log msg sh = Some (u, sh') -> cnt sh' R /\ g_operator sh' = g_operator sh.
Proof. intros H Hl. eapply (emit_cnt [EvLog msg]); eauto. Qed.

Lemma cnt_same sh sh' R :
  heap sh' = heap sh -> trace sh' = trace sh -> cnt sh R -> cnt sh' R.
Proof. unfold cnt. intros -> ->. auto. Qed.

Lemma hot_update_step_cnt dl who pc sh pc' sh' F :
  cnt sh (oroot (g_operator sh) ++ hu_roots pc ++ F) ->
  hot_update_step dl who pc sh = Some (pc', sh') ->
  cnt sh' (oroot (g_operator sh') ++ hu_roots pc' ++ F).
Proof.
  intros H Hs. destruct pc as [f | n | n o | n o | n o | n o | n | b]; cbn [hot_update_step] in Hs.
  - (* entry: load_operator *)
    inv_bind Hs. inv_bind Hs.
    destruct (log_cnt _ _ _ _ _ H E) as [H1 G1].
    destruct (load_operator_cnt _ _ _ _ _ _ H1 E0) as [H2 G2].
    destruct a0 as [p|].
    + inv_ret Hs. rewrite G2, G1. eapply cnt_perm; [exact H2|]. solve_occ.
    + inv_bind Hs. inv_ret Hs.
      destruct (log_cnt _ _ _ _ _ H2 E1) as [H3 G3].
      rewrite G3, G2, G1. exact H3.
  - (* old_holder = atomic_load *)
    inv_bind Hs. inv_ret Hs.
    eapply atomic_load_cnt in E as (-> & G & H1); [| exact H |].
    + rewrite G. eapply cnt_perm; [exact H1|]. solve_occ.
    + intros p ->. solve_occ.
  - (* atomic_store *)
    inv_bind Hs. inv_ret Hs.
    eapply (atomic_store_cnt _ _ _ _ _ (n :: oroot o ++ F)) in E as (G & H1);
      [| exact H |].
    + rewrite G. exact H1.
    + intros p [= ->]. cbn [occ]. rewrite Nat.eqb_refl. lia.
  - (* hot_update_count++ *)
    inv_bind Hs. inv_ret Hs. injection E as _ <-. exact H.
  - (* new_holder->op->name() *)
    inv_bind Hs. inv_bind Hs. inv_ret Hs.
    apply holder_name_same in E as (Eh & Et & Eg & _).
    assert (H1 : cnt s (oroot (g_operator s) ++ hu_roots (HU_counted n o) ++ F)).
    { rewrite Eg. eapply cnt_same; eauto. }
    destruct (log_cnt _ _ _ _ _ H1 E0) as [H2 G2]. rewrite G2. exact H2.
  - (* old_holder dies *)
    inv_bind Hs. inv_ret Hs.
    eapply (sp_release_cnt _ _ _ _ (oroot (g_operator sh) ++ n :: F)) in E as (H1 & G).
    + rewrite G. exact H1.
    + eapply cnt_perm; [exact H|]. solve_occ.
  - (* new_holder dies *)
    inv_bind Hs. inv_ret Hs.
    eapply (sp_release_cnt _ _ _ _ (oroot (g_operator sh) ++ F)) in E as (H1 & G).
    + rewrite G. exact H1.
    + eapply cnt_perm; [exact H|]. solve_occ.
  - inv_ret Hs. exact H.
Qed.

Lemma worker_step_cnt tid w sh w' sh' F :
  cnt sh (oroot (g_operator sh) ++ worker_roots w ++ F) ->
  worker_step tid w sh = Some (w', sh') ->
  cnt sh' (oroot (g_operator sh') ++ worker_roots w' ++ F).
Proof.
  intros H Hs.
  destruct w as [i | i v | i p sc | i p sc nm | i p sc |]; cbn [worker_step] in Hs.
  - destruct (i <? total_rounds)%nat.
    + inv_bind Hs. inv_ret Hs.
      eapply atomic_load_cnt in E as (-> & G & H1); [| exact H |].
      * rewrite G. eapply cnt_perm; [exact H1|]. solve_occ.
      * intros p ->. solve_occ.
    + inv_bind Hs. inv_ret Hs.
      destruct (log_cnt _ _ _ _ _ H E) as [H1 G1]. rewrite G1. exact H1.
  - destruct v as [p|].
    + inv_bind Hs. unfold deref in E.
      destruct (heap sh !! p) as [b|] eqn:Hp; [|discriminate]. inv_ret E.
      destruct (op (obj b)) as [o|].
      * inv_bind Hs. inv_bind Hs. inv_ret Hs.
        unfold call in E. destruct (compute_score o _ _) as [x m']. inv_ret E.
        injection E0 as _ <-. unfold cnt, add_events, set_mem.
        cbn [heap trace g_operator]. apply counted_events; [exact H | reflexivity].
      * inv_bind Hs. inv_bind Hs. inv_ret Hs.
        destruct (log_cnt _ _ _ _ _ H E) as [H1 G1].
        eapply (sp_release_cnt _ _ _ _ (oroot (g_operator s) ++ F)) in E0 as (H2 & G2).
        -- rewrite G2, G1. exact H2.
        -- eapply cnt_perm; [exact H1|]. solve_occ.
    + inv_bind Hs. inv_bind Hs. inv_ret Hs.
      destruct (log_cnt _ _ _ _ _ H E) as [H1 G1].
      inv_ret E0. rewrite G1. exact H1.
  - inv_bind Hs. inv_bind Hs. inv_ret Hs.
    apply holder_name_same in E as (Eh & Et & Eg & _).
    injection E0 as _ <-. cbn [g_operator set_g_stats].
    rewrite Eg. eapply cnt_same; [| |exact H]; cbn; assumption.
  - inv_bind Hs. inv_ret Hs. injection E as _ <-. exact H.
  - inv_bind Hs. inv_bind Hs. inv_bind Hs. inv_ret Hs.
    apply holder_name_same in E as (Eh & Et & Eg & _).
    assert (H1 : cnt s (oroot (g_operator s) ++ worker_roots (W_print i p sc) ++ F)).
    { rewrite Eg. eapply cnt_same; eauto. }
    destruct (log_cnt _ _ _ _ _ H1 E0) as [H2 G2].
    eapply (sp_release_cnt _ _ _ _ (oroot (g_operator s0) ++ F)) in E1 as (H3 & G3).
    + rewrite G3. exact H3.
    + rewrite G2. eapply cnt_perm; [exact H2|]. solve_occ.
  - inv_ret Hs. exact H.
Qed.

(* ===================================================================== *)
(** * The invariant of the whole process *)
(* ===================================================================== *)

Lemma workers_roots_insert ws : forall tid w,
  ws !! tid = Some w ->
  exists F,
    (forall p, occ p (workers_roots ws) = occ p (worker_roots w ++ F))
    /\ (forall w' p,
           occ p (workers_roots (<[tid := w']> ws)) = occ p (worker_roots w' ++ F)).
Proof.
  induction ws as [|x ws IH]; intros tid w Hw; [discriminate|].
  destruct tid as [|tid]; cbn in Hw.
  - injection Hw as ->. exists (workers_roots ws). split; reflexivity.
  - destruct (IH tid w Hw) as (F & H1 & H2).
    exists (worker_roots x ++ F). split.
    + intros p. cbn [workers_roots]. rewrite !occ_app, H1, !occ_app. lia.
    + intros w' p. cbn [workers_roots]. change (<[S tid := w']> (x :: ws)) with (x :: <[tid := w']> ws).
      cbn [workers_roots]. rewrite !occ_app, H2, !occ_app. lia.
Qed.

Lemma workers_roots_done ws : forallb is_done ws = true -> workers_roots ws = [].
Proof.
  induction ws as [|w ws IH]; [reflexivity|]. cbn [forallb workers_roots].
  intros H. apply andb_prop in H as [Hw Hr]. destruct w; try discriminate.
  cbn. auto.
Qed.

Lemma driver_step_cnt dl who d sh r sh' F :
  cnt sh (oroot (g_operator sh) ++ driver_roots d ++ F) ->
  driver_step dl who d sh = Some (r, sh') ->
  match r with
  | DriverContinues d' => cnt sh' (oroot (g_operator sh') ++ driver_roots d' ++ F)
  | DriverAborts => True
  | DriverFinished => sh' = sh /\ d = D_at []
  end.
Proof.
  intros H Hs. destruct d as [[|f rest] | rest pc]; cbn [driver_step] in Hs.
  - inv_ret Hs. auto.
  - inv_ret Hs. exact H.
  - assert (Hgen : forall pc',
              hot_update_step dl who pc sh = Some (pc', sh') ->
              cnt sh' (oroot (g_operator sh') ++ driver_roots (D_in rest pc') ++ F)).
    { intros pc' Hpc. eapply hot_update_step_cnt; eauto. }
    destruct pc; try (inv_bind Hs; inv_ret Hs; apply Hgen; assumption).
    destruct result; inv_ret Hs; [exact H | exact I].
Qed.

Lemma step_refcounts dl l st st' :
  Inv st -> step dl l st = Some st' -> refcounts_ok st'.
Proof.
  intros [Hc Ht] Hs. unfold step in Hs.
  destruct (crashed st); [discriminate|].
  unfold refcounts_ok, roots in *. unfold threads_ok in Ht.
  destruct l as [| | tid].
  - (* main *)
    destruct (main_pc st) as [d | | |] eqn:Hm.
    + destruct Ht as [Hw Hk].
      destruct (driver_step dl TMain d (shared st)) as [[r sh']|] eqn:Hd;
        [|].
      * pose proof (driver_step_cnt dl TMain d (shared st) r sh'
                      (controller_roots (controller st) ++ workers_roots (workers st))
                      Hc Hd) as Hr.
        destruct r; injection Hs as <-; cbn [shared main_pc workers controller main_roots].
        -- exact Hr.
        -- cbn [crash_state shared main_pc workers controller]. rewrite Hm. exact Hc.
        -- destruct Hr as [-> ->]. exact Hc.
      * injection Hs as <-. cbn [crash_state shared main_pc workers controller].
        rewrite Hm. exact Hc.
    + destruct Ht as [Hw Hk]. injection Hs as <-.
      cbn [shared main_pc workers controller main_roots controller_roots driver_roots].
      rewrite Hw, Hk in Hc. exact Hc.
    + destruct (forallb is_done (workers st) && driver_done (controller st)) eqn:Hdone;
        [|discriminate].
      apply andb_prop in Hdone as [Hwd Hcd].
      destruct ((let* _ := sp_release (g_operator (shared st)) in
                 modify (set_g_operator None)) (shared st)) as [[u sh']|] eqn:Hr.
      * injection Hs as <-. cbn [shared main_pc workers controller main_roots].
        inv_bind Hr. injection Hr as _ <-.
        eapply sp_release_cnt in E as [H1 _]; [|exact Hc].
        cbn [g_operator set_g_operator oroot app]. exact H1.
      * injection Hs as <-. cbn [crash_state shared main_pc workers controller].
        rewrite Hm. exact Hc.
    + discriminate.
  - (* controller *)
    destruct (controller st) as [d|] eqn:Hk; [|discriminate].
    destruct (driver_step dl TController d (shared st)) as [[r sh']|] eqn:Hd.
    + assert (Hc' : cnt (shared st)
                (oroot (g_operator (shared st)) ++ driver_roots d
                 ++ main_roots (main_pc st) ++ workers_roots (workers st))).
      { eapply cnt_perm; [exact Hc|]. cbn [controller_roots]. solve_occ. }
      pose proof (driver_step_cnt dl TController d (shared st) r sh' _ Hc' Hd) as Hr.
      destruct r; [| |discriminate]; injection Hs as <-;
        cbn [crash_state shared main_pc workers controller controller_roots].
      * eapply cnt_perm; [exact Hr|]. solve_occ.
      * rewrite Hk. exact Hc.
    + injection Hs as <-. cbn [crash_state shared main_pc workers controller].
      rewrite Hk. exact Hc.
  - (* worker *)
    destruct (workers st !! tid) as [w|] eqn:Hw; [|discriminate].
    destruct (workers_roots_insert _ _ _ Hw) as (F & HF1 & HF2).
    assert (Hstep : forall w' sh',
              worker_step tid w (shared st) = Some (w', sh') ->
              cnt sh' (oroot (g_operator sh') ++ main_roots (main_pc st)
                       ++ controller_roots (controller st)
                       ++ workers_roots (<[tid := w']> (workers st)))).
    { intros w' sh' Hws.
      eapply cnt_perm.
      - eapply (worker_step_cnt tid w (shared st) w' sh'
                  (main_roots (main_pc st) ++ controller_roots (controller st) ++ F));
          [|exact Hws].
        eapply cnt_perm; [exact Hc|]. intros p. rewrite !occ_app, HF1, !occ_app. lia.
      - intros p. rewrite !occ_app, HF2, !occ_app. lia. }
    destruct (worker_step tid w (shared st)) as [[w' sh']|] eqn:Hws.
    + destruct w; try (injection Hs as <-; cbn [shared main_pc workers controller];
                       apply Hstep; reflexivity).
      discriminate.
    + destruct w; try (injection Hs as <-; cbn [crash_state shared main_pc workers controller];
                       exact Hc).
      discriminate.
Qed.

Lemma forallb_done_lookup ws tid w :
  forallb is_done ws = true -> ws !! tid = Some w -> w = W_done.
Proof.
  intros H Hw. rewrite forallb_forall in H.
  assert (Hin : In w ws) by (apply list_elem_of_In; eapply list_elem_of_lookup_2, Hw).
  specialize (H w Hin). destruct w; try discriminate. reflexivity.
Qed.

Lemma step_threads_ok dl l st st' :
  threads_ok st -> step dl l st = Some st' -> threads_ok st'.
Proof.
  intros Ht Hs. unfold step in Hs.
  destruct (crashed st); [discriminate|].
  unfold threads_ok in *.
  destruct l as [| | tid].
  - destruct (main_pc st) as [d | | |] eqn:Hm.
    + destruct (driver_step dl TMain d (shared st)) as [[[d' | |] sh']|];
        injection Hs as <-; cbn [crash_state main_pc workers controller shared];
        rewrite ?Hm; exact Ht.
    + injection Hs as <-. cbn [main_pc controller]. discriminate.
    + destruct (forallb is_done (workers st) && driver_done (controller st)) eqn:Hdone;
        [|discriminate].
      apply andb_prop in Hdone as [Hwd Hcd].
      destruct ((let* _ := sp_release (g_operator (shared st)) in
                 modify (set_g_operator None)) (shared st)) as [[u sh']|] eqn:Hr;
        injection Hs as <-; cbn [crash_state main_pc workers controller shared].
      * inv_bind Hr. injection Hr as _ <-. auto.
      * rewrite Hm. exact Ht.
    + discriminate.
  - destruct (controller st) as [d|] eqn:Hk; [|discriminate].
    destruct (main_pc st) as [d0 | | |] eqn:Hm.
    + destruct Ht as [_ Ht]. discriminate Ht.
    + destruct Ht as [_ Ht]. discriminate Ht.
    + destruct (driver_step dl TController d (shared st)) as [[[d' | |] sh']|];
        try discriminate; injection Hs as <-;
        cbn [crash_state main_pc workers controller shared]; rewrite ?Hm, ?Hk;
        discriminate.
    + destruct Ht as (_ & Hd & _). cbn [driver_done] in Hd.
      destruct d as [[|? ?]|]; discriminate.
  - destruct (workers st !! tid) as [w|] eqn:Hw; [|discriminate].
    destruct (main_pc st) as [d0 | | |] eqn:Hm.
    + destruct Ht as [Ht _]. rewrite Ht in Hw. discriminate Hw.
    + destruct Ht as [Ht _]. rewrite Ht in Hw. discriminate Hw.
    + destruct (worker_step tid w (shared st)) as [[w' sh']|];
        destruct w; try discriminate; injection Hs as <-;
        cbn [crash_state main_pc workers controller shared]; rewrite ?Hm; exact Ht.
    + destruct Ht as (Hd & _). rewrite (forallb_done_lookup _ _ _ Hd Hw) in Hs.
      discriminate.
Qed.

Lemma step_Inv dl l st st' : Inv st -> step dl l st = Some st' -> Inv st'.
Proof.
  intros HI Hs. split.
  - eapply step_refcounts; eauto.
  - eapply step_threads_ok; [apply HI | eauto].
Qed.

Lemma Inv_init : Inv State_init.
Proof.
  split.
  - intros p. cbn. unfold expected_dtors, strong_at. cbn.
    rewrite lookup_nil. split; reflexivity.
  - cbn. auto.
Qed.

(** Induction over schedules: what holds initially and is kept by every
    step holds in every reachable state. *)
Lemma run_preserves (P : State -> Prop) dl :
  (forall l st st', P st -> step dl l st = Some st' -> P st') ->
  forall sched st st', P st -> run dl sched st = Some st' -> P st'.
Proof.
  intros Hstep sched. induction sched as [|l rest IH]; intros st st' HP Hr; cbn in Hr.
  - injection Hr as <-. exact HP.
  - destruct (step dl l st) as [st1|] eqn:Hs; [|discriminate].
    eapply IH; [|exact Hr]. eapply Hstep; eauto.
Qed.

Lemma reachable_Inv dl st : reachable dl st -> Inv st.
Proof.
  intros [sched Hr]. eapply (run_preserves Inv dl); [|apply Inv_init|exact Hr].
  intros l s s'. apply step_Inv.
Qed.

(* ===================================================================== *)
(** * What a piece of code does to the slot, the trace and the heap *)
(* ===================================================================== *)

Lemma stores_app e1 e2 : stores (e1 ++ e2) = stores e1 ++ stores e2.
Proof. induction e1 as [|e e1 IH]; cbn; [reflexivity|]. destruct e; cbn; rewrite ?IH; reflexivity. Qed.

Lemma final_app cur e1 e2 : final cur (e1 ++ e2) = final (final cur e1) e2.
Proof.
  revert cur. induction e1 as [|e e1 IH]; intros cur; cbn; [reflexivity|].
  destruct e; cbn; apply IH.
Qed.

Lemma loads_ok_app cur e1 e2 :
  loads_ok cur (e1 ++ e2) <-> loads_ok cur e1 /\ loads_ok (final cur e1) e2.
Proof.
  revert cur. induction e1 as [|e e1 IH]; intros cur; cbn; [tauto|].
  destruct e; cbn; rewrite ?IH; tauto.
Qed.

Lemma quiet_facts cur evs :
  forallb is_quiet evs = true ->
  stores evs = [] /\ final cur evs = cur /\ loads_ok cur evs.
Proof.
  induction evs as [|e evs IH]; cbn; [auto|].
  intros H. apply andb_prop in H as [He Hr]. destruct (IH Hr) as (H1 & H2 & H3).
  destruct e; try discriminate; cbn; auto.
Qed.

Lemma dtor_quiet p hd : forallb is_quiet (OperatorHolder_dtor p hd) = true.
Proof.
  unfold OperatorHolder_dtor. destruct (op hd), (destroy_func hd), (handle hd); reflexivity.
Qed.

Lemma final_stores cur evs :
  final cur evs = match last (stores evs) with Some v => v | None => cur end.
Proof.
  revert cur. induction evs as [|e evs IH]; intros cur; cbn; [reflexivity|].
  destruct e; cbn; rewrite ?IH; try reflexivity.
  destruct (stores evs) as [|x l] eqn:E; cbn; [reflexivity|].
  change (last (v :: x :: l)) with (last (x :: l)).
  destruct (last (x :: l)) as [y|] eqn:El; [reflexivity|].
  apply last_None in El. discriminate El.
Qed.

Lemma trans_refl sh : trans [] [] sh sh.
Proof. exists []. rewrite !app_nil_r. cbn. auto. Qed.

Lemma trans_comp a b x y sh s1 s2 :
  trans a x sh s1 -> trans b y s1 s2 -> trans (a ++ b) (x ++ y) sh s2.
Proof.
  intros (e1 & T1 & S1 & L1 & G1 & O1) (e2 & T2 & S2 & L2 & G2 & O2).
  exists (e1 ++ e2). rewrite T2, T1, app_assoc, stores_app, S1, S2.
  rewrite loads_ok_app, final_app, <- G1, G2, O2, O1, app_assoc. auto.
Qed.

(** A change of the heap that leaves every holder as it is. *)
Lemma map_obj_insert_strong hp p b n :
  hp !! p = Some b -> map obj (<[p := set_strong n b]> hp) = map obj hp.
Proof.
  intros Hp. change (map obj) with (fmap (M := list) obj).
  rewrite list_fmap_insert. cbn [set_strong obj].
  apply list_insert_id. rewrite list_lookup_fmap, Hp. reflexivity.
Qed.

Lemma trans_quiet sh sh' evs :
  forallb is_quiet evs = true ->
  trace sh' = trace sh ++ evs ->
  g_operator sh' = g_operator sh ->
  map obj (heap sh') = map obj (heap sh) ->
  trans [] [] sh sh'.
Proof.
  intros Hq Ht Hg Ho. destruct (quiet_facts (g_operator sh) evs Hq) as (H1 & H2 & H3).
  exists evs. rewrite app_nil_r, H2. auto.
Qed.

Lemma eff_ret {A} (a : A) : eff (ret a) [] [].
Proof. intros sh x sh' [= _ <-]. apply trans_refl. Qed.

Lemma eff_bind {A B} (m : M A) (k : A -> M B) a b x y :
  eff m a x -> (forall v, eff (k v) b y) -> eff (bind m k) (a ++ b) (x ++ y).
Proof.
  intros Hm Hk sh r sh' H. apply bind_Some in H as (v & s & E & H).
  eapply trans_comp; [eapply Hm, E | eapply Hk, H].
Qed.

Lemma eff_emit evs : forallb is_quiet evs = true -> eff (emit evs) [] [].
Proof.
  intros Hq sh a sh' [= _ <-]. eapply (trans_quiet _ _ evs); auto.
Qed.

Lemma eff_log msg : eff (log msg) [] [].
Proof. apply eff_emit. reflexivity. Qed.

Lemma eff_sp_copy v : eff (sp_copy v) [] [].
Proof.
  intros sh a sh' H. destruct v as [p|]; cbn in H.
  - destruct (heap sh !! p) as [b|] eqn:Hp; [|discriminate]. injection H as _ <-.
    eapply (trans_quiet _ _ []); cbn; rewrite ?app_nil_r;
      auto using map_obj_insert_strong.
  - injection H as _ <-. apply trans_refl.
Qed.

Lemma eff_sp_release v : eff (sp_release v) [] [].
Proof.
  intros sh a sh' H. destruct v as [p|]; cbn in H.
  - destruct (heap sh !! p) as [b|] eqn:Hp; [|discriminate]. injection H as _ <-.
    destruct (Nat.pred (strong b) =? 0)%nat.
    + eapply (trans_quiet _ _ (OperatorHolder_dtor p (obj b)));
        [apply dtor_quiet | reflexivity | reflexivity
        | apply map_obj_insert_strong, Hp].
    + eapply (trans_quiet _ _ []); cbn; rewrite ?app_nil_r;
        auto using map_obj_insert_strong.
  - injection H as _ <-. apply trans_refl.
Qed.

Lemma eff_same {A} (m : M A) :
  (forall sh a sh', m sh = Some (a, sh') ->
                    heap sh' = heap sh /\ trace sh' = trace sh
                    /\ g_operator sh' = g_operator sh) ->
  eff m [] [].
Proof.
  intros H sh a sh' Hm. destruct (H _ _ _ Hm) as (Hh & Ht & Hg).
  eapply (trans_quiet _ _ []); rewrite ?app_nil_r, ?Hh; auto.
Qed.

Lemma eff_holder_name p : eff (holder_name p) [] [].
Proof.
  apply eff_same. intros sh a sh' H. apply holder_name_same in H. tauto.
Qed.

Lemma trans_slot ss extra sh sh' :
  trans ss extra sh sh' ->
  g_operator sh' = match last ss with Some v => v | None => g_operator sh end.
Proof.
  intros (evs & T & S & L & G & O). rewrite G, final_stores, S. reflexivity.
Qed.

Lemma eff_atomic_load who : eff (atomic_load who) [] [].
Proof.
  intros sh v sh' H. unfold atomic_load in H.
  apply bind_Some in H as (u & s & E & H). apply bind_Some in H as (u' & s0 & E0 & H).
  injection H as _ <-. injection E0 as _ <-.
  pose proof (trans_slot _ _ _ _ (eff_sp_copy _ _ _ _ E)) as G'. cbn in G'.
  destruct (eff_sp_copy _ _ _ _ E) as (evs & T & S & L & G & O).
  exists (evs ++ [EvLoad who (g_operator sh)]).
  cbn [add_events trace g_operator heap].
  rewrite T, app_assoc, stores_app, S, loads_ok_app, final_app, <- G.
  cbn. rewrite app_nil_r in O. rewrite app_nil_r. auto 10.
Qed.

Lemma eff_atomic_store who r : eff (atomic_store who r) [r] [].
Proof.
  intros sh v sh' H. unfold atomic_store in H.
  apply bind_Some in H as (u & s & E & H). apply bind_Some in H as (u' & s0 & E0 & H).
  apply bind_Some in H as (u'' & s1 & E1 & H).
  injection E0 as _ <-. injection E1 as _ <-.
  destruct (eff_sp_copy _ _ _ _ E) as (e1 & T1 & S1 & L1 & G1 & O1).
  destruct (eff_sp_release _ _ _ _ H) as (e2 & T2 & S2 & L2 & G2 & O2).
  cbn [add_events set_g_operator trace g_operator heap] in *.
  exists (e1 ++ [EvStore who r] ++ e2).
  rewrite T2, T1, <- !app_assoc, !stores_app, S1, S2.
  rewrite !loads_ok_app, !final_app, <- G1. cbn [stores final loads_ok app].
  rewrite G2, O2, O1. rewrite !app_nil_r. auto 10.
Qed.

Lemma load_outcome_obj dl so_file p :
  obj (load_outcome dl so_file p).1.2 = loaded_holder dl so_file.
Proof.
  unfold loaded_holder, load_outcome.
  destruct (dlopen dl so_file) as [h|]; [|reflexivity].
  destruct (dlsym_create_operator dl h), (dlsym_destroy_operator dl h); reflexivity.
Qed.

Lemma load_outcome_quiet dl so_file p :
  forallb is_quiet (load_outcome dl so_file p).2 = true.
Proof.
  unfold load_outcome.
  destruct (dlopen dl so_file) as [h|]; [|reflexivity].
  destruct (dlsym_create_operator dl h), (dlsym_destroy_operator dl h); reflexivity.
Qed.

Lemma eff_load_operator dl so_file :
  eff (load_operator dl so_file) [] [loaded_holder dl so_file].
Proof.
  intros sh r sh' H.
  destruct (load_operator_total dl so_file sh) as (r0 & b & evs & Ho & Heq).
  rewrite Heq in H. injection H as <- <-.
  pose proof (load_outcome_obj dl so_file (length (heap sh))) as Hobj.
  pose proof (load_outcome_quiet dl so_file (length (heap sh))) as Hq.
  rewrite Ho in Hobj, Hq. cbn in Hobj, Hq.
  destruct (quiet_facts (g_operator sh) evs Hq) as (H1 & H2 & H3).
  exists evs. cbn [trace g_operator heap]. rewrite H2, map_app. cbn [map].
  rewrite Hobj. auto.
Qed.

Lemma eff_modify_stats f :
  eff (modify (fun sh => set_g_stats (f (g_stats sh)) sh)) [] [].
Proof. apply eff_same. intros sh a sh' [= _ <-]. auto. Qed.

Lemma eff_call {A} (f : Method A) : eff (call f) [] [].
Proof.
  apply eff_same. intros sh a sh' H. unfold call in H.
  destruct (f (mem sh)) as [x m']. injection H as _ <-. auto.
Qed.

Lemma eff_deref p : eff (deref p) [] [].
Proof.
  apply eff_same. intros sh a sh' H. unfold deref in H.
  destruct (heap sh !! p); [|discriminate]. injection H as _ <-. auto.
Qed.

Lemma eff_bind_l {A B} (m : M A) (k : A -> M B) b y :
  eff m [] [] -> (forall v, eff (k v) b y) -> eff (bind m k) b y.
Proof. intros Hm Hk. exact (eff_bind m k [] b [] y Hm Hk). Qed.

Lemma eff_bind_r {A B} (m : M A) (k : A -> M B) a x :
  eff m a x -> (forall v, eff (k v) [] []) -> eff (bind m k) a x.
Proof.
  intros Hm Hk. pose proof (eff_bind m k a [] x [] Hm Hk) as H.
  rewrite !app_nil_r in H. exact H.
Qed.

Ltac eff_quiet :=
  repeat first
    [ apply eff_ret
    | apply eff_log
    | apply eff_emit; reflexivity
    | apply eff_sp_copy
    | apply eff_sp_release
    | apply eff_holder_name
    | apply eff_atomic_load
    | apply eff_modify_stats
    | apply eff_call
    | apply eff_deref
    | apply eff_bind_l; [| intros ?]
    | match goal with
      | |- eff (match ?x with _ => _ end) _ _ => destruct x
      | |- eff (if ?x then _ else _) _ _ => destruct x
      end ].

Lemma hot_update_step_eff dl who pc :
  eff (hot_update_step dl who pc) (hu_stores pc) (hu_objs dl pc).
Proof.
  destruct pc; cbn [hot_update_step hu_stores hu_objs];
    unfold incr_hot_update_count; try solve [eff_quiet].
  - apply eff_bind_l; [apply eff_log | intros _].
    apply eff_bind_r; [apply eff_load_operator | intros r]. eff_quiet.
  - apply eff_bind_r; [apply eff_atomic_store | intros _]. eff_quiet.
Qed.

Lemma worker_step_eff tid w : eff (worker_step tid w) [] [].
Proof.
  destruct w; cbn [worker_step];
    unfold incr_total_requests, apply_record_variant; eff_quiet.
Qed.

Lemma driver_step_eff dl who d :
  eff (driver_step dl who d) (driver_stores d) (driver_objs dl d).
Proof.
  destruct d as [[|f rest] | rest pc]; cbn [driver_step driver_stores driver_objs];
    try solve [eff_quiet].
  destruct pc; try (apply eff_bind_r; [apply hot_update_step_eff | intros; apply eff_ret]).
  destruct result; apply eff_ret.
Qed.

(* ===================================================================== *)
(** * The steps of the process as a relation *)
(* ===================================================================== *)

Lemma atomic_load_value who sh v sh' :
  atomic_load who sh = Some (v, sh') -> v = g_operator sh.
Proof.
  unfold atomic_load. intros H. inv_bind H. inv_bind H. injection H as <- _. reflexivity.
Qed.

Lemma hot_update_step_succ dl who pc sh pc' sh' :
  hot_update_step dl who pc sh = Some (pc', sh') -> pc' = hu_succ dl pc sh.
Proof.
  intros H. destruct pc; cbn [hot_update_step hu_succ] in *.
  - inv_bind H. inv_bind H. injection E as _ <-.
    destruct (load_operator_total dl so_file (add_events [EvLog "[HotUpdate] begin"] sh))
      as (r & b & evs & Ho & Heq).
    rewrite Heq in E0. injection E0 as <- <-.
    pose proof (load_outcome_result dl so_file
                  (length (heap (add_events [EvLog "[HotUpdate] begin"] sh)))) as Hr.
    rewrite Ho in Hr. cbn in Hr. subst r.
    destruct (load_fails dl so_file).
    + inv_bind H. injection H as <- _. reflexivity.
    + injection H as <- _. reflexivity.
  - inv_bind H. injection H as <- _. apply atomic_load_value in E. subst. reflexivity.
  - inv_bind H. injection H as <- _. reflexivity.
  - inv_bind H. injection H as <- _. reflexivity.
  - inv_bind H. inv_bind H. injection H as <- _. reflexivity.
  - inv_bind H. injection H as <- _. reflexivity.
  - inv_bind H. injection H as <- _. reflexivity.
  - injection H as <- _. reflexivity.
Qed.

Lemma driver_step_move dl who d sh d' sh' :
  driver_step dl who d sh = Some (DriverContinues d', sh') ->
  driver_move dl who sh d d' sh'.
Proof.
  intros H. destruct d as [[|f rest] | rest pc]; cbn [driver_step] in H.
  - discriminate.
  - injection H as <- <-. constructor.
  - assert (Hgen : forall pc0,
              (let* pc' := hot_update_step dl who pc0 in
               ret (DriverContinues (D_in rest pc'))) sh
              = Some (DriverContinues d', sh') ->
              (forall b, pc0 <> HU_ret b) ->
              driver_move dl who sh (D_in rest pc0) d' sh').
    { intros pc0 Hb Hne. inv_bind Hb. injection Hb as <- <-.
      pose proof (hot_update_step_succ _ _ _ _ _ _ E) as ->.
      constructor; assumption. }
    destruct pc; try (apply Hgen; [exact H | discriminate]).
    destruct result; [|discriminate]. injection H as <- <-. constructor.
Qed.

Lemma step_inv dl l st st' : step dl l st = Some st' -> step_rel dl st st'.
Proof.
  intros Hs. unfold step in Hs. destruct (crashed st); [discriminate|].
  destruct l as [| | tid].
  - destruct (main_pc st) as [d | | |] eqn:Hm.
    + destruct (driver_step dl TMain d (shared st)) as [[[d' | |] sh']|] eqn:Hd;
        injection Hs as <-; try apply SR_crash.
      * eapply SR_main_drive; [exact Hm | apply driver_step_move, Hd].
      * destruct d as [[|? ?] | ? pc]; cbn in Hd.
        -- injection Hd as <-. apply SR_main_loaded, Hm.
        -- discriminate.
        -- destruct pc; try (inv_bind Hd; discriminate). destruct result; discriminate.
    + injection Hs as <-. apply SR_spawn, Hm.
    + destruct (forallb is_done (workers st) && driver_done (controller st)) eqn:Hdone;
        [|discriminate].
      apply andb_prop in Hdone as [Hwd Hcd].
      destruct ((let* _ := sp_release (g_operator (shared st)) in
                 modify (set_g_operator None)) (shared st)) as [[u sh']|] eqn:Hr;
        injection Hs as <-; [|apply SR_crash].
      inv_bind Hr. injection Hr as _ <-. destruct a. eapply SR_exit; eauto.
    + discriminate.
  - destruct (controller st) as [d|] eqn:Hk; [|discriminate].
    destruct (driver_step dl TController d (shared st)) as [[[d' | |] sh']|] eqn:Hd;
      try discriminate; injection Hs as <-; try apply SR_crash.
    eapply SR_controller; [exact Hk | apply driver_step_move, Hd].
  - destruct (workers st !! tid) as [w|] eqn:Hw; [|discriminate].
    destruct (worker_step tid w (shared st)) as [[w' sh']|] eqn:Hws.
    + destruct w; try (injection Hs as <-; eapply SR_worker; eauto; reflexivity).
      discriminate.
    + destruct w; try (injection Hs as <-; apply SR_crash). discriminate.
Qed.

Lemma driver_move_trans dl who sh d d' sh' :
  driver_move dl who sh d d' sh' ->
  trans (driver_stores d) (driver_objs dl d) sh sh'.
Proof.
  intros H. destruct H as [f rest | rest | rest pc sh' Hs Hne]; cbn;
    try apply trans_refl.
  eapply hot_update_step_eff, Hs.
Qed.

Lemma trans_length ss extra sh sh' :
  trans ss extra sh sh' ->
  length (heap sh') = (length (heap sh) + length extra)%nat.
Proof.
  intros (evs & _ & _ & _ & _ & O).
  apply (f_equal (@length _)) in O. rewrite length_app, !length_map in O. exact O.
Qed.

Lemma trans_stores ss extra sh sh' :
  trans ss extra sh sh' -> stores (trace sh') = stores (trace sh) ++ ss.
Proof. intros (evs & T & S & _). rewrite T, stores_app, S. reflexivity. Qed.

(* ===================================================================== *)
(** * The slot and the trace agree *)
(* ===================================================================== *)

Lemma trans_slot_ok ss extra sh sh' :
  trans ss extra sh sh' ->
  loads_ok None (trace sh) -> g_operator sh = final None (trace sh) ->
  loads_ok None (trace sh') /\ g_operator sh' = final None (trace sh').
Proof.
  intros (evs & T & S & L & G & O) HL HG.
  rewrite T, loads_ok_app, final_app, <- HG. auto.
Qed.

Lemma driver_move_not_done dl who sh d d' sh' :
  driver_move dl who sh d d' sh' -> driver_done (Some d) = false.
Proof. intros H. destruct H; reflexivity. Qed.

Lemma step_slot_ok dl st st' :
  threads_ok st -> slot_ok st -> step_rel dl st st' -> slot_ok st'.
Proof.
  intros Ht [HL HG] Hs. unfold slot_ok, threads_ok in *.
  destruct Hs as [ | d d' sh' Hm Hd | Hm | Hm | u sh1 Hm Hw Hc Hr
                 | d d' sh' Hk Hd | tid w w' sh' Hw Hnd Hws];
    cbn [shared main_pc crash_state].
  - auto.
  - rewrite Hm in HG. apply driver_move_trans in Hd.
    destruct (trans_slot_ok _ _ _ _ Hd HL (HG ltac:(discriminate))). auto.
  - rewrite Hm in HG. split; [exact HL|]. intros _. apply HG. discriminate.
  - rewrite Hm in HG. split; [exact HL|]. intros _. apply HG. discriminate.
  - rewrite Hm in HG. split; [|intros H; contradiction].
    destruct (trans_slot_ok _ _ _ _ (eff_sp_release _ _ _ _ Hr) HL
                (HG ltac:(discriminate))) as [H1 _].
    exact H1.
  - destruct (main_pc st) eqn:Hm.
    + destruct Ht as [_ Ht]. congruence.
    + destruct Ht as [_ Ht]. congruence.
    + apply driver_move_trans in Hd.
      destruct (trans_slot_ok _ _ _ _ Hd HL (HG ltac:(discriminate))). auto.
    + destruct Ht as (_ & Ht & _). rewrite Hk in Ht.
      apply driver_move_not_done in Hd. congruence.
  - destruct (main_pc st) eqn:Hm.
    + destruct Ht as [Ht _]. rewrite Ht in Hw. discriminate.
    + destruct Ht as [Ht _]. rewrite Ht in Hw. discriminate.
    + destruct (trans_slot_ok _ _ _ _ (worker_step_eff _ _ _ _ _ Hws) HL
                  (HG ltac:(discriminate))). auto.
    + destruct Ht as (Ht & _). rewrite (forallb_done_lookup _ _ _ Ht Hw) in Hnd.
      discriminate.
Qed.

(* ===================================================================== *)
(** * Every bundle is published at most once *)
(* ===================================================================== *)

Lemma allocated_mono hp hp' v :
  (length hp <= length hp')%nat -> allocated hp v -> allocated hp' v.
Proof. intros Hl (q & -> & Hq). exists q. split; [reflexivity | lia]. Qed.

Lemma fresh_perm hp tr P P' : P ≡ₚ P' -> fresh hp tr P -> fresh hp tr P'.
Proof. intros HP [H1 H2]. split; rewrite <- HP; assumption. Qed.

Lemma fresh_trans_quiet extra sh sh' P :
  trans [] extra sh sh' ->
  fresh (heap sh) (trace sh) P -> fresh (heap sh') (trace sh') P.
Proof.
  intros Ht [H1 H2]. pose proof (trans_length _ _ _ _ Ht) as Hl.
  pose proof (trans_stores _ _ _ _ Ht) as Hs. rewrite app_nil_r in Hs.
  split; rewrite Hs; [exact H1|].
  eapply Forall_impl; [exact H2|]. intros v. apply allocated_mono. lia.
Qed.

Lemma driver_move_fresh dl who sh d d' sh' F :
  driver_move dl who sh d d' sh' ->
  fresh (heap sh) (trace sh) (driver_pending d ++ F) ->
  fresh (heap sh') (trace sh') (driver_pending d' ++ F).
Proof.
  intros Hm Hf. destruct Hm as [f rest | rest | rest pc sh' Hs Hne]; try exact Hf.
  pose proof (hot_update_step_eff _ _ _ _ _ _ Hs) as Ht.
  pose proof (trans_length _ _ _ _ Ht) as Hl.
  pose proof (trans_stores _ _ _ _ Ht) as Hst.
  destruct pc; cbn [driver_pending hu_pending hu_succ hu_stores hu_objs length] in *;
    try (eapply fresh_trans_quiet; eassumption).
  - (* load_operator: the new block is distinct from all others *)
    destruct Hf as [H1 H2]. rewrite app_nil_r in Hst.
    assert (H2' : Forall (allocated (heap sh')) (map Some F ++ stores (trace sh'))).
    { rewrite Hst. eapply Forall_impl; [exact H2|]. intros v. apply allocated_mono. lia. }
    destruct (load_fails dl so_file); cbn [driver_pending hu_pending app map].
    + split; [rewrite Hst; exact H1 | exact H2'].
    + split.
      * rewrite Hst. apply NoDup_cons. split; [|exact H1].
        intros Hin. rewrite Forall_forall in H2.
        destruct (H2 _ Hin) as (q & [= <-] & Hq). lia.
      * apply Forall_cons. split; [|exact H2'].
        exists (length (heap sh)). split; [reflexivity | lia].
  - (* atomic_store: the candidate becomes published *)
    destruct Hf as [H1 H2]. cbn [app map] in *. split.
    + rewrite Hst. rewrite app_assoc.
      apply NoDup_app. apply NoDup_cons in H1 as [Hn H1].
      split; [exact H1|]. split; [|apply NoDup_singleton].
      intros x Hx Hx'. apply list_elem_of_singleton in Hx'. subst x. contradiction.
    + rewrite Hst, app_assoc. apply Forall_app. apply Forall_cons in H2 as [Hn H2].
      split; [|apply Forall_singleton].
      * eapply Forall_impl; [exact H2|]. intros v. apply allocated_mono. lia.
      * eapply allocated_mono; [|exact Hn]. lia.
Qed.

Lemma step_fresh_ok dl st st' :
  threads_ok st -> fresh_ok st -> step_rel dl st st' -> fresh_ok st'.
Proof.
  intros Hth Hf Hs. unfold fresh_ok, pending, threads_ok in *.
  destruct Hs as [ | d d' sh' Hm Hd | Hm | Hm | u sh1 Hm Hw Hc Hr
                 | d d' sh' Hk Hd | tid w w' sh' Hw Hnd Hws];
    cbn [shared main_pc controller crash_state heap trace set_g_operator].
  - exact Hf.
  - rewrite Hm in Hf. eapply driver_move_fresh; eassumption.
  - rewrite Hm in Hf. exact Hf.
  - rewrite Hm in Hf, Hth. destruct Hth as [_ Hk]. rewrite Hk in Hf. exact Hf.
  - rewrite Hm in Hf. destruct (controller st) as [[[|? ?]|? ?]|]; try discriminate.
    eapply fresh_trans_quiet; [eapply eff_sp_release, Hr | exact Hf].
  - rewrite Hk in Hf.
    eapply fresh_perm; [apply Permutation_app_comm|].
    eapply driver_move_fresh; [exact Hd|].
    eapply fresh_perm; [apply Permutation_app_comm | exact Hf].
  - eapply fresh_trans_quiet; [eapply worker_step_eff, Hws | exact Hf].
Qed.

Lemma Inv_all_init : Inv_all State_init.
Proof.
  split; [apply Inv_init|]. split.
  - split; cbn; auto.
  - split; cbn; constructor.
Qed.

Lemma step_Inv_all dl l st st' : Inv_all st -> step dl l st = Some st' -> Inv_all st'.
Proof.
  intros (HI & HS & HF) Hs. pose proof (step_inv _ _ _ _ Hs) as Hr.
  split; [eapply step_Inv; eauto|]. split.
  - eapply step_slot_ok; [apply HI | exact HS | exact Hr].
  - eapply step_fresh_ok; [apply HI | exact HF | exact Hr].
Qed.

Lemma reachable_Inv_all dl st : reachable dl st -> Inv_all st.
Proof.
  intros [sched Hr]. eapply (run_preserves Inv_all dl); [|apply Inv_all_init|exact Hr].
  intros l s s'. apply step_Inv_all.
Qed.

(* ===================================================================== *)
(** * Exactly-once teardown *)
(* ===================================================================== *)

Lemma roots_exited st :
  threads_ok st -> main_pc st = Main_exited -> roots st = [].
Proof.
  unfold threads_ok, roots. intros Ht Hm. rewrite Hm in *.
  destruct Ht as (Hw & Hc & Hg). rewrite Hg, (workers_roots_done _ Hw).
  destruct (controller st) as [[[|? ?]|? ?]|]; try discriminate. reflexivity.
Qed.

(* ===================================================================== *)
(** * Monotonic visibility *)
(* ===================================================================== *)

(** C2: in the trace of any reachable state, a load of [g_operator] that
    comes after a store of [p] returns the value of the latest store before
    the load, which is [p] or a value stored after [p]; the value it
    returns is a bundle, and it is none of the bundles stored before the
    store of [p]. *)
Theorem snapshot_after_publish_not_older
  (dl : DynLinker) (st : State) (t1 t2 t3 : list Event)
  (writer reader : Thread) (p v : option ptr) :
  reachable dl st ->
  trace (shared st) = t1 ++ EvStore writer p :: t2 ++ EvLoad reader v :: t3 ->
  last (stores (EvStore writer p :: t2)) = Some v
  /\ (v ∈ p :: stores t2)
  /\ (v ∉ stores t1)
  /\ (exists q, v = Some q /\ (q < length (heap (shared st)))%nat).
Proof.
  intros Hr Ht. destruct (reachable_Inv_all dl st Hr) as (_ & [HL _] & [HN HA]).
  rewrite Ht in HL, HN, HA.
  apply loads_ok_app in HL as [_ HL]. cbn [loads_ok final] in HL.
  apply loads_ok_app in HL as [_ HL]. cbn [loads_ok] in HL. destruct HL as [Hv _].
  rewrite final_stores in Hv.
  assert (Hlast : last (stores (EvStore writer p :: t2)) = Some v).
  { cbn [stores]. destruct (stores t2) as [|x l] eqn:E; cbn in *; [congruence|].
    change (last (p :: x :: l)) with (last (x :: l)).
    destruct (last (x :: l)) as [y|] eqn:El; [congruence|].
    apply last_None in El. discriminate El. }
  assert (Hin : v ∈ (p :: stores t2)).
  { apply last_Some_elem_of in Hlast. exact Hlast. }
  rewrite stores_app in HN, HA. cbn [stores] in HN, HA.
  rewrite stores_app in HN, HA. cbn [stores] in HN, HA.
  apply NoDup_app in HN as (_ & _ & HN).
  apply NoDup_app in HN as (_ & Hdis & _).
  repeat split; try assumption.
  - intros H1. apply (Hdis v H1).
    apply elem_of_cons in Hin as [-> | Hin]; [left|].
    right. apply elem_of_app. left. exact Hin.
  - rewrite Forall_forall in HA. apply HA.
    apply elem_of_app. right. apply elem_of_app. right.
    apply elem_of_cons in Hin as [-> | Hin]; [left|].
    right. apply elem_of_app. left. exact Hin.
Qed.

Lemma snapshot_after_publish_not_older_witness :
  last (stores (EvStore TMain (Some 0%nat) :: [EvLog "[HotUpdate] switched"]))
  = Some (Some 0%nat)
  /\ (Some 0%nat ∈ Some 0%nat :: stores [EvLog "[HotUpdate] switched"])
  /\ (Some 0%nat ∉ stores [EvLog "[HotUpdate] begin";
                            EvDlopen "./score_op_v1.so" (Some 1%nat);
                            EvCreate 1%nat false; EvLoad TMain None])
  /\ (exists q, Some 0%nat = Some q
                /\ (q < length (heap (shared first_snapshot_state)))%nat).
Proof.
  apply (snapshot_after_publish_not_older demo_linker first_snapshot_state
           [EvLog "[HotUpdate] begin"; EvDlopen "./score_op_v1.so" (Some 1%nat);
            EvCreate 1%nat false; EvLoad TMain None]
           [EvLog "[HotUpdate] switched"] []
           TMain (TWorker 0) (Some 0%nat) (Some 0%nat)).
  - exists first_snapshot_schedule. vm_compute. reflexivity.
  - vm_compute. reflexivity.
Defined.

(* ===================================================================== *)
(** * Which steps touch the statistics *)
(* ===================================================================== *)

Lemma keeps_ret {A} (a : A) : keeps_stats (ret a).
Proof. intros sh x sh' [= _ <-]. reflexivity. Qed.

Lemma keeps_bind {A B} (m : M A) (k : A -> M B) :
  keeps_stats m -> (forall v, keeps_stats (k v)) -> keeps_stats (bind m k).
Proof.
  intros Hm Hk sh b sh' H. apply bind_Some in H as (v & s & E & H).
  rewrite (Hk _ _ _ _ H). eapply Hm, E.
Qed.

Lemma keeps_emit evs : keeps_stats (emit evs).
Proof. intros sh a sh' [= _ <-]. reflexivity. Qed.

Lemma keeps_sp_copy v : keeps_stats (sp_copy v).
Proof.
  intros sh a sh' H. destruct v as [p|]; cbn in H.
  - destruct (heap sh !! p); [|discriminate]. injection H as _ <-. reflexivity.
  - injection H as _ <-. reflexivity.
Qed.

Lemma keeps_sp_release v : keeps_stats (sp_release v).
Proof.
  intros sh a sh' H. destruct v as [p|]; cbn in H.
  - destruct (heap sh !! p) as [b|]; [|discriminate]. injection H as _ <-.
    destruct (Nat.pred (strong b) =? 0)%nat; reflexivity.
  - injection H as _ <-. reflexivity.
Qed.

Lemma keeps_holder_name p : keeps_stats (holder_name p).
Proof. intros sh a sh' H. apply holder_name_same in H. tauto. Qed.

Lemma keeps_call {A} (f : Method A) : keeps_stats (call f).
Proof.
  intros sh a sh' H. unfold call in H. destruct (f (mem sh)). injection H as _ <-.
  reflexivity.
Qed.

Lemma keeps_deref p : keeps_stats (deref p).
Proof.
  intros sh a sh' H. unfold deref in H. destruct (heap sh !! p); [|discriminate].
  injection H as _ <-. reflexivity.
Qed.

Lemma keeps_modify_slot v : keeps_stats (modify (set_g_operator v)).
Proof. intros sh a sh' [= _ <-]. reflexivity. Qed.

Lemma keeps_atomic_load who : keeps_stats (atomic_load who).
Proof.
  intros sh v sh' H. unfold atomic_load in H. revert H.
  apply (keeps_bind _ _ (keeps_sp_copy _)). intros _.
  apply (keeps_bind _ _ (keeps_emit _)). intros _. apply keeps_ret.
Qed.

Lemma keeps_atomic_store who r : keeps_stats (atomic_store who r).
Proof.
  intros sh v sh' H. unfold atomic_store in H. revert H.
  apply (keeps_bind _ _ (keeps_sp_copy _)). intros _.
  apply (keeps_bind _ _ (keeps_modify_slot _)). intros _.
  apply (keeps_bind _ _ (keeps_emit _)). intros _. apply keeps_sp_release.
Qed.

Lemma keeps_load_operator dl f : keeps_stats (load_operator dl f).
Proof.
  intros sh r sh' H.
  destruct (load_operator_total dl f sh) as (r0 & b & evs & _ & Heq).
  rewrite Heq in H. injection H as _ <-. reflexivity.
Qed.

Ltac keeps :=
  repeat first
    [ apply keeps_ret
    | apply keeps_emit
    | apply keeps_sp_copy
    | apply keeps_sp_release
    | apply keeps_holder_name
    | apply keeps_call
    | apply keeps_deref
    | apply keeps_atomic_load
    | apply keeps_atomic_store
    | apply keeps_load_operator
    | apply keeps_bind; [| intros ?]
    | match goal with
      | |- keeps_stats (match ?x with _ => _ end) => destruct x
      | |- keeps_stats (if ?x then _ else _) => destruct x
      end ].

(** [hot_update] touches the statistics at line 105 only. *)
Lemma hot_update_step_stats dl who pc sh pc' sh' :
  hot_update_step dl who pc sh = Some (pc', sh') ->
  g_stats sh' = match pc with
                | HU_stored _ _ => inc_hot_update_count (g_stats sh)
                | _ => g_stats sh
                end.
Proof.
  destruct pc; cbn [hot_update_step]; unfold log;
    try (revert sh pc' sh';
         match goal with
         | |- forall sh pc' sh', ?m sh = Some (pc', sh') -> _ =>
             change (keeps_stats m)
         end; keeps).
  intros H. inv_bind H. injection H as _ <-. injection E as _ <-. reflexivity.
Qed.

(** A worker touches the statistics in [record_request] only. *)
Lemma worker_step_stats tid w sh w' sh' :
  worker_step tid w sh = Some (w', sh') ->
  g_stats sh' = match w with
                | W_record _ _ _ => inc_total_requests (g_stats sh)
                | W_variant _ _ _ nm => record_variant nm (g_stats sh)
                | _ => g_stats sh
                end.
Proof.
  destruct w; cbn [worker_step]; unfold log;
    try (revert sh w' sh';
         match goal with
         | |- forall sh w' sh', ?m sh = Some (w', sh') -> _ =>
             change (keeps_stats m)
         end; keeps).
  - intros H. inv_bind H. inv_bind H. injection H as _ <-. injection E0 as _ <-.
    apply keeps_holder_name in E. cbn. rewrite E. reflexivity.
  - intros H. inv_bind H. injection H as _ <-. injection E as _ <-. reflexivity.
Qed.

(** The next program point of a worker. *)
Lemma worker_step_next tid w sh w' sh' :
  worker_step tid w sh = Some (w', sh') ->
  match w with
  | W_loop i =>
      w' = if Nat.ltb i total_rounds then W_check i (g_operator sh) else W_done
  | W_check i None => w' = W_loop (S i)
  | W_check i (Some p) =>
      exists b, heap sh !! p = Some b
                /\ match op (obj b) with
                   | Some _ => exists score, w' = W_record i p score
                   | None => w' = W_loop (S i)
                   end
  | W_record i p score => exists nm, w' = W_variant i p score nm
  | W_variant i p score _ => w' = W_print i p score
  | W_print i p _ => w' = W_loop (S i)
  | W_done => w' = W_done
  end.
Proof.
  intros H. destruct w as [i | i [p|] | i p sc | i p sc nm | i p sc |];
    cbn [worker_step] in H.
  - destruct (i <? total_rounds)%nat.
    + inv_bind H. injection H as <- _. apply atomic_load_value in E. subst. reflexivity.
    + inv_bind H. injection H as <- _. reflexivity.
  - inv_bind H. unfold deref in E. destruct (heap sh !! p) as [b|]; [|discriminate].
    injection E as <- <-. exists b. split; [reflexivity|].
    destruct (op (obj b)).
    + inv_bind H. inv_bind H. injection H as <- _. eexists. reflexivity.
    + inv_bind H. inv_bind H. injection H as <- _. reflexivity.
  - inv_bind H. inv_bind H. injection H as <- _. reflexivity.
  - inv_bind H. inv_bind H. injection H as <- _. eexists. reflexivity.
  - inv_bind H. injection H as <- _. reflexivity.
  - inv_bind H. inv_bind H. inv_bind H. injection H as <- _. reflexivity.
  - injection H as <- _. reflexivity.
Qed.

(* ===================================================================== *)
(** * The scripted demo run *)
(* ===================================================================== *)

Lemma incr64_small x : 0 <= x < 100 -> incr64 x = x + 1.
Proof. intros H. unfold incr64, uint64_modulus. apply Z.mod_small. lia. Qed.

Lemma heap_good_trans ss extra sh sh' :
  trans ss extra sh sh' ->
  Forall (fun hd => op hd <> None) extra ->
  Forall (fun hd => op hd <> None) (map obj (heap sh)) ->
  Forall (fun hd => op hd <> None) (map obj (heap sh')).
Proof.
  intros (evs & _ & _ & _ & _ & O) He Hh. rewrite O. apply Forall_app. auto.
Qed.

Lemma trans_slot_set ss extra sh sh' :
  trans ss extra sh sh' ->
  Forall (fun v => v <> None) ss ->
  g_operator sh <> None -> g_operator sh' <> None.
Proof.
  intros Ht Hss Hg. rewrite (trans_slot _ _ _ _ Ht).
  destruct (last ss) as [v|] eqn:El; [|exact Hg].
  apply last_Some_elem_of in El. rewrite Forall_forall in Hss. apply Hss, El.
Qed.

Ltac splits := repeat match goal with |- _ /\ _ => split end.

(** What a move of a driver does to the quantities of the demo. *)
Lemma driver_move_demo dl who sh d d' sh' :
  driver_move dl who sh d d' sh' ->
  driver_good dl d ->
  0 <= hot_update_count (g_stats sh) < 100 ->
  driver_good dl d'
  /\ Forall (fun hd => op hd <> None) (driver_objs dl d)
  /\ Forall (fun v => v <> None) (driver_stores d)
  /\ total_requests (g_stats sh') = total_requests (g_stats sh)
  /\ hot_update_count (g_stats sh') + Z.of_nat (driver_updates_left d')
     = hot_update_count (g_stats sh) + Z.of_nat (driver_updates_left d)
  /\ hot_update_count (g_stats sh) <= hot_update_count (g_stats sh')
  /\ ((driver_published d = true -> g_operator sh <> None) ->
      driver_published d' = true -> g_operator sh' <> None).
Proof.
  intros Hm Hg Hc. destruct Hm as [f rest | rest | rest pc sh' Hs Hne].
  - cbn in *. apply Forall_cons in Hg as [Hf Hr].
    splits; auto; try lia; try discriminate.
  - cbn in *. destruct Hg as [Hr _]. splits; auto; try lia.
  - pose proof (hot_update_step_stats _ _ _ _ _ _ Hs) as Hst.
    pose proof (hot_update_step_eff _ _ _ _ _ _ Hs) as Ht.
    pose proof (trans_slot _ _ _ _ Ht) as Hslot.
    destruct Hg as [Hr Hpc].
    destruct pc; cbn [driver_good driver_objs driver_stores hu_objs hu_stores hu_succ
                      driver_updates_left hu_uncounted driver_published hu_published
                      last] in *;
      rewrite ?Hst; try rewrite Hslot;
      try (splits; auto; try lia; try discriminate; fail).
    + (* entry *)
      destruct Hpc as [Hf Hop]. rewrite Hf.
      splits; auto; try lia; try discriminate.
    + (* hot_update_count++ *)
      cbn [inc_hot_update_count hot_update_count total_requests].
      rewrite incr64_small by lia. splits; auto; lia.
Qed.

Lemma workers_rounds_left_insert ws : forall tid w w',
  ws !! tid = Some w ->
  (workers_rounds_left (<[tid := w']> ws) + worker_rounds_left w
   = workers_rounds_left ws + worker_rounds_left w')%nat.
Proof.
  induction ws as [|x ws IH]; intros tid w w' Hw; [discriminate|].
  destruct tid as [|tid]; cbn in Hw.
  - injection Hw as ->. cbn. lia.
  - change (<[S tid := w']> (x :: ws)) with (x :: <[tid := w']> ws).
    cbn [workers_rounds_left]. specialize (IH tid w w' Hw). lia.
Qed.

Lemma workers_rounds_left_done ws :
  forallb is_done ws = true -> workers_rounds_left ws = 0%nat.
Proof.
  induction ws as [|w ws IH]; [reflexivity|]. cbn [forallb workers_rounds_left].
  intros H. apply andb_prop in H as [Hw Hr]. destruct w; try discriminate.
  cbn. auto.
Qed.

Lemma record_variant_keeps nm s :
  total_requests (record_variant nm s) = total_requests s
  /\ hot_update_count (record_variant nm s) = hot_update_count s.
Proof.
  unfold record_variant.
  destruct (String.eqb nm "ScoreOperatorV1"); [split; reflexivity|].
  destruct (String.eqb nm "ScoreOperatorV2"); split; reflexivity.
Qed.

(** What a step of a worker does to the quantities of the demo. *)
Lemma worker_step_demo tid w sh w' sh' :
  worker_step tid w sh = Some (w', sh') ->
  worker_ok w ->
  g_operator sh <> None ->
  Forall (fun hd => op hd <> None) (map obj (heap sh)) ->
  0 <= total_requests (g_stats sh) < 100 ->
  worker_ok w'
  /\ hot_update_count (g_stats sh') = hot_update_count (g_stats sh)
  /\ total_requests (g_stats sh) <= total_requests (g_stats sh')
  /\ total_requests (g_stats sh') + Z.of_nat (worker_rounds_left w')
     = total_requests (g_stats sh) + Z.of_nat (worker_rounds_left w).
Proof.
  intros Hs Hw Hg Hh Hc.
  pose proof (worker_step_stats _ _ _ _ _ Hs) as Hst.
  pose proof (worker_step_next _ _ _ _ _ Hs) as Hn.
  destruct w as [i | i [p|] | i p sc | i p sc nm | i p sc |];
    cbn [worker_ok worker_rounds_left] in *; rewrite Hst.
  - destruct (Nat.ltb_spec i total_rounds); subst w'; cbn [worker_ok worker_rounds_left].
    + splits; auto; lia.
    + splits; auto; lia.
  - destruct Hn as (b & Hp & Hn).
    assert (Hop : op (obj b) <> None).
    { rewrite Forall_forall in Hh. apply Hh. apply list_elem_of_fmap.
      exists b. split; [reflexivity|]. eapply list_elem_of_lookup_2, Hp. }
    destruct (op (obj b)); [|contradiction]. destruct Hn as [score ->].
    cbn [worker_ok worker_rounds_left]. splits; try tauto; lia.
  - destruct Hw as [Hw _]. contradiction.
  - destruct Hn as [nm ->]. cbn [worker_ok worker_rounds_left inc_total_requests
                                 total_requests hot_update_count].
    rewrite incr64_small by lia. unfold total_rounds in *. splits; auto; lia.
  - subst w'. destruct (record_variant_keeps nm (g_stats sh)) as [-> ->].
    cbn [worker_ok worker_rounds_left]. splits; auto; lia.
  - subst w'. cbn [worker_ok worker_rounds_left]. splits; auto; lia.
  - subst w'. cbn [worker_ok worker_rounds_left]. splits; auto; lia.
Qed.

Lemma demo_inv_init dl : all_loads_succeed dl -> demo_inv dl State_init.
Proof.
  intros H. unfold all_loads_succeed in H. apply Forall_app in H as [Hm Hc].
  constructor; cbn; auto; try lia.
Qed.

Lemma demo_counts_small dl st :
  demo_inv dl st ->
  0 <= hot_update_count (g_stats (shared st)) < 100
  /\ 0 <= total_requests (g_stats (shared st)) < 100.
Proof.
  intros H. pose proof (updates_nonneg _ _ H). pose proof (requests_nonneg _ _ H).
  pose proof (updates_eq _ _ H). pose proof (requests_eq _ _ H). lia.
Qed.

Lemma step_demo_inv dl st st' :
  all_loads_succeed dl ->
  threads_ok st -> demo_inv dl st -> step_rel dl st st' -> demo_inv dl st'.
Proof.
  intros Hall Ht HI Hs.
  destruct (demo_counts_small dl st HI) as [Hcs Hts].
  destruct HI as [Hh Hm Hk Hw Hun Hrn Hue Hre].
  unfold threads_ok, updates_left, requests_left in *.
  destruct Hs as [ | d d' sh' Hpc Hd | Hpc | Hpc | u sh1 Hpc Hwd Hcd Hr
                 | d d' sh' Hkc Hd | tid w w' sh' Hwl Hnd Hws].
  - (* crash *)
    constructor; cbn [crash_state shared main_pc workers controller]; assumption.
  - (* main runs hot_update *)
    rewrite Hpc in *. destruct Hm as [Hg Hp].
    destruct (driver_move_demo _ _ _ _ _ _ Hd Hg Hcs)
      as (Hg' & Ho & Hss & Htot & Hcnt & Hle & Hpub).
    constructor; unfold updates_left, requests_left;
      cbn [shared main_pc workers controller]; auto; try lia.
    eapply heap_good_trans; [apply (driver_move_trans _ _ _ _ _ _ Hd) | exact Ho | exact Hh].
  - (* the initial load is done *)
    rewrite Hpc in *. destruct Hm as [Hg Hp].
    constructor; unfold updates_left, requests_left;
      cbn [shared main_pc workers controller] in *; auto; lia.
  - (* threads are started *)
    rewrite Hpc in *.
    unfold all_loads_succeed in Hall. apply Forall_app in Hall as [_ Hc].
    constructor; unfold updates_left, requests_left;
      cbn [shared main_pc workers controller driver_good] in *; auto; try lia.
    repeat constructor.
  - (* main returns *)
    rewrite Hpc in *.
    pose proof (keeps_sp_release _ _ _ _ Hr) as Hst.
    constructor; unfold updates_left, requests_left;
      cbn [shared main_pc workers controller g_stats set_g_operator heap];
      rewrite ?Hst; auto.
    eapply heap_good_trans; [apply (eff_sp_release _ _ _ _ Hr) | constructor | exact Hh].
  - (* the controller runs hot_update *)
    rewrite Hkc in *.
    destruct (driver_move_demo _ _ _ _ _ _ Hd Hk Hcs)
      as (Hg' & Ho & Hss & Htot & Hcnt & Hle & Hpub).
    pose proof (driver_move_trans _ _ _ _ _ _ Hd) as Htr.
    destruct (main_pc st) eqn:Hpc.
    + destruct Ht as [_ Ht]. discriminate Ht.
    + destruct Ht as [_ Ht]. discriminate Ht.
    + constructor; unfold updates_left, requests_left;
        cbn [shared main_pc workers controller]; rewrite ?Hpc; auto; try lia.
      * eapply heap_good_trans; eauto.
      * eapply trans_slot_set; eauto.
    + destruct Ht as (_ & Ht & _). apply driver_move_not_done in Hd. congruence.
  - (* a worker *)
    destruct (main_pc st) eqn:Hpc.
    + destruct Ht as [Ht _]. rewrite Ht in Hwl. discriminate.
    + destruct Ht as [Ht _]. rewrite Ht in Hwl. discriminate.
    + assert (Hwok : worker_ok w).
      { rewrite Forall_forall in Hw. apply Hw. eapply list_elem_of_lookup_2, Hwl. }
      destruct (worker_step_demo _ _ _ _ _ Hws Hwok Hm Hh Hts)
        as (Hok' & Hcnt & Hle & Htot).
      pose proof (worker_step_eff _ _ _ _ _ Hws) as Htr.
      pose proof (workers_rounds_left_insert _ _ _ w' Hwl) as Hsum.
      constructor; unfold updates_left, requests_left;
        cbn [shared main_pc workers controller]; rewrite ?Hpc; auto; try lia.
      * eapply heap_good_trans; [exact Htr | constructor | exact Hh].
      * rewrite (trans_slot _ _ _ _ Htr). exact Hm.
      * apply Forall_insert; assumption.
    + destruct Ht as (Ht & _). rewrite (forallb_done_lookup _ _ _ Ht Hwl) in Hnd.
      discriminate.
Qed.

Lemma reachable_demo_inv dl st :
  all_loads_succeed dl -> reachable dl st -> demo_inv dl st.
Proof.
  intros Hall [sched Hr].
  assert (H : Inv st /\ demo_inv dl st); [|apply H].
  eapply (run_preserves (fun s => Inv s /\ demo_inv dl s) dl);
    [| split; [apply Inv_init | apply demo_inv_init, Hall] | exact Hr].
  intros l s s' [HI HD] Hs. split; [eapply step_Inv; eauto|].
  eapply step_demo_inv; [exact Hall | apply HI | exact HD | eapply step_inv, Hs].
Qed.

Lemma demo_linker_loads_succeed : all_loads_succeed demo_linker.
Proof. repeat constructor; discriminate. Qed.

Lemma demo_final_reachable : reachable demo_linker demo_final.
Proof. exists demo_schedule. vm_compute. reflexivity. Qed.

(** One complete run of the demo, with every load succeeding: it ends
    with [hot_update_count] equal to 4, not 3. *)
Lemma demo_run_counts_four_updates :
  all_loads_succeed demo_linker
  /\ run demo_linker demo_schedule State_init = Some demo_final
  /\ main_pc demo_final = Main_exited
  /\ crashed demo_final = false
  /\ total_requests (g_stats (shared demo_final)) = 80
  /\ hot_update_count (g_stats (shared demo_final)) = 4
  /\ hot_update_count (g_stats (shared demo_final)) <> 3.
Proof.
  split; [apply demo_linker_loads_succeed|].
  split; [vm_compute; reflexivity|].
  vm_compute. repeat split; discriminate.
Qed.

(* ===================================================================== *)
(** * The plug-in's destructor is called by the holder's destructor only *)
(* ===================================================================== *)

Lemma destroy_count_app p t1 t2 :
  destroy_count p (t1 ++ t2) = (destroy_count p t1 + destroy_count p t2)%nat.
Proof.
  induction t1 as [|e t1 IH]; cbn; [reflexivity|].
  destruct e; cbn; rewrite ?IH; lia.
Qed.

Lemma destroy_count_dtor p q hd :
  destroy_count p (OperatorHolder_dtor q hd)
  = if Nat.eqb p q && has_instance hd then 1%nat else 0%nat.
Proof.
  unfold OperatorHolder_dtor, has_instance.
  destruct (op hd), (destroy_func hd), (handle hd); cbn;
    destruct (Nat.eqb p q); reflexivity.
Qed.

Lemma kd_ret {A} (a : A) : keeps_destroys (ret a).
Proof. intros sh x sh' H [= _ <-]. exact H. Qed.

Lemma kd_bind {A B} (m : M A) (k : A -> M B) :
  keeps_destroys m -> (forall v, keeps_destroys (k v)) -> keeps_destroys (bind m k).
Proof.
  intros Hm Hk sh b sh' H Hb. apply bind_Some in Hb as (v & s & E & Hb).
  eapply Hk; [|exact Hb]. eapply Hm; eauto.
Qed.

Lemma kd_emit evs : no_teardown evs -> keeps_destroys (emit evs).
Proof.
  intros Hn sh a sh' H [= _ <-] p. specialize (H p). cbn [heap trace add_events].
  destruct (Hn p) as [H1 H2].
  rewrite destroy_count_app, dtor_count_app, H1, H2, !Nat.add_0_r. exact H.
Qed.

Lemma kd_same {A} (m : M A) :
  (forall sh a sh', m sh = Some (a, sh') -> heap sh' = heap sh /\ trace sh' = trace sh) ->
  keeps_destroys m.
Proof.
  intros Hs sh a sh' H Hm p. destruct (Hs _ _ _ Hm) as [-> ->]. apply H.
Qed.

Lemma kd_sp_copy v : keeps_destroys (sp_copy v).
Proof.
  intros sh a sh' H Hs p0. destruct v as [p|]; cbn in Hs.
  - destruct (heap sh !! p) as [b|] eqn:Hp; [|discriminate]. injection Hs as _ <-.
    unfold set_heap. cbn [heap trace]. specialize (H p0).
    destruct (Nat.eq_dec p0 p) as [-> | Hne].
    + rewrite list_lookup_insert_eq by (eapply lookup_lt_Some, Hp).
      rewrite Hp in H. exact H.
    + rewrite list_lookup_insert_ne by congruence. exact H.
  - injection Hs as _ <-. apply H.
Qed.

Lemma kd_sp_release v : keeps_destroys (sp_release v).
Proof.
  intros sh a sh' H Hs p0. destruct v as [p|]; unfold sp_release, ret in Hs.
  - destruct (heap sh !! p) as [b|] eqn:Hp; [|discriminate]. injection Hs as _ <-.
    specialize (H p0).
    assert (Hlt : (p < length (heap sh))%nat) by (eapply lookup_lt_Some, Hp).
    destruct (Nat.pred (strong b) =? 0)%nat; unfold add_events, set_heap; cbn [heap trace].
    + rewrite destroy_count_app, dtor_count_app, destroy_count_dtor, dtor_count_dtor.
      destruct (Nat.eqb_spec p0 p) as [E | Hne]; [subst p0|].
      * rewrite list_lookup_insert_eq by exact Hlt. rewrite Hp in H.
        cbn [set_strong obj andb]. destruct (has_instance (obj b)); lia.
      * rewrite list_lookup_insert_ne by congruence. cbn [andb].
        rewrite !Nat.add_0_r. exact H.
    + destruct (Nat.eq_dec p0 p) as [-> | Hne].
      * rewrite list_lookup_insert_eq by exact Hlt. rewrite Hp in H. exact H.
      * rewrite list_lookup_insert_ne by congruence. exact H.
  - injection Hs as _ <-. apply H.
Qed.

Lemma kd_load_operator dl f : keeps_destroys (load_operator dl f).
Proof.
  intros sh r sh' H Hl p.
  destruct (load_operator_total dl f sh) as (r0 & b & evs & Ho & Heq).
  rewrite Heq in Hl. injection Hl as _ <-. cbn [heap trace].
  rewrite destroy_count_app, dtor_count_app.
  assert (Hev : destroy_count p evs = 0%nat
                /\ (dtor_count p evs = 0%nat
                    \/ (p = length (heap sh) /\ has_instance (obj b) = false))).
  { unfold load_outcome in Ho.
    destruct (dlopen dl f) as [h|].
    - destruct (dlsym_create_operator dl h) as [c|], (dlsym_destroy_operator dl h) as [d|];
        injection Ho as <- <- <-; cbn;
        (split; [reflexivity|]);
        try (left; reflexivity);
        destruct (Nat.eqb_spec p (length (heap sh))); auto.
    - injection Ho as <- <- <-. cbn. split; [reflexivity|].
      destruct (Nat.eqb_spec p (length (heap sh))); auto. }
  destruct Hev as [Hd Ht]. rewrite Hd, Nat.add_0_r. specialize (H p).
  destruct (Nat.lt_ge_cases p (length (heap sh))) as [Hlt | Hge].
  - rewrite lookup_app_l by exact Hlt.
    destruct Ht as [-> | [-> _]]; [|lia]. rewrite Nat.add_0_r. exact H.
  - rewrite (proj2 (lookup_ge_None _ _) Hge) in H. destruct H as [H1 H2].
    destruct (Nat.eq_dec p (length (heap sh))) as [-> | Hne].
    + rewrite lookup_at_end, H1, H2.
      destruct Ht as [-> | [_ ->]]; [|reflexivity].
      destruct (has_instance (obj b)); reflexivity.
    + rewrite (proj2 (lookup_ge_None _ _)) by (rewrite length_app; cbn; lia).
      destruct Ht as [-> | [-> _]]; [|contradiction]. lia.
Qed.

Lemma kd_modify f :
  (forall sh, heap (f sh) = heap sh /\ trace (f sh) = trace sh) ->
  keeps_destroys (modify f).
Proof. intros Hf. apply kd_same. intros sh a sh' [= _ <-]. apply Hf. Qed.

Lemma kd_holder_name p : keeps_destroys (holder_name p).
Proof. apply kd_same. intros sh a sh' H. apply holder_name_same in H. tauto. Qed.

Lemma kd_call {A} (f : Method A) : keeps_destroys (call f).
Proof.
  apply kd_same. intros sh a sh' H. unfold call in H.
  destruct (f (mem sh)). injection H as _ <-. auto.
Qed.

Lemma kd_deref p : keeps_destroys (deref p).
Proof.
  apply kd_same. intros sh a sh' H. unfold deref in H.
  destruct (heap sh !! p); [|discriminate]. injection H as _ <-. auto.
Qed.

Ltac kd_tac :=
  repeat first
    [ apply kd_ret
    | apply kd_emit; intros ?; split; reflexivity
    | apply kd_sp_copy
    | apply kd_sp_release
    | apply kd_holder_name
    | apply kd_call
    | apply kd_deref
    | apply kd_load_operator
    | apply kd_modify; intros ?; split; reflexivity
    | apply kd_bind; [| intros ?]
    | match goal with
      | |- keeps_destroys (match ?x with _ => _ end) => destruct x
      | |- keeps_destroys (if ?x then _ else _) => destruct x
      | |- keeps_destroys (fun sh => bind _ _ sh) =>
          let s := fresh "s" in let a := fresh "a" in let s' := fresh "s'" in
          let H := fresh "H" in
          intros s a s' H; revert s' H; revert a
      end ].

Lemma kd_atomic_load who : keeps_destroys (atomic_load who).
Proof.
  intros sh v sh' H Hl. unfold atomic_load in Hl. revert H Hl.
  generalize (g_operator sh) at 1 2 3. intros g H Hl. revert sh v sh' H Hl.
  change (keeps_destroys (let* _ := sp_copy g in
                          let* _ := emit [EvLoad who g] in ret g)).
  kd_tac.
Qed.

Lemma kd_atomic_store who r : keeps_destroys (atomic_store who r).
Proof.
  intros sh v sh' H Hl. unfold atomic_store in Hl. revert H Hl.
  generalize (g_operator sh). intros g H Hl. revert sh v sh' H Hl.
  change (keeps_destroys (let* _ := sp_copy r in
                          let* _ := modify (set_g_operator r) in
                          let* _ := emit [EvStore who r] in sp_release g)).
  kd_tac.
Qed.

Lemma kd_hot_update_step dl who pc : keeps_destroys (hot_update_step dl who pc).
Proof.
  destruct pc; cbn [hot_update_step]; unfold incr_hot_update_count, log;
    repeat first [apply kd_atomic_load | apply kd_atomic_store | progress kd_tac].
Qed.

Lemma kd_worker_step tid w : keeps_destroys (worker_step tid w).
Proof.
  destruct w; cbn [worker_step];
    unfold incr_total_requests, apply_record_variant, log;
    repeat first [apply kd_atomic_load | apply kd_atomic_store | progress kd_tac].
Qed.

Lemma step_destroys_ok dl st st' :
  destroys_ok (shared st) -> step_rel dl st st' -> destroys_ok (shared st').
Proof.
  intros H Hs.
  destruct Hs as [ | d d' sh' Hm Hd | Hm | Hm | u sh1 Hm Hw Hc Hr
                 | d d' sh' Hk Hd | tid w w' sh' Hw Hnd Hws];
    cbn [shared crash_state]; try exact H.
  - destruct Hd; try exact H. eapply kd_hot_update_step; eauto.
  - intros p. cbn [heap trace set_g_operator]. eapply kd_sp_release; eauto.
  - destruct Hd; try exact H. eapply kd_hot_update_step; eauto.
  - eapply kd_worker_step; eauto.
Qed.

Lemma reachable_destroys_ok dl st : reachable dl st -> destroys_ok (shared st).
Proof.
  intros [sched Hr].
  eapply (run_preserves (fun s => destroys_ok (shared s)) dl); [| |exact Hr].
  - intros l s s' H Hs. eapply step_destroys_ok; [exact H | eapply step_inv, Hs].
  - intros p. cbn. rewrite lookup_nil. auto.
Qed.

(* ===================================================================== *)
(** * The scripted demo run never crashes *)
(* ===================================================================== *)

Lemma sp_copy_runs v sh R :
  cnt sh R -> (forall p, v = Some p -> (1 <= occ p R)%nat) ->
  exists sh', sp_copy v sh = Some (tt, sh').
Proof.
  intros H Hv. destruct v as [p|]; [|eexists; reflexivity].
  destruct (counted_owner_allocated _ _ _ p H (Hv p eq_refl)) as (b & Hp & _).
  cbn. rewrite Hp. eexists. reflexivity.
Qed.

Lemma sp_release_runs v sh R :
  cnt sh (oroot v ++ R) -> exists sh', sp_release v sh = Some (tt, sh').
Proof.
  intros H. destruct v as [p|]; [|eexists; reflexivity].
  assert (Hm : (1 <= occ p (oroot (Some p) ++ R))%nat)
    by (cbn; rewrite Nat.eqb_refl; lia).
  destruct (counted_owner_allocated _ _ _ p H Hm) as (b & Hp & _).
  unfold sp_release. rewrite Hp. eexists. reflexivity.
Qed.

Lemma atomic_load_runs who sh R :
  cnt sh R -> (forall p, g_operator sh = Some p -> (1 <= occ p R)%nat) ->
  exists v sh', atomic_load who sh = Some (v, sh').
Proof.
  intros H Hg. destruct (sp_copy_runs _ _ _ H Hg) as [s Hs].
  unfold atomic_load, bind. rewrite Hs. eexists _, _. reflexivity.
Qed.

Lemma atomic_store_runs who r sh R :
  cnt sh (oroot (g_operator sh) ++ R) ->
  (forall p, r = Some p -> (1 <= occ p R)%nat) ->
  exists sh', atomic_store who r sh = Some (tt, sh').
Proof.
  intros H Hr.
  assert (Hr' : forall p, r = Some p -> (1 <= occ p (oroot (g_operator sh) ++ R))%nat).
  { intros p Hp. specialize (Hr p Hp). rewrite occ_app. lia. }
  destruct (sp_copy_runs _ _ _ H Hr') as [s Hs].
  destruct (sp_copy_cnt _ _ _ _ _ H Hr' Hs) as [H1 G1].
  assert (H2 : cnt (add_events [EvStore who r] (set_g_operator r s))
                   (oroot (g_operator sh) ++ oroot r ++ R)).
  { unfold cnt, add_events, set_g_operator. cbn [heap trace].
    apply counted_events; [|reflexivity].
    eapply counted_perm; [exact H1|]. solve_occ. }
  destruct (sp_release_runs _ _ _ H2) as [s' Hs'].
  unfold atomic_store, bind. rewrite Hs. cbn [modify emit]. unfold modify. 
  exists s'. exact Hs'.
Qed.

Lemma holder_name_runs p sh R :
  cnt sh R -> (1 <= occ p R)%nat ->
  Forall (fun hd => op hd <> None) (map obj (heap sh)) ->
  exists n sh', holder_name p sh = Some (n, sh').
Proof.
  intros H Hm Hh.
  destruct (counted_owner_allocated _ _ _ p H Hm) as (b & Hp & _).
  assert (Hop : op (obj b) <> None).
  { rewrite Forall_forall in Hh. apply Hh. apply list_elem_of_fmap.
    exists b. split; [reflexivity|]. eapply list_elem_of_lookup_2, Hp. }
  unfold holder_name, bind, deref, call. rewrite Hp.
  destruct (op (obj b)) as [o|]; [|contradiction].
  destruct (name o (mem sh)) as [n m']. eexists _, _. reflexivity.
Qed.

Ltac occ_here := cbn [occ oroot hu_roots worker_roots app]; rewrite ?occ_app;
  cbn [occ oroot hu_roots worker_roots app]; rewrite ?Nat.eqb_refl; lia.

Lemma hot_update_step_runs dl who pc sh F :
  cnt sh (oroot (g_operator sh) ++ hu_roots pc ++ F) ->
  Forall (fun hd => op hd <> None) (map obj (heap sh)) ->
  exists pc' sh', hot_update_step dl who pc sh = Some (pc', sh').
Proof.
  intros H Hh. destruct pc as [f | n | n o | n o | n o | n o | n | b];
    cbn [hot_update_step hu_roots] in *.
  - unfold bind, log, emit, modify.
    destruct (load_operator_total dl f (add_events [EvLog "[HotUpdate] begin"] sh))
      as (r & b & evs & _ & ->).
    destruct r; eexists _, _; reflexivity.
  - destruct (atomic_load_runs who sh _ H) as (v & s & Hs).
    { intros p ->. occ_here. }
    unfold bind. rewrite Hs. eexists _, _. reflexivity.
  - destruct (atomic_store_runs who (Some n) sh _ H) as (s & Hs).
    { intros p [= ->]. occ_here. }
    unfold bind. rewrite Hs. eexists _, _. reflexivity.
  - eexists _, _. reflexivity.
  - destruct (holder_name_runs n sh _ H) as (nm & s & Hs); [occ_here | exact Hh |].
    unfold bind. rewrite Hs. eexists _, _. reflexivity.
  - destruct (sp_release_runs o sh (oroot (g_operator sh) ++ n :: F)) as (s & Hs).
    { eapply cnt_perm; [exact H|]. solve_occ. }
    unfold bind. rewrite Hs. eexists _, _. reflexivity.
  - destruct (sp_release_runs (Some n) sh (oroot (g_operator sh) ++ F)) as (s & Hs).
    { eapply cnt_perm; [exact H|]. solve_occ. }
    unfold bind. rewrite Hs. eexists _, _. reflexivity.
  - eexists _, _. reflexivity.
Qed.

Lemma worker_step_runs tid w sh F :
  cnt sh (oroot (g_operator sh) ++ worker_roots w ++ F) ->
  Forall (fun hd => op hd <> None) (map obj (heap sh)) ->
  exists w' sh', worker_step tid w sh = Some (w', sh').
Proof.
  intros H Hh. destruct w as [i | i [p|] | i p sc | i p sc nm | i p sc |];
    cbn [worker_step worker_roots] in *.
  - destruct (i <? total_rounds)%nat; [|eexists _, _; reflexivity].
    destruct (atomic_load_runs (TWorker tid) sh _ H) as (v & s & Hs).
    { intros p ->. occ_here. }
    unfold bind. rewrite Hs. eexists _, _. reflexivity.
  - assert (Hm : (1 <= occ p (oroot (g_operator sh) ++ oroot (Some p) ++ F))%nat)
      by occ_here.
    destruct (counted_owner_allocated _ _ _ p H Hm) as (b & Hp & _).
    unfold bind, deref. rewrite Hp.
    destruct (op (obj b)) as [o|].
    + unfold call. destruct (compute_score o _ _). eexists _, _. reflexivity.
    + unfold log, emit, modify, sp_release. cbn [heap add_events]. rewrite Hp.
      eexists _, _. reflexivity.
  - eexists _, _. reflexivity.
  - destruct (holder_name_runs p sh _ H) as (nm & s & Hs); [occ_here | exact Hh |].
    unfold bind. rewrite Hs. eexists _, _. reflexivity.
  - eexists _, _. reflexivity.
  - destruct (holder_name_runs p sh _ H) as (nm & s & Hs); [occ_here | exact Hh |].
    pose proof Hs as Hsame. apply holder_name_same in Hsame as (Eh & Et & Eg & _).
    destruct (sp_release_runs (Some p) (add_events [EvLog "round"] s)
                (oroot (g_operator sh) ++ F)) as (s' & Hs').
    { unfold cnt, add_events. cbn [heap trace]. rewrite Eh, Et.
      apply counted_events; [|reflexivity].
      eapply counted_perm; [exact H|]. solve_occ. }
    unfold bind. rewrite Hs. unfold log, emit, modify. rewrite Hs'.
    eexists _, _. reflexivity.
  - eexists _, _. reflexivity.
Qed.

Lemma driver_step_runs dl who d sh F :
  cnt sh (oroot (g_operator sh) ++ driver_roots d ++ F) ->
  Forall (fun hd => op hd <> None) (map obj (heap sh)) ->
  driver_good dl d ->
  exists r sh', driver_step dl who d sh = Some (r, sh') /\ r <> DriverAborts.
Proof.
  intros H Hh Hg. destruct d as [[|f rest] | rest pc]; cbn [driver_step].
  - eexists _, _. split; [reflexivity | discriminate].
  - eexists _, _. split; [reflexivity | discriminate].
  - destruct (hot_update_step_runs dl who pc sh F H Hh) as (pc' & s & Hs).
    destruct pc; try (unfold bind; rewrite Hs; eexists _, _;
                      split; [reflexivity | discriminate]).
    destruct Hg as [_ ->]. eexists _, _. split; [reflexivity | discriminate].
Qed.

Lemma step_no_crash dl l st st' :
  Inv st -> demo_inv dl st -> step dl l st = Some st' -> crashed st' = false.
Proof.
  intros [Hc Ht] HD Hs. unfold step in Hs.
  destruct (crashed st) eqn:Hcr; [discriminate|].
  pose proof (heap_good _ _ HD) as Hh.
  unfold refcounts_ok, roots in Hc.
  destruct l as [| | tid].
  - destruct (main_pc st) as [d | | |] eqn:Hm.
    + pose proof (main_good _ _ HD) as Hg. rewrite Hm in Hg. destruct Hg as [Hg _].
      destruct (driver_step_runs dl TMain d (shared st) _ Hc Hh Hg)
        as (r & sh' & Hd & Hr).
      rewrite Hd in Hs. destruct r; [| contradiction |]; injection Hs as <-; reflexivity.
    + injection Hs as <-. reflexivity.
    + destruct (forallb is_done (workers st) && driver_done (controller st));
        [|discriminate].
      destruct (sp_release_runs (g_operator (shared st)) (shared st) _ Hc) as [s Hr].
      unfold bind in Hs. rewrite Hr in Hs. injection Hs as <-. reflexivity.
    + discriminate.
  - destruct (controller st) as [d|] eqn:Hk; [|discriminate].
    pose proof (controller_good _ _ HD) as Hg. rewrite Hk in Hg.
    assert (Hc' : cnt (shared st)
              (oroot (g_operator (shared st)) ++ driver_roots d
               ++ main_roots (main_pc st) ++ workers_roots (workers st))).
    { eapply cnt_perm; [exact Hc|]. cbn [controller_roots]. solve_occ. }
    destruct (driver_step_runs dl TController d (shared st) _ Hc' Hh Hg)
      as (r & sh' & Hd & Hr).
    rewrite Hd in Hs. destruct r; [| contradiction | discriminate].
    injection Hs as <-. reflexivity.
  - destruct (workers st !! tid) as [w|] eqn:Hw; [|discriminate].
    destruct (workers_roots_insert _ _ _ Hw) as (F & HF1 & _).
    assert (Hc' : cnt (shared st)
              (oroot (g_operator (shared st)) ++ worker_roots w
               ++ main_roots (main_pc st) ++ controller_roots (controller st) ++ F)).
    { eapply cnt_perm; [exact Hc|]. intros p. rewrite !occ_app, HF1, !occ_app. lia. }
    destruct (worker_step_runs tid w (shared st) _ Hc' Hh) as (w' & sh' & Hws).
    rewrite Hws in Hs. destruct w; try (injection Hs as <-; reflexivity).
    discriminate.
Qed.

(** Under the hypothesis of the demo no reachable state is a crash: no
    null pointer is dereferenced and no [assert] fails, whatever the
    interleaving. *)
Lemma demo_never_crashes dl st :
  all_loads_succeed dl -> reachable dl st -> crashed st = false.
Proof.
  intros Hall [sched Hr].
  assert (H : (Inv st /\ demo_inv dl st) /\ crashed st = false); [|apply H].
  eapply (run_preserves (fun s => (Inv s /\ demo_inv dl s) /\ crashed s = false) dl);
    [| split; [split; [apply Inv_init | apply demo_inv_init, Hall] | reflexivity]
     | exact Hr].
  intros l s s' [[HI HD] Hcr] Hs. split; [split|].
  - eapply step_Inv; eauto.
  - eapply step_demo_inv; [exact Hall | apply HI | exact HD | eapply step_inv, Hs].
  - eapply step_no_crash; eauto.
Qed.

(* ===================================================================== *)
(** * Termination *)
(* ===================================================================== *)

Lemma workers_measure_insert ws : forall tid w w',
  ws !! tid = Some w ->
  (workers_measure (<[tid := w']> ws) + worker_measure w
   = workers_measure ws + worker_measure w')%nat.
Proof.
  induction ws as [|x ws IH]; intros tid w w' Hw; [discriminate|].
  destruct tid as [|tid]; cbn in Hw.
  - injection Hw as ->. cbn. lia.
  - change (<[S tid := w']> (x :: ws)) with (x :: <[tid := w']> ws).
    cbn [workers_measure]. specialize (IH tid w w' Hw). lia.
Qed.

Lemma hu_succ_rank dl pc sh :
  (forall b, pc <> HU_ret b) -> (hu_rank (hu_succ dl pc sh) < hu_rank pc)%nat.
Proof.
  intros Hne. destruct pc; cbn; try lia.
  - destruct (load_fails dl so_file); cbn; lia.
  - destruct (Hne result eq_refl).
Qed.

Lemma driver_move_measure dl who sh d d' sh' :
  driver_move dl who sh d d' sh' -> (driver_measure d' < driver_measure d)%nat.
Proof.
  intros H. destruct H as [f rest | rest | rest pc sh' Hs Hne]; cbn; try lia.
  pose proof (hu_succ_rank dl pc sh Hne). lia.
Qed.

Lemma worker_step_measure tid w sh w' sh' :
  worker_step tid w sh = Some (w', sh') -> is_done w = false ->
  (worker_measure w' < worker_measure w)%nat.
Proof.
  intros Hs Hnd. pose proof (worker_step_next _ _ _ _ _ Hs) as Hn.
  unfold total_rounds in *.
  destruct w as [i | i [p|] | i p sc | i p sc nm | i p sc |]; try discriminate.
  - destruct (Nat.ltb_spec i 20); subst w'; cbn; lia.
  - destruct Hn as (b & _ & Hn). destruct (op (obj b)).
    + destruct Hn as [score ->]. cbn. lia.
    + subst w'. cbn. lia.
  - subst w'. cbn. lia.
  - destruct Hn as [nm ->]. cbn. lia.
  - subst w'. cbn. lia.
  - subst w'. cbn. lia.
Qed.

(** Every step brings the process closer to its end. *)
Lemma step_measure dl l st st' :
  step dl l st = Some st' -> (measure st' < measure st)%nat.
Proof.
  intros Hs.
  assert (Hcr : crashed st = false).
  { unfold step in Hs. destruct (crashed st); [discriminate | reflexivity]. }
  apply step_inv in Hs. unfold measure. rewrite Hcr.
  destruct Hs as [ | d d' sh' Hm Hd | Hm | Hm | u sh1 Hm Hw Hc Hr
                 | d d' sh' Hk Hd | tid w w' sh' Hw Hnd Hws];
    cbn [crashed crash_state main_pc workers controller shared];
    rewrite ?Hm; cbn [main_measure]; try lia.
  - apply driver_move_measure in Hd. lia.
  - assert (Hsp : (workers_measure (replicate THREAD_NUM (W_loop 0))
                   + driver_measure (D_at controller_script))%nat = spawned_measure)
      by reflexivity.
    destruct (controller st); lia.
  - rewrite Hk. apply driver_move_measure in Hd. lia.
  - pose proof (worker_step_measure _ _ _ _ _ Hws Hnd).
    pose proof (workers_measure_insert _ _ _ w' Hw). lia.
Qed.

(** A run is never longer than the measure of the state it starts in. *)
Lemma run_bounded dl sched : forall st st',
  run dl sched st = Some st' -> (length sched + measure st' <= measure st)%nat.
Proof.
  induction sched as [|l rest IH]; intros st st' Hr; cbn in Hr.
  - injection Hr as <-. cbn. lia.
  - destruct (step dl l st) as [st1|] eqn:Hs; [|discriminate].
    pose proof (step_measure _ _ _ _ Hs). specialize (IH _ _ Hr). cbn [length]. lia.
Qed.

Lemma not_all_done ws :
  forallb is_done ws = false -> exists tid w, ws !! tid = Some w /\ is_done w = false.
Proof.
  induction ws as [|x ws IH]; [discriminate|]. cbn [forallb].
  destruct (is_done x) eqn:Hx; cbn [andb].
  - intros H. destruct (IH H) as (tid & w & Hw & Hd). exists (S tid), w. auto.
  - intros _. exists 0%nat, x. auto.
Qed.

(** No deadlock: as long as [main] has not returned and the process has
    not crashed, some thread can take a step. *)
Lemma can_step dl st :
  threads_ok st -> crashed st = false -> main_pc st <> Main_exited ->
  exists l st', step dl l st = Some st'.
Proof.
  intros Ht Hcr Hm. unfold threads_ok in Ht.
  destruct (main_pc st) as [d | | |] eqn:Hpc; [| | |contradiction].
  - exists L_main. unfold step. rewrite Hcr, Hpc.
    destruct (driver_step dl TMain d (shared st)) as [[[d' | |] sh']|];
      eexists; reflexivity.
  - exists L_main. unfold step. rewrite Hcr, Hpc. eexists. reflexivity.
  - destruct (forallb is_done (workers st)) eqn:Hw.
    + destruct (driver_done (controller st)) eqn:Hd.
      * exists L_main. unfold step. rewrite Hcr, Hpc, Hw, Hd. cbn [andb].
        destruct ((let* _ := sp_release (g_operator (shared st)) in
                   modify (set_g_operator None)) (shared st)) as [[u sh']|];
          eexists; reflexivity.
      * exists L_controller. unfold step. rewrite Hcr.
        destruct (controller st) as [d|]; [|contradiction].
        destruct d as [[|f rest] | rest pc]; [discriminate | |].
        -- eexists. reflexivity.
        -- destruct (driver_step dl TController (D_in rest pc) (shared st))
             as [[[d' | |] sh']|] eqn:Hs; try (eexists; reflexivity).
           exfalso. cbn [driver_step] in Hs.
           destruct pc; try (apply bind_Some in Hs as (? & ? & _ & Hs); discriminate).
           destruct result; discriminate.
    + destruct (not_all_done _ Hw) as (tid & w & Hl & Hnd).
      exists (L_worker tid). unfold step. rewrite Hcr, Hl.
      destruct (worker_step tid w (shared st)) as [[w' sh']|];
        destruct w; try discriminate; eexists; reflexivity.
Qed.

Lemma run_app dl s1 s2 st :
  run dl (s1 ++ s2) st
  = match run dl s1 st with Some st' => run dl s2 st' | None => None end.
Proof.
  revert st. induction s1 as [|l s1 IH]; intros st; cbn; [reflexivity|].
  destruct (step dl l st); [apply IH | reflexivity].
Qed.

Lemma reachable_step dl l st st' :
  reachable dl st -> step dl l st = Some st' -> reachable dl st'.
Proof.
  intros [sched Hr] Hs. exists (sched ++ [l]). rewrite run_app, Hr. cbn. rewrite Hs.
  reflexivity.
Qed.

(** In the demo, every reachable state can be run on until [main] has
    returned. *)
Lemma demo_reaches_exit dl :
  all_loads_succeed dl ->
  forall n st, (measure st <= n)%nat -> reachable dl st ->
  exists sched st', run dl sched st = Some st' /\ main_pc st' = Main_exited.
Proof.
  intros Hall. induction n as [|n IH]; intros st Hn Hr.
  - pose proof (demo_never_crashes dl st Hall Hr) as Hcr.
    unfold measure in Hn. rewrite Hcr in Hn. lia.
  - destruct (main_pc st) eqn:Hm;
      try (destruct (can_step dl st) as (l & st1 & Hs);
           [apply (reachable_Inv dl st Hr)
           | apply (demo_never_crashes dl st Hall Hr)
           | rewrite Hm; discriminate |];
           pose proof (step_measure _ _ _ _ Hs) as Hlt;
           destruct (IH st1 ltac:(lia) (reachable_step _ _ _ _ Hr Hs))
             as (sched & st' & Hrun & Hex);
           exists (l :: sched), st'; cbn; rewrite Hs; auto).
    exists [], st. auto.
Qed.

(* ===================================================================== *)
(** * load_operator, case by case *)
(* ===================================================================== *)

(** [load_operator] always returns, and returns [nullptr] exactly when
    [dlopen] fails or one of the two symbols is missing. Whatever the
    outcome it adds one block to the heap and events to the trace, and
    touches nothing else: not the slot, not the statistics, not a block
    that existed. It calls [dlopen] once. *)
Theorem load_operator_result (dl : DynLinker) (so_file : string) (sh : Shared) :
  exists r b evs,
    load_operator dl so_file sh
    = Some (r, mkShared (heap sh ++ [b]) (g_operator sh) (g_stats sh) (mem sh)
                        (trace sh ++ evs))
    /\ (r = None <->
        (dlopen dl so_file = None
         \/ exists h, dlopen dl so_file = Some h
                      /\ (dlsym_create_operator dl h = None
                          \/ dlsym_destroy_operator dl h = None)))
    /\ (r = None \/ r = Some (length (heap sh)))
    /\ List.filter is_dlopen evs = [EvDlopen so_file (dlopen dl so_file)].
Proof.
  destruct (load_operator_total dl so_file sh) as (r & b & evs & Ho & Hl).
  exists r, b, evs. split; [exact Hl|]. unfold load_outcome in Ho.
  destruct (dlopen dl so_file) as [h|] eqn:Hopen.
  - destruct (dlsym_create_operator dl h) as [c|] eqn:Hc;
      [destruct (dlsym_destroy_operator dl h) as [d|] eqn:Hd|];
      injection Ho as <- <- <-; cbn.
    + split; [|auto]. split; [discriminate|].
      intros [H | (h' & [= <-] & [H | H])]; congruence.
    + split; [|auto]. split; [|reflexivity]. intros _. right. exists h. auto.
    + split; [|auto]. split; [|reflexivity]. intros _. right. exists h. auto.
  - injection Ho as <- <- <-. cbn. split; [|auto]. split; auto.
Qed.

(** When [dlopen] fails, [load_operator] returns [nullptr] without
    looking up a symbol, calling the factory or closing anything; the
    holder it had made is destroyed on the way out, and its destructor finds
    nothing to release. *)
Theorem load_operator_dlopen_failure (dl : DynLinker) (so_file : string) (sh : Shared) :
  dlopen dl so_file = None ->
  load_operator dl so_file sh
  = Some (None,
          mkShared (heap sh ++ [mkBlock (mkHolder None None None) 0])
                   (g_operator sh) (g_stats sh) (mem sh)
                   (trace sh ++ [EvDlopen so_file None; EvLog "dlerror";
                                 EvDtor (length (heap sh))])).
Proof.
  intros Hopen. apply load_operator_eq. unfold load_outcome. rewrite Hopen. reflexivity.
Qed.

Lemma load_operator_dlopen_failure_witness :
  load_operator demo_linker "/nonexistent.module" v1_installed
  = Some (None,
          mkShared (heap v1_installed ++ [mkBlock (mkHolder None None None) 0])
                   (g_operator v1_installed) (g_stats v1_installed)
                   (mem v1_installed)
                   (trace v1_installed
                    ++ [EvDlopen "/nonexistent.module" None; EvLog "dlerror";
                        EvDtor (length (heap v1_installed))])).
Proof.
  apply (load_operator_dlopen_failure demo_linker "/nonexistent.module" v1_installed).
  reflexivity.
Defined.

Lemma load_outcome_loaded dl so_file p h c d :
  dlopen dl so_file = Some h ->
  dlsym_create_operator dl h = Some c ->
  dlsym_destroy_operator dl h = Some d ->
  load_outcome dl so_file p
  = (Some p, mkBlock (mkHolder (Some h) (c tt) (Some d)) 1,
     [EvDlopen so_file (Some h); EvCreate h (is_null (c tt))]).
Proof. intros Hopen Hc Hd. unfold load_outcome. rewrite Hopen, Hc, Hd. reflexivity. Qed.

(** When the module opens and both symbols resolve, [load_operator] calls
    the factory once and returns a new bundle of which the caller is the
    only owner; the bundle holds the handle, whatever the factory returned
    and the module's [destroy_operator]. Nothing is closed or destroyed. *)
Theorem load_operator_success
  (dl : DynLinker) (so_file : string) (sh : Shared) (h : Handle)
  (c : CreateFunc) (d : DestroyFunc) :
  dlopen dl so_file = Some h ->
  dlsym_create_operator dl h = Some c ->
  dlsym_destroy_operator dl h = Some d ->
  load_operator dl so_file sh
  = Some (Some (length (heap sh)),
          mkShared (heap sh ++ [mkBlock (mkHolder (Some h) (c tt) (Some d)) 1])
                   (g_operator sh) (g_stats sh) (mem sh)
                   (trace sh ++ [EvDlopen so_file (Some h);
                                 EvCreate h (is_null (c tt))])).
Proof.
  intros Hopen Hc Hd. apply load_operator_eq. unfold load_outcome.
  rewrite Hopen, Hc, Hd. reflexivity.
Qed.

Lemma load_operator_success_witness :
  load_operator demo_linker "./score_op_v2.so" v1_installed
  = Some (Some (length (heap v1_installed)),
          mkShared (heap v1_installed
                    ++ [mkBlock (mkHolder (Some 2%nat)
                                          (create_operator_v2 sin_model tt)
                                          (Some destroy_operator)) 1])
                   (g_operator v1_installed) (g_stats v1_installed)
                   (mem v1_installed)
                   (trace v1_installed
                    ++ [EvDlopen "./score_op_v2.so" (Some 2%nat);
                        EvCreate 2%nat (is_null (create_operator_v2 sin_model tt))])).
Proof.
  apply (load_operator_success demo_linker "./score_op_v2.so" v1_installed 2%nat
           (create_operator_v2 sin_model) destroy_operator); reflexivity.
Defined.

(* ===================================================================== *)
(** * Statistics: the order of the requests does not matter *)
(* ===================================================================== *)

Lemma record_request_comm a b s :
  record_request a (record_request b s) = record_request b (record_request a s).
Proof.
  unfold record_request, record_variant.
  destruct (String.eqb a "ScoreOperatorV1"), (String.eqb a "ScoreOperatorV2"),
    (String.eqb b "ScoreOperatorV1"), (String.eqb b "ScoreOperatorV2"); reflexivity.
Qed.

(** The counters after a batch of requests depend on which names were
    recorded and how often, not on the order in which the threads got to
    record them. *)
Theorem record_all_order_irrelevant (names names' : list string) (s : Statistics) :
  names ≡ₚ names' -> record_all names s = record_all names' s.
Proof.
  intros HP. revert s. induction HP as [| x l l' _ IH | x y l | l l' l'' _ IH1 _ IH2];
    intros s; unfold record_all in *; cbn [fold_left].
  - reflexivity.
  - apply IH.
  - rewrite record_request_comm. reflexivity.
  - rewrite IH1. apply IH2.
Qed.

Lemma record_all_order_irrelevant_witness :
  record_all ["ScoreOperatorV1"; "ScoreOperatorV2"; "ScoreOperatorV1"] Statistics_init
  = record_all ["ScoreOperatorV2"; "ScoreOperatorV1"; "ScoreOperatorV1"] Statistics_init.
Proof.
  apply (record_all_order_irrelevant
           ["ScoreOperatorV1"; "ScoreOperatorV2"; "ScoreOperatorV1"]
           ["ScoreOperatorV2"; "ScoreOperatorV1"; "ScoreOperatorV1"] Statistics_init).
  apply perm_swap.
Defined.

(* ===================================================================== *)
(** * hot_update: a successful call *)
(* ===================================================================== *)

Lemma holder_name_at p sh b o :
  heap sh !! p = Some b -> op (obj b) = Some o ->
  holder_name p sh = Some (fst (name o (mem sh)), set_mem (snd (name o (mem sh))) sh).
Proof.
  intros Hp Ho. unfold holder_name, bind, deref, call. rewrite Hp, Ho.
  destruct (name o (mem sh)); reflexivity.
Qed.

Lemma lookup_obj (hp : list Block) p hd :
  map obj hp !! p = Some hd -> exists b, hp !! p = Some b /\ obj b = hd.
Proof.
  intros H. change (map obj hp) with (obj <$> hp) in H.
  apply list_lookup_fmap_Some in H as (b & -> & Hb). eauto.
Qed.

(** A call of [hot_update] whose load succeeds with an instance, run to
    its end from a state in which every count equals the number of owners
    ([R] lists the owners besides the slot): it returns [true]; the slot
    holds the new bundle, which nobody else owns; [hot_update_count] has
    gone up by one and no other counter has changed; the bundle that was
    in the slot has lost one owner and has been torn down if and only if
    that was its last. *)
Theorem hot_update_success
  (dl : DynLinker) (who : Thread) (so_file : string) (sh : Shared)
  (h : Handle) (c : CreateFunc) (d : DestroyFunc) (o : IScoreOperator)
  (R : list ptr) :
  dlopen dl so_file = Some h ->
  dlsym_create_operator dl h = Some c ->
  dlsym_destroy_operator dl h = Some d ->
  c tt = Some o ->
  cnt sh (oroot (g_operator sh) ++ R) ->
  exists sh',
    hot_update dl who so_file sh = Some (true, sh')
    /\ g_operator sh' = Some (length (heap sh))
    /\ g_stats sh' = inc_hot_update_count (g_stats sh)
    /\ cnt sh' (length (heap sh) :: R)
    /\ map obj (heap sh')
       = map obj (heap sh) ++ [mkHolder (Some h) (Some o) (Some d)]
    /\ stores (trace sh') = stores (trace sh) ++ [Some (length (heap sh))]
    /\ (forall q, g_operator sh = Some q ->
                  dtor_count q (trace sh')
                  = if Nat.eqb (occ q R) 0 then 1%nat else 0%nat).
Proof.
  intros Hopen Hc Hd Ho H.
  set (p := length (heap sh)).
  set (hd := mkHolder (Some h) (Some o) (Some d)).
  (* the load *)
  set (sh0 := add_events [EvLog "[HotUpdate] begin"] sh).
  assert (E0 : log "[HotUpdate] begin" sh = Some (tt, sh0)) by reflexivity.
  destruct (log_cnt _ _ _ _ _ H E0) as [H0 G0].
  pose proof (load_operator_eq dl so_file sh0 _ _ _
                (load_outcome_loaded dl so_file _ h c d Hopen Hc Hd)) as E1.
  rewrite Ho in E1. change (length (heap sh0)) with p in E1.
  match type of E1 with _ = Some (_, ?s) => set (sh1 := s) in * end.
  destruct (load_operator_cnt _ _ _ _ _ _ H0 E1) as [H1 G1].
  (* old_holder = atomic_load *)
  destruct (atomic_load_runs who sh1 _ H1) as (v & sh2 & E2).
  { intros q Hq. rewrite G1, G0 in Hq. rewrite Hq. solve_occ. }
  destruct (atomic_load_cnt _ _ _ _ _ H1 ltac:(intros q Hq; rewrite G1, G0 in Hq; rewrite Hq; solve_occ) E2)
    as (Hv & G2 & H2).
  rewrite G1, G0 in Hv. subst v.
  (* atomic_store *)
  assert (H2' : cnt sh2 (oroot (g_operator sh2) ++ p :: oroot (g_operator sh) ++ R)).
  { rewrite G2, G1, G0. eapply cnt_perm; [exact H2|]. solve_occ. }
  assert (Hnew : forall q, Some p = Some q ->
                           (1 <= occ q (p :: oroot (g_operator sh) ++ R))%nat).
  { intros q [= <-]. cbn [occ]. rewrite Nat.eqb_refl. lia. }
  destruct (atomic_store_runs who (Some p) sh2 _ H2' Hnew) as (sh3 & E3).
  destruct (atomic_store_cnt _ _ _ _ _ _ H2' Hnew E3) as (G3 & H3).
  (* hot_update_count++ *)
  set (sh4 := set_g_stats (inc_hot_update_count (g_stats sh3)) sh3).
  (* the heap objects so far *)
  pose proof (eff_atomic_load who _ _ _ E2) as T2.
  pose proof (eff_atomic_store who _ _ _ _ E3) as T3.
  assert (Hobj : map obj (heap sh3) = map obj (heap sh) ++ [hd]).
  { destruct T2 as (? & _ & _ & _ & _ & M2). destruct T3 as (? & _ & _ & _ & _ & M3).
    rewrite M3, M2, !app_nil_r. subst sh1 sh0. cbn [heap add_events].
    rewrite map_app. reflexivity. }
  destruct (lookup_obj (heap sh3) p hd) as (b & Hb & Hbo).
  { rewrite Hobj. apply list_lookup_middle. subst p. rewrite length_map. reflexivity. }
  (* new_holder->op->name() *)
  pose proof (holder_name_at p sh4 b o Hb ltac:(rewrite Hbo; reflexivity)) as E5.
  match type of E5 with _ = Some (_, ?s) => set (sh5 := s) in * end.
  set (sh6 := add_events [EvLog "[HotUpdate] switched"] sh5).
  assert (H6 : cnt sh6 (oroot (g_operator sh) ++ p :: p :: R)).
  { unfold cnt. subst sh6 sh5 sh4. cbn [heap trace add_events set_mem set_g_stats].
    apply counted_events; [|reflexivity].
    eapply counted_perm; [exact H3|]. solve_occ. }
  destruct (sp_release_runs _ _ _ H6) as (sh7 & E7).
  destruct (sp_release_cnt _ _ _ _ _ H6 E7) as (H7 & G7).
  destruct (sp_release_runs (Some p) sh7 (p :: R) H7) as (sh8 & E8).
  destruct (sp_release_cnt (Some p) _ _ _ (p :: R) H7 E8) as (H8 & G8).
  pose proof (eff_sp_release _ _ _ _ E7) as T7.
  pose proof (eff_sp_release _ _ _ _ E8) as T8.
  assert (T06 : trans [] [hd] sh sh1).
  { exists (EvLog "[HotUpdate] begin" :: [EvDlopen so_file (Some h); EvCreate h false]).
    subst sh1 sh0 hd. cbn. rewrite <- app_assoc, map_app. splits; auto. }
  assert (T36 : trans [] [] sh3 sh6).
  { exists [EvLog "[HotUpdate] switched"]. unfold sh6, sh5, sh4. cbn. rewrite app_nil_r. splits; auto. }
  pose proof (trans_comp _ _ _ _ _ _ _
                (trans_comp _ _ _ _ _ _ _
                   (trans_comp _ _ _ _ _ _ _
                      (trans_comp _ _ _ _ _ _ _
                         (trans_comp _ _ _ _ _ _ _ T06 T2) T3) T36) T7) T8) as T.
  cbn [app] in T.
  exists sh8. splits.
  - unfold hot_update, bind. rewrite E0, E1, E2, E3.
    unfold incr_hot_update_count, modify. fold sh4. rewrite E5.
    unfold log, emit, modify. fold sh6. rewrite E7, E8. reflexivity.
  - rewrite G8, G7. exact G3.
  - rewrite (keeps_sp_release _ _ _ _ E8), (keeps_sp_release _ _ _ _ E7).
    subst sh6 sh5 sh4. cbn [g_stats add_events set_mem set_g_stats].
    rewrite (keeps_atomic_store _ _ _ _ _ E3), (keeps_atomic_load _ _ _ _ E2).
    reflexivity.
  - exact H8.
  - destruct T as (? & _ & _ & _ & _ & M). exact M.
  - apply (trans_stores _ _ _ _ T).
  - intros q Hq. destruct (H8 q) as [Hs Hdt]. rewrite Hdt.
    destruct (H q) as [Hs0 _]. rewrite Hq in Hs0. cbn in Hs0.
    rewrite Nat.eqb_refl in Hs0.
    assert (Hlt : (q < p)%nat).
    { destruct (Nat.lt_ge_cases q p) as [|Hge]; [assumption|].
      rewrite strong_at_outside in Hs0 by exact Hge. lia. }
    unfold expected_dtors. rewrite Hs. cbn [occ].
    replace (Nat.eqb q p) with false by (symmetry; apply Nat.eqb_neq; lia).
    rewrite (trans_length _ _ _ _ T). cbn [length].
    replace (q <? length (heap sh) + 1)%nat with true
      by (symmetry; apply Nat.ltb_lt; fold p; lia).
    reflexivity.
Qed.

Lemma v1_installed_cnt : cnt v1_installed (oroot (g_operator v1_installed) ++ []).
Proof.
  intros q. destruct q as [|q]; [split; reflexivity|]. split; reflexivity.
Qed.

Lemma hot_update_success_witness :
  exists sh',
    hot_update demo_linker TController "./score_op_v2.so" v1_installed
    = Some (true, sh')
    /\ g_operator sh' = Some (length (heap v1_installed))
    /\ g_stats sh' = inc_hot_update_count (g_stats v1_installed)
    /\ cnt sh' (length (heap v1_installed) :: [])
    /\ map obj (heap sh')
       = map obj (heap v1_installed)
         ++ [mkHolder (Some 2%nat) (Some (ScoreOperatorV2 sin_model))
                      (Some destroy_operator)]
    /\ stores (trace sh')
       = stores (trace v1_installed) ++ [Some (length (heap v1_installed))]
    /\ (forall q, g_operator v1_installed = Some q ->
                  dtor_count q (trace sh')
                  = if Nat.eqb (occ q []) 0 then 1%nat else 0%nat).
Proof.
  apply (hot_update_success demo_linker TController "./score_op_v2.so" v1_installed
           2%nat (create_operator_v2 sin_model) destroy_operator
           (ScoreOperatorV2 sin_model) []); try reflexivity.
  exact v1_installed_cnt.
Defined.

(* ===================================================================== *)
(** * One worker running alone *)
(* ===================================================================== *)

Lemma worker_steps_S tid n pc sh :
  worker_steps tid (S n) pc sh
  = match worker_step tid pc sh with
    | Some (pc', sh') => worker_steps tid n pc' sh'
    | None => None
    end.
Proof. reflexivity. Qed.

Lemma worker_step_snapshot tid i sh p b :
  (i < total_rounds)%nat -> g_operator sh = Some p -> heap sh !! p = Some b ->
  worker_step tid (W_loop i) sh
  = Some (W_check i (Some p),
          mkShared (<[p := mkBlock (obj b) (S (strong b))]> (heap sh)) (g_operator sh)
                   (g_stats sh) (mem sh)
                   (trace sh ++ [EvLoad (TWorker tid) (Some p)])).
Proof.
  intros Hi Hg Hp. apply Nat.ltb_lt in Hi. cbn [worker_step]. rewrite Hi.
  destruct sh as [hp g st m tr]. cbn [heap g_operator] in *. subst g.
  unfold atomic_load, bind, sp_copy, emit, modify, ret. cbn [heap g_operator].
  rewrite Hp. reflexivity.
Qed.

Lemma worker_step_compute tid i sh p b o :
  heap sh !! p = Some b -> op (obj b) = Some o ->
  worker_step tid (W_check i (Some p)) sh
  = Some (W_record i p (compute_score o (make_feature tid i) (mem sh)).1,
          mkShared (heap sh) (g_operator sh) (g_stats sh)
                   (compute_score o (make_feature tid i) (mem sh)).2
                   (trace sh ++ [EvCompute tid p i])).
Proof.
  intros Hp Ho. cbn [worker_step]. unfold bind, deref, call, emit, modify, ret.
  rewrite Hp, Ho. destruct sh as [hp g st m tr]. cbn [mem].
  destruct (compute_score o _ _). reflexivity.
Qed.

Lemma worker_step_record tid i sh p b o score :
  heap sh !! p = Some b -> op (obj b) = Some o ->
  worker_step tid (W_record i p score) sh
  = Some (W_variant i p score (name o (mem sh)).1,
          mkShared (heap sh) (g_operator sh) (inc_total_requests (g_stats sh))
                   (name o (mem sh)).2 (trace sh)).
Proof.
  intros Hp Ho. cbn [worker_step].
  unfold holder_name, incr_total_requests, bind, deref, call, modify, ret.
  rewrite Hp, Ho. destruct sh as [hp g st m tr]. cbn [mem].
  destruct (name o _). reflexivity.
Qed.

Lemma worker_step_variant tid i sh p score nm :
  worker_step tid (W_variant i p score nm) sh
  = Some (W_print i p score,
          mkShared (heap sh) (g_operator sh) (record_variant nm (g_stats sh))
                   (mem sh) (trace sh)).
Proof. destruct sh. reflexivity. Qed.

Lemma worker_step_print tid i sh p b o score :
  heap sh !! p = Some b -> op (obj b) = Some o ->
  worker_step tid (W_print i p score) sh
  = Some (W_loop (S i),
          mkShared (<[p := mkBlock (obj b) (Nat.pred (strong b))]> (heap sh))
                   (g_operator sh) (g_stats sh) (name o (mem sh)).2
                   (trace sh ++ [EvLog "round"]
                    ++ if Nat.eqb (Nat.pred (strong b)) 0
                       then OperatorHolder_dtor p (obj b) else [])).
Proof.
  intros Hp Ho. cbn [worker_step].
  unfold holder_name, bind, deref, call, log, emit, modify, ret, sp_release.
  rewrite Hp, Ho. destruct sh as [hp g st m tr]. cbn [mem heap] in *.
  destruct (name o _) as [nm m']. cbn [heap add_events set_mem].
  rewrite Hp. destruct (Nat.eqb (Nat.pred (strong b)) 0); unfold_setters; cbn;
    rewrite <- ?app_assoc, ?app_nil_r; reflexivity.
Qed.

(** One round of a worker on a usable bundle, with no other thread in
    between: it takes a snapshot, calls [compute_score] once on the feature
    of that round, records one request under the name the operator
    reports, prints, and drops the snapshot. Afterwards every reference
    count is what it was, the slot is untouched and the worker is at its
    next round. *)
Theorem worker_round_on_usable_bundle
  (tid i : nat) (sh : Shared) (p : ptr) (b : Block) (o : IScoreOperator) :
  (i < total_rounds)%nat ->
  g_operator sh = Some p ->
  heap sh !! p = Some b ->
  op (obj b) = Some o ->
  (1 <= strong b)%nat ->
  let r1 := compute_score o (make_feature tid i) (mem sh) in
  let r2 := name o r1.2 in
  let r3 := name o r2.2 in
  worker_steps tid 5 (W_loop i) sh
  = Some (W_loop (S i),
          mkShared (heap sh) (g_operator sh) (record_request r2.1 (g_stats sh))
                   r3.2
                   (trace sh ++ [EvLoad (TWorker tid) (Some p);
                                 EvCompute tid p i; EvLog "round"])).
Proof.
  intros Hi Hg Hp Ho Hs r1 r2 r3.
  assert (Hlt : (p < length (heap sh))%nat) by (eapply lookup_lt_Some, Hp).
  set (b1 := mkBlock (obj b) (S (strong b))).
  assert (Hp1 : forall g s m t,
             heap (mkShared (<[p := b1]> (heap sh)) g s m t) !! p = Some b1).
  { intros. cbn [heap]. apply list_lookup_insert_eq, Hlt. }
  rewrite worker_steps_S, (worker_step_snapshot tid i sh p b Hi Hg Hp). fold b1.
  rewrite worker_steps_S, (worker_step_compute tid i _ p b1 o (Hp1 _ _ _ _) Ho).
  rewrite worker_steps_S, (worker_step_record tid i _ p b1 o _ (Hp1 _ _ _ _) Ho).
  rewrite worker_steps_S, worker_step_variant.
  rewrite worker_steps_S, (worker_step_print tid i _ p b1 o _ (Hp1 _ _ _ _) Ho).
  cbn [worker_steps ret heap g_operator g_stats mem trace obj strong b1 Nat.pred].
  replace (Nat.eqb (strong b) 0) with false by (symmetry; apply Nat.eqb_neq; lia).
  rewrite list_insert_insert_eq.
  rewrite list_insert_id by (rewrite Hp; destruct b; reflexivity).
  rewrite <- !app_assoc, app_nil_r. reflexivity.
Qed.

Lemma worker_round_on_usable_bundle_witness :
  worker_steps 2 5 (W_loop 7) v1_installed
  = Some (W_loop 8,
          mkShared (heap v1_installed) (g_operator v1_installed)
                   (record_request "ScoreOperatorV1" (g_stats v1_installed))
                   (mem v1_installed)
                   (trace v1_installed
                    ++ [EvLoad (TWorker 2) (Some 0%nat); EvCompute 2 0%nat 7;
                        EvLog "round"])).
Proof.
  apply (worker_round_on_usable_bundle 2 7 v1_installed 0%nat
           (mkBlock (mkHolder (Some 1%nat) (Some ScoreOperatorV1)
                              (Some destroy_operator)) 1)
           ScoreOperatorV1).
  - unfold total_rounds. lia.
  - reflexivity.
  - reflexivity.
  - reflexivity.
  - cbn. lia.
Defined.

(* ===================================================================== *)
(** * The events of one step *)
(* ===================================================================== *)

Lemma sp_release_trace v sh u sh' :
  sp_release v sh = Some (u, sh') ->
  trace sh' = trace sh ++ release_events (heap sh) v.
Proof.
  intros H. destruct v as [p|]; cbn in *.
  - destruct (heap sh !! p) as [b|]; [|discriminate]. injection H as _ <-.
    destruct (Nat.eqb (Nat.pred (strong b)) 0); cbn; rewrite ?app_nil_r; reflexivity.
  - injection H as _ <-. rewrite app_nil_r. reflexivity.
Qed.

Lemma sp_copy_trace v sh u sh' :
  sp_copy v sh = Some (u, sh') -> trace sh' = trace sh.
Proof.
  intros H. destruct v as [p|]; cbn in *.
  - destruct (heap sh !! p); [|discriminate]. injection H as _ <-. reflexivity.
  - injection H as _ <-. reflexivity.
Qed.

Lemma atomic_load_trace who sh v sh' :
  atomic_load who sh = Some (v, sh') ->
  trace sh' = trace sh ++ [EvLoad who (g_operator sh)].
Proof.
  intros H. unfold atomic_load in H. inv_bind H. inv_bind H. inv_ret H.
  apply sp_copy_trace in E. injection E0 as _ <-. cbn. rewrite E. reflexivity.
Qed.

(** The slot's previous content is released after the new value has been
    copied in; when both are the same bundle that bundle has two owners
    left and the release tears nothing down. *)
Lemma atomic_store_trace who n sh u sh' R :
  cnt sh (oroot (g_operator sh) ++ n :: R) ->
  atomic_store who (Some n) sh = Some (u, sh') ->
  trace sh' = trace sh ++ EvStore who (Some n) :: release_events (heap sh) (g_operator sh).
Proof.
  intros Hc H. unfold atomic_store in H. inv_bind H. inv_bind H. inv_bind H.
  pose proof (sp_copy_trace _ _ _ _ E) as T1.
  injection E0 as _ <-. injection E1 as _ <-.
  apply sp_release_trace in H. rewrite H. cbn [trace heap add_events set_g_operator].
  rewrite T1, <- app_assoc. cbn [app]. do 2 f_equal.
  cbn in E. destruct (heap sh !! n) as [bn|] eqn:Hn; [|discriminate].
  injection E as _ <-. cbn [heap set_heap].
  destruct (g_operator sh) as [q|] eqn:Hg; [|reflexivity]. cbn [release_events].
  destruct (Nat.eqb_spec q n) as [->|Hne].
  - rewrite list_lookup_insert_eq by (eapply lookup_lt_Some, Hn). rewrite Hn.
    destruct (Hc n) as [Hs _]. unfold strong_at in Hs. rewrite Hn in Hs.
    cbn in Hs. rewrite Nat.eqb_refl in Hs.
    cbn [strong set_strong obj Nat.pred].
    replace (Nat.eqb (strong bn) 0) with false by (symmetry; apply Nat.eqb_neq; lia).
    replace (Nat.eqb (Nat.pred (strong bn)) 0) with false
      by (symmetry; apply Nat.eqb_neq; lia).
    reflexivity.
  - rewrite list_lookup_insert_ne by congruence. reflexivity.
Qed.

Lemma holder_name_trace p sh n sh' :
  holder_name p sh = Some (n, sh') -> trace sh' = trace sh.
Proof. intros H. apply holder_name_same in H. tauto. Qed.

Lemma hot_update_step_trace dl who pc sh pc' sh' F :
  cnt sh (oroot (g_operator sh) ++ hu_roots pc ++ F) ->
  hot_update_step dl who pc sh = Some (pc', sh') ->
  trace sh' = trace sh ++ hu_body dl who pc sh
              ++ release_events (heap sh) (hu_released pc sh).
Proof.
  intros Hc Hs.
  destruct pc as [f | n | n o | n o | n o | n o | n | b];
    cbn [hot_update_step hu_body hu_released hu_roots app] in Hs, Hc |- *.
  - cbn [release_events]. rewrite app_nil_r.
    inv_bind Hs. injection E as _ <-. inv_bind Hs.
    destruct (load_outcome dl f (length (heap sh))) as [[r b] evs] eqn:Ho.
    rewrite (load_operator_eq dl f (add_events [EvLog "[HotUpdate] begin"] sh)
               r b evs Ho) in E.
    injection E as <- <-.
    pose proof (load_outcome_result dl f (length (heap sh))) as Hr.
    rewrite Ho in Hr. cbn [fst snd] in Hr. subst r.
    destruct (load_fails dl f).
    + inv_bind Hs. inv_ret Hs. injection E as _ <-. cbn.
      rewrite <- !app_assoc. reflexivity.
    + inv_ret Hs. cbn. rewrite <- !app_assoc, app_nil_r. reflexivity.
  - inv_bind Hs. inv_ret Hs. eapply atomic_load_trace, E.
  - inv_bind Hs. inv_ret Hs.
    eapply (atomic_store_trace _ _ _ _ _ (oroot o ++ F)); [|exact E].
    eapply cnt_perm; [exact Hc|]. solve_occ.
  - inv_bind Hs. inv_ret Hs. injection E as _ <-. cbn. rewrite app_nil_r. reflexivity.
  - inv_bind Hs. inv_bind Hs. inv_ret Hs. apply holder_name_trace in E.
    injection E0 as _ <-. cbn. rewrite E. reflexivity.
  - inv_bind Hs. inv_ret Hs. eapply sp_release_trace, E.
  - inv_bind Hs. inv_ret Hs. eapply sp_release_trace, E.
  - inv_ret Hs. cbn. rewrite app_nil_r. reflexivity.
Qed.

Lemma driver_move_trace dl who sh d d' sh' F :
  cnt sh (oroot (g_operator sh) ++ driver_roots d ++ F) ->
  driver_move dl who sh d d' sh' ->
  trace sh' = trace sh ++ driver_events dl who d sh.
Proof.
  intros Hc H. destruct H as [f rest | rest | rest pc sh' Hs Hne];
    cbn [driver_events]; rewrite ?app_nil_r; try reflexivity.
  eapply hot_update_step_trace; eauto.
Qed.

Lemma worker_step_trace tid w sh w' sh' :
  worker_step tid w sh = Some (w', sh') ->
  trace sh' = trace sh ++ worker_events tid w sh.
Proof.
  intros Hs. unfold worker_events.
  destruct w as [i | i [p|] | i p sc | i p sc nm | i p sc |];
    cbn [worker_step worker_body worker_released] in Hs |- *.
  - cbn [release_events]. rewrite app_nil_r. destruct (i <? total_rounds)%nat.
    + inv_bind Hs. inv_ret Hs. eapply atomic_load_trace, E.
    + inv_bind Hs. inv_ret Hs. injection E as _ <-. reflexivity.
  - inv_bind Hs. unfold deref in E. unfold usable_at.
    destruct (heap sh !! p) as [b|] eqn:Hp; [|discriminate]. injection E as <- <-.
    destruct (op (obj b)) as [o|]; cbn [is_null negb].
    + inv_bind Hs. inv_bind Hs. inv_ret Hs. injection E0 as _ <-.
      unfold call in E. destruct (compute_score o _ _). injection E as _ <-.
      cbn. reflexivity.
    + inv_bind Hs. inv_bind Hs. inv_ret Hs. injection E as _ <-.
      apply sp_release_trace in E0. rewrite E0. cbn. rewrite Hp, <- app_assoc.
      reflexivity.
  - inv_bind Hs. inv_bind Hs. inv_ret Hs. injection E as _ <-.
    cbn in E0. injection E0 as _ <-. reflexivity.
  - inv_bind Hs. inv_bind Hs. inv_ret Hs. apply holder_name_trace in E.
    injection E0 as _ <-. cbn. rewrite E, app_nil_r. reflexivity.
  - inv_bind Hs. inv_ret Hs. injection E as _ <-. cbn. rewrite app_nil_r. reflexivity.
  - inv_bind Hs. inv_bind Hs. inv_bind Hs. inv_ret Hs.
    pose proof (holder_name_same _ _ _ _ E) as (Eh & Et & _).
    injection E0 as _ <-. apply sp_release_trace in E1. rewrite E1.
    cbn. rewrite Eh, Et, <- app_assoc. reflexivity.
  - inv_ret Hs. cbn. rewrite app_nil_r. reflexivity.
Qed.

(* ===================================================================== *)
(** * No use after teardown *)
(* ===================================================================== *)

Lemma no_compute_app e1 e2 : no_compute e1 -> no_compute e2 -> no_compute (e1 ++ e2).
Proof. unfold no_compute. rewrite forallb_app. intros -> ->. reflexivity. Qed.

Lemma no_compute_lookup evs k tid p i :
  no_compute evs -> evs !! k <> Some (EvCompute tid p i).
Proof.
  unfold no_compute. revert k. induction evs as [|e evs IH]; intros k H Hk; [discriminate|].
  cbn in H. apply andb_prop in H as [He H]. destruct k as [|k]; cbn in Hk.
  - injection Hk as ->. discriminate.
  - eapply IH; eauto.
Qed.

Lemma release_no_compute hp v : no_compute (release_events hp v).
Proof.
  destruct v as [p|]; cbn; [|reflexivity].
  destruct (hp !! p) as [b|]; [|reflexivity].
  destruct (Nat.eqb _ _); [apply dtor_no_compute | reflexivity].
Qed.

Lemma load_outcome_no_compute dl f p : no_compute (load_outcome dl f p).2.
Proof.
  unfold load_outcome. destruct (dlopen dl f) as [h|]; [|reflexivity].
  destruct (dlsym_create_operator dl h), (dlsym_destroy_operator dl h); reflexivity.
Qed.

Lemma driver_events_no_compute dl who d sh : no_compute (driver_events dl who d sh).
Proof.
  destruct d as [rest | rest pc]; [reflexivity|]. cbn [driver_events].
  apply no_compute_app; [|apply release_no_compute].
  destruct pc; try reflexivity. cbn [hu_body].
  change (EvLog "[HotUpdate] begin" :: ?l) with ([EvLog "[HotUpdate] begin"] ++ l).
  apply (no_compute_app [_]); [reflexivity|].
  apply no_compute_app; [apply load_outcome_no_compute|].
  destruct (load_fails dl so_file); reflexivity.
Qed.

Lemma usable_at_objs hp hp' extra p :
  map obj hp' = map obj hp ++ extra ->
  usable_at hp p = true -> usable_at hp' p = true.
Proof.
  intros Hm. unfold usable_at. destruct (hp !! p) as [b|] eqn:Hp; [|discriminate].
  assert (H : map obj hp' !! p = Some (obj b)).
  { rewrite Hm. apply lookup_app_l_Some. change (map obj hp) with (obj <$> hp).
    rewrite list_lookup_fmap, Hp. reflexivity. }
  change (map obj hp') with (obj <$> hp') in H.
  apply list_lookup_fmap_Some in H as (b' & Ho & Hb'). rewrite Hb', <- Ho. auto.
Qed.

Lemma dtor_count_lookup p tr j :
  tr !! j = Some (EvDtor p) -> (1 <= dtor_count p tr)%nat.
Proof.
  revert j. induction tr as [|e tr IH]; intros j H; [discriminate|].
  destruct j as [|j]; cbn in H.
  - injection H as ->. cbn. rewrite Nat.eqb_refl. lia.
  - specialize (IH j H). destruct e; cbn; try exact IH.
    destruct (Nat.eqb p this); lia.
Qed.

(** A step that computes nothing keeps the property. *)
Lemma computes_live_quiet hp hp' extra tr evs :
  computes_live hp tr -> no_compute evs ->
  map obj hp' = map obj hp ++ extra ->
  computes_live hp' (tr ++ evs).
Proof.
  intros H Hn Hm k tid p i Hk.
  destruct (Nat.lt_ge_cases k (length tr)) as [Hlt|Hge].
  - rewrite lookup_app_l in Hk by exact Hlt.
    destruct (H k tid p i Hk) as [Hu Hj]. split; [eapply usable_at_objs; eauto|].
    intros j Hjd. destruct (Nat.lt_ge_cases j (length tr)) as [Hj1|Hj2]; [|lia].
    rewrite lookup_app_l in Hjd by exact Hj1. auto.
  - rewrite lookup_app_r in Hk by exact Hge. exfalso.
    eapply no_compute_lookup; eauto.
Qed.

(** The step that computes does so on a bundle the worker owns. *)
Lemma computes_live_compute hp tr tid p i :
  computes_live hp tr -> usable_at hp p = true -> dtor_count p tr = 0%nat ->
  computes_live hp (tr ++ [EvCompute tid p i]).
Proof.
  intros H Hu Hd k tid' p' i' Hk.
  destruct (Nat.lt_ge_cases k (length tr)) as [Hlt|Hge].
  - rewrite lookup_app_l in Hk by exact Hlt.
    destruct (H k tid' p' i' Hk) as [Hu' Hj]. split; [exact Hu'|].
    intros j Hjd. destruct (Nat.lt_ge_cases j (length tr)) as [Hj1|Hj2]; [|lia].
    rewrite lookup_app_l in Hjd by exact Hj1. auto.
  - rewrite lookup_app_r in Hk by exact Hge.
    destruct (k - length tr)%nat as [|n] eqn:Hkn; [|discriminate].
    injection Hk as <- <- <-. split; [exact Hu|].
    intros j Hjd. destruct (Nat.lt_ge_cases j (length tr)) as [Hj1|Hj2].
    + rewrite lookup_app_l in Hjd by exact Hj1.
      apply dtor_count_lookup in Hjd. lia.
    + rewrite lookup_app_r in Hjd by exact Hj2.
      destruct (j - length tr)%nat; discriminate.
Qed.

Lemma step_computes_live dl st st' :
  Inv st -> computes_live (heap (shared st)) (trace (shared st)) ->
  step_rel dl st st' ->
  computes_live (heap (shared st')) (trace (shared st')).
Proof.
  intros [Hc Ht] H Hs. unfold refcounts_ok, roots in Hc.
  destruct Hs as [ | d d' sh' Hm Hd | Hm | Hm | u sh1 Hm Hw Hcd Hr
                 | d d' sh' Hk Hd | tid w w' sh' Hw Hnd Hws];
    cbn [shared crash_state]; try exact H.
  - rewrite Hm in Hc. cbn [main_roots] in Hc.
    rewrite (driver_move_trace _ _ _ _ _ _ _ Hc Hd).
    destruct (driver_move_trans _ _ _ _ _ _ Hd) as (? & _ & _ & _ & _ & M).
    eapply computes_live_quiet; eauto using driver_events_no_compute.
  - cbn [heap trace set_g_operator]. rewrite (sp_release_trace _ _ _ _ Hr).
    destruct (eff_sp_release _ _ _ _ Hr) as (? & _ & _ & _ & _ & M).
    eapply computes_live_quiet; eauto using release_no_compute.
  - assert (Hc' : cnt (shared st)
                (oroot (g_operator (shared st)) ++ driver_roots d
                 ++ main_roots (main_pc st) ++ workers_roots (workers st))).
    { eapply cnt_perm; [exact Hc|]. rewrite Hk. cbn [controller_roots]. solve_occ. }
    rewrite (driver_move_trace _ _ _ _ _ _ _ Hc' Hd).
    destruct (driver_move_trans _ _ _ _ _ _ Hd) as (? & _ & _ & _ & _ & M).
    eapply computes_live_quiet; eauto using driver_events_no_compute.
  - rewrite (worker_step_trace _ _ _ _ _ Hws).
    destruct (worker_step_eff _ _ _ _ _ Hws) as (? & _ & _ & _ & _ & M).
    assert (Hq : no_compute (worker_events tid w (shared st)) ->
                 computes_live (heap sh')
                   (trace (shared st) ++ worker_events tid w (shared st))).
    { intros Hn. eapply computes_live_quiet; eauto. }
    unfold worker_events in *.
    destruct w as [i | i [p|] | i p sc | i p sc nm | i p sc |];
      try solve [apply Hq; apply no_compute_app; [|apply release_no_compute];
                 cbn [worker_body]; reflexivity].
    + apply Hq. apply no_compute_app; [|apply release_no_compute]. cbn [worker_body].
      destruct (i <? total_rounds)%nat; reflexivity.
    + cbn [worker_body worker_released] in *.
      destruct (usable_at (heap (shared st)) p) eqn:Hu.
      * cbn [release_events]. rewrite app_nil_r.
        assert (Hd0 : dtor_count p (trace (shared st)) = 0%nat).
        { destruct (workers_roots_insert _ _ _ Hw) as (F & HF1 & _).
          destruct (Hc p) as [Hs Hdt]. rewrite Hdt. unfold expected_dtors.
          rewrite Hs, !occ_app, HF1, occ_app. cbn [worker_roots oroot occ].
          rewrite Nat.eqb_refl.
          replace (Nat.eqb _ 0) with false by (symmetry; apply Nat.eqb_neq; lia).
          rewrite andb_false_r. reflexivity. }
        rewrite app_nil_r in M.
        assert (Hh : forall q, usable_at (heap (shared st)) q = true ->
                               usable_at (heap sh') q = true).
        { intros q. eapply usable_at_objs. rewrite M, app_nil_r. reflexivity. }
        intros k tid' p' i' Hk.
        destruct (computes_live_compute _ _ tid p i H Hu Hd0 k tid' p' i' Hk)
          as [Hu' Hj].
        split; [apply Hh, Hu' | exact Hj].
      * apply Hq. apply no_compute_app; [reflexivity | apply release_no_compute].
Qed.

Lemma destroy_count_lookup q tr j :
  tr !! j = Some (EvDestroy q) -> (1 <= destroy_count q tr)%nat.
Proof.
  revert j. induction tr as [|e tr IH]; intros j H; [discriminate|].
  destruct j as [|j]; cbn in H.
  - injection H as ->. cbn. rewrite Nat.eqb_refl. lia.
  - specialize (IH j H). destruct e; cbn; try exact IH.
    destruct (Nat.eqb q this); lia.
Qed.

Lemma dfd_none evs :
  (forall q, destroy_count q evs = 0%nat) -> destroy_follows_dtor evs.
Proof. intros H j q Hj. apply destroy_count_lookup in Hj. rewrite H in Hj. lia. Qed.

Lemma dfd_app e1 e2 :
  destroy_follows_dtor e1 -> destroy_follows_dtor e2 -> destroy_follows_dtor (e1 ++ e2).
Proof.
  intros H1 H2 j q Hj. destruct (Nat.lt_ge_cases j (length e1)) as [Hlt|Hge].
  - rewrite lookup_app_l in Hj by exact Hlt.
    destruct (H1 j q Hj) as (j' & Hj' & E). exists j'. split; [exact Hj'|].
    rewrite lookup_app_l by lia. exact E.
  - rewrite lookup_app_r in Hj by exact Hge.
    destruct (H2 _ q Hj) as (j' & Hj' & E). exists (length e1 + j')%nat.
    split; [lia|]. rewrite lookup_app_r by lia.
    replace (length e1 + j' - length e1)%nat with j' by lia. exact E.
Qed.

Lemma dfd_dtor p hd : destroy_follows_dtor (OperatorHolder_dtor p hd).
Proof.
  intros j q Hj. unfold OperatorHolder_dtor in *.
  destruct j as [|j]; [discriminate|]. exists 0%nat. split; [lia|].
  cbn in *. destruct (op hd), (destroy_func hd), (handle hd); cbn in Hj;
    destruct j as [|[|j]]; try discriminate; injection Hj as <-; reflexivity.
Qed.

Lemma dfd_release hp v : destroy_follows_dtor (release_events hp v).
Proof.
  destruct v as [p|]; cbn; [|apply dfd_none; reflexivity].
  destruct (hp !! p) as [b|]; [|apply dfd_none; reflexivity].
  destruct (Nat.eqb _ _); [apply dfd_dtor | apply dfd_none; reflexivity].
Qed.

Lemma dfd_driver_events dl who d sh : destroy_follows_dtor (driver_events dl who d sh).
Proof.
  destruct d as [rest | rest pc]; [apply dfd_none; reflexivity|]. cbn [driver_events].
  apply dfd_app; [|apply dfd_release]. apply dfd_none. intros q.
  destruct pc; try reflexivity. cbn [hu_body destroy_count].
  rewrite destroy_count_app. unfold load_outcome.
  destruct (dlopen dl so_file) as [h|];
    [destruct (dlsym_create_operator dl h), (dlsym_destroy_operator dl h)|];
    destruct (load_fails dl so_file); reflexivity.
Qed.

Lemma dfd_worker_events tid w sh : destroy_follows_dtor (worker_events tid w sh).
Proof.
  unfold worker_events. apply dfd_app; [|apply dfd_release]. apply dfd_none. intros q.
  destruct w as [i | i [p|] | i p sc | i p sc nm | i p sc |]; cbn [worker_body];
    try reflexivity.
  - destruct (i <? total_rounds)%nat; reflexivity.
  - destruct (usable_at (heap sh) p); reflexivity.
Qed.

Lemma step_destroy_follows_dtor dl st st' :
  Inv st -> destroy_follows_dtor (trace (shared st)) ->
  step_rel dl st st' ->
  destroy_follows_dtor (trace (shared st')).
Proof.
  intros [Hc Ht] H Hs. unfold refcounts_ok, roots in Hc.
  destruct Hs as [ | d d' sh' Hm Hd | Hm | Hm | u sh1 Hm Hw Hcd Hr
                 | d d' sh' Hk Hd | tid w w' sh' Hw Hnd Hws];
    cbn [shared crash_state]; try exact H.
  - rewrite Hm in Hc. cbn [main_roots] in Hc.
    rewrite (driver_move_trace _ _ _ _ _ _ _ Hc Hd).
    apply dfd_app; [exact H | apply dfd_driver_events].
  - cbn [trace set_g_operator]. rewrite (sp_release_trace _ _ _ _ Hr).
    apply dfd_app; [exact H | apply dfd_release].
  - assert (Hc' : cnt (shared st)
                (oroot (g_operator (shared st)) ++ driver_roots d
                 ++ main_roots (main_pc st) ++ workers_roots (workers st))).
    { eapply cnt_perm; [exact Hc|]. rewrite Hk. cbn [controller_roots]. solve_occ. }
    rewrite (driver_move_trace _ _ _ _ _ _ _ Hc' Hd).
    apply dfd_app; [exact H | apply dfd_driver_events].
  - rewrite (worker_step_trace _ _ _ _ _ Hws).
    apply dfd_app; [exact H | apply dfd_worker_events].
Qed.

Lemma reachable_computes_live dl st :
  reachable dl st ->
  computes_live (heap (shared st)) (trace (shared st))
  /\ destroy_follows_dtor (trace (shared st)).
Proof.
  intros [sched Hr].
  assert (H : Inv st /\ computes_live (heap (shared st)) (trace (shared st))
              /\ destroy_follows_dtor (trace (shared st))); [|tauto].
  eapply (run_preserves
            (fun s => Inv s /\ computes_live (heap (shared s)) (trace (shared s))
                      /\ destroy_follows_dtor (trace (shared s))) dl);
    [| | exact Hr].
  - intros l s s' (HI & HC & HD) Hs. split; [exact (step_Inv dl l s s' HI Hs)|].
    apply step_inv in Hs. split.
    + exact (step_computes_live dl s s' HI HC Hs).
    + exact (step_destroy_follows_dtor dl s s' HI HD Hs).
  - split; [apply Inv_init|]. split.
    + intros k tid p i Hk. discriminate.
    + intros j q Hj. discriminate.
Qed.

(** No use after teardown: whenever a worker calls [compute_score], the
    bundle it calls into has an instance, and neither the holder's
    destructor nor the plug-in's [destroy_operator] has started on it;
    they can only come later in the trace. *)
Theorem compute_score_never_after_teardown
  (dl : DynLinker) (st : State) (k tid : nat) (p : ptr) (i : nat) :
  reachable dl st ->
  trace (shared st) !! k = Some (EvCompute tid p i) ->
  (exists b o, heap (shared st) !! p = Some b /\ op (obj b) = Some o)
  /\ (forall j, trace (shared st) !! j = Some (EvDtor p) -> (k < j)%nat)
  /\ (forall j, trace (shared st) !! j = Some (EvDestroy p) -> (k < j)%nat).
Proof.
  intros Hr Hk. destruct (reachable_computes_live dl st Hr) as [HC HD].
  destruct (HC k tid p i Hk) as [Hu Hj]. split; [|split; [exact Hj|]].
  - unfold usable_at in Hu. destruct (heap (shared st) !! p) as [b|]; [|discriminate].
    destruct (op (obj b)) as [o|] eqn:Ho; [|discriminate]. eauto.
  - intros j Hjd. destruct (HD j p Hjd) as (j' & Hlt & E). specialize (Hj j' E). lia.
Qed.

Lemma compute_score_never_after_teardown_witness :
  (exists b o, heap (shared demo_final) !! 0%nat = Some b /\ op (obj b) = Some o)
  /\ (forall j, trace (shared demo_final) !! j = Some (EvDtor 0%nat) -> (13 < j)%nat)
  /\ (forall j, trace (shared demo_final) !! j = Some (EvDestroy 0%nat) -> (13 < j)%nat).
Proof.
  apply (compute_score_never_after_teardown demo_linker demo_final 13 0 0%nat 0).
  - exact demo_final_reachable.
  - vm_compute. reflexivity.
Defined.

(* ===================================================================== *)
(** * Every module is closed as often as it was opened *)
(* ===================================================================== *)

Lemma count_dlopen_app h t1 t2 :
  count_dlopen h (t1 ++ t2) = (count_dlopen h t1 + count_dlopen h t2)%nat.
Proof.
  induction t1 as [|e t1 IH]; cbn; [reflexivity|].
  destruct e as [f [h'|] | | | | | | | |]; cbn; rewrite ?IH; try reflexivity. lia.
Qed.

Lemma count_dlclose_app h t1 t2 :
  count_dlclose h (t1 ++ t2) = (count_dlclose h t1 + count_dlclose h t2)%nat.
Proof.
  induction t1 as [|e t1 IH]; cbn; [reflexivity|].
  destruct e; cbn; rewrite ?IH; try reflexivity. lia.
Qed.

Lemma holders_with_app h o1 o2 :
  holders_with h (o1 ++ o2) = (holders_with h o1 + holders_with h o2)%nat.
Proof. unfold holders_with. rewrite List.filter_app, length_app. reflexivity. Qed.

Lemma torn_down_objs_app h o1 : forall o2 base tr,
  torn_down h (o1 ++ o2) base tr
  = (torn_down h o1 base tr + torn_down h o2 (base + length o1) tr)%nat.
Proof.
  induction o1 as [|hd o1 IH]; intros o2 base tr; cbn [app torn_down length].
  - rewrite Nat.add_0_r. reflexivity.
  - rewrite IH. replace (S base + length o1)%nat with (base + S (length o1))%nat by lia.
    lia.
Qed.

Lemma torn_down_trace_app h objs : forall base t1 t2,
  torn_down h objs base (t1 ++ t2)
  = (torn_down h objs base t1 + torn_down h objs base t2)%nat.
Proof.
  induction objs as [|hd objs IH]; intros base t1 t2; cbn [torn_down]; [reflexivity|].
  rewrite IH, dtor_count_app. destruct (has_handle h hd); lia.
Qed.

Lemma torn_down_zero h objs : forall base evs,
  (forall p, (base <= p)%nat -> dtor_count p evs = 0%nat) ->
  torn_down h objs base evs = 0%nat.
Proof.
  induction objs as [|hd objs IH]; intros base evs H; cbn [torn_down]; [reflexivity|].
  rewrite IH, H by (try intros p Hp; try apply H; lia).
  destruct (has_handle h hd); reflexivity.
Qed.

(** The events of one destructor count once, for the holder's handle. *)
Lemma torn_down_point h objs : forall base evs q,
  (forall p, dtor_count p evs = if Nat.eqb p q then 1%nat else 0%nat) ->
  (base <= q)%nat ->
  torn_down h objs base evs
  = match objs !! (q - base)%nat with
    | Some hd => if has_handle h hd then 1%nat else 0%nat
    | None => 0%nat
    end.
Proof.
  induction objs as [|hd objs IH]; intros base evs q H Hb; cbn [torn_down].
  - reflexivity.
  - rewrite H. destruct (Nat.eqb_spec base q) as [->|Hne].
    + rewrite Nat.sub_diag. cbn [lookup list_lookup].
      rewrite (torn_down_zero h objs (S q) evs); [destruct (has_handle h hd); lia|].
      intros p Hp. rewrite H.
      destruct (Nat.eqb_spec p q); [lia | reflexivity].
    + rewrite (IH (S base) evs q H) by lia.
      replace (q - base)%nat with (S (q - S base)) by lia. cbn [lookup list_lookup].
      destruct (has_handle h hd); reflexivity.
Qed.

Lemma count_dlclose_dtor h q hd :
  count_dlclose h (OperatorHolder_dtor q hd) = if has_handle h hd then 1%nat else 0%nat.
Proof.
  unfold OperatorHolder_dtor, has_handle.
  destruct (op hd), (destroy_func hd), (handle hd) as [h'|]; cbn;
    try destruct (Nat.eqb h h'); reflexivity.
Qed.

Lemma count_dlopen_dtor h q hd : count_dlopen h (OperatorHolder_dtor q hd) = 0%nat.
Proof.
  unfold OperatorHolder_dtor.
  destruct (op hd), (destroy_func hd), (handle hd); reflexivity.
Qed.

(** A release closes the module exactly when it tears a holder of it
    down. *)
Lemma release_balanced h hp v :
  count_dlopen h (release_events hp v) = 0%nat
  /\ count_dlclose h (release_events hp v)
     = torn_down h (map obj hp) 0 (release_events hp v).
Proof.
  destruct v as [p|]; cbn [release_events];
    [|split; [reflexivity | rewrite torn_down_zero; reflexivity]].
  destruct (hp !! p) as [b|] eqn:Hp;
    [|split; [reflexivity | rewrite torn_down_zero; reflexivity]].
  destruct (Nat.eqb _ _);
    [|split; [reflexivity | rewrite torn_down_zero; reflexivity]].
  split; [apply count_dlopen_dtor|].
  rewrite count_dlclose_dtor.
  rewrite (torn_down_point h (map obj hp) 0 _ p) by first [intros; apply dtor_count_dtor | lia].
  rewrite Nat.sub_0_r. change (map obj hp) with (obj <$> hp).
  rewrite list_lookup_fmap, Hp. reflexivity.
Qed.

Lemma quiet_release_balanced h sh sh' body v :
  trace sh' = trace sh ++ body ++ release_events (heap sh) v ->
  map obj (heap sh') = map obj (heap sh) ++ [] ->
  no_module_events body ->
  (count_dlopen h (trace sh) = holders_with h (map obj (heap sh)) ->
   count_dlopen h (trace sh') = holders_with h (map obj (heap sh')))
  /\ (count_dlclose h (trace sh) = torn_down h (map obj (heap sh)) 0 (trace sh) ->
      count_dlclose h (trace sh') = torn_down h (map obj (heap sh')) 0 (trace sh')).
Proof.
  intros -> -> [Hb Hd]. rewrite app_nil_r.
  destruct (release_balanced h (heap sh) v) as [Ro Rc]. destruct (Hb h) as [Bo Bc].
  split; intros H.
  - rewrite !count_dlopen_app, Bo, Ro, H. lia.
  - rewrite !count_dlclose_app, !torn_down_trace_app, Bc, Rc, H.
    rewrite (torn_down_zero h _ 0 body) by (intros; apply Hd). lia.
Qed.

Lemma load_outcome_opens dl f p h :
  count_dlopen h (load_outcome dl f p).2 = holders_with h [loaded_holder dl f].
Proof.
  unfold loaded_holder, load_outcome, holders_with, has_handle.
  destruct (dlopen dl f) as [h'|]; [|reflexivity].
  destruct (dlsym_create_operator dl h'), (dlsym_destroy_operator dl h'); cbn;
    destruct (Nat.eqb h h'); reflexivity.
Qed.

Lemma load_outcome_success_quiet dl f p :
  load_fails dl f = false ->
  (forall h, count_dlclose h (load_outcome dl f p).2 = 0%nat)
  /\ (forall q, dtor_count q (load_outcome dl f p).2 = 0%nat).
Proof.
  unfold load_fails, load_outcome. destruct (dlopen dl f) as [h'|]; [|discriminate].
  destruct (dlsym_create_operator dl h'), (dlsym_destroy_operator dl h');
    try discriminate. intros _. split; reflexivity.
Qed.

Lemma hu_body_quiet dl who pc sh :
  (forall f, pc <> HU_entry f) -> no_module_events (hu_body dl who pc sh).
Proof.
  intros H. destruct pc; try (split; [split|]; reflexivity).
  destruct (H so_file eq_refl).
Qed.

Lemma driver_move_balanced dl who sh d d' sh' F h :
  cnt sh (oroot (g_operator sh) ++ driver_roots d ++ F) ->
  driver_move dl who sh d d' sh' ->
  count_dlopen h (trace sh) = holders_with h (map obj (heap sh)) ->
  count_dlopen h (trace sh') = holders_with h (map obj (heap sh'))
  /\ (driver_failed d' = false ->
      count_dlclose h (trace sh) = torn_down h (map obj (heap sh)) 0 (trace sh) ->
      count_dlclose h (trace sh') = torn_down h (map obj (heap sh')) 0 (trace sh'))
  /\ driver_failed d = false.
Proof.
  intros Hc Hm Ho.
  pose proof (driver_move_trace _ _ _ _ _ _ _ Hc Hm) as Ht.
  destruct (driver_move_trans _ _ _ _ _ _ Hm) as (? & _ & _ & _ & _ & M).
  destruct Hm as [f rest | rest | rest pc sh' Hs Hne]; cbn [driver_events] in Ht;
    rewrite ?app_nil_r in Ht.
  - auto.
  - auto.
  - cbn [driver_objs] in M.
    assert (Hnf : driver_failed (D_in rest pc) = false).
    { destruct pc; try reflexivity. destruct (Hne result eq_refl). }
    destruct pc as [f | n | n o | n o | n o | n o | n | b];
      try (destruct (quiet_release_balanced h sh sh' _ _ Ht M) as [Qo Qc];
           [apply hu_body_quiet; discriminate|];
           split; [apply Qo, Ho | split; [intros _; exact Qc | exact Hnf]]).
    cbn [hu_objs hu_body hu_released release_events hu_succ driver_failed] in *.
    rewrite app_nil_r in Ht. rewrite Ht, M.
    split; [|split; [|reflexivity]].
    + change (EvLog "[HotUpdate] begin" :: ?l) with ([EvLog "[HotUpdate] begin"] ++ l).
      rewrite !count_dlopen_app, holders_with_app, load_outcome_opens, Ho.
      destruct (load_fails dl f); cbn; lia.
    + destruct (load_fails dl f) eqn:Hf; [discriminate|]. intros _ Hcl.
      destruct (load_outcome_success_quiet dl f (length (heap sh)) Hf) as [Lc Ld].
      change (EvLog "[HotUpdate] begin" :: ?l) with ([EvLog "[HotUpdate] begin"] ++ l).
      rewrite !count_dlclose_app, Lc, Hcl. cbn [count_dlclose]. 
      rewrite torn_down_objs_app, !torn_down_trace_app.
      rewrite !(torn_down_zero h _ _ [EvLog "[HotUpdate] begin"]) by reflexivity.
      rewrite !(torn_down_zero h _ _ []) by reflexivity.
      rewrite !(torn_down_zero h _ _ (load_outcome dl f (length (heap sh))).2)
        by (intros; apply Ld).
      cbn [torn_down]. rewrite length_map. change (0 + length (heap sh))%nat
        with (length (heap sh)).
      destruct (Hc (length (heap sh))) as [_ Hdt]. rewrite Hdt.
      unfold expected_dtors. rewrite Nat.ltb_irrefl. cbn [andb].
      destruct (has_handle h (loaded_holder dl f)); lia.
Qed.

Lemma worker_body_quiet tid w sh : no_module_events (worker_body tid w sh).
Proof.
  destruct w as [i | i [p|] | i p sc | i p sc nm | i p sc |]; cbn [worker_body];
    try (split; [split|]; reflexivity).
  - destruct (i <? total_rounds)%nat; split; try split; reflexivity.
  - destruct (usable_at (heap sh) p); split; try split; reflexivity.
Qed.

Lemma step_modules_balanced dl st st' :
  Inv st -> modules_balanced st -> step_rel dl st st' -> modules_balanced st'.
Proof.
  intros [Hc Ht] H Hs h. destruct (H h) as [Ho Hcl]. unfold load_failed in *.
  unfold refcounts_ok, roots in Hc. unfold threads_ok in Ht.
  destruct Hs as [ | d d' sh' Hm Hd | Hm | Hm | u sh1 Hm Hw Hcd Hr
                 | d d' sh' Hk Hd | tid w w' sh' Hw Hnd Hws];
    cbn [shared crash_state main_pc controller].
  - auto.
  - rewrite Hm in *. cbn [main_roots] in Hc. destruct Ht as [_ Hk]. rewrite Hk in *.
    destruct (driver_move_balanced _ _ _ _ _ _ _ h Hc Hd Ho) as (Bo & Bc & Bf).
    split; [exact Bo|]. rewrite orb_false_r. intros Hf. apply Bc; [exact Hf|].
    apply Hcl. rewrite Bf. reflexivity.
  - rewrite Hm in *. destruct Ht as [_ Hk]. rewrite Hk in *. auto.
  - rewrite Hm in *. destruct Ht as [_ Hk]. rewrite Hk in *. auto.
  - rewrite Hm in *. cbn [orb] in *.
    destruct (controller st) as [[[|? ?]|? ?]|]; try discriminate. cbn in Hcl.
    pose proof (sp_release_trace _ _ _ _ Hr) as T.
    destruct (eff_sp_release _ _ _ _ Hr) as (? & _ & _ & _ & _ & M).
    destruct (quiet_release_balanced h (shared st) sh1 [] _ T M) as [Qo Qc];
      [split; [split|]; reflexivity|].
    cbn [heap trace set_g_operator]. auto.
  - rewrite Hk in *.
    assert (Hc' : cnt (shared st)
                (oroot (g_operator (shared st)) ++ driver_roots d
                 ++ main_roots (main_pc st) ++ workers_roots (workers st))).
    { eapply cnt_perm; [exact Hc|]. cbn [controller_roots]. solve_occ. }
    destruct (driver_move_balanced _ _ _ _ _ _ _ h Hc' Hd Ho) as (Bo & Bc & Bf).
    split; [exact Bo|]. intros Hf. apply orb_false_elim in Hf as [Hf1 Hf2].
    apply Bc; [exact Hf2|]. apply Hcl. rewrite Hf1, Bf. reflexivity.
  - pose proof (worker_step_trace _ _ _ _ _ Hws) as T. unfold worker_events in T.
    destruct (worker_step_eff _ _ _ _ _ Hws) as (? & _ & _ & _ & _ & M).
    destruct (quiet_release_balanced h (shared st) sh' _ _ T M) as [Qo Qc];
      [apply worker_body_quiet|]. auto.
Qed.

Lemma modules_balanced_init : modules_balanced State_init.
Proof. intros h. split; reflexivity. Qed.

Lemma reachable_modules_balanced dl st : reachable dl st -> modules_balanced st.
Proof.
  intros [sched Hr].
  assert (H : Inv st /\ modules_balanced st); [|tauto].
  eapply (run_preserves (fun s => Inv s /\ modules_balanced s) dl); [| | exact Hr].
  - intros l s s' [HI HB] Hs. split; [exact (step_Inv dl l s s' HI Hs)|].
    exact (step_modules_balanced dl s s' HI HB (step_inv dl l s s' Hs)).
  - split; [apply Inv_init | apply modules_balanced_init].
Qed.

(** No destructor has run more than once, so no more closes than
    holders. *)
Lemma torn_down_le h objs : forall base tr,
  (forall p, (dtor_count p tr <= 1)%nat) ->
  (torn_down h objs base tr <= holders_with h objs)%nat.
Proof.
  induction objs as [|hd objs IH]; intros base tr H; cbn [torn_down]; [cbn; lia|].
  specialize (IH (S base) tr H). unfold holders_with in *. cbn [List.filter].
  specialize (H base). destruct (has_handle h hd); cbn [length]; lia.
Qed.

Lemma torn_down_all h objs : forall base tr,
  (forall p, (base <= p < base + length objs)%nat -> dtor_count p tr = 1%nat) ->
  torn_down h objs base tr = holders_with h objs.
Proof.
  induction objs as [|hd objs IH]; intros base tr H; cbn [torn_down]; [reflexivity|].
  rewrite IH by (intros p Hp; apply H; cbn [length]; lia).
  rewrite H by (cbn [length]; lia).
  unfold holders_with. cbn [List.filter]. destruct (has_handle h hd); reflexivity.
Qed.

(** Modules are never leaked and never closed too often. While no load
    has failed, a module has been closed at most as often as it was
    opened; and when [main] has returned, exactly as often, whatever the
    plug-ins and the interleaving. A run in which a load fails does not get
    that far: the [assert] ends it. *)
Theorem modules_closed_as_often_as_opened (dl : DynLinker) (st : State) (h : Handle) :
  reachable dl st ->
  (load_failed st = false ->
   (count_dlclose h (trace (shared st)) <= count_dlopen h (trace (shared st)))%nat)
  /\ (main_pc st = Main_exited ->
      count_dlclose h (trace (shared st)) = count_dlopen h (trace (shared st))).
Proof.
  intros Hr. destruct (reachable_modules_balanced dl st Hr h) as [Ho Hcl].
  destruct (reachable_Inv dl st Hr) as [Hc Ht]. split.
  - intros Hf. rewrite Ho, (Hcl Hf). apply torn_down_le. intros p.
    destruct (Hc p) as [_ ->]. unfold expected_dtors. destruct (_ && _); lia.
  - intros Hm. assert (Hf : load_failed st = false).
    { unfold load_failed. rewrite Hm. unfold threads_ok in Ht. rewrite Hm in Ht.
      destruct Ht as (_ & Hd & _).
      destruct (controller st) as [[[|? ?]|? ?]|]; try discriminate. reflexivity. }
    rewrite Ho, (Hcl Hf). apply torn_down_all. intros p Hp.
    rewrite length_map in Hp. destruct (Hc p) as [Hs ->].
    rewrite (roots_exited st Ht Hm) in Hs. cbn in Hs.
    unfold expected_dtors. rewrite Hs.
    replace (p <? length (heap (shared st)))%nat with true
      by (symmetry; apply Nat.ltb_lt; lia).
    reflexivity.
Qed.

Lemma modules_closed_as_often_as_opened_witness :
  (load_failed demo_final = false ->
   (count_dlclose 2%nat (trace (shared demo_final))
    <= count_dlopen 2%nat (trace (shared demo_final)))%nat)
  /\ (main_pc demo_final = Main_exited ->
      count_dlclose 2%nat (trace (shared demo_final))
      = count_dlopen 2%nat (trace (shared demo_final))).
Proof.
  apply (modules_closed_as_often_as_opened demo_linker demo_final 2%nat).
  exact demo_final_reachable.
Defined.

(* ===================================================================== *)
(** * Publishes follow the script *)
(* ===================================================================== *)

Lemma drop_next {A} (l : list A) n x r :
  drop n l = x :: r -> drop (S n) l = r /\ take (S n) l = take n l ++ [x].
Proof.
  revert n. induction l as [|y l IH]; intros n H.
  - rewrite drop_nil in H. discriminate.
  - destruct n as [|n]; cbn in *.
    + injection H as -> ->. rewrite drop_0. auto.
    + destruct (IH n H) as [-> ->]. auto.
Qed.

Lemma pub_state_frame dl todo u fl su pend sh sh' :
  pub_state dl todo u fl su pend sh ->
  map obj (heap sh') = map obj (heap sh) ->
  stores (trace sh') = stores (trace sh) ->
  hot_update_count (g_stats sh') = hot_update_count (g_stats sh) ->
  pub_state dl todo u fl su pend sh'.
Proof.
  intros (H1 & H2 & H3 & H4 & H5 & H0 & H6) Ho Hs Hc.
  assert (Hl : length (heap sh') = length (heap sh)).
  { rewrite <- (length_map obj (heap sh')), Ho, length_map. reflexivity. }
  unfold pub_state. rewrite Hl, Ho, Hs, Hc. auto 10.
Qed.

Lemma pub_state_len dl todo u fl su pend sh :
  pub_state dl todo u fl su pend sh -> (length (heap sh) <= 4)%nat.
Proof.
  intros (_ & H2 & _). apply (f_equal length) in H2.
  rewrite !length_map, length_take in H2. change (length all_scripts) with 4%nat in H2.
  lia.
Qed.

Lemma driver_move_pub dl who sh d d' sh' X :
  pub_state dl (driver_todo d ++ X) (driver_unpublished d) (driver_failed_blocks d)
            (driver_stored_uncounted d) (driver_pending d) sh ->
  driver_move dl who sh d d' sh' ->
  pub_state dl (driver_todo d' ++ X) (driver_unpublished d') (driver_failed_blocks d')
            (driver_stored_uncounted d') (driver_pending d') sh'.
Proof.
  intros H Hm. pose proof (pub_state_len _ _ _ _ _ _ _ H) as Hlen.
  pose proof (driver_move_trans _ _ _ _ _ _ Hm) as T.
  destruct Hm as [f rest | rest | rest pc sh' Hs Hne].
  - exact H.
  - exact H.
  - pose proof (hot_update_step_stats _ _ _ _ _ _ Hs) as Hst.
    pose proof (trans_stores _ _ _ _ T) as Tst.
    destruct T as (? & _ & _ & _ & _ & M). cbn [driver_stores driver_objs] in *.
    destruct H as (H1 & H2 & H3 & H4 & H5 & H0 & H6).
    destruct pc as [f | n | n o | n o | n o | n o | n | b];
      cbn [hu_succ hu_stores hu_objs driver_todo driver_unpublished hu_unpublished
           driver_failed_blocks driver_failed driver_stored_uncounted
           driver_pending hu_pending] in *;
      rewrite ?app_nil_r in *.
    + (* the load *)
      cbn [app] in H1. symmetry in H1. destruct (drop_next _ _ _ _ H1) as [D1 D2].
      assert (Hl : length (heap sh') = S (length (heap sh))).
      { rewrite <- (length_map obj (heap sh')), M, length_app, length_map. cbn. lia. }
      unfold pub_state. rewrite Hl, M, Tst, Hst, D1, D2, map_app, H2.
      rewrite Nat.sub_0_r in *.
      destruct (load_fails dl f) eqn:Hf; cbn [driver_todo driver_unpublished
        hu_unpublished driver_failed_blocks driver_failed driver_stored_uncounted
        driver_pending hu_pending];
        replace (S (length (heap sh)) - 1)%nat with (length (heap sh)) by lia;
        splits; auto.
      rewrite Nat.sub_0_r, D2. apply Forall_app. split; [exact H5|].
      constructor; [exact Hf | constructor].
    + apply (pub_state_frame dl _ _ _ _ _ sh); [unfold pub_state; auto 10 | | |];
        rewrite ?M, ?Tst, ?Hst, ?app_nil_r; reflexivity.
    + (* the store *)
      assert (Hl : length (heap sh') = length (heap sh)).
      { rewrite <- (length_map obj (heap sh')), M, length_map. reflexivity. }
      apply Forall_cons in H4 as [Hn _].
      unfold pub_state. rewrite Hl, M, Tst, Hst, H3. rewrite <- Hn in *.
      replace (S n - 1)%nat with n in * by lia. rewrite Nat.sub_0_r in *.
      splits; auto.
      * rewrite seq_S, map_app. reflexivity.
      * rewrite length_app, length_map, length_seq. cbn [length].
        rewrite H3, length_map, length_seq in H6. lia.
    + (* the count *)
      assert (Hsm : 0 <= hot_update_count (g_stats sh) < 100).
      { rewrite H3, length_map, length_seq in H6. lia. }
      unfold pub_state.
      assert (Hl : length (heap sh') = length (heap sh)).
      { rewrite <- (length_map obj (heap sh')), M, length_map. reflexivity. }
      rewrite Hl, M, Tst, Hst. cbn [hot_update_count inc_hot_update_count].
      rewrite incr64_small by exact Hsm. splits; auto; lia.
    + apply (pub_state_frame dl _ _ _ _ _ sh); [unfold pub_state; auto 10 | | |];
        rewrite ?M, ?Tst, ?Hst, ?app_nil_r; reflexivity.
    + apply (pub_state_frame dl _ _ _ _ _ sh); [unfold pub_state; auto 10 | | |];
        rewrite ?M, ?Tst, ?Hst, ?app_nil_r; reflexivity.
    + apply (pub_state_frame dl _ _ _ _ _ sh); [unfold pub_state; auto 10 | | |];
        rewrite ?M, ?Tst, ?Hst, ?app_nil_r; reflexivity.
    + destruct (Hne b eq_refl).
Qed.

Lemma pub_state_quiet dl todo u fl su pend sh sh' :
  pub_state dl todo u fl su pend sh ->
  trans [] [] sh sh' ->
  hot_update_count (g_stats sh') = hot_update_count (g_stats sh) ->
  pub_state dl todo u fl su pend sh'.
Proof.
  intros H T Hc. pose proof (trans_stores _ _ _ _ T) as Ts.
  destruct T as (? & _ & _ & _ & _ & M). rewrite app_nil_r in *.
  eapply pub_state_frame; eauto.
Qed.

Lemma step_publish_inv dl st st' :
  threads_ok st -> publish_inv dl st -> step_rel dl st st' -> publish_inv dl st'.
Proof.
  intros Ht H Hs. unfold threads_ok in Ht.
  unfold publish_inv, paths_todo, of_active, active_driver, pending in *.
  destruct Hs as [ | d d' sh' Hm Hd | Hm | Hm | u sh1 Hm Hw Hcd Hr
                 | d d' sh' Hk Hd | tid w w' sh' Hw Hnd Hws];
    cbn [shared crash_state main_pc controller].
  - exact H.
  - rewrite Hm in *. destruct Ht as [_ Hk]. rewrite Hk in *. rewrite app_nil_r in *.
    eapply driver_move_pub; eauto.
  - rewrite Hm in *. exact H.
  - rewrite Hm in *. destruct Ht as [_ Hk]. rewrite Hk in *. exact H.
  - rewrite Hm in *.
    pose proof (eff_sp_release _ _ _ _ Hr) as T.
    pose proof (trans_stores _ _ _ _ T) as Ts.
    destruct T as (? & _ & _ & _ & _ & M). rewrite app_nil_r in *.
    eapply pub_state_frame; [exact H | exact M | exact Ts |].
    cbn [g_stats set_g_operator]. rewrite (keeps_sp_release _ _ _ _ Hr). reflexivity.
  - rewrite Hk in *.
    destruct (main_pc st) as [d0 | | |]; try (destruct Ht as [_ Ht]; discriminate);
      cbn [app] in *.
    + rewrite <- (app_nil_r (driver_todo d')). rewrite <- (app_nil_r (driver_todo d)) in H.
      eapply driver_move_pub; eauto.
    + rewrite <- (app_nil_r (driver_todo d')). rewrite <- (app_nil_r (driver_todo d)) in H.
      eapply driver_move_pub; eauto.
  - assert (Hq : forall todo uu fl su pend,
              pub_state dl todo uu fl su pend (shared st) ->
              pub_state dl todo uu fl su pend sh').
    { intros. eapply pub_state_quiet; [eassumption | eapply worker_step_eff, Hws |].
      rewrite (worker_step_stats _ _ _ _ _ Hws).
      destruct w; try reflexivity. apply record_variant_keeps. }
    apply Hq, H.
Qed.

Lemma publish_inv_init dl : publish_inv dl State_init.
Proof.
  unfold publish_inv, pub_state. cbn. splits; auto; try constructor. lia.
Qed.

Lemma reachable_publish_inv dl st : reachable dl st -> publish_inv dl st.
Proof.
  intros [sched Hr].
  assert (H : Inv st /\ publish_inv dl st); [|tauto].
  eapply (run_preserves (fun s => Inv s /\ publish_inv dl s) dl); [| | exact Hr].
  - intros l s s' [HI HP] Hs. split; [exact (step_Inv dl l s s' HI Hs)|].
    exact (step_publish_inv dl s s' (proj2 HI) HP (step_inv dl l s s' Hs)).
  - split; [apply Inv_init | apply publish_inv_init].
Qed.

Lemma failed_is_unpublished st :
  (of_active driver_failed_blocks st <= of_active driver_unpublished st)%nat.
Proof.
  unfold of_active. destruct (active_driver st) as [[rest | rest pc]|]; cbn; try lia.
  destruct pc; cbn; try lia. destruct result; cbn; lia.
Qed.

(** Publishes follow the script. The [i]-th store to the slot, counting
    from 0, installs block [i] of the heap, and that block is what a
    successful load of the [i]-th path of the script made: [main]'s v1
    first, then the controller's v2, v1, v2. A bundle whose load failed
    is never published. *)
Theorem publishes_follow_script
  (dl : DynLinker) (st : State) (i : nat) (v : option ptr) :
  reachable dl st ->
  stores (trace (shared st)) !! i = Some v ->
  v = Some i
  /\ exists f b,
       all_scripts !! i = Some f
       /\ load_fails dl f = false
       /\ heap (shared st) !! i = Some b
       /\ obj b = loaded_holder dl f.
Proof.
  intros Hr Hi.
  destruct (reachable_publish_inv dl st Hr) as (H1 & H2 & H3 & H4 & H5 & H0 & H6).
  pose proof (failed_is_unpublished st) as Hfu.
  rewrite H3 in Hi. change (map Some ?l) with (Some <$> l) in Hi.
  apply list_lookup_fmap_Some in Hi as (j & -> & Hj).
  apply lookup_seq in Hj as [-> Hlt]. cbn [Nat.add] in *.
  split; [reflexivity|].
  destruct (lookup_lt_is_Some_2 (heap (shared st)) i ltac:(lia)) as [b Hb].
  assert (Ho : map obj (heap (shared st)) !! i = Some (obj b)).
  { change (map obj ?l) with (obj <$> l). rewrite list_lookup_fmap, Hb. reflexivity. }
  rewrite H2 in Ho. change (map ?g ?l) with (g <$> l) in Ho.
  apply list_lookup_fmap_Some in Ho as (f & Hof & Hf).
  pose proof Hf as Hf'. apply lookup_take_Some in Hf' as [Hfs _].
  exists f, b. splits; auto.
  rewrite Forall_forall in H5. apply H5.
  eapply list_elem_of_lookup_2. apply lookup_take_Some. split; [exact Hfs | lia].
Qed.

Lemma publishes_follow_script_witness :
  Some 2%nat = Some 2%nat
  /\ exists f b,
       all_scripts !! 2%nat = Some f
       /\ load_fails demo_linker f = false
       /\ heap (shared demo_final) !! 2%nat = Some b
       /\ obj b = loaded_holder demo_linker f.
Proof.
  apply (publishes_follow_script demo_linker demo_final 2 (Some 2%nat)).
  - exact demo_final_reachable.
  - vm_compute. reflexivity.
Defined.

(** [hot_update_count] counts the publishes: it never runs ahead of the
    number of stores to the slot and lags by at most the one store whose
    increment is still to come; when [main] has returned, both are 4. *)
Theorem hot_update_count_counts_publishes (dl : DynLinker) (st : State) :
  reachable dl st ->
  Z.of_nat (length (stores (trace (shared st)))) - 1
  <= hot_update_count (g_stats (shared st))
  <= Z.of_nat (length (stores (trace (shared st))))
  /\ (main_pc st = Main_exited ->
      hot_update_count (g_stats (shared st)) = 4
      /\ stores (trace (shared st)) = [Some 0; Some 1; Some 2; Some 3]%nat).
Proof.
  intros Hr.
  destruct (reachable_publish_inv dl st Hr) as (H1 & H2 & H3 & H4 & H5 & H0 & H6).
  destruct (reachable_Inv dl st Hr) as [_ Ht].
  split.
  - assert (Hsu : (of_active driver_stored_uncounted st <= 1)%nat).
    { unfold of_active. destruct (active_driver st) as [[rest | rest pc]|]; cbn; try lia.
      destruct pc; cbn; lia. }
    lia.
  - intros Hm. unfold threads_ok in Ht. rewrite Hm in Ht. destruct Ht as (_ & Hd & _).
    unfold paths_todo, of_active, active_driver in *. rewrite Hm in *.
    destruct (controller st) as [[[|? ?]|? ?]|]; try discriminate.
    cbn [driver_todo driver_unpublished driver_stored_uncounted] in *.
    assert (Hlen : length (heap (shared st)) = 4%nat).
    { apply (f_equal length) in H2. rewrite !length_map, length_take in H2.
      symmetry in H1. apply (f_equal length) in H1. rewrite length_drop in H1.
      change (length all_scripts) with 4%nat in *. cbn [length] in H1. lia. }
    rewrite Hlen in H3. cbn in H3. rewrite H3 in *. cbn in H6. split; [lia | reflexivity].
Qed.

Lemma hot_update_count_counts_publishes_witness :
  Z.of_nat (length (stores (trace (shared demo_final)))) - 1
  <= hot_update_count (g_stats (shared demo_final))
  <= Z.of_nat (length (stores (trace (shared demo_final))))
  /\ (main_pc demo_final = Main_exited ->
      hot_update_count (g_stats (shared demo_final)) = 4
      /\ stores (trace (shared demo_final)) = [Some 0; Some 1; Some 2; Some 3]%nat).
Proof.
  apply (hot_update_count_counts_publishes demo_linker demo_final).
  exact demo_final_reachable.
Defined.

(* ===================================================================== *)
(** * Each round is computed at most once *)
(* ===================================================================== *)

Lemma count_compute_app tid i t1 t2 :
  count_compute tid i (t1 ++ t2)
  = (count_compute tid i t1 + count_compute tid i t2)%nat.
Proof.
  induction t1 as [|e t1 IH]; cbn; [reflexivity|].
  destruct e; cbn; rewrite ?IH; try reflexivity. lia.
Qed.

Lemma no_compute_count tid i evs : no_compute evs -> count_compute tid i evs = 0%nat.
Proof.
  unfold no_compute. induction evs as [|e evs IH]; intros H; [reflexivity|].
  cbn in H. apply andb_prop in H as [He H]. destruct e; cbn; try (apply IH, H).
  discriminate.
Qed.

Lemma worker_events_count tid' w sh tid i :
  count_compute tid i (worker_events tid' w sh)
  = match w with
    | W_check j (Some p) =>
        if usable_at (heap sh) p && (Nat.eqb tid tid' && Nat.eqb i j)
        then 1%nat else 0%nat
    | _ => 0%nat
    end.
Proof.
  unfold worker_events. rewrite count_compute_app.
  rewrite (no_compute_count _ _ _ (release_no_compute _ _)), Nat.add_0_r.
  destruct w as [j | j [p|] | j p sc | j p sc nm | j p sc |]; cbn [worker_body];
    try reflexivity.
  - destruct (j <? total_rounds)%nat; reflexivity.
  - destruct (usable_at (heap sh) p); cbn; [|reflexivity].
    destruct (Nat.eqb tid tid' && Nat.eqb i j); reflexivity.
Qed.

(** Steps of [main] and of the controller compute nothing. *)
Lemma rounds_inv_quiet exact st sh' mpc ctl evs :
  rounds_inv exact st ->
  trace sh' = trace (shared st) ++ evs -> no_compute evs ->
  workers_started mpc (workers st) ->
  rounds_inv exact (mkState sh' mpc (workers st) ctl false).
Proof.
  intros (Hb & _ & Hc) Ht Hn Hl. split; [exact Hb|]. split; [exact Hl|].
  intros tid i. unfold rounds_passed_of. cbn [shared workers].
  rewrite Ht, count_compute_app, (no_compute_count _ _ _ Hn), Nat.add_0_r.
  apply Hc.
Qed.

Lemma worker_step_bound tid w sh w' sh' :
  worker_step tid w sh = Some (w', sh') -> worker_bound w -> worker_bound w'.
Proof.
  intros Hs Hb. pose proof (worker_step_next _ _ _ _ _ Hs) as Hn.
  destruct w as [j | j [p|] | j p sc | j p sc nm | j p sc |]; cbn in Hb.
  - destruct (Nat.ltb_spec j total_rounds); subst w'; cbn; auto.
  - destruct Hn as (b & _ & Hn). destruct (op (obj b)).
    + destruct Hn as [sc ->]. exact Hb.
    + subst w'. cbn. lia.
  - subst w'. cbn. lia.
  - destruct Hn as [nm ->]. exact Hb.
  - subst w'. exact Hb.
  - subst w'. cbn. lia.
  - subst w'. exact I.
Qed.

Lemma step_rounds_inv dl exact st st' :
  Inv st -> rounds_inv exact st ->
  (exact = true -> snapshots_usable st) ->
  step_rel dl st st' -> rounds_inv exact st'.
Proof.
  intros [Hc Ht] H Hu Hs. unfold refcounts_ok, roots in Hc. unfold threads_ok in Ht.
  destruct Hs as [ | d d' sh' Hm Hd | Hm | Hm | u sh1 Hm Hw Hcd Hr
                 | d d' sh' Hk Hd | tid w w' sh' Hw Hnd Hws].
  - exact H.
  - rewrite Hm in Hc. cbn [main_roots] in Hc.
    eapply rounds_inv_quiet; [exact H | | apply driver_events_no_compute | exact I].
    eapply driver_move_trace; eauto.
  - destruct H as (Hb & _ & Hcnt). split; [exact Hb|]. split; [exact I | exact Hcnt].
  - (* the threads start *)
    rewrite Hm in Ht. destruct Ht as [Hws _].
    destruct H as (_ & _ & Hcnt). split; [|split].
    + cbn [workers]. unfold THREAD_NUM. repeat constructor; cbn; unfold total_rounds; lia.
    + reflexivity.
    + intros tid i. specialize (Hcnt tid i). unfold rounds_passed_of in *.
      rewrite Hws in Hcnt. cbn [shared workers] in *.
      rewrite lookup_nil in Hcnt. cbn in Hcnt.
      destruct (replicate THREAD_NUM (W_loop 0) !! tid) as [w|] eqn:Hl.
      * apply lookup_replicate in Hl as [-> _]. cbn. exact Hcnt.
      * cbn. exact Hcnt.
  - eapply (rounds_inv_quiet exact st (set_g_operator None sh1));
      [exact H | | apply (release_no_compute (heap (shared st))) |].
    + cbn [trace set_g_operator]. eapply sp_release_trace, Hr.
    + destruct H as (_ & Hl & _). unfold workers_started in *. rewrite Hm in Hl.
      exact Hl.
  - assert (Hc' : cnt (shared st)
                (oroot (g_operator (shared st)) ++ driver_roots d
                 ++ main_roots (main_pc st) ++ workers_roots (workers st))).
    { eapply cnt_perm; [exact Hc|]. rewrite Hk. cbn [controller_roots]. solve_occ. }
    eapply rounds_inv_quiet; [exact H | | apply driver_events_no_compute | apply H].
    eapply driver_move_trace; eauto.
  - (* a worker *)
    destruct H as (Hb & Hl & Hcnt).
    assert (Hbw : worker_bound w).
    { rewrite Forall_forall in Hb. apply Hb. eapply list_elem_of_lookup_2, Hw. }
    pose proof (worker_step_bound _ _ _ _ _ Hws Hbw) as Hbw'.
    pose proof (worker_step_next _ _ _ _ _ Hws) as Hn.
    split; [|split].
    + cbn [workers]. apply Forall_insert; assumption.
    + cbn [workers main_pc]. unfold workers_started in *.
      destruct (main_pc st); try exact I; rewrite length_insert; exact Hl.
    + intros tid' i. specialize (Hcnt tid' i). unfold rounds_passed_of in *.
      cbn [shared workers] in *.
      rewrite (worker_step_trace _ _ _ _ _ Hws), count_compute_app,
        worker_events_count.
      destruct (Nat.eqb_spec tid' tid) as [->|Hne].
      2:{ rewrite list_lookup_insert_ne by congruence.
          replace (match w with W_check j (Some p) => _ | _ => 0%nat end) with 0%nat.
          - rewrite Nat.add_0_r. exact Hcnt.
          - destruct w as [j | j [p|] | j p sc | j p sc nm | j p sc |]; try reflexivity.
            rewrite andb_false_r. reflexivity. }
      rewrite list_lookup_insert_eq by (eapply lookup_lt_Some, Hw).
      rewrite Hw in Hcnt. cbn zeta in *. destruct Hcnt as [Hle Hex].
      destruct w as [j | j [p|] | j p sc | j p sc nm | j p sc |];
        cbn [rounds_passed worker_bound] in *.
      * rewrite Nat.add_0_r.
        destruct (Nat.ltb_spec j total_rounds); subst w'; cbn [rounds_passed].
        -- auto.
        -- replace total_rounds with j by lia. auto.
      * destruct Hn as (b & Hp & Hn). unfold usable_at. rewrite Hp.
        destruct (op (obj b)) as [o|] eqn:Ho; cbn [is_null negb andb].
        -- destruct Hn as [sc ->]. cbn [rounds_passed].
           destruct (Nat.eqb_spec i j) as [->|Hij].
           ++ rewrite Nat.ltb_irrefl in *.
              replace (j <? S j)%nat with true by (symmetry; apply Nat.ltb_lt; lia).
              split; [lia | intros; lia].
           ++ rewrite Nat.add_0_r.
              replace (i <? S j)%nat with (i <? j)%nat; [auto|].
              destruct (Nat.ltb_spec i j), (Nat.ltb_spec i (S j)); try reflexivity; lia.
        -- subst w'. cbn [rounds_passed]. rewrite Nat.add_0_r. split.
           ++ destruct (Nat.ltb_spec i j), (Nat.ltb_spec i (S j)); lia.
           ++ intros He. destruct (Hu He tid j (Some p) Hw) as (q & [= <-] & Hus).
              unfold usable_at in Hus. rewrite Hp, Ho in Hus. discriminate.
      * subst w'. cbn [rounds_passed]. rewrite Nat.add_0_r. split.
        -- destruct (Nat.ltb_spec i j), (Nat.ltb_spec i (S j)); lia.
        -- intros He. destruct (Hu He tid j None Hw) as (q & Hq & _). discriminate.
      * destruct Hn as [nm ->]. rewrite Nat.add_0_r. auto.
      * subst w'. rewrite Nat.add_0_r. auto.
      * subst w'. rewrite Nat.add_0_r. auto.
      * discriminate.
Qed.

Lemma rounds_inv_init exact : rounds_inv exact State_init.
Proof.
  split; [constructor|]. split; [exact I|]. intros tid i. cbn. auto.
Qed.

Lemma reachable_rounds_inv dl st : reachable dl st -> rounds_inv false st.
Proof.
  intros [sched Hr].
  assert (H : Inv st /\ rounds_inv false st); [|tauto].
  eapply (run_preserves (fun s => Inv s /\ rounds_inv false s) dl); [| | exact Hr].
  - intros l s s' [HI HR] Hs. split; [exact (step_Inv dl l s s' HI Hs)|].
    eapply step_rounds_inv; [exact HI | exact HR | discriminate | eapply step_inv, Hs].
  - split; [apply Inv_init | apply rounds_inv_init].
Qed.

Lemma rounds_passed_bound w : worker_bound w -> (rounds_passed w <= total_rounds)%nat.
Proof. destruct w; cbn; lia. Qed.

(** No round is computed twice, and nothing is computed outside the
    rounds of the program: for every worker number and round number,
    [compute_score] has been called at most once, and not at all unless
    the worker is one of the [THREAD_NUM] and the round is below
    [total_rounds]. This holds for every plug-in and every interleaving. *)
Theorem compute_at_most_once_per_round (dl : DynLinker) (st : State) (tid i : nat) :
  reachable dl st ->
  (count_compute tid i (trace (shared st)) <= 1)%nat
  /\ (count_compute tid i (trace (shared st)) = 1%nat ->
      (tid < THREAD_NUM)%nat /\ (i < total_rounds)%nat).
Proof.
  intros Hr. destruct (reachable_rounds_inv dl st Hr) as (Hb & Hl & Hc).
  destruct (reachable_Inv dl st Hr) as [_ Ht].
  destruct (Hc tid i) as [Hle _]. cbn zeta in Hle. unfold rounds_passed_of in Hle.
  split; [destruct (_ <? _)%nat; lia|].
  intros H1. rewrite H1 in Hle.
  destruct (workers st !! tid) as [w|] eqn:Hw; [|cbn in Hle; lia].
  destruct (Nat.ltb_spec i (rounds_passed w)) as [Hlt|]; [|lia].
  assert (Hbw : worker_bound w).
  { rewrite Forall_forall in Hb. apply Hb. eapply list_elem_of_lookup_2, Hw. }
  apply rounds_passed_bound in Hbw. split; [|lia].
  apply lookup_lt_Some in Hw. unfold workers_started, threads_ok in *.
  destruct (main_pc st); try (rewrite <- Hl; exact Hw);
    destruct Ht as [E _]; rewrite E in Hw; cbn in Hw; lia.
Qed.

Lemma compute_at_most_once_per_round_witness :
  (count_compute 3 19 (trace (shared demo_final)) <= 1)%nat
  /\ (count_compute 3 19 (trace (shared demo_final)) = 1%nat ->
      (3 < THREAD_NUM)%nat /\ (19 < total_rounds)%nat).
Proof.
  apply (compute_at_most_once_per_round demo_linker demo_final 3 19).
  exact demo_final_reachable.
Defined.

Lemma demo_snapshots_usable dl st : Inv st -> demo_inv dl st -> snapshots_usable st.
Proof.
  intros [Hc _] HD tid i v Hw. unfold refcounts_ok, roots in Hc.
  pose proof (workers_good dl st HD) as Hg. rewrite Forall_forall in Hg.
  specialize (Hg _ (list_elem_of_lookup_2 _ _ _ Hw)). cbn in Hg.
  destruct v as [p|]; [|destruct Hg as [Hg _]; congruence].
  exists p. split; [reflexivity|].
  destruct (workers_roots_insert _ _ _ Hw) as (F & HF1 & _).
  destruct (counted_owner_allocated _ _ _ p Hc) as (b & Hp & _).
  { rewrite !occ_app, HF1, occ_app. cbn [worker_roots oroot occ].
    rewrite Nat.eqb_refl. lia. }
  unfold usable_at. rewrite Hp.
  pose proof (heap_good dl st HD) as Hh. rewrite Forall_forall in Hh.
  assert (Ho : op (obj b) <> None).
  { apply Hh. apply list_elem_of_fmap. exists b. split; [reflexivity|].
    eapply list_elem_of_lookup_2, Hp. }
  destruct (op (obj b)); [reflexivity | contradiction].
Qed.

Lemma reachable_rounds_exact dl st :
  all_loads_succeed dl -> reachable dl st -> rounds_inv true st.
Proof.
  intros Hall [sched Hr].
  assert (H : (Inv st /\ demo_inv dl st) /\ rounds_inv true st); [|tauto].
  eapply (run_preserves
            (fun s => (Inv s /\ demo_inv dl s) /\ rounds_inv true s) dl);
    [| | exact Hr].
  - intros l s s' [[HI HD] HR] Hs. pose proof (step_inv dl l s s' Hs) as Hrel.
    split; [split|].
    + exact (step_Inv dl l s s' HI Hs).
    + exact (step_demo_inv dl s s' Hall (proj2 HI) HD Hrel).
    + eapply step_rounds_inv; [exact HI | exact HR | | exact Hrel].
      intros _. eapply demo_snapshots_usable; eauto.
  - split; [split; [apply Inv_init | apply demo_inv_init, Hall]
           | apply rounds_inv_init].
Qed.

(** In the demo every round of every worker is computed exactly once:
    when [main] has returned, [compute_score] has been called once for
    each of the [THREAD_NUM] workers and each of its [total_rounds] rounds,
    and for nothing else, whatever the interleaving. *)
Theorem demo_computes_every_round_once (dl : DynLinker) (st : State) (tid i : nat) :
  all_loads_succeed dl ->
  reachable dl st ->
  main_pc st = Main_exited ->
  count_compute tid i (trace (shared st))
  = if Nat.ltb tid THREAD_NUM && Nat.ltb i total_rounds then 1%nat else 0%nat.
Proof.
  intros Hall Hr Hm. destruct (reachable_rounds_exact dl st Hall Hr) as (Hb & Hl & Hc).
  destruct (reachable_Inv dl st Hr) as [_ Ht].
  destruct (Hc tid i) as [_ He]. rewrite (He eq_refl). cbn zeta.
  unfold rounds_passed_of, workers_started, threads_ok in *. rewrite Hm in *.
  destruct Ht as (Hd & _).
  destruct (workers st !! tid) as [w|] eqn:Hw.
  - rewrite (forallb_done_lookup _ _ _ Hd Hw). cbn [rounds_passed].
    apply lookup_lt_Some in Hw. rewrite Hl in Hw.
    replace (tid <? THREAD_NUM)%nat with true by (symmetry; apply Nat.ltb_lt; lia).
    reflexivity.
  - apply lookup_ge_None in Hw. rewrite Hl in Hw.
    replace (tid <? THREAD_NUM)%nat with false by (symmetry; apply Nat.ltb_ge; lia).
    reflexivity.
Qed.

Lemma demo_computes_every_round_once_witness :
  count_compute 2 7 (trace (shared demo_final))
  = if Nat.ltb 2 THREAD_NUM && Nat.ltb 7 total_rounds then 1%nat else 0%nat.
Proof.
  apply (demo_computes_every_round_once demo_linker demo_final 2 7).
  - exact demo_linker_loads_succeed.
  - exact demo_final_reachable.
  - reflexivity.
Defined.

(* ===================================================================== *)
(** * The request counters under concurrency *)
(* ===================================================================== *)

Lemma sum_workers_insert f ws : forall tid w w',
  ws !! tid = Some w ->
  (sum_workers f (<[tid := w']> ws) + f w = sum_workers f ws + f w')%nat.
Proof.
  induction ws as [|x ws IH]; intros tid w w' Hw; [discriminate|].
  destruct tid as [|tid]; cbn in Hw.
  - injection Hw as ->. cbn. lia.
  - change (<[S tid := w']> (x :: ws)) with (x :: <[tid := w']> ws).
    cbn [sum_workers]. specialize (IH tid w w' Hw). lia.
Qed.

Lemma sum_workers_done f ws :
  f W_done = 0%nat -> forallb is_done ws = true -> sum_workers f ws = 0%nat.
Proof.
  intros Hf. induction ws as [|w ws IH]; intros H; [reflexivity|].
  cbn in H. apply andb_prop in H as [Hw H]. destruct w; try discriminate.
  cbn. rewrite Hf, IH by exact H. reflexivity.
Qed.

Lemma driver_move_requests dl who sh d d' sh' :
  driver_move dl who sh d d' sh' ->
  total_requests (g_stats sh') = total_requests (g_stats sh)
  /\ v1_requests (g_stats sh') = v1_requests (g_stats sh)
  /\ v2_requests (g_stats sh') = v2_requests (g_stats sh).
Proof.
  intros H. destruct H as [f rest | rest | rest pc sh' Hs Hne]; auto.
  rewrite (hot_update_step_stats _ _ _ _ _ _ Hs). destruct pc; auto.
Qed.

Lemma record_variant_counts nm s :
  0 <= v1_requests s < 100 -> 0 <= v2_requests s < 100 ->
  total_requests (record_variant nm s) = total_requests s
  /\ 0 <= v1_requests (record_variant nm s)
  /\ 0 <= v2_requests (record_variant nm s)
  /\ v1_requests (record_variant nm s) + v2_requests (record_variant nm s)
     = v1_requests s + v2_requests s + (if is_other nm then 0 else 1).
Proof.
  intros H1 H2. unfold record_variant, is_other.
  destruct (String.eqb nm "ScoreOperatorV1") eqn:E1.
  - cbn. rewrite incr64_small by exact H1. lia.
  - destruct (String.eqb nm "ScoreOperatorV2") eqn:E2; cbn.
    + rewrite incr64_small by exact H2. lia.
    + lia.
Qed.

Lemma worker_rounds_left_step tid w sh w' sh' :
  worker_step tid w sh = Some (w', sh') -> worker_bound w ->
  (worker_rounds_left w' + (match w with W_record _ _ _ => 1 | _ => 0 end)
   <= worker_rounds_left w)%nat.
Proof.
  intros Hs Hb. pose proof (worker_step_next _ _ _ _ _ Hs) as Hn.
  destruct w as [j | j [p|] | j p sc | j p sc nm | j p sc |];
    cbn [worker_bound worker_rounds_left] in Hb |- *.
  - destruct (Nat.ltb_spec j total_rounds); subst w'; cbn [worker_rounds_left]; lia.
  - destruct Hn as (b & _ & Hn). destruct (op (obj b)).
    + destruct Hn as [sc ->]. cbn [worker_rounds_left]. lia.
    + subst w'. cbn [worker_rounds_left]. lia.
  - subst w'. cbn [worker_rounds_left]. lia.
  - destruct Hn as [nm ->]. cbn [worker_rounds_left]. lia.
  - subst w'. cbn [worker_rounds_left]. lia.
  - subst w'. cbn [worker_rounds_left]. lia.
  - subst w'. cbn [worker_rounds_left]. lia.
Qed.

Lemma holder_name_value p sh nm sh' :
  holder_name p sh = Some (nm, sh') ->
  exists b o, heap sh !! p = Some b /\ op (obj b) = Some o
              /\ nm = fst (name o (mem sh)).
Proof.
  intros H. unfold holder_name in H. inv_bind H. unfold deref in E.
  destruct (heap sh !! p) as [b|] eqn:Hp; [|discriminate]. injection E as <- <-.
  destruct (op (obj b)) as [o|] eqn:Ho; [|discriminate].
  unfold call in H. destruct (name o (mem sh)) as [n m'] eqn:En.
  injection H as <- _. exists b, o. rewrite En. auto.
Qed.

Lemma step_counters_inv dl exact st st' :
  threads_ok st -> Forall worker_bound (workers st) ->
  counters_inv exact st ->
  (exact = true -> heap_names_known (shared st)) ->
  step_rel dl st st' -> counters_inv exact st'.
Proof.
  intros Ht Hb H Hk Hs. unfold threads_ok in Ht.
  unfold counters_inv, requests_left in *. cbn zeta in *.
  destruct Hs as [ | d d' sh' Hm Hd | Hm | Hm | u sh1 Hm Hw Hcd Hr
                 | d d' sh' Hk' Hd | tid w w' sh' Hw Hnd Hws];
    cbn [shared crash_state main_pc workers controller].
  - exact H.
  - destruct (driver_move_requests _ _ _ _ _ _ Hd) as (-> & -> & ->).
    rewrite Hm in H. exact H.
  - rewrite Hm in H. exact H.
  - rewrite Hm in H, Ht. destruct Ht as [Hws _]. rewrite Hws in H. exact H.
  - cbn [g_stats set_g_operator]. rewrite (keeps_sp_release _ _ _ _ Hr).
    rewrite Hm in H. exact H.
  - destruct (driver_move_requests _ _ _ _ _ _ Hd) as (-> & -> & ->). exact H.
  - (* a worker *)
    assert (Hmj : requests_left st = workers_rounds_left (workers st)).
    { unfold requests_left. destruct (main_pc st); try reflexivity;
        destruct Ht as [E _]; rewrite E in Hw; discriminate. }
    assert (Hmj' : match main_pc st with
                   | Main_init _ | Main_spawn => (THREAD_NUM * total_rounds)%nat
                   | _ => workers_rounds_left (<[tid := w']> (workers st))
                   end = workers_rounds_left (<[tid := w']> (workers st))).
    { destruct (main_pc st); try reflexivity;
        destruct Ht as [E _]; rewrite E in Hw; discriminate. }
    unfold requests_left in Hmj. rewrite Hmj in H. rewrite Hmj'. clear Hmj Hmj'.
    assert (Hbw : worker_bound w).
    { rewrite Forall_forall in Hb. apply Hb. eapply list_elem_of_lookup_2, Hw. }
    pose proof (worker_rounds_left_step _ _ _ _ _ Hws Hbw) as Hrl.
    pose proof (workers_rounds_left_insert _ _ _ w' Hw) as Hri.
    pose proof (sum_workers_insert variant_pending _ _ _ w' Hw) as Hpi.
    pose proof (worker_step_stats _ _ _ _ _ Hws) as Hst.
    pose proof (worker_step_next _ _ _ _ _ Hws) as Hn.
    destruct H as (H1 & H2 & H3 & H4 & H5). rewrite Hst.
    destruct w as [j | j [p|] | j p sc | j p sc nm | j p sc |];
      cbn [variant_pending] in *.
    + assert (variant_pending w' = 0%nat) as Hv
        by (destruct (j <? total_rounds)%nat; subst w'; reflexivity).
      rewrite Hv in Hpi. splits; try lia. intros He. specialize (H5 He). lia.
    + assert (variant_pending w' = 0%nat) as Hv.
      { destruct Hn as (b & _ & Hn). destruct (op (obj b)); [destruct Hn as [? ->]|subst w'];
          reflexivity. }
      rewrite Hv in Hpi. splits; try lia. intros He. specialize (H5 He). lia.
    + subst w'. cbn [variant_pending] in Hpi. splits; try lia.
      intros He. specialize (H5 He). lia.
    + (* total_requests++ *)
      destruct Hn as [nm ->]. cbn [variant_pending] in Hpi.
      cbn [total_requests v1_requests v2_requests inc_total_requests].
      rewrite incr64_small by lia.
      destruct (is_other nm) eqn:Hnm; splits; try lia.
      * intros He. exfalso.
        cbn [worker_step] in Hws. inv_bind Hws. inv_bind Hws. injection Hws as Hnm' _.
        subst a.
        destruct (holder_name_value _ _ _ _ E) as (b & o & Hp & Ho & Hv).
        pose proof (Hk He p b o (mem (shared st)) Hp Ho) as Hkn. congruence.
      * intros He. specialize (H5 He). lia.
    + (* the variant counter *)
      subst w'. cbn [variant_pending] in Hpi.
      destruct (record_variant_counts nm (g_stats (shared st))) as (R1 & R2 & R3 & R4);
        [lia | lia |].
      rewrite R1. destruct (is_other nm); splits; try lia;
        intros He; specialize (H5 He); lia.
    + subst w'. cbn [variant_pending] in Hpi. splits; try lia.
      intros He. specialize (H5 He). lia.
    + discriminate.
Qed.

Lemma counters_inv_init exact : counters_inv exact State_init.
Proof. unfold counters_inv. cbn. splits; try lia. Qed.

Lemma reachable_counters_inv dl st : reachable dl st -> counters_inv false st.
Proof.
  intros [sched Hr].
  assert (H : (Inv st /\ rounds_inv false st) /\ counters_inv false st); [|tauto].
  eapply (run_preserves
            (fun s => (Inv s /\ rounds_inv false s) /\ counters_inv false s) dl);
    [| | exact Hr].
  - intros l s s' [[HI HR] HC] Hs. pose proof (step_inv dl l s s' Hs) as Hrel.
    split; [split|].
    + exact (step_Inv dl l s s' HI Hs).
    + eapply step_rounds_inv; [exact HI | exact HR | discriminate | exact Hrel].
    + eapply step_counters_inv; [apply HI | apply HR | exact HC | discriminate | exact Hrel].
  - split; [split; [apply Inv_init | apply rounds_inv_init] | apply counters_inv_init].
Qed.

(** Under concurrency the variant counters never run ahead of the total:
    in every state, for every plug-in, [v1_requests + v2_requests], plus
    the increments of workers that are between the two increments of
    [record_request], is at most [total_requests], and no counter is
    anywhere near wrapping. *)
Theorem variant_counters_never_exceed_total (dl : DynLinker) (st : State) :
  reachable dl st ->
  0 <= v1_requests (g_stats (shared st))
  /\ 0 <= v2_requests (g_stats (shared st))
  /\ v1_requests (g_stats (shared st)) + v2_requests (g_stats (shared st))
     + Z.of_nat (sum_workers variant_pending (workers st))
     <= total_requests (g_stats (shared st))
  /\ total_requests (g_stats (shared st)) <= 80.
Proof.
  intros Hr. destruct (reachable_counters_inv dl st Hr) as (H1 & H2 & H3 & H4 & _).
  splits; try assumption. lia.
Qed.

Lemma variant_counters_never_exceed_total_witness :
  0 <= v1_requests (g_stats (shared demo_final))
  /\ 0 <= v2_requests (g_stats (shared demo_final))
  /\ v1_requests (g_stats (shared demo_final))
     + v2_requests (g_stats (shared demo_final))
     + Z.of_nat (sum_workers variant_pending (workers demo_final))
     <= total_requests (g_stats (shared demo_final))
  /\ total_requests (g_stats (shared demo_final)) <= 80.
Proof.
  apply (variant_counters_never_exceed_total demo_linker demo_final).
  exact demo_final_reachable.
Defined.

Lemma publish_inv_names dl st :
  known_names dl -> publish_inv dl st -> heap_names_known (shared st).
Proof.
  intros Hk (_ & H2 & _) p b o m Hp Ho.
  assert (Hob : map obj (heap (shared st)) !! p = Some (obj b)).
  { change (map obj ?l) with (obj <$> l). rewrite list_lookup_fmap, Hp. reflexivity. }
  rewrite H2 in Hob. change (map ?g ?l) with (g <$> l) in Hob.
  apply list_lookup_fmap_Some in Hob as (f & Hof & Hf).
  apply lookup_take_Some in Hf as [Hf _].
  unfold known_names in Hk. rewrite Forall_forall in Hk.
  apply (Hk f (list_elem_of_lookup_2 _ _ _ Hf) o m). rewrite <- Hof. exact Ho.
Qed.

Lemma reachable_counters_exact dl st :
  known_names dl -> reachable dl st -> counters_inv true st.
Proof.
  intros Hk [sched Hr].
  assert (H : (Inv st /\ rounds_inv false st /\ publish_inv dl st)
              /\ counters_inv true st); [|tauto].
  eapply (run_preserves
            (fun s => (Inv s /\ rounds_inv false s /\ publish_inv dl s)
                      /\ counters_inv true s) dl);
    [| | exact Hr].
  - intros l s s' [(HI & HR & HP) HC] Hs. pose proof (step_inv dl l s s' Hs) as Hrel.
    split; [split; [|split]|].
    + exact (step_Inv dl l s s' HI Hs).
    + eapply step_rounds_inv; [exact HI | exact HR | discriminate | exact Hrel].
    + exact (step_publish_inv dl s s' (proj2 HI) HP Hrel).
    + eapply step_counters_inv; [apply HI | apply HR | exact HC | | exact Hrel].
      intros _. eapply publish_inv_names; eauto.
  - split; [split; [apply Inv_init | split; [apply rounds_inv_init | apply publish_inv_init]]
           | apply counters_inv_init].
Qed.

(** With plug-ins that report one of the two counted names, as the
    shipped ones do, no request is lost or counted under no variant, in
    any interleaving: [total_requests] is [v1_requests + v2_requests] plus
    the workers that are between the two increments; when [main] has
    returned the two variant counters add up to the total, and to 80 when
    every load has yielded an instance. *)
Theorem requests_split_between_variants (dl : DynLinker) (st : State) :
  known_names dl ->
  reachable dl st ->
  total_requests (g_stats (shared st))
  = v1_requests (g_stats (shared st)) + v2_requests (g_stats (shared st))
    + Z.of_nat (sum_workers variant_pending (workers st))
  /\ (main_pc st = Main_exited ->
      v1_requests (g_stats (shared st)) + v2_requests (g_stats (shared st))
      = total_requests (g_stats (shared st))
      /\ (all_loads_succeed dl ->
          v1_requests (g_stats (shared st)) + v2_requests (g_stats (shared st)) = 80)).
Proof.
  intros Hk Hr. destruct (reachable_counters_exact dl st Hk Hr) as (_ & _ & _ & _ & H5).
  specialize (H5 eq_refl). split; [lia|]. intros Hm.
  destruct (reachable_Inv dl st Hr) as [_ Ht]. unfold threads_ok in Ht.
  rewrite Hm in Ht. destruct Ht as (Hd & _).
  rewrite (sum_workers_done variant_pending _ eq_refl Hd) in H5.
  split; [lia|]. intros Hall.
  pose proof (requests_eq dl st (reachable_demo_inv dl st Hall Hr)) as Hq.
  unfold requests_left in Hq. rewrite Hm, (workers_rounds_left_done _ Hd) in Hq. lia.
Qed.

Lemma demo_linker_known_names : known_names demo_linker.
Proof.
  unfold known_names, all_scripts, main_script, controller_script. cbn [app].
  repeat constructor; intros o m [= <-]; reflexivity.
Qed.

Lemma requests_split_between_variants_witness :
  total_requests (g_stats (shared demo_final))
  = v1_requests (g_stats (shared demo_final))
    + v2_requests (g_stats (shared demo_final))
    + Z.of_nat (sum_workers variant_pending (workers demo_final))
  /\ (main_pc demo_final = Main_exited ->
      v1_requests (g_stats (shared demo_final))
      + v2_requests (g_stats (shared demo_final))
      = total_requests (g_stats (shared demo_final))
      /\ (all_loads_succeed demo_linker ->
          v1_requests (g_stats (shared demo_final))
          + v2_requests (g_stats (shared demo_final)) = 80)).
Proof.
  apply (requests_split_between_variants demo_linker demo_final).
  - exact demo_linker_known_names.
  - exact demo_final_reachable.
Defined.

(* ===================================================================== *)
(** * The statistics output *)
(* ===================================================================== *)

(** A step of the process with output is a step of the process without,
    or leaves it alone. *)
Lemma xstep_base dl l p p' :
  xstep dl l p = Some p' ->
  base p' = base p \/ exists l', step dl l' (base p) = Some (base p').
Proof.
  unfold xstep, with_base. destruct (crashed (base p)); [discriminate|].
  destruct l as [[| | tid]|].
  - destruct (main_pc (base p)); try destruct (main_tail p);
      try (destruct (step dl L_main (base p)) as [st'|] eqn:Hs; [|discriminate];
           intros [= <-]; right; exists L_main; exact Hs).
    + destruct (_ && _); [|discriminate]. intros [= <-]. auto.
    + destruct (print_stats_step pc _); intros [= <-]; auto.
  - destruct (step dl L_controller (base p)) as [st'|] eqn:Hs; [|discriminate].
    intros [= <-]. right. exists L_controller. exact Hs.
  - destruct (step dl (L_worker tid) (base p)) as [st'|] eqn:Hs; [|discriminate].
    intros [= <-]. right. exists (L_worker tid). exact Hs.
  - destruct (stats_thread p) as [[i | i pc |]|]; try discriminate;
      destruct (stats_step _ _); intros [= <-]; auto.
Qed.

Lemma xrun_base dl sched : forall p p',
  reachable dl (base p) -> xrun dl sched p = Some p' -> reachable dl (base p').
Proof.
  induction sched as [|l rest IH]; intros p p' Hr H; cbn in H.
  - injection H as <-. exact Hr.
  - destruct (xstep dl l p) as [p1|] eqn:Hs; [|discriminate].
    apply (IH p1 p'); [|exact H].
    destruct (xstep_base _ _ _ _ Hs) as [-> | [l' Hl']]; [exact Hr|].
    eapply reachable_step; eauto.
Qed.

Lemma xreachable_base dl p : xreachable dl p -> reachable dl (base p).
Proof.
  intros [sched H]. apply (xrun_base dl sched Process_init p); [|exact H].
  exists []. reflexivity.
Qed.

Lemma report_le_refl r : report_le r r.
Proof. unfold report_le. lia. Qed.

Lemma report_le_trans r1 r2 r3 : report_le r1 r2 -> report_le r2 r3 -> report_le r1 r3.
Proof. unfold report_le. lia. Qed.

(** No counter ever decreases. *)
Lemma step_counters_grow dl l st st' :
  reachable dl st -> step dl l st = Some st' ->
  report_le (print_stats (g_stats (shared st))) (print_stats (g_stats (shared st'))).
Proof.
  intros Hr Hs.
  destruct (reachable_counters_inv dl st Hr) as (C1 & C2 & C3 & C4 & _).
  destruct (reachable_publish_inv dl st Hr) as (_ & P2 & P3 & _ & _ & P0 & P6).
  assert (Hcnt : 0 <= hot_update_count (g_stats (shared st)) < 100).
  { rewrite P3, length_map, length_seq in P6.
    apply (f_equal length) in P2. rewrite !length_map, length_take in P2.
    change (length all_scripts) with 4%nat in P2. lia. }
  apply step_inv in Hs. unfold report_le, print_stats. cbn [r_total r_v1 r_v2 r_updates].
  destruct Hs as [ | d d' sh' Hm Hd | Hm | Hm | u sh1 Hm Hw Hcd Hrl
                 | d d' sh' Hk Hd | tid w w' sh' Hw Hnd Hws];
    cbn [shared crash_state]; try lia.
  - destruct (driver_move_requests _ _ _ _ _ _ Hd) as (-> & -> & ->).
    destruct Hd as [f rest | rest | rest pc sh' Hs Hne]; try lia.
    rewrite (hot_update_step_stats _ _ _ _ _ _ Hs). destruct pc; try lia.
    cbn. rewrite incr64_small by exact Hcnt. lia.
  - cbn [g_stats set_g_operator]. rewrite (keeps_sp_release _ _ _ _ Hrl). lia.
  - destruct (driver_move_requests _ _ _ _ _ _ Hd) as (-> & -> & ->).
    destruct Hd as [f rest | rest | rest pc sh' Hs Hne]; try lia.
    rewrite (hot_update_step_stats _ _ _ _ _ _ Hs). destruct pc; try lia.
    cbn. rewrite incr64_small by exact Hcnt. lia.
  - rewrite (worker_step_stats _ _ _ _ _ Hws). destruct w; try lia.
    + cbn. rewrite incr64_small by lia. lia.
    + destruct (record_variant_counts op_name (g_stats (shared st)))
        as (R1 & R2 & R3 & R4); [lia | lia |].
      unfold record_variant in *.
      destruct (String.eqb op_name "ScoreOperatorV1");
        [|destruct (String.eqb op_name "ScoreOperatorV2")]; cbn in *;
        rewrite ?incr64_small by lia; lia.
Qed.

Lemma print_step_read pc s pc' printed :
  Forall (fun r => report_le r (print_stats s)) printed ->
  Forall (partial_ge pc) printed -> partial_le pc s ->
  print_stats_step pc s = inl pc' ->
  Forall (partial_ge pc') printed /\ partial_le pc' s.
Proof.
  intros H1 H2 H3 Hs. destruct pc; cbn in Hs; try discriminate;
    injection Hs as <-; cbn in *; (split; [|lia]);
    rewrite Forall_forall in *; intros r Hr;
    specialize (H1 r Hr); specialize (H2 r Hr); unfold report_le in H1; cbn in *; lia.
Qed.

Lemma print_step_report pc s r printed :
  Forall (fun r' => report_le r' (print_stats s)) printed ->
  Forall (partial_ge pc) printed -> partial_le pc s ->
  print_stats_step pc s = inr r ->
  Forall (fun r' => report_le r' r) printed /\ report_le r (print_stats s).
Proof.
  intros H1 H2 H3 Hs. destruct pc; cbn in Hs; try discriminate.
  injection Hs as <-. cbn in *. split; [|unfold report_le; cbn; lia].
  rewrite Forall_forall in *. intros r Hr.
  specialize (H1 r Hr). specialize (H2 r Hr). unfold report_le in *. cbn in *. lia.
Qed.

Lemma print_step_exact pc s :
  partial_eq pc s ->
  match print_stats_step pc s with
  | inl pc' => partial_eq pc' s
  | inr r => r = print_stats s
  end.
Proof.
  destruct pc; cbn; intros H.
  - reflexivity.
  - auto.
  - destruct H. auto.
  - destruct H as (-> & -> & ->). reflexivity.
Qed.

Lemma ordered_snoc (l : list Report) r :
  (forall i j r1 r2, (i <= j)%nat -> l !! i = Some r1 -> l !! j = Some r2 ->
                     report_le r1 r2) ->
  Forall (fun r' => report_le r' r) l ->
  forall i j r1 r2,
    (i <= j)%nat -> (l ++ [r]) !! i = Some r1 -> (l ++ [r]) !! j = Some r2 ->
    report_le r1 r2.
Proof.
  intros Ho Hf i j r1 r2 Hij Hi Hj.
  destruct (Nat.lt_ge_cases j (length l)) as [Hjl|Hjl].
  - rewrite lookup_app_l in Hi, Hj by lia. eauto.
  - rewrite lookup_app_r in Hj by exact Hjl.
    destruct (j - length l)%nat; [|discriminate]. injection Hj as <-.
    destruct (Nat.lt_ge_cases i (length l)) as [Hil|Hil].
    + rewrite lookup_app_l in Hi by exact Hil. rewrite Forall_forall in Hf.
      apply Hf. eapply list_elem_of_lookup_2, Hi.
    + rewrite lookup_app_r in Hi by exact Hil.
      destruct (i - length l)%nat; [|discriminate]. injection Hi as <-.
      apply report_le_refl.
Qed.

(** A thread that is done cannot step. *)
Lemma step_done_worker dl tid st :
  forallb is_done (workers st) = true -> step dl (L_worker tid) st = None.
Proof.
  intros Hd. unfold step. destruct (crashed st); [reflexivity|].
  destruct (workers st !! tid) as [w|] eqn:Hw; [|reflexivity].
  rewrite (forallb_done_lookup _ _ _ Hd Hw). reflexivity.
Qed.

Lemma step_done_controller dl st :
  driver_done (controller st) = true -> step dl L_controller st = None.
Proof.
  intros Hd. unfold step. destruct (crashed st); [reflexivity|].
  destruct (controller st) as [[[|? ?]|? ?]|]; try discriminate. reflexivity.
Qed.

(** How [main] moves on. *)
Lemma step_main_pc dl st st' :
  step dl L_main st = Some st' ->
  match main_pc st with
  | Main_init _ =>
      exists d', main_pc st' = Main_init d' \/ main_pc st' = Main_spawn
  | Main_spawn => main_pc st' = Main_join
  | Main_join =>
      main_pc st' = Main_join
      \/ (main_pc st' = Main_exited
          /\ g_stats (shared st') = g_stats (shared st)
          /\ workers st' = workers st /\ controller st' = controller st)
  | Main_exited => False
  end.
Proof.
  intros Hs. unfold step in Hs. destruct (crashed st); [discriminate|].
  destruct (main_pc st) as [d | | |] eqn:Hm.
  - destruct (driver_step dl TMain d (shared st)) as [[[d' | |] sh']|];
      injection Hs as <-; cbn [main_pc crash_state]; rewrite ?Hm;
      first [eexists; left; reflexivity | exists d; right; reflexivity].
  - injection Hs as <-. reflexivity.
  - destruct (_ && _); [|discriminate].
    destruct ((let* _ := sp_release (g_operator (shared st)) in
               modify (set_g_operator None)) (shared st)) as [[u sh']|] eqn:Hr;
      injection Hs as <-; cbn [main_pc crash_state]; rewrite ?Hm;
      [|left; reflexivity].
    right. inv_bind Hr. injection Hr as _ <-. cbn.
    rewrite (keeps_sp_release _ _ _ _ E). auto.
  - discriminate.
Qed.

(** The other threads leave [main] where it is. *)
Lemma step_other_main_pc dl l st st' :
  l <> L_main -> step dl l st = Some st' -> main_pc st' = main_pc st.
Proof.
  intros Hl Hs. unfold step in Hs. destruct (crashed st); [discriminate|].
  destruct l as [| | tid]; [contradiction | |].
  - destruct (controller st) as [d|]; [|discriminate].
    destruct (driver_step dl TController d (shared st)) as [[[d' | |] sh']|];
      try discriminate; injection Hs as <-; reflexivity.
  - destruct (workers st !! tid) as [w|]; [|discriminate].
    destruct (worker_step tid w (shared st)) as [[w' sh']|];
      destruct w; try discriminate; injection Hs as <-; reflexivity.
Qed.

Lemma partial_le_grow pc s s' :
  report_le (print_stats s) (print_stats s') -> partial_le pc s -> partial_le pc s'.
Proof. unfold report_le. destruct pc; cbn; lia. Qed.

Lemma order_inv_base p st' :
  order_inv p ->
  report_le (print_stats (g_stats (shared (base p))))
            (print_stats (g_stats (shared st'))) ->
  order_inv (mkProcess st' (stats_thread p) (main_tail p) (printed p)).
Proof.
  intros (H1 & H2 & H3 & H4) Hle. unfold order_inv, printing in *.
  cbn [base stats_thread main_tail printed] in *. splits; auto.
  - eapply Forall_impl; [exact H1|]. intros r Hr. cbn beta in *.
    exact (report_le_trans _ _ _ Hr Hle).
  - eapply Forall_impl; [exact H3|]. intros pc [Ha Hb]. split; [exact Ha|].
    exact (partial_le_grow _ _ _ Hle Hb).
Qed.

Lemma order_inv_append p r st' tl :
  order_inv p ->
  Forall (fun r' => report_le r' r) (printed p) ->
  report_le r (print_stats (g_stats (shared (base p)))) ->
  (match st' with Some (ST_print _ _) => False | _ => True end) ->
  (match tl with MT_print _ => False | _ => True end) ->
  (tl = MT_joining \/ stats_done st' = true) ->
  order_inv (mkProcess (base p) st' tl (printed p ++ [r])).
Proof.
  intros (H1 & H2 & H3 & H4) Hf Hr Hs Ht Hd. unfold order_inv, printing in *.
  cbn [base stats_thread main_tail printed] in *. splits.
  - apply Forall_app. split; [exact H1|]. constructor; [exact Hr | constructor].
  - apply ordered_snoc; assumption.
  - destruct st' as [[| |]|], tl; try contradiction; constructor.
  - exact Hd.
Qed.

(** One step keeps both invariants. *)
Lemma xstep_inv dl l p p' :
  reachable dl (base p) -> order_inv p -> tail_inv p ->
  xstep dl l p = Some p' ->
  order_inv p' /\ tail_inv p'.
Proof.
  intros Hr HO HT Hs. unfold xstep in Hs.
  destruct (crashed (base p)); [discriminate|].
  assert (Hbase : forall l' st',
             step dl l' (base p) = Some st' ->
             main_tail p = MT_joining ->
             main_pc st' <> Main_exited ->
             (match main_pc st' with
              | Main_init _ | Main_spawn => stats_thread p = None
              | _ => stats_thread p <> None
              end) ->
             order_inv (mkProcess st' (stats_thread p) (main_tail p) (printed p))
             /\ tail_inv (mkProcess st' (stats_thread p) (main_tail p) (printed p))).
  { intros l' st' Hst Hj Hne Hth. split.
    - apply order_inv_base; [exact HO|]. eapply step_counters_grow; eauto.
    - destruct HT as (T1 & T2 & T3 & T4). unfold tail_inv.
      cbn [base stats_thread main_tail printed]. rewrite Hj in *. splits; auto. }
  destruct HT as (T1 & T2 & T3 & T4).
  destruct l as [[| | tid]|].
  - (* main *)
    destruct (main_pc (base p)) as [d | | |] eqn:Hm.
    + unfold with_base in Hs.
      destruct (step dl L_main (base p)) as [st'|] eqn:Hst; [|discriminate].
      injection Hs as <-. pose proof (step_main_pc _ _ _ Hst) as Hpc.
      rewrite Hm in Hpc. destruct Hpc as [d' Hpc].
      assert (Hj : main_tail p = MT_joining).
      { destruct (main_tail p); [reflexivity | |]; destruct T4 as [T4 _];
          [discriminate T4 | destruct T4 as [T4|T4]; discriminate T4]. }
      apply (Hbase L_main st' Hst Hj); destruct Hpc as [-> | ->];
        try discriminate; exact T3.
    + (* the threads start *)
      destruct (step dl L_main (base p)) as [st'|] eqn:Hst; [|discriminate].
      injection Hs as <-. pose proof (step_main_pc _ _ _ Hst) as Hpc.
      rewrite Hm in Hpc.
      assert (Hj : main_tail p = MT_joining).
      { destruct (main_tail p); [reflexivity | |]; destruct T4 as [T4 _];
          [discriminate T4 | destruct T4 as [T4|T4]; discriminate T4]. }
      pose proof Hpc as Hpc'.
      rewrite T3 in *. split.
      * destruct HO as (H1 & H2 & H3 & H4). unfold order_inv, printing in *.
        cbn [base stats_thread main_tail printed] in *. rewrite Hj in *.
        splits; auto.
        eapply Forall_impl; [exact H1|]. intros r Hrr.
        eapply report_le_trans; [exact Hrr|]. eapply step_counters_grow; eauto.
      * unfold tail_inv. cbn [base stats_thread main_tail printed].
        rewrite Hj, Hpc' in *. cbn in *. splits; auto; try lia; discriminate.
    + (* the joins, the final report, the return *)
      destruct (main_tail p) as [| pc |] eqn:Htl.
      * destruct (forallb is_done (workers (base p))) eqn:Hw; [|discriminate].
        destruct (driver_done (controller (base p))) eqn:Hc; [|discriminate].
        destruct (stats_done (stats_thread p)) eqn:Hd; [|discriminate].
        injection Hs as <-. split.
        -- destruct HO as (H1 & H2 & H3 & H4). unfold order_inv, printing in *.
           cbn [base stats_thread main_tail printed] in *.
           destruct (stats_thread p) as [[| |]|]; try discriminate.
           splits; auto. repeat constructor.
           apply Forall_forall. intros; exact I.
        -- unfold tail_inv. cbn [base stats_thread main_tail printed].
           rewrite Hm. cbn. splits; auto.
      * destruct T4 as (_ & Hw & Hc & Hd & He).
        pose proof (print_step_exact pc _ He) as Hex.
        pose proof HO as (H1 & H2 & H3 & H4).
        assert (Hpr : printing p = [pc]).
        { unfold printing. rewrite Htl.
          destruct (stats_thread p) as [[| |]|]; try discriminate. reflexivity. }
        rewrite Hpr in H3. apply Forall_cons in H3 as [[H3a H3b] _].
        destruct (print_stats_step pc (g_stats (shared (base p)))) as [pc'|r] eqn:Hps;
          injection Hs as <-.
        -- destruct (print_step_read _ _ _ _ H1 H3a H3b Hps) as [R1 R2]. split.
           ++ unfold order_inv, printing. cbn [base stats_thread main_tail printed].
              destruct (stats_thread p) as [[| |]|]; try discriminate.
              splits; auto. repeat constructor; assumption.
           ++ unfold tail_inv. cbn [base stats_thread main_tail printed].
              rewrite Hm. cbn in *. splits; auto.
        -- destruct (print_step_report _ _ _ _ H1 H3a H3b Hps) as [R1 R2]. split.
           ++ apply (order_inv_append p r (stats_thread p) MT_printed); auto.
              destruct (stats_thread p) as [[| |]|]; try discriminate. exact I.
           ++ unfold tail_inv. cbn [base stats_thread main_tail printed].
              rewrite Hm, length_app, T1. cbn [length tail_count].
              splits; auto; try lia.
              rewrite last_snoc, Hex. reflexivity.
      * unfold with_base in Hs.
        destruct (step dl L_main (base p)) as [st'|] eqn:Hst; [|discriminate].
        injection Hs as <-. pose proof (step_main_pc _ _ _ Hst) as Hpc.
        rewrite Hm in Hpc. destruct T4 as (_ & Hw & Hc & Hd & Hl). split.
        -- apply order_inv_base; [exact HO|]. eapply step_counters_grow; eauto.
        -- unfold tail_inv. cbn [base stats_thread main_tail printed].
           assert (Hsame : g_stats (shared st') = g_stats (shared (base p))
                           /\ workers st' = workers (base p)
                           /\ controller st' = controller (base p)).
           { destruct Hpc as [Hpc | (_ & E1 & E2 & E3)]; [|auto].
             unfold step in Hst. destruct (crashed (base p)); [discriminate|].
             rewrite Hm, Hw, Hc in Hst. cbn [andb] in Hst.
             destruct ((let* _ := sp_release (g_operator (shared (base p))) in
                        modify (set_g_operator None)) (shared (base p)))
               as [[u sh']|]; injection Hst as <-; [discriminate Hpc|].
             cbn. auto. }
           destruct Hsame as (E1 & E2 & E3). rewrite E1, E2, E3.
           assert (Hpc2 : main_pc st' = Main_join \/ main_pc st' = Main_exited)
             by (destruct Hpc as [-> | [-> _]]; auto).
           rewrite Htl. splits; auto.
           destruct Hpc2 as [-> | ->]; exact T3.
    + unfold with_base in Hs.
      destruct (step dl L_main (base p)) as [st'|] eqn:Hst; [|discriminate].
      pose proof (step_main_pc _ _ _ Hst) as Hpc. rewrite Hm in Hpc. contradiction.
  - (* the controller *)
    unfold with_base in Hs.
    destruct (step dl L_controller (base p)) as [st'|] eqn:Hst; [|discriminate].
    injection Hs as <-.
    assert (Hj : main_tail p = MT_joining).
    { destruct (main_tail p); [reflexivity | |]; destruct T4 as (_ & _ & Hc & _);
        rewrite (step_done_controller dl _ Hc) in Hst; discriminate. }
    assert (Hpc : main_pc st' = main_pc (base p))
      by (eapply step_other_main_pc; [|exact Hst]; discriminate).
    rewrite Hj in T4. apply (Hbase _ _ Hst Hj); rewrite Hpc; assumption.
  - (* a worker *)
    unfold with_base in Hs.
    destruct (step dl (L_worker tid) (base p)) as [st'|] eqn:Hst; [|discriminate].
    injection Hs as <-.
    assert (Hj : main_tail p = MT_joining).
    { destruct (main_tail p); [reflexivity | |]; destruct T4 as (_ & Hw & _);
        rewrite (step_done_worker dl tid _ Hw) in Hst; discriminate. }
    assert (Hpc : main_pc st' = main_pc (base p))
      by (eapply step_other_main_pc; [|exact Hst]; discriminate).
    rewrite Hj in T4. apply (Hbase _ _ Hst Hj); rewrite Hpc; assumption.
  - (* the statistics thread *)
    destruct (stats_thread p) as [[i | i pc |]|] eqn:Hth; try discriminate.
    + (* line 194 *)
      assert (Hj : main_tail p = MT_joining).
      { destruct (main_tail p); [reflexivity | |]; destruct T4 as (_ & _ & _ & Hd & _);
          discriminate. }
      cbn [stats_step] in Hs. pose proof HO as (H1 & H2 & H3 & H4).
      destruct (Nat.ltb_spec i stats_rounds) as [Hlt|Hge]; injection Hs as <-.
      * split.
        -- unfold order_inv, printing in *.
           cbn [base stats_thread main_tail printed] in *.
           rewrite Hj in *. rewrite app_nil_r. splits; auto.
           repeat constructor. apply Forall_forall. intros; exact I.
        -- unfold tail_inv. cbn [base stats_thread main_tail printed].
           rewrite app_nil_r, Hj in *. cbn [stats_count stats_bound] in *.
           splits; auto. destruct (main_pc (base p)); congruence.
      * split.
        -- unfold order_inv, printing in *.
           cbn [base stats_thread main_tail printed] in *.
           rewrite Hj in *. rewrite app_nil_r. splits; auto.
        -- unfold tail_inv. cbn [base stats_thread main_tail printed].
           rewrite app_nil_r, Hj in *. cbn [stats_count stats_bound] in *.
           splits; auto; try lia. destruct (main_pc (base p)); congruence.
    + (* line 196 *)
      assert (Hj : main_tail p = MT_joining).
      { destruct (main_tail p); [reflexivity | |]; destruct T4 as (_ & _ & _ & Hd & _);
          discriminate. }
      cbn [stats_step] in Hs. pose proof HO as (H1 & H2 & H3 & H4).
      assert (Hpr : printing p = [pc]).
      { unfold printing. rewrite Hth, Hj. reflexivity. }
      rewrite Hpr in H3. apply Forall_cons in H3 as [[H3a H3b] _].
      destruct (print_stats_step pc (g_stats (shared (base p)))) as [pc'|r] eqn:Hps;
        injection Hs as <-.
      * destruct (print_step_read _ _ _ _ H1 H3a H3b Hps) as [R1 R2]. split.
        -- unfold order_inv, printing. cbn [base stats_thread main_tail printed].
           rewrite Hj, app_nil_r. splits; auto. repeat constructor; assumption.
        -- unfold tail_inv. cbn [base stats_thread main_tail printed].
           rewrite app_nil_r, Hj in *. cbn [stats_count stats_bound] in *.
           splits; auto. destruct (main_pc (base p)); congruence.
      * destruct (print_step_report _ _ _ _ H1 H3a H3b Hps) as [R1 R2]. split.
        -- apply (order_inv_append p r (Some (ST_loop (S i))) (main_tail p)); auto.
           rewrite Hj. exact I.
        -- unfold tail_inv. cbn [base stats_thread main_tail printed].
           rewrite length_app, T1, Hj in *. cbn [length stats_count stats_bound] in *.
           splits; auto; try lia. destruct (main_pc (base p)); congruence.
Qed.

Lemma order_inv_init : order_inv Process_init.
Proof.
  unfold order_inv, printing. cbn. split; [constructor|]. split.
  - intros ? ? ? ? _ H. rewrite lookup_nil in H. discriminate.
  - split; [constructor | auto].
Qed.

Lemma tail_inv_init : tail_inv Process_init.
Proof. unfold tail_inv. cbn. splits; auto. Qed.

Lemma xrun_inv dl sched : forall p p',
  reachable dl (base p) -> order_inv p -> tail_inv p ->
  xrun dl sched p = Some p' -> order_inv p' /\ tail_inv p'.
Proof.
  induction sched as [|l rest IH]; intros p p' Hr HO HT H; cbn in H.
  - injection H as <-. auto.
  - destruct (xstep dl l p) as [p1|] eqn:Hs; [|discriminate].
    destruct (xstep_inv dl l p p1 Hr HO HT Hs) as [HO1 HT1].
    apply (IH p1 p'); auto.
    destruct (xstep_base _ _ _ _ Hs) as [-> | [l' Hl']]; [exact Hr|].
    eapply reachable_step; eauto.
Qed.

Lemma xreachable_inv dl p : xreachable dl p -> order_inv p /\ tail_inv p.
Proof.
  intros [sched H].
  apply (xrun_inv dl sched Process_init p);
    [exists []; reflexivity | apply order_inv_init | apply tail_inv_init | exact H].
Qed.

(** The four loads of [print_stats], run together, read the counters as
    they are. *)
Lemma print_stats_steps s :
  exists p1 p2 p3,
    print_stats_step PS_total s = inl p1
    /\ print_stats_step p1 s = inl p2
    /\ print_stats_step p2 s = inl p3
    /\ print_stats_step p3 s = inr (print_stats s).
Proof. eexists _, _, _. cbn. auto. Qed.

(** Successive statistics reports never go backwards: a later report
    shows each counter at least as high as an earlier one, and no report
    shows a counter higher than it is now. *)
Theorem reports_never_go_backwards
  (dl : DynLinker) (p : Process) (i j : nat) (r1 r2 : Report) :
  xreachable dl p ->
  (i <= j)%nat ->
  printed p !! i = Some r1 ->
  printed p !! j = Some r2 ->
  report_le r1 r2
  /\ report_le r2 (print_stats (g_stats (shared (base p)))).
Proof.
  intros Hx Hij Hi Hj. destruct (xreachable_inv dl p Hx) as [(H1 & H2 & _) _].
  split; [eapply H2; eauto|].
  rewrite Forall_forall in H1. apply H1. eapply list_elem_of_lookup_2, Hj.
Qed.

Lemma xdemo_final_reachable : xreachable demo_linker xdemo_final.
Proof. exists xdemo_schedule. vm_compute. reflexivity. Qed.

Lemma reports_never_go_backwards_witness :
  report_le (mkReport 80 12 68 4) (mkReport 80 12 68 4)
  /\ report_le (mkReport 80 12 68 4)
               (print_stats (g_stats (shared (base xdemo_final)))).
Proof.
  apply (reports_never_go_backwards demo_linker xdemo_final 2 6).
  - exact xdemo_final_reachable.
  - lia.
  - vm_compute. reflexivity.
  - vm_compute. reflexivity.
Defined.

Lemma exited_update_count dl st :
  reachable dl st -> main_pc st = Main_exited ->
  hot_update_count (g_stats (shared st)) = 4.
Proof.
  intros Hr Hm.
  destruct (reachable_publish_inv dl st Hr) as (H1 & H2 & H3 & H4 & H5 & H0 & H6).
  destruct (reachable_Inv dl st Hr) as [_ Ht].
  unfold threads_ok in Ht. rewrite Hm in Ht. destruct Ht as (_ & Hd & _).
  unfold paths_todo, of_active, active_driver in *. rewrite Hm in *.
  destruct (controller st) as [[[|? ?]|? ?]|]; try discriminate.
  cbn [driver_todo driver_unpublished driver_stored_uncounted] in *.
  assert (Hlen : length (heap (shared st)) = 4%nat).
  { apply (f_equal length) in H2. rewrite !length_map, length_take in H2.
    symmetry in H1. apply (f_equal length) in H1. rewrite length_drop in H1.
    change (length all_scripts) with 4%nat in *. cbn [length] in H1. lia. }
  rewrite Hlen in H3. cbn in H3. rewrite H3 in *. cbn in H6. lia.
Qed.

(** The final statistics are a true snapshot. When [main] has returned,
    [print_stats] has been called seven times, six times by the statistics
    thread and once by [main], and the last report shows the counters as
    they are at the end: four hot updates, and 80 requests when every load
    has yielded an instance. *)
Theorem final_report_is_exact (dl : DynLinker) (p : Process) :
  xreachable dl p ->
  main_pc (base p) = Main_exited ->
  length (printed p) = 7%nat
  /\ exists r,
       last (printed p) = Some r
       /\ r = print_stats (g_stats (shared (base p)))
       /\ r_updates r = 4
       /\ (all_loads_succeed dl -> r_total r = 80).
Proof.
  intros Hx Hm. destruct (xreachable_inv dl p Hx) as [_ (T1 & T2 & T3 & T4)].
  pose proof (xreachable_base dl p Hx) as Hr.
  destruct (main_tail p) as [| pc |].
  - contradiction.
  - destruct T4 as [T4 _]. congruence.
  - destruct T4 as (_ & Hw & Hc & Hd & Hl).
    destruct (stats_thread p) as [[| |]|]; try discriminate.
    split; [rewrite T1; reflexivity|].
    eexists. split; [exact Hl|]. split; [reflexivity|].
    cbn [r_updates r_total print_stats]. split.
    + eapply exited_update_count; eauto.
    + intros Hall. pose proof (requests_eq dl _ (reachable_demo_inv dl _ Hall Hr)) as Hq.
      unfold requests_left in Hq. rewrite Hm, (workers_rounds_left_done _ Hw) in Hq. lia.
Qed.

Lemma final_report_is_exact_witness :
  length (printed xdemo_final) = 7%nat
  /\ exists r,
       last (printed xdemo_final) = Some r
       /\ r = print_stats (g_stats (shared (base xdemo_final)))
       /\ r_updates r = 4
       /\ (all_loads_succeed demo_linker -> r_total r = 80).
Proof.
  apply (final_report_is_exact demo_linker xdemo_final).
  - exact xdemo_final_reachable.
  - vm_compute. reflexivity.
Defined.

(** [print_stats] does not take a snapshot: its four loads are separate
    steps. In the run below the statistics thread reads [total_requests]
    as 0, a worker then records a request, and the report comes out with
    one v1 request among zero requests in total. *)
Theorem print_stats_is_not_a_snapshot :
  exists p r,
    xreachable demo_linker p
    /\ r ∈ printed p
    /\ r_total r < r_v1 r + r_v2 r.
Proof.
  exists torn_report_state, (mkReport 0 1 0 1). split; [|split].
  - exists torn_report_schedule. vm_compute. reflexivity.
  - replace (printed torn_report_state) with [mkReport 0 1 0 1] by (vm_compute; reflexivity).
    apply list_elem_of_singleton. reflexivity.
  - cbn. lia.
Qed.

(* ===================================================================== *)
(** * Loading and dropping; the slot is never empty *)
(* ===================================================================== *)

(** Loading a bundle and dropping it again is a round trip for the
    module: [dlopen] once, the factory once, then the destructor, which
    destroys the instance if there is one and closes the module once. *)
Theorem load_then_drop_releases_once
  (dl : DynLinker) (so_file : string) (sh : Shared) (h : Handle)
  (c : CreateFunc) (d : DestroyFunc) :
  dlopen dl so_file = Some h ->
  dlsym_create_operator dl h = Some c ->
  dlsym_destroy_operator dl h = Some d ->
  (let* holder := load_operator dl so_file in sp_release holder) sh
  = Some (tt,
          mkShared (heap sh ++ [mkBlock (mkHolder (Some h) (c tt) (Some d)) 0])
                   (g_operator sh) (g_stats sh) (mem sh)
                   (trace sh
                    ++ [EvDlopen so_file (Some h); EvCreate h (is_null (c tt));
                        EvDtor (length (heap sh))]
                    ++ (if is_null (c tt) then [] else [EvDestroy (length (heap sh))])
                    ++ [EvDlclose h])).
Proof.
  intros Hopen Hc Hd. unfold bind.
  rewrite (load_operator_eq dl so_file sh _ _ _
             (load_outcome_loaded dl so_file _ h c d Hopen Hc Hd)).
  unfold sp_release. cbn [heap]. rewrite lookup_at_end. cbn [strong Nat.pred Nat.eqb].
  unfold_setters. cbn [heap g_operator g_stats mem trace obj]. rewrite insert_at_end.
  unfold OperatorHolder_dtor. cbn [op destroy_func handle].
  destruct (c tt); cbn [is_null]; rewrite <- !app_assoc; reflexivity.
Qed.

Lemma load_then_drop_releases_once_witness :
  (let* holder := load_operator demo_linker "./score_op_v1.so" in sp_release holder)
    Shared_init
  = Some (tt,
          mkShared ([] ++ [mkBlock (mkHolder (Some 1%nat) (create_operator_v1 tt)
                                             (Some destroy_operator)) 0])
                   None Statistics_init []
                   ([] ++ [EvDlopen "./score_op_v1.so" (Some 1%nat);
                           EvCreate 1%nat (is_null (create_operator_v1 tt));
                           EvDtor 0%nat]
                    ++ (if is_null (create_operator_v1 tt) then [] else [EvDestroy 0%nat])
                    ++ [EvDlclose 1%nat])).
Proof.
  apply (load_then_drop_releases_once demo_linker "./score_op_v1.so" Shared_init
           1%nat create_operator_v1 destroy_operator); reflexivity.
Defined.

Lemma last_store_set k :
  (1 <= k)%nat -> last (map Some (seq 0 k)) = Some (Some (k - 1)%nat).
Proof.
  intros Hk. destruct k as [|k]; [lia|]. rewrite seq_S, map_app. cbn [map].
  rewrite last_snoc. cbn. rewrite Nat.sub_0_r. reflexivity.
Qed.

Lemma forallb_insert {A} (f : A -> bool) (l : list A) : forall i x,
  forallb f l = true -> f x = true -> forallb f (<[i := x]> l) = true.
Proof.
  induction l as [|y l IH]; intros i x Hl Hx; [reflexivity|].
  cbn in Hl. apply andb_prop in Hl as [Hy Hl]. destruct i as [|i]; cbn.
  - rewrite Hx, Hl. reflexivity.
  - rewrite Hy. apply IH; assumption.
Qed.

Lemma step_slot_filled dl st st' :
  Inv_all st -> publish_inv dl st -> slot_filled st ->
  step_rel dl st st' -> slot_filled st'.
Proof.
  intros ([Hc Ht] & [_ Hslot] & _) (P1 & P2 & P3 & _) [Hst Hws] Hs.
  unfold threads_ok in Ht. unfold slot_filled.
  destruct Hs as [ | d d' sh' Hm Hd | Hm | Hm | u sh1 Hm Hw Hcd Hr
                 | d d' sh' Hk Hd | tid w w' sh' Hw Hnd Hwst];
    cbn [shared crash_state main_pc workers].
  - auto.
  - split; [exact I | exact Hws].
  - split; [|exact Hws]. unfold paths_todo, of_active, active_driver in *.
    rewrite Hm in *. cbn in P1, P3. rewrite P3.
    assert (Hl : length (heap (shared st)) = 1%nat).
    { apply (f_equal length) in P1. rewrite length_drop in P1.
      apply (f_equal length) in P2. rewrite !length_map, length_take in P2.
      change (length all_scripts) with 4%nat in *. cbn in P1. lia. }
    rewrite Hl. discriminate.
  - rewrite Hm in Hst. split; [exact Hst | reflexivity].
  - rewrite Hm in Hst. split; [|exact Hws].
    cbn [trace set_g_operator].
    rewrite (trans_stores _ _ _ _ (eff_sp_release _ _ _ _ Hr)), app_nil_r. exact Hst.
  - split; [|exact Hws].
    rewrite (trans_stores _ _ _ _ (driver_move_trans _ _ _ _ _ _ Hd)).
    destruct (main_pc st); auto; intros E; apply app_eq_nil in E as [E _]; auto.
  - split.
    + rewrite (trans_stores _ _ _ _ (worker_step_eff _ _ _ _ _ Hwst)), app_nil_r.
      exact Hst.
    + apply forallb_insert; [exact Hws|].
      pose proof (worker_step_next _ _ _ _ _ Hwst) as Hn.
      destruct w as [i | i [p|] | i p sc | i p sc nm | i p sc |];
        try (subst w'; reflexivity).
      * destruct (i <? total_rounds)%nat; subst w'; [|reflexivity].
        cbn [is_null_snapshot].
        assert (Hmj : main_pc st = Main_join).
        { destruct (main_pc st); try reflexivity.
          - destruct Ht as [E _]. rewrite E in Hw. discriminate.
          - destruct Ht as [E _]. rewrite E in Hw. discriminate.
          - destruct Ht as [E _]. rewrite (forallb_done_lookup _ _ _ E Hw) in Hnd.
            discriminate. }
        rewrite Hmj in *. rewrite Hslot by discriminate.
        rewrite final_stores, P3. rewrite P3 in Hst.
        destruct (length (heap (shared st)) - of_active driver_unpublished st)%nat
          as [|k] eqn:Hk; [contradiction|].
        rewrite last_store_set by lia. reflexivity.
      * destruct Hn as (b & _ & Hn). destruct (op (obj b));
          [destruct Hn as [? ->] | subst w']; reflexivity.
      * destruct Hn as [nm ->]. reflexivity.
Qed.

Lemma reachable_slot_filled dl st : reachable dl st -> slot_filled st.
Proof.
  intros [sched Hr].
  assert (H : (Inv_all st /\ publish_inv dl st) /\ slot_filled st); [|tauto].
  eapply (run_preserves
            (fun s => (Inv_all s /\ publish_inv dl s) /\ slot_filled s) dl);
    [| | exact Hr].
  - intros l s s' [[HI HP] HS] Hs. pose proof (step_inv dl l s s' Hs) as Hrel.
    split; [split|].
    + exact (step_Inv_all dl l s s' HI Hs).
    + exact (step_publish_inv dl s s' (proj2 (proj1 HI)) HP Hrel).
    + exact (step_slot_filled dl s s' HI HP HS Hrel).
  - split; [split; [apply Inv_all_init | apply publish_inv_init]|].
    split; [exact I | reflexivity].
Qed.

(** Workers never find the slot empty: [main] publishes a bundle before
    it starts them and the slot is never cleared while they run, so the
    snapshot a worker tests at line 125 is never a null pointer, whatever
    the plug-ins do. (The bundle it points to may still lack an
    instance.) *)
Theorem worker_snapshot_never_null (dl : DynLinker) (st : State) (tid i : nat)
  (v : option ptr) :
  reachable dl st ->
  workers st !! tid = Some (W_check i v) ->
  exists p b, v = Some p /\ heap (shared st) !! p = Some b /\ (1 <= strong b)%nat.
Proof.
  intros Hr Hw. destruct (reachable_slot_filled dl st Hr) as [_ Hws].
  destruct (reachable_Inv dl st Hr) as [Hc _]. unfold refcounts_ok, roots in Hc.
  rewrite forallb_forall in Hws.
  specialize (Hws _ (proj1 (list_elem_of_In _ _) (list_elem_of_lookup_2 _ _ _ Hw))).
  destruct v as [p|]; [|discriminate]. exists p.
  destruct (workers_roots_insert _ _ _ Hw) as (F & HF1 & _).
  destruct (counted_owner_allocated _ _ _ p Hc) as (b & Hp & Hs).
  { rewrite !occ_app, HF1, occ_app. cbn [worker_roots oroot occ].
    rewrite Nat.eqb_refl. lia. }
  exists b. auto.
Qed.

Lemma worker_snapshot_never_null_witness :
  exists p b, Some 1%nat = Some p
              /\ heap (shared null_instance_state) !! p = Some b
              /\ (1 <= strong b)%nat.
Proof.
  apply (worker_snapshot_never_null null_v2_linker null_instance_state 0 0 (Some 1%nat)).
  - exists null_instance_schedule. vm_compute. reflexivity.
  - vm_compute. reflexivity.
Defined.

(* ===================================================================== *)
(** * Every dlclose is accounted for *)
(* ===================================================================== *)

Lemma closed_by_loader_app h o1 o2 :
  closed_by_loader h (o1 ++ o2)
  = (closed_by_loader h o1 + closed_by_loader h o2)%nat.
Proof. unfold closed_by_loader. rewrite List.filter_app, length_app. reflexivity. Qed.

Lemma torn_down_zero_range h objs : forall base evs,
  (forall p, (base <= p < base + length objs)%nat -> dtor_count p evs = 0%nat) ->
  torn_down h objs base evs = 0%nat.
Proof.
  induction objs as [|hd objs IH]; intros base evs H; cbn [torn_down]; [reflexivity|].
  rewrite IH by (intros p Hp; apply H; cbn [length]; lia).
  rewrite H by (cbn [length]; lia).
  destruct (has_handle h hd); reflexivity.
Qed.

Lemma quiet_release_accounted h sh sh' body v :
  trace sh' = trace sh ++ body ++ release_events (heap sh) v ->
  map obj (heap sh') = map obj (heap sh) ++ [] ->
  no_module_events body ->
  count_dlclose h (trace sh)
  = (torn_down h (map obj (heap sh)) 0 (trace sh)
     + closed_by_loader h (map obj (heap sh)))%nat ->
  count_dlclose h (trace sh')
  = (torn_down h (map obj (heap sh')) 0 (trace sh')
     + closed_by_loader h (map obj (heap sh')))%nat.
Proof.
  intros -> -> [Hb Hd] H. rewrite app_nil_r.
  destruct (release_balanced h (heap sh) v) as [_ Rc]. destruct (Hb h) as [_ Bc].
  rewrite !count_dlclose_app, !torn_down_trace_app, Bc, Rc, H.
  rewrite (torn_down_zero h _ 0 body) by (intros; apply Hd). lia.
Qed.

(** What a load adds: the close of line 85 and the destructor's for a
    holder whose symbols are missing, nothing for any other. *)
Lemma load_outcome_accounted dl f p h :
  count_dlclose h (load_outcome dl f p).2
  = ((if has_handle h (loaded_holder dl f)
      then dtor_count p (load_outcome dl f p).2 else 0)
     + closed_by_loader h [loaded_holder dl f])%nat
  /\ (forall q, q <> p -> dtor_count q (load_outcome dl f p).2 = 0%nat).
Proof.
  unfold loaded_holder, load_outcome, closed_by_loader, has_handle.
  destruct (dlopen dl f) as [h'|].
  - destruct (dlsym_create_operator dl h'), (dlsym_destroy_operator dl h');
      cbn; rewrite ?Nat.eqb_refl; (split; [destruct (Nat.eqb h h'); reflexivity|]);
      intros q Hq; try reflexivity;
      destruct (Nat.eqb_spec q p); [contradiction | reflexivity | contradiction
                                    | reflexivity | contradiction | reflexivity].
  - cbn. split; [reflexivity|]. intros q Hq.
    destruct (Nat.eqb_spec q p); [contradiction | reflexivity].
Qed.

Lemma driver_move_accounted dl who sh d d' sh' F h :
  cnt sh (oroot (g_operator sh) ++ driver_roots d ++ F) ->
  driver_move dl who sh d d' sh' ->
  count_dlclose h (trace sh)
  = (torn_down h (map obj (heap sh)) 0 (trace sh)
     + closed_by_loader h (map obj (heap sh)))%nat ->
  count_dlclose h (trace sh')
  = (torn_down h (map obj (heap sh')) 0 (trace sh')
     + closed_by_loader h (map obj (heap sh')))%nat.
Proof.
  intros Hc Hm Hcl.
  pose proof (driver_move_trace _ _ _ _ _ _ _ Hc Hm) as Ht.
  destruct (driver_move_trans _ _ _ _ _ _ Hm) as (? & _ & _ & _ & _ & M).
  destruct Hm as [f rest | rest | rest pc sh' Hs Hne]; cbn [driver_events] in Ht;
    rewrite ?app_nil_r in Ht.
  - exact Hcl.
  - exact Hcl.
  - cbn [driver_objs] in M.
    destruct pc as [f | n | n o | n o | n o | n o | n | b];
      try (apply (quiet_release_accounted h sh sh' _ _ Ht M);
           [apply hu_body_quiet; discriminate | exact Hcl]).
    cbn [hu_objs hu_body hu_released release_events] in *.
    rewrite app_nil_r in Ht. rewrite Ht, M.
    destruct (load_outcome_accounted dl f (length (heap sh)) h) as [La Lq].
    change (EvLog "[HotUpdate] begin" :: ?l) with ([EvLog "[HotUpdate] begin"] ++ l).
    rewrite !count_dlclose_app, La, Hcl, closed_by_loader_app.
    rewrite torn_down_objs_app, !torn_down_trace_app.
    rewrite !(torn_down_zero h _ _ [EvLog "[HotUpdate] begin"]) by reflexivity.
    rewrite (torn_down_zero_range h (map obj (heap sh)) 0
               (load_outcome dl f (length (heap sh))).2)
      by (intros q Hq; apply Lq; rewrite length_map in Hq; lia).
    assert (Hlog : forall b : bool,
               count_dlclose h (if b then [EvLog "[HotUpdate] failed"] else []) = 0%nat
               /\ forall objs base,
                    torn_down h objs base
                      (if b then [EvLog "[HotUpdate] failed"] else []) = 0%nat).
    { intros b. split; [destruct b; reflexivity|]. intros objs base.
      apply torn_down_zero. intros q _. destruct b; reflexivity. }
    destruct (Hlog (load_fails dl f)) as [Hl1 Hl2]. rewrite Hl1, !Hl2.
    cbn [torn_down count_dlclose]. rewrite length_map.
    change (0 + length (heap sh))%nat with (length (heap sh)).
    destruct (Hc (length (heap sh))) as [_ Hdt]. rewrite Hdt.
    unfold expected_dtors. rewrite Nat.ltb_irrefl. cbn [andb dtor_count].
    destruct (has_handle h (loaded_holder dl f)); lia.
Qed.

Lemma step_closes_accounted dl st st' :
  Inv st -> closes_accounted st -> step_rel dl st st' -> closes_accounted st'.
Proof.
  intros [Hc Ht] H Hs h. specialize (H h).
  unfold refcounts_ok, roots in Hc.
  destruct Hs as [ | d d' sh' Hm Hd | Hm | Hm | u sh1 Hm Hw Hcd Hr
                 | d d' sh' Hk Hd | tid w w' sh' Hw Hnd Hws];
    cbn [shared crash_state]; try exact H.
  - rewrite Hm in Hc. cbn [main_roots] in Hc.
    exact (driver_move_accounted _ _ _ _ _ _ _ h Hc Hd H).
  - pose proof (sp_release_trace _ _ _ _ Hr) as T.
    destruct (eff_sp_release _ _ _ _ Hr) as (? & _ & _ & _ & _ & M).
    cbn [heap trace set_g_operator].
    apply (quiet_release_accounted h (shared st) sh1 [] _ T M);
      [split; [split|]; reflexivity | exact H].
  - assert (Hc' : cnt (shared st)
                (oroot (g_operator (shared st)) ++ driver_roots d
                 ++ main_roots (main_pc st) ++ workers_roots (workers st))).
    { eapply cnt_perm; [exact Hc|]. rewrite Hk. cbn [controller_roots]. solve_occ. }
    exact (driver_move_accounted _ _ _ _ _ _ _ h Hc' Hd H).
  - pose proof (worker_step_trace _ _ _ _ _ Hws) as T. unfold worker_events in T.
    destruct (worker_step_eff _ _ _ _ _ Hws) as (? & _ & _ & _ & _ & M).
    apply (quiet_release_accounted h (shared st) sh' _ _ T M);
      [apply worker_body_quiet | exact H].
Qed.

Lemma reachable_closes_accounted dl st : reachable dl st -> closes_accounted st.
Proof.
  intros [sched Hr].
  assert (H : Inv st /\ closes_accounted st); [|tauto].
  eapply (run_preserves (fun s => Inv s /\ closes_accounted s) dl); [| | exact Hr].
  - intros l s s' [HI HB] Hs. split; [exact (step_Inv dl l s s' HI Hs)|].
    exact (step_closes_accounted dl s s' HI HB (step_inv dl l s s' Hs)).
  - split; [apply Inv_init | intros h; reflexivity].
Qed.

(* ===================================================================== *)
(** * A destructor's events stay together *)
(* ===================================================================== *)

Lemma tw_none objs evs :
  (forall p, dtor_count p evs = 0%nat) -> teardowns_whole objs evs.
Proof. intros H k p Hk. apply dtor_count_lookup in Hk. rewrite H in Hk. lia. Qed.

Lemma tw_mono objs extra tr :
  teardowns_whole objs tr -> teardowns_whole (objs ++ extra) tr.
Proof.
  intros H k p Hk. destruct (H k p Hk) as (hd & Hp & Ha). exists hd.
  split; [|exact Ha]. rewrite lookup_app_l; [exact Hp|]. eapply lookup_lt_Some, Hp.
Qed.

Lemma tw_app objs e1 e2 :
  teardowns_whole objs e1 -> teardowns_whole objs e2 ->
  teardowns_whole objs (e1 ++ e2).
Proof.
  intros H1 H2 k p Hk. destruct (Nat.lt_ge_cases k (length e1)) as [Hlt|Hge].
  - rewrite lookup_app_l in Hk by exact Hlt.
    destruct (H1 k p Hk) as (hd & Hp & Ha). exists hd. split; [exact Hp|].
    intros i e Hi. specialize (Ha i e Hi).
    rewrite lookup_app_l; [exact Ha|]. eapply lookup_lt_Some, Ha.
  - rewrite lookup_app_r in Hk by exact Hge.
    destruct (H2 _ p Hk) as (hd & Hp & Ha). exists hd. split; [exact Hp|].
    intros i e Hi. specialize (Ha i e Hi).
    rewrite lookup_app_r by lia.
    replace (k + i - length e1)%nat with (k - length e1 + i)%nat by lia. exact Ha.
Qed.

Lemma tw_dtor objs p hd :
  objs !! p = Some hd -> teardowns_whole objs (OperatorHolder_dtor p hd).
Proof.
  intros Hp k q Hk.
  assert (E : k = 0%nat /\ q = p).
  { unfold OperatorHolder_dtor in Hk.
    destruct k as [|k]; [injection Hk as <-; auto|]. exfalso. cbn in Hk.
    destruct (op hd), (destroy_func hd), (handle hd); cbn in Hk;
      destruct k as [|[|k]]; discriminate. }
  destruct E as [-> ->]. exists hd. split; [exact Hp|]. intros i e Hi. exact Hi.
Qed.

Lemma tw_release hp v : teardowns_whole (map obj hp) (release_events hp v).
Proof.
  destruct v as [p|]; cbn [release_events]; [|apply tw_none; reflexivity].
  destruct (hp !! p) as [b|] eqn:Hp; [|apply tw_none; reflexivity].
  destruct (Nat.eqb _ _); [|apply tw_none; reflexivity].
  apply tw_dtor. change (map obj hp) with (obj <$> hp).
  rewrite list_lookup_fmap, Hp. reflexivity.
Qed.

(** A failed load runs the destructor of the holder it had made. *)
Lemma tw_load dl f objs :
  teardowns_whole (objs ++ [loaded_holder dl f])
                  (load_outcome dl f (length objs)).2.
Proof.
  assert (Hl : (objs ++ [loaded_holder dl f]) !! length objs
               = Some (loaded_holder dl f)).
  { rewrite lookup_app_r by lia. rewrite Nat.sub_diag. reflexivity. }
  revert Hl. unfold loaded_holder, load_outcome.
  destruct (dlopen dl f) as [h|].
  - destruct (dlsym_create_operator dl h), (dlsym_destroy_operator dl h);
      cbn; intros Hl;
      try (apply tw_none; reflexivity);
      (intros k p Hk;
       destruct k as [|[|[|[|[|k]]]]]; try discriminate;
       injection Hk as <-; eexists; split; [exact Hl|];
       intros i e Hi; destruct i as [|[|i]]; try discriminate;
       injection Hi as <-; reflexivity).
  - cbn. intros Hl k p Hk.
    destruct k as [|[|[|k]]]; try discriminate.
    injection Hk as <-. eexists. split; [exact Hl|].
    intros i e Hi. destruct i as [|i]; try discriminate.
    injection Hi as <-. reflexivity.
Qed.

Lemma driver_move_whole dl who sh d d' sh' F :
  cnt sh (oroot (g_operator sh) ++ driver_roots d ++ F) ->
  driver_move dl who sh d d' sh' ->
  teardowns_whole (map obj (heap sh)) (trace sh) ->
  teardowns_whole (map obj (heap sh')) (trace sh').
Proof.
  intros Hc Hm H.
  pose proof (driver_move_trace _ _ _ _ _ _ _ Hc Hm) as Ht.
  destruct (driver_move_trans _ _ _ _ _ _ Hm) as (? & _ & _ & _ & _ & M).
  rewrite Ht, M. clear Ht M.
  apply tw_app; [apply tw_mono, H|].
  destruct Hm as [f rest | rest | rest pc sh' Hs Hne]; cbn [driver_events];
    try (apply tw_none; reflexivity).
  apply tw_app; [|apply tw_mono, tw_release].
  destruct pc as [f | n | n o | n o | n o | n o | n | b]; cbn [hu_body];
    try (apply tw_none; reflexivity).
  cbn [driver_objs hu_objs].
  change (EvLog "[HotUpdate] begin" :: ?l) with ([EvLog "[HotUpdate] begin"] ++ l).
  apply tw_app; [apply tw_none; reflexivity|].
  apply tw_app.
  - pose proof (tw_load dl f (map obj (heap sh))) as L.
    rewrite length_map in L. exact L.
  - apply tw_none. intros p. destruct (load_fails dl f); reflexivity.
Qed.

Lemma worker_body_no_dtor tid w sh p : dtor_count p (worker_body tid w sh) = 0%nat.
Proof. apply (worker_body_quiet tid w sh). Qed.

Lemma step_teardowns_whole dl st st' :
  Inv st ->
  teardowns_whole (map obj (heap (shared st))) (trace (shared st)) ->
  step_rel dl st st' ->
  teardowns_whole (map obj (heap (shared st'))) (trace (shared st')).
Proof.
  intros [Hc Ht] H Hs. unfold refcounts_ok, roots in Hc.
  destruct Hs as [ | d d' sh' Hm Hd | Hm | Hm | u sh1 Hm Hw Hcd Hr
                 | d d' sh' Hk Hd | tid w w' sh' Hw Hnd Hws];
    cbn [shared crash_state]; try exact H.
  - rewrite Hm in Hc. cbn [main_roots] in Hc.
    exact (driver_move_whole _ _ _ _ _ _ _ Hc Hd H).
  - cbn [heap trace set_g_operator]. rewrite (sp_release_trace _ _ _ _ Hr).
    destruct (eff_sp_release _ _ _ _ Hr) as (? & _ & _ & _ & _ & M).
    rewrite M. apply tw_app; apply tw_mono; [exact H | apply tw_release].
  - assert (Hc' : cnt (shared st)
                (oroot (g_operator (shared st)) ++ driver_roots d
                 ++ main_roots (main_pc st) ++ workers_roots (workers st))).
    { eapply cnt_perm; [exact Hc|]. rewrite Hk. cbn [controller_roots]. solve_occ. }
    exact (driver_move_whole _ _ _ _ _ _ _ Hc' Hd H).
  - rewrite (worker_step_trace _ _ _ _ _ Hws).
    destruct (worker_step_eff _ _ _ _ _ Hws) as (? & _ & _ & _ & _ & M).
    rewrite M. apply tw_app; [apply tw_mono, H|]. unfold worker_events.
    apply tw_mono, tw_app; [|apply tw_release].
    apply tw_none. intros p. apply worker_body_no_dtor.
Qed.

Lemma reachable_teardowns_whole dl st :
  reachable dl st ->
  teardowns_whole (map obj (heap (shared st))) (trace (shared st)).
Proof.
  intros [sched Hr].
  assert (H : Inv st
              /\ teardowns_whole (map obj (heap (shared st))) (trace (shared st)));
    [|tauto].
  eapply (run_preserves
            (fun s => Inv s
                      /\ teardowns_whole (map obj (heap (shared s)))
                                         (trace (shared s))) dl);
    [| | exact Hr].
  - intros l s s' [HI HB] Hs. split; [exact (step_Inv dl l s s' HI Hs)|].
    exact (step_teardowns_whole dl s s' HI HB (step_inv dl l s s' Hs)).
  - split; [apply Inv_init|]. intros k p Hk. discriminate.
Qed.

(* ===================================================================== *)
(** * The holders a process can contain *)
(* ===================================================================== *)

(** The three results of [load_operator]'s assignments. *)
Lemma loaded_holder_shape dl f :
  match dlopen dl f with
  | None => loaded_holder dl f = mkHolder None None None
  | Some h =>
      match dlsym_create_operator dl h, dlsym_destroy_operator dl h with
      | Some c, Some d => loaded_holder dl f = mkHolder (Some h) (c tt) (Some d)
      | _, _ => loaded_holder dl f = mkHolder (Some h) None None
      end
  end.
Proof.
  unfold loaded_holder, load_outcome. destruct (dlopen dl f) as [h|]; [|reflexivity].
  destruct (dlsym_create_operator dl h), (dlsym_destroy_operator dl h); reflexivity.
Qed.

Lemma reachable_holder dl st p b :
  reachable dl st -> heap (shared st) !! p = Some b ->
  exists f, obj b = loaded_holder dl f.
Proof.
  intros Hr Hp. destruct (reachable_publish_inv dl st Hr) as (_ & H2 & _).
  assert (Hob : map obj (heap (shared st)) !! p = Some (obj b)).
  { change (map obj ?l) with (obj <$> l). rewrite list_lookup_fmap, Hp. reflexivity. }
  rewrite H2 in Hob. change (map ?g ?l) with (g <$> l) in Hob.
  apply list_lookup_fmap_Some in Hob as (f & Hof & _). exists f. exact Hof.
Qed.

(** A holder with an instance has its handle and its [destroy_func], and
    both symbols of that handle resolve. *)
Lemma instance_has_module dl f o :
  op (loaded_holder dl f) = Some o ->
  exists h d, handle (loaded_holder dl f) = Some h
              /\ destroy_func (loaded_holder dl f) = Some d
              /\ dlsym_create_operator dl h <> None
              /\ dlsym_destroy_operator dl h <> None.
Proof.
  pose proof (loaded_holder_shape dl f) as S.
  destruct (dlopen dl f) as [h|]; [|rewrite S; discriminate].
  destruct (dlsym_create_operator dl h) as [c|] eqn:Ec;
    [destruct (dlsym_destroy_operator dl h) as [d|] eqn:Ed|];
    rewrite S; cbn; try discriminate.
  intros _. exists h, d. rewrite Ec, Ed. repeat split; discriminate.
Qed.

(** The close of line 85 happens only for a handle with a missing
    symbol. *)
Lemma resolved_not_closed_by_loader dl h fs :
  dlsym_create_operator dl h <> None ->
  dlsym_destroy_operator dl h <> None ->
  closed_by_loader h (map (loaded_holder dl) fs) = 0%nat.
Proof.
  intros Hc Hd. induction fs as [|f fs IH]; [reflexivity|].
  change (map (loaded_holder dl) (f :: fs))
    with ([loaded_holder dl f] ++ map (loaded_holder dl) fs).
  rewrite closed_by_loader_app, IH, Nat.add_0_r.
  unfold closed_by_loader, has_handle. cbn [List.filter].
  pose proof (loaded_holder_shape dl f) as S.
  destruct (dlopen dl f) as [h'|]; [|rewrite S; reflexivity].
  destruct (Nat.eqb_spec h h') as [<-|Hne].
  - destruct (dlsym_create_operator dl h); [|contradiction].
    destruct (dlsym_destroy_operator dl h); [|contradiction].
    rewrite S. cbn. rewrite Nat.eqb_refl. reflexivity.
  - assert (E : handle (loaded_holder dl f) = Some h').
    { destruct (dlsym_create_operator dl h'), (dlsym_destroy_operator dl h');
        rewrite S; reflexivity. }
    rewrite E. replace (Nat.eqb h h') with false by (symmetry; apply Nat.eqb_neq, Hne).
    reflexivity.
Qed.

Lemma reachable_resolved_closes dl st h :
  reachable dl st ->
  dlsym_create_operator dl h <> None ->
  dlsym_destroy_operator dl h <> None ->
  closed_by_loader h (map obj (heap (shared st))) = 0%nat.
Proof.
  intros Hr Hc Hd. destruct (reachable_publish_inv dl st Hr) as (_ & H2 & _).
  rewrite H2. apply resolved_not_closed_by_loader; assumption.
Qed.

(** A holder of [h] that has not been torn down keeps the closes of [h]
    below its opens. *)
Lemma torn_down_lt h objs : forall base tr q hd,
  (forall p, (dtor_count p tr <= 1)%nat) ->
  objs !! q = Some hd ->
  has_handle h hd = true ->
  dtor_count (base + q) tr = 0%nat ->
  (torn_down h objs base tr < holders_with h objs)%nat.
Proof.
  induction objs as [|x objs IH]; intros base tr q hd H Hq Hh Hd; [discriminate|].
  cbn [torn_down]. unfold holders_with. cbn [List.filter].
  destruct q as [|q]; cbn in Hq.
  - injection Hq as ->. rewrite Hh. rewrite Nat.add_0_r in Hd. rewrite Hd.
    pose proof (torn_down_le h objs (S base) tr H) as Hle.
    unfold holders_with in Hle. cbn [length]. lia.
  - specialize (IH (S base) tr q hd H Hq Hh).
    replace (S base + q)%nat with (base + S q)%nat in IH by lia.
    specialize (IH Hd). unfold holders_with in IH. specialize (H base).
    destruct (has_handle h x); cbn [length]; lia.
Qed.

Lemma reachable_dtor_once dl st p :
  reachable dl st -> (dtor_count p (trace (shared st)) <= 1)%nat.
Proof.
  intros Hr. destruct (reachable_Inv dl st Hr) as [Hc _].
  destruct (Hc p) as [_ ->]. unfold expected_dtors. destruct (_ && _); lia.
Qed.

(** The events that follow the start of a destructor, by the content of
    the holder. *)
Lemma teardown_at_events tr k p hd :
  teardown_at tr k p hd ->
  match op hd, destroy_func hd, handle hd with
  | Some _, Some _, Some h =>
      tr !! (k + 1)%nat = Some (EvDestroy p) /\ tr !! (k + 2)%nat = Some (EvDlclose h)
  | Some _, Some _, None => tr !! (k + 1)%nat = Some (EvDestroy p)
  | _, _, Some h => tr !! (k + 1)%nat = Some (EvDlclose h)
  | _, _, None => True
  end.
Proof.
  unfold teardown_at, OperatorHolder_dtor. intros H.
  destruct (op hd), (destroy_func hd), (handle hd); cbn in H;
    try split; try exact I;
    first [apply (H 1%nat); reflexivity | apply (H 2%nat); reflexivity].
Qed.

Lemma reachable_teardown_at dl st p b k :
  reachable dl st ->
  heap (shared st) !! p = Some b ->
  trace (shared st) !! k = Some (EvDtor p) ->
  teardown_at (trace (shared st)) k p (obj b).
Proof.
  intros Hr Hp Hk.
  destruct (reachable_teardowns_whole dl st Hr k p Hk) as (hd & Hhd & Ha).
  change (map obj ?l) with (obj <$> l) in Hhd.
  rewrite list_lookup_fmap, Hp in Hhd. injection Hhd as <-. exact Ha.
Qed.

(* ===================================================================== *)
(** * ~OperatorHolder: the order of teardown *)
(* ===================================================================== *)

(** C8: in every state the process can reach, for every plug-in and
    every interleaving. The teardown of a holder is one step of the thread
    that drops the last reference, and its events are, in this order: the
    destructor starts; on a holder with an instance, the plug-in's
    [destroy_operator] is called on that instance; then the holder's
    handle is closed with [dlclose] (a holder with an instance always has a
    handle). For a holder without an instance the [dlclose] comes at once
    and [destroy_operator] is never called. [destroy_operator] is called nowhere but in the destructor.
    And as long as the instance of a holder has not been destroyed, the
    module it came from has been closed less often than it was opened: it
    is still loaded. *)
Theorem dtor_destroys_instance_before_module
  (dl : DynLinker) (st : State) (p : ptr) (b : Block) :
  reachable dl st ->
  heap (shared st) !! p = Some b ->
  (forall k,
      trace (shared st) !! k = Some (EvDtor p) ->
      match op (obj b), handle (obj b) with
      | Some _, Some h =>
          trace (shared st) !! (k + 1)%nat = Some (EvDestroy p)
          /\ trace (shared st) !! (k + 2)%nat = Some (EvDlclose h)
      | Some _, None => False
      | None, Some h =>
          trace (shared st) !! (k + 1)%nat = Some (EvDlclose h)
          /\ destroy_count p (trace (shared st)) = 0%nat
      | None, None => destroy_count p (trace (shared st)) = 0%nat
      end)
  /\ (forall j,
         trace (shared st) !! j = Some (EvDestroy p) ->
         op (obj b) <> None
         /\ exists k, (k < j)%nat /\ trace (shared st) !! k = Some (EvDtor p))
  /\ (forall h,
         op (obj b) <> None ->
         handle (obj b) = Some h ->
         destroy_count p (trace (shared st)) = 0%nat ->
         (count_dlclose h (trace (shared st))
          < count_dlopen h (trace (shared st)))%nat).
Proof.
  intros Hr Hp.
  destruct (reachable_holder dl st p b Hr Hp) as [f Hf].
  pose proof (reachable_destroys_ok dl st Hr p) as Hdes. rewrite Hp in Hdes.
  assert (Hnone : op (obj b) = None -> destroy_count p (trace (shared st)) = 0%nat).
  { intros Ho. rewrite Hdes. unfold has_instance. rewrite Ho. reflexivity. }
  split; [|split].
  - intros k Hk.
    pose proof (teardown_at_events _ _ _ _ (reachable_teardown_at dl st p b k Hr Hp Hk))
      as Hev.
    destruct (op (obj b)) as [o|] eqn:Ho.
    + rewrite Hf in Ho. destruct (instance_has_module dl f o Ho) as (h & d & Hh & Hd & _).
      rewrite <- Hf in Hh, Hd. rewrite Hh, Hd in Hev. rewrite Hh. exact Hev.
    + destruct (destroy_func (obj b)), (handle (obj b)); auto.
  - intros j Hj. split.
    + intros Ho. apply destroy_count_lookup in Hj. rewrite (Hnone Ho) in Hj. lia.
    + destruct (reachable_computes_live dl st Hr) as [_ HD]. exact (HD j p Hj).
  - intros h Ho Hh Hd0.
    destruct (op (obj b)) as [o|] eqn:Eo; [|contradiction].
    rewrite Hf in Eo. destruct (instance_has_module dl f o Eo) as (h' & d & Hh' & Hd & Hc1 & Hc2).
    rewrite <- Hf in Hh', Hd. rewrite Hh in Hh'. injection Hh' as <-.
    rewrite (reachable_closes_accounted dl st Hr h).
    rewrite (reachable_resolved_closes dl st h Hr Hc1 Hc2), Nat.add_0_r.
    destruct (reachable_modules_balanced dl st Hr h) as [-> _].
    apply (torn_down_lt h _ 0 _ p (obj b)).
    + intros q. apply (reachable_dtor_once dl st q Hr).
    + change (map obj ?l) with (obj <$> l). rewrite list_lookup_fmap, Hp. reflexivity.
    + unfold has_handle. rewrite Hh. apply Nat.eqb_refl.
    + cbn. rewrite Hdes in Hd0. unfold has_instance in Hd0.
      rewrite <- Hf in Eo. rewrite Eo, Hd in Hd0. exact Hd0.
Qed.

Lemma dtor_destroys_instance_before_module_witness :
  (forall k,
      trace (shared demo_final) !! k = Some (EvDtor 0%nat) ->
      trace (shared demo_final) !! (k + 1)%nat = Some (EvDestroy 0%nat)
      /\ trace (shared demo_final) !! (k + 2)%nat = Some (EvDlclose 1%nat))
  /\ (forall j,
         trace (shared demo_final) !! j = Some (EvDestroy 0%nat) ->
         Some ScoreOperatorV1 <> None
         /\ exists k, (k < j)%nat /\ trace (shared demo_final) !! k = Some (EvDtor 0%nat))
  /\ (forall h,
         Some ScoreOperatorV1 <> None ->
         Some 1%nat = Some h ->
         destroy_count 0%nat (trace (shared demo_final)) = 0%nat ->
         (count_dlclose h (trace (shared demo_final))
          < count_dlopen h (trace (shared demo_final)))%nat).
Proof.
  apply (dtor_destroys_instance_before_module demo_linker demo_final 0%nat
           (mkBlock (mkHolder (Some 1%nat) (Some ScoreOperatorV1)
                              (Some destroy_operator)) 0)).
  - exact demo_final_reachable.
  - vm_compute. reflexivity.
Defined.

(* ===================================================================== *)
(** * Exactly-once teardown: the theorem *)
(* ===================================================================== *)

(** C1: in every state the process can reach, whatever the interleaving
    of worker snapshots and controller publishes, the strong count of each
    bundle equals the number of shared pointers that own it (the slot
    [g_operator], the snapshots of the workers and the locals of
    [hot_update]); its destructor has run at most once, and it has run
    exactly when that count is zero, so never while an owner is left; the
    plug-in's [destroy_operator] has been called on its instance as often
    as the destructor has run (never, for a holder without instance); each
    run of the destructor is followed by its [dlclose] of the holder's
    handle, after the call of [destroy_operator] if there is an instance.
    Every [dlclose] of the trace is accounted for: a handle has been closed
    once for each destructor that has run on a holder of it, plus once, by
    [load_operator] itself at line 85, for each holder of it whose symbol
    lookup failed; for a handle whose two symbols resolve, as that of every
    bundle [load_operator] returns, there is no such holder, so its closes
    are those of the destructors, one each. And when [main] has returned,
    the destructor of every bundle has run exactly once. *)
Theorem teardown_exactly_once (dl : DynLinker) (st : State) :
  reachable dl st ->
  (forall p b,
      heap (shared st) !! p = Some b ->
      strong b = occ p (roots st)
      /\ (dtor_count p (trace (shared st)) <= 1)%nat
      /\ (dtor_count p (trace (shared st)) = 1%nat <-> occ p (roots st) = 0%nat)
      /\ destroy_count p (trace (shared st))
         = (if has_instance (obj b) then dtor_count p (trace (shared st)) else 0%nat)
      /\ (forall k h,
             trace (shared st) !! k = Some (EvDtor p) ->
             handle (obj b) = Some h ->
             trace (shared st) !! (k + (if has_instance (obj b) then 2 else 1))%nat
             = Some (EvDlclose h)))
  /\ (forall h,
         count_dlclose h (trace (shared st))
         = (torn_down h (map obj (heap (shared st))) 0 (trace (shared st))
            + closed_by_loader h (map obj (heap (shared st))))%nat)
  /\ (forall h,
         dlsym_create_operator dl h <> None ->
         dlsym_destroy_operator dl h <> None ->
         closed_by_loader h (map obj (heap (shared st))) = 0%nat)
  /\ (main_pc st = Main_exited ->
      forall p b,
        heap (shared st) !! p = Some b ->
        dtor_count p (trace (shared st)) = 1%nat).
Proof.
  intros Hr. destruct (reachable_Inv dl st Hr) as [Hc Ht].
  pose proof (reachable_destroys_ok dl st Hr) as Hdes.
  assert (Hmain : forall p b,
             heap (shared st) !! p = Some b ->
             strong b = occ p (roots st)
             /\ dtor_count p (trace (shared st))
                = (if Nat.eqb (occ p (roots st)) 0 then 1 else 0)%nat).
  { intros p b Hp. destruct (Hc p) as [Hs Hd].
    unfold strong_at in Hs. unfold expected_dtors, strong_at in Hd.
    rewrite Hp in Hs, Hd.
    assert (Hlt : (p <? length (heap (shared st)))%nat = true)
      by (apply Nat.ltb_lt; eapply lookup_lt_Some, Hp).
    rewrite Hlt in Hd. cbn [andb] in Hd. rewrite <- Hs. auto. }
  split; [|split; [|split]].
  - intros p b Hp. destruct (Hmain p b Hp) as [Hs Hd].
    specialize (Hdes p). rewrite Hp in Hdes.
    split; [exact Hs|]. split; [|split; [|split]].
    + rewrite Hd. destruct (Nat.eqb _ 0); lia.
    + rewrite Hd. destruct (Nat.eqb_spec (occ p (roots st)) 0); split; intros; lia.
    + exact Hdes.
    + intros k h Hk Hh.
      pose proof (teardown_at_events _ _ _ _
                    (reachable_teardown_at dl st p b k Hr Hp Hk)) as Hev.
      unfold has_instance. rewrite Hh in Hev.
      destruct (op (obj b)), (destroy_func (obj b)); try exact Hev. apply Hev.
  - exact (reachable_closes_accounted dl st Hr).
  - intros h Hc1 Hc2. exact (reachable_resolved_closes dl st h Hr Hc1 Hc2).
  - intros Hm p b Hp. destruct (Hmain p b Hp) as [Hs Hd]. rewrite Hd.
    rewrite (roots_exited st Ht Hm). reflexivity.
Qed.

Lemma teardown_exactly_once_witness :
  (forall p b,
      heap (shared demo_final) !! p = Some b ->
      strong b = occ p (roots demo_final)
      /\ (dtor_count p (trace (shared demo_final)) <= 1)%nat
      /\ (dtor_count p (trace (shared demo_final)) = 1%nat
          <-> occ p (roots demo_final) = 0%nat)
      /\ destroy_count p (trace (shared demo_final))
         = (if has_instance (obj b)
            then dtor_count p (trace (shared demo_final)) else 0%nat)
      /\ (forall k h,
             trace (shared demo_final) !! k = Some (EvDtor p) ->
             handle (obj b) = Some h ->
             trace (shared demo_final)
               !! (k + (if has_instance (obj b) then 2 else 1))%nat
             = Some (EvDlclose h)))
  /\ (forall h,
         count_dlclose h (trace (shared demo_final))
         = (torn_down h (map obj (heap (shared demo_final))) 0
                      (trace (shared demo_final))
            + closed_by_loader h (map obj (heap (shared demo_final))))%nat)
  /\ (forall h,
         dlsym_create_operator demo_linker h <> None ->
         dlsym_destroy_operator demo_linker h <> None ->
         closed_by_loader h (map obj (heap (shared demo_final))) = 0%nat)
  /\ (main_pc demo_final = Main_exited ->
      forall p b,
        heap (shared demo_final) !! p = Some b ->
        dtor_count p (trace (shared demo_final)) = 1%nat).
Proof.
  apply (teardown_exactly_once demo_linker demo_final).
  exists demo_schedule. vm_compute. reflexivity.
Defined.

(* ===================================================================== *)
(** * Each round is counted once *)
(* ===================================================================== *)

Lemma counted_plus_left ws :
  Forall worker_bound ws ->
  (sum_workers rounds_counted ws + workers_rounds_left ws
   = length ws * total_rounds)%nat.
Proof.
  induction 1 as [|w ws Hw _ IH]; [reflexivity|].
  cbn [sum_workers workers_rounds_left length].
  assert (E : (rounds_counted w + worker_rounds_left w = total_rounds)%nat)
    by (destruct w; cbn in *; unfold total_rounds in *; lia).
  lia.
Qed.

(** C7: the scripted demo run (the initial load of v1 by [main], then
    v2, v1, v2 by the controller, 4 workers of 20 rounds each, all loads
    succeeding), in every interleaving. At every moment [total_requests]
    is the number of rounds for which the workers have gone through the
    increment of [record_request], and [compute_score] has been called
    exactly once for every round a worker has passed and for no other: no
    round is counted twice or left out. When [main] has returned,
    [total_requests] is 80, one for each of the 4 x 20 rounds, but
    [hot_update_count] is 4, not the 3 swaps of the script: [main]'s
    initial load goes through [hot_update] and is counted like a swap. *)
Theorem demo_run_final_counts (dl : DynLinker) (st : State) :
  all_loads_succeed dl ->
  reachable dl st ->
  total_requests (g_stats (shared st))
  = Z.of_nat (sum_workers rounds_counted (workers st))
  /\ (forall tid i,
         count_compute tid i (trace (shared st))
         = if Nat.ltb i (rounds_passed_of st tid) then 1%nat else 0%nat)
  /\ (main_pc st = Main_exited ->
      hot_update_count (g_stats (shared st)) = 4
      /\ hot_update_count (g_stats (shared st)) <> 3
      /\ total_requests (g_stats (shared st)) = 80
      /\ forall tid i,
           count_compute tid i (trace (shared st))
           = if Nat.ltb tid THREAD_NUM && Nat.ltb i total_rounds
             then 1%nat else 0%nat).
Proof.
  intros Hall Hr.
  destruct (reachable_Inv dl st Hr) as [_ Ht].
  pose proof (reachable_demo_inv dl st Hall Hr) as HD.
  pose proof (updates_eq _ _ HD) as Hu. pose proof (requests_eq _ _ HD) as Hq.
  destruct (reachable_rounds_exact dl st Hall Hr) as (Hb & Hl & Hc).
  pose proof (counted_plus_left _ Hb) as Hcl.
  assert (Hexact : forall tid i,
             count_compute tid i (trace (shared st))
             = if Nat.ltb i (rounds_passed_of st tid) then 1%nat else 0%nat).
  { intros tid i. destruct (Hc tid i) as [_ He]. exact (He eq_refl). }
  assert (Htot : total_requests (g_stats (shared st))
                 = Z.of_nat (sum_workers rounds_counted (workers st))).
  { unfold requests_left, workers_started, threads_ok in *.
    destruct (main_pc st).
    - destruct Ht as [-> _]. cbn in *. lia.
    - destruct Ht as [-> _]. cbn in *. lia.
    - rewrite Hl in Hcl. cbn in Hcl. lia.
    - rewrite Hl in Hcl. cbn in Hcl. lia. }
  split; [exact Htot|]. split; [exact Hexact|].
  intros Hm.
  assert (Hu4 : hot_update_count (g_stats (shared st)) = 4).
  { unfold updates_left, threads_ok in *. rewrite Hm in *.
    destruct Ht as (_ & Hk & _).
    destruct (controller st) as [[[|? ?]|? ?]|]; try discriminate.
    cbn in Hu. lia. }
  assert (Hq80 : total_requests (g_stats (shared st)) = 80).
  { unfold requests_left, threads_ok in *. rewrite Hm in *.
    destruct Ht as (Hw & _). rewrite (workers_rounds_left_done _ Hw) in Hq. lia. }
  split; [exact Hu4|]. split; [lia|]. split; [exact Hq80|].
  intros tid i. rewrite Hexact.
  unfold rounds_passed_of, workers_started, threads_ok in *. rewrite Hm in *.
  destruct Ht as (Hd & _).
  destruct (workers st !! tid) as [w|] eqn:Hw.
  - rewrite (forallb_done_lookup _ _ _ Hd Hw). cbn [rounds_passed].
    apply lookup_lt_Some in Hw. rewrite Hl in Hw.
    replace (tid <? THREAD_NUM)%nat with true by (symmetry; apply Nat.ltb_lt; lia).
    reflexivity.
  - apply lookup_ge_None in Hw. rewrite Hl in Hw.
    replace (tid <? THREAD_NUM)%nat with false by (symmetry; apply Nat.ltb_ge; lia).
    reflexivity.
Qed.

Lemma demo_run_final_counts_witness :
  total_requests (g_stats (shared demo_final))
  = Z.of_nat (sum_workers rounds_counted (workers demo_final))
  /\ (forall tid i,
         count_compute tid i (trace (shared demo_final))
         = if Nat.ltb i (rounds_passed_of demo_final tid) then 1%nat else 0%nat)
  /\ (main_pc demo_final = Main_exited ->
      hot_update_count (g_stats (shared demo_final)) = 4
      /\ hot_update_count (g_stats (shared demo_final)) <> 3
      /\ total_requests (g_stats (shared demo_final)) = 80
      /\ forall tid i,
           count_compute tid i (trace (shared demo_final))
           = if Nat.ltb tid THREAD_NUM && Nat.ltb i total_rounds
             then 1%nat else 0%nat).
Proof.
  apply (demo_run_final_counts demo_linker demo_final).
  - exact demo_linker_loads_succeed.
  - exact demo_final_reachable.
Defined.

(* ===================================================================== *)
(** * The process with its mutex *)
(* ===================================================================== *)

(** A step either takes the mutex and leaves the process alone, or is a
    step of the process. *)
Lemma mstep_process dl l s s' :
  mstep dl l s = Some s' ->
  (process s' = process s /\ g_print_mutex s = None /\ g_print_mutex s' <> None
   /\ crashed (base (process s)) = false)
  \/ xstep dl l (process s) = Some (process s').
Proof.
  unfold mstep, with_process. intros H.
  assert (G : forall m, match xstep dl l (process s) with
                        | Some p' => Some (mkSystem p' m)
                        | None => None
                        end = Some s' ->
                        xstep dl l (process s) = Some (process s')).
  { intros m. destruct (xstep dl l (process s)); [|discriminate].
    intros [= <-]. reflexivity. }
  destruct l as [[| | tid]|]; try (right; exact (G _ H)).
  destruct (workers (base (process s)) !! tid) as [w|]; [|discriminate].
  destruct (at_lock_guard w); [|right; exact (G _ H)].
  destruct (g_print_mutex s) as [owner|] eqn:Hm.
  - destruct (Nat.eqb owner tid); [right; exact (G _ H) | discriminate].
  - destruct (crashed (base (process s))) eqn:Hc; [discriminate|].
    injection H as <-. left. split; [reflexivity|]. split; [reflexivity|].
    split; [discriminate | reflexivity].
Qed.

Lemma xstep_not_crashed dl l p p' :
  xstep dl l p = Some p' -> crashed (base p) = false.
Proof. unfold xstep. destruct (crashed (base p)); [discriminate | reflexivity]. Qed.

Lemma mstep_not_crashed dl l s s' :
  mstep dl l s = Some s' -> crashed (base (process s)) = false.
Proof.
  intros H. destruct (mstep_process _ _ _ _ H) as [(_ & _ & _ & Hc) | Hx];
    [exact Hc | exact (xstep_not_crashed _ _ _ _ Hx)].
Qed.

(** A step of another thread leaves a worker where it is. *)
Lemma step_keeps_worker dl l st st' t w :
  threads_ok st -> l <> L_worker t ->
  step dl l st = Some st' ->
  workers st !! t = Some w -> workers st' !! t = Some w.
Proof.
  intros Ht Hl Hs Hw. unfold step in Hs. destruct (crashed st); [discriminate|].
  unfold threads_ok in Ht.
  destruct l as [| | tid].
  - destruct (main_pc st) as [d | | |] eqn:Hm.
    + destruct (driver_step dl TMain d (shared st)) as [[[d' | |] sh']|];
        injection Hs as <-; exact Hw.
    + destruct Ht as [Hnil _]. rewrite Hnil in Hw. discriminate.
    + destruct (_ && _); [|discriminate].
      destruct ((let* _ := sp_release (g_operator (shared st)) in
                 modify (set_g_operator None)) (shared st)) as [[u sh']|];
        injection Hs as <-; exact Hw.
    + discriminate.
  - destruct (controller st) as [d|]; [|discriminate].
    destruct (driver_step dl TController d (shared st)) as [[[d' | |] sh']|];
      try discriminate; injection Hs as <-; exact Hw.
  - destruct (workers st !! tid) as [w0|]; [|discriminate].
    assert (Hne : tid <> t) by (intros ->; apply Hl; reflexivity).
    destruct (worker_step tid w0 (shared st)) as [[w' sh']|];
      destruct w0; try discriminate; injection Hs as <-; cbn [workers crash_state];
      try exact Hw; rewrite list_lookup_insert_ne by exact Hne; exact Hw.
Qed.

Lemma xstep_keeps_worker dl l p p' t w :
  threads_ok (base p) -> l <> XL (L_worker t) ->
  xstep dl l p = Some p' ->
  workers (base p) !! t = Some w -> workers (base p') !! t = Some w.
Proof.
  intros Ht Hl Hs Hw. unfold xstep, with_base in Hs.
  destruct (crashed (base p)); [discriminate|].
  assert (G : forall l' st', l' <> L_worker t ->
                             step dl l' (base p) = Some st' ->
                             workers st' !! t = Some w).
  { intros l' st' Hl' Hst. exact (step_keeps_worker dl l' _ st' t w Ht Hl' Hst Hw). }
  destruct l as [[| | tid]|].
  - destruct (main_pc (base p)); try destruct (main_tail p);
      try (destruct (step dl L_main (base p)) as [st'|] eqn:Hst; [|discriminate];
           injection Hs as <-; cbn [base]; apply (G L_main); [discriminate | exact Hst]).
    + destruct (_ && _); [|discriminate]. injection Hs as <-. exact Hw.
    + destruct (print_stats_step pc _); injection Hs as <-; exact Hw.
  - destruct (step dl L_controller (base p)) as [st'|] eqn:Hst; [|discriminate].
    injection Hs as <-. cbn [base]. apply (G L_controller); [discriminate | exact Hst].
  - destruct (step dl (L_worker tid) (base p)) as [st'|] eqn:Hst; [|discriminate].
    injection Hs as <-. cbn [base]. apply (G (L_worker tid)); [|exact Hst].
    intros [= ->]. apply Hl. reflexivity.
  - destruct (stats_thread p) as [[i | i pc |]|]; try discriminate;
      destruct (stats_step _ _); injection Hs as <-; exact Hw.
Qed.

Lemma mstep_minv dl l s s' :
  minv_holds dl s -> mstep dl l s = Some s' -> minv_holds dl s'.
Proof.
  intros (Hr & HO & HT & HM) Hs.
  assert (Hthr : threads_ok (base (process s))) by apply (reachable_Inv dl _ Hr).
  assert (Hx : xstep dl l (process s) = Some (process s') ->
               reachable dl (base (process s'))
               /\ order_inv (process s') /\ tail_inv (process s')).
  { intros Hxs. split.
    - destruct (xstep_base _ _ _ _ Hxs) as [-> | [l' Hl']]; [exact Hr|].
      eapply reachable_step; eauto.
    - exact (xstep_inv dl l _ _ Hr HO HT Hxs). }
  unfold mstep, with_process in Hs. unfold mutex_inv in *.
  assert (Hother : forall m,
             (forall t, m = Some t -> l <> XL (L_worker t)) ->
             g_print_mutex s = m ->
             match xstep dl l (process s) with
             | Some p' => Some (mkSystem p' m)
             | None => None
             end = Some s' ->
             minv_holds dl s').
  { intros m Hl Hm Hxs.
    destruct (xstep dl l (process s)) as [p'|] eqn:Hxp; [|discriminate].
    injection Hxs as <-. cbn [process] in Hx.
    destruct (Hx eq_refl) as (R1 & O1 & T1).
    split; [exact R1|]. split; [exact O1|]. split; [exact T1|].
    unfold mutex_inv. cbn [g_print_mutex process]. rewrite Hm in HM.
    destruct m as [t|]; [|exact I].
    destruct HM as (w & Hw & Hg). exists w. split; [|exact Hg].
    exact (xstep_keeps_worker dl l _ _ t w Hthr (Hl t eq_refl) Hxp Hw). }
  destruct l as [[| | tid]|];
    try (apply (Hother (g_print_mutex s)); [intros; discriminate | reflexivity | exact Hs]).
  destruct (workers (base (process s)) !! tid) as [w|] eqn:Hw; [|discriminate].
  destruct (at_lock_guard w) eqn:Hg.
  - destruct (g_print_mutex s) as [owner|] eqn:Hm.
    + destruct (Nat.eqb_spec owner tid) as [->|Hne]; [|discriminate].
      destruct (xstep dl (XL (L_worker tid)) (process s)) as [p'|] eqn:Hxp;
        [|discriminate].
      injection Hs as <-. cbn [process] in Hx.
      destruct (Hx eq_refl) as (R1 & O1 & T1).
      split; [exact R1|]. split; [exact O1|]. split; [exact T1|]. exact I.
    + destruct (crashed (base (process s))); [discriminate|]. injection Hs as <-.
      split; [exact Hr|]. split; [exact HO|]. split; [exact HT|].
      unfold mutex_inv. cbn [g_print_mutex process]. exists w. auto.
  - apply (Hother (g_print_mutex s)); [|reflexivity | exact Hs].
    intros t Hm [= ->]. rewrite Hm in HM. destruct HM as (w' & Hw' & Hg').
    rewrite Hw in Hw'. injection Hw' as <-. rewrite Hg in Hg'. discriminate.
Qed.

Lemma minv_init dl : minv_holds dl System_init.
Proof.
  split; [exists []; reflexivity|]. split; [apply order_inv_init|].
  split; [apply tail_inv_init | exact I].
Qed.

Lemma mrun_minv dl sched : forall s s',
  minv_holds dl s -> mrun dl sched s = Some s' -> minv_holds dl s'.
Proof.
  induction sched as [|l rest IH]; intros s s' Hi H; cbn in H.
  - injection H as <-. exact Hi.
  - destruct (mstep dl l s) as [s1|] eqn:Hs; [|discriminate].
    exact (IH s1 s' (mstep_minv dl l s s1 Hi Hs) H).
Qed.

Lemma mreachable_minv dl s : mreachable dl s -> minv_holds dl s.
Proof. intros [sched H]. exact (mrun_minv dl sched _ _ (minv_init dl) H). Qed.

Lemma mrun_app dl s1 s2 s :
  mrun dl (s1 ++ s2) s
  = match mrun dl s1 s with Some s' => mrun dl s2 s' | None => None end.
Proof.
  revert s. induction s1 as [|l s1 IH]; intros s; cbn; [reflexivity|].
  destruct (mstep dl l s); [apply IH | reflexivity].
Qed.

Lemma mreachable_step dl l s s' :
  mreachable dl s -> mstep dl l s = Some s' -> mreachable dl s'.
Proof.
  intros [sched Hr] Hs. exists (sched ++ [l]). rewrite mrun_app, Hr. cbn. rewrite Hs.
  reflexivity.
Qed.

(* ===================================================================== *)
(** * Termination *)
(* ===================================================================== *)

Lemma measure_pos st : crashed st = false -> (1 <= measure st)%nat.
Proof. intros H. unfold measure. rewrite H. lia. Qed.

Lemma stats_step_measure pc s pc' out :
  pc <> ST_done ->
  stats_step pc s = (pc', out) ->
  (stats_measure (Some pc') < stats_measure (Some pc))%nat.
Proof.
  unfold stats_step, stats_rounds. intros Hne H.
  destruct pc as [i | i p |]; [| |contradiction].
  - destruct (Nat.ltb_spec i 6); injection H as <- _; cbn; lia.
  - destruct p; cbn in H; injection H as <- _; cbn; lia.
Qed.

(** Every step of the process brings it closer to its end. *)
Lemma xstep_measure dl l p p' :
  tail_inv p ->
  xstep dl l p = Some p' ->
  crashed (base p') = false ->
  (2 * measure (base p') + stats_measure (stats_thread p')
   + tail_measure (main_tail p')
   < 2 * measure (base p) + stats_measure (stats_thread p)
     + tail_measure (main_tail p))%nat
  /\ (forall tid, l = XL (L_worker tid) ->
      (2 * measure (base p') + stats_measure (stats_thread p')
       + tail_measure (main_tail p') + 2
       <= 2 * measure (base p) + stats_measure (stats_thread p)
          + tail_measure (main_tail p))%nat).
Proof.
  intros (_ & _ & HT & _) Hs Hc'. unfold xstep, with_base in Hs.
  destruct (crashed (base p)) eqn:Hc; [discriminate|].
  assert (G : forall l' st', step dl l' (base p) = Some st' ->
                             (measure st' < measure (base p))%nat).
  { intros l' st'. apply step_measure. }
  destruct l as [[| | tid]|].
  - split; [|discriminate].
    destruct (main_pc (base p)); try destruct (main_tail p);
      try (destruct (step dl L_main (base p)) as [st'|] eqn:Hst; [|discriminate];
           injection Hs as <-; cbn [base stats_thread main_tail];
           specialize (G _ _ Hst); rewrite ?HT; cbn [stats_measure stats_rounds];
           lia).
    + destruct (_ && _); [|discriminate]. injection Hs as <-. cbn. lia.
    + destruct pc; cbn in Hs; injection Hs as <-; cbn; lia.
  - destruct (step dl L_controller (base p)) as [st'|] eqn:Hst; [|discriminate].
    injection Hs as <-. cbn [base stats_thread main_tail]. specialize (G _ _ Hst).
    split; [lia | discriminate].
  - destruct (step dl (L_worker tid) (base p)) as [st'|] eqn:Hst; [|discriminate].
    injection Hs as <-. cbn [base stats_thread main_tail]. specialize (G _ _ Hst).
    split; [lia | intros; lia].
  - split; [|discriminate].
    destruct (stats_thread p) as [pc|] eqn:Hst; [|discriminate].
    destruct (stats_step pc (g_stats (shared (base p)))) as [pc' out] eqn:Hss.
    assert (Hne : pc <> ST_done) by (destruct pc; discriminate).
    pose proof (stats_step_measure _ _ _ _ Hne Hss) as Hlt.
    destruct pc; try discriminate; injection Hs as <-;
      cbn [base stats_thread main_tail]; lia.
Qed.

Lemma mstep_measure dl l s s' :
  tail_inv (process s) ->
  mstep dl l s = Some s' -> (mmeasure s' < mmeasure s)%nat.
Proof.
  intros HT Hs. pose proof (mstep_not_crashed _ _ _ _ Hs) as Hc.
  unfold mmeasure. rewrite Hc.
  destruct (crashed (base (process s'))) eqn:Hc'.
  { pose proof (measure_pos _ Hc). lia. }
  unfold mstep, with_process in Hs.
  assert (G : forall m, match xstep dl l (process s) with
                        | Some p' => Some (mkSystem p' m)
                        | None => None
                        end = Some s' ->
                        xstep dl l (process s) = Some (process s')
                        /\ g_print_mutex s' = m).
  { intros m. destruct (xstep dl l (process s)); [|discriminate].
    intros [= <-]. auto. }
  assert (Hsame : match xstep dl l (process s) with
                  | Some p' => Some (mkSystem p' (g_print_mutex s))
                  | None => None
                  end = Some s' ->
                  (2 * measure (base (process s'))
                   + stats_measure (stats_thread (process s'))
                   + tail_measure (main_tail (process s'))
                   + match g_print_mutex s' with None => 1 | Some _ => 0 end
                   < 2 * measure (base (process s))
                     + stats_measure (stats_thread (process s))
                     + tail_measure (main_tail (process s))
                     + match g_print_mutex s with None => 1 | Some _ => 0 end)%nat).
  { intros H. destruct (G _ H) as [Hx ->].
    destruct (xstep_measure _ _ _ _ HT Hx Hc') as [Hlt _]. lia. }
  destruct l as [[| | tid]|]; try exact (Hsame Hs).
  destruct (workers (base (process s)) !! tid) as [w|]; [|discriminate].
  destruct (at_lock_guard w); [|exact (Hsame Hs)].
  destruct (g_print_mutex s) as [owner|] eqn:Hm.
  - destruct (Nat.eqb owner tid); [|discriminate].
    destruct (G _ Hs) as [Hx ->].
    destruct (xstep_measure _ _ _ _ HT Hx Hc') as [_ Hle].
    specialize (Hle tid eq_refl). lia.
  - rewrite Hc in Hs. injection Hs as <-. cbn [process g_print_mutex]. lia.
Qed.

(** A run is never longer than the measure of the state it starts in. *)
Lemma mrun_bounded dl sched : forall s s',
  minv_holds dl s ->
  mrun dl sched s = Some s' -> (length sched + mmeasure s' <= mmeasure s)%nat.
Proof.
  induction sched as [|l rest IH]; intros s s' Hi Hr; cbn in Hr.
  - injection Hr as <-. cbn. lia.
  - destruct (mstep dl l s) as [s1|] eqn:Hs; [|discriminate].
    pose proof (mstep_measure _ _ _ _ (proj1 (proj2 (proj2 Hi))) Hs).
    specialize (IH _ _ (mstep_minv _ _ _ _ Hi Hs) Hr). cbn [length]. lia.
Qed.

(** No deadlock: as long as [main] has not returned and the process has
    not crashed, some thread can take a step. A worker that waits for the
    mutex waits for a worker that can print and release it. *)
Lemma mcan_step dl s :
  minv_holds dl s ->
  crashed (base (process s)) = false ->
  main_pc (base (process s)) <> Main_exited ->
  exists l s', mstep dl l s = Some s'.
Proof.
  intros (Hr & _ & HT & HM) Hc Hm.
  destruct (can_step dl (base (process s))) as (l & st' & Hs);
    [apply (reachable_Inv dl _ Hr) | exact Hc | exact Hm |].
  assert (Hw : forall tid w,
             workers (base (process s)) !! tid = Some w -> is_done w = false ->
             exists st1, step dl (L_worker tid) (base (process s)) = Some st1).
  { intros tid w Hl Hd. unfold step. rewrite Hc, Hl.
    destruct (worker_step tid w (shared (base (process s)))) as [[w' sh']|];
      destruct w; try discriminate; eexists; reflexivity. }
  destruct l as [| | tid].
  - destruct HT as (_ & _ & HT3 & _).
    destruct (main_pc (base (process s))) as [d | | |] eqn:Hpc.
    + exists (XL L_main). unfold mstep, with_process, xstep, with_base.
      rewrite Hc, Hpc, Hs. eexists. reflexivity.
    + exists (XL L_main). unfold mstep, with_process, xstep, with_base.
      rewrite Hc, Hpc, Hs. eexists. reflexivity.
    + assert (Hall : forallb is_done (workers (base (process s)))
                     && driver_done (controller (base (process s))) = true).
      { unfold step in Hs. rewrite Hc, Hpc in Hs.
        destruct (_ && _); [reflexivity | discriminate]. }
      destruct (main_tail (process s)) eqn:Htl.
      * destruct (stats_done (stats_thread (process s))) eqn:Hsd.
        -- exists (XL L_main). unfold mstep, with_process, xstep, with_base.
           rewrite Hc, Hpc, Htl, Hall, Hsd. eexists. reflexivity.
        -- exists XL_stats. unfold mstep, with_process, xstep, with_base.
           rewrite Hc.
           destruct (stats_thread (process s)) as [[i | i pc |]|];
             try contradiction; try discriminate;
             destruct (stats_step _ _); eexists; reflexivity.
      * exists (XL L_main). unfold mstep, with_process, xstep, with_base.
        rewrite Hc, Hpc, Htl.
        destruct (print_stats_step pc _); eexists; reflexivity.
      * exists (XL L_main). unfold mstep, with_process, xstep, with_base.
        rewrite Hc, Hpc, Htl, Hs. eexists. reflexivity.
    + contradiction.
  - exists (XL L_controller). unfold mstep, with_process, xstep, with_base.
    rewrite Hc, Hs. eexists. reflexivity.
  - assert (Hl : exists w, workers (base (process s)) !! tid = Some w
                           /\ is_done w = false).
    { unfold step in Hs. rewrite Hc in Hs.
      destruct (workers (base (process s)) !! tid) as [w|]; [|discriminate].
      exists w. split; [reflexivity|]. destruct w; try reflexivity. discriminate. }
    destruct Hl as (w & Hl & Hd).
    assert (Hgo : forall t w0 m,
               workers (base (process s)) !! t = Some w0 -> is_done w0 = false ->
               exists s',
                 with_process m (xstep dl (XL (L_worker t)) (process s)) = Some s').
    { intros t w0 m Hl0 Hd0. destruct (Hw t w0 Hl0 Hd0) as [st1 Hst1].
      unfold with_process, xstep, with_base. rewrite Hc, Hst1. eexists. reflexivity. }
    destruct (at_lock_guard w) eqn:Hg.
    + unfold mutex_inv in HM.
      destruct (g_print_mutex s) as [owner|] eqn:Hmx.
      * destruct HM as (w' & Hl' & Hg').
        assert (Hd' : is_done w' = false) by (destruct w'; try reflexivity; discriminate).
        exists (XL (L_worker owner)). unfold mstep.
        rewrite Hl', Hg', Hmx, Nat.eqb_refl. exact (Hgo owner w' None Hl' Hd').
      * exists (XL (L_worker tid)). unfold mstep. rewrite Hl, Hg, Hmx, Hc.
        eexists. reflexivity.
    + exists (XL (L_worker tid)). unfold mstep. rewrite Hl, Hg.
      exact (Hgo tid w _ Hl Hd).
Qed.

Lemma shipped_loads_succeed dl : shipped_plugins dl -> all_loads_succeed dl.
Proof.
  unfold shipped_plugins, all_loads_succeed, all_scripts. intros H.
  eapply Forall_impl; [exact H|]. intros f (Hf & o & Ho & _). split; [exact Hf|].
  rewrite Ho. discriminate.
Qed.

Lemma demo_linker_shipped : shipped_plugins demo_linker.
Proof.
  unfold shipped_plugins, all_scripts, main_script, controller_script.
  repeat constructor;
    first [ exists ScoreOperatorV1; split; [reflexivity | left; reflexivity]
          | exists (ScoreOperatorV2 sin_model); split;
            [reflexivity | right; exists sin_model; reflexivity] ].
Qed.

Lemma mreachable_no_crash dl s :
  shipped_plugins dl -> mreachable dl s -> crashed (base (process s)) = false.
Proof.
  intros Hsh Hr. apply (demo_never_crashes dl _ (shipped_loads_succeed dl Hsh)).
  apply (mreachable_minv dl s Hr).
Qed.

(** With the shipped plug-ins every reachable state can be run on until
    [main] has returned. *)
Lemma mdemo_reaches_exit dl :
  shipped_plugins dl ->
  forall n s, (mmeasure s <= n)%nat -> mreachable dl s ->
  exists sched s',
    mrun dl sched s = Some s' /\ main_pc (base (process s')) = Main_exited.
Proof.
  intros Hsh. induction n as [|n IH]; intros s Hn Hr.
  - pose proof (mreachable_no_crash dl s Hsh Hr) as Hcr.
    unfold mmeasure in Hn. rewrite Hcr in Hn.
    pose proof (measure_pos _ Hcr). lia.
  - destruct (main_pc (base (process s))) eqn:Hm;
      try (destruct (mcan_step dl s) as (l & s1 & Hs);
           [apply (mreachable_minv dl s Hr)
           | apply (mreachable_no_crash dl s Hsh Hr)
           | rewrite Hm; discriminate |];
           pose proof (mstep_measure _ _ _ _
                         (proj1 (proj2 (proj2 (mreachable_minv dl s Hr)))) Hs) as Hlt;
           destruct (IH s1 ltac:(lia) (mreachable_step _ _ _ _ Hr Hs))
             as (sched & s' & Hrun & Hex);
           exists (l :: sched), s'; cbn; rewrite Hs; auto).
    exists [], s. auto.
Qed.

Lemma occ_In q R : In q R -> (1 <= occ q R)%nat.
Proof.
  induction R as [|x R IH]; intros H; [destruct H|]. cbn [occ].
  destruct H as [-> | H]; [rewrite Nat.eqb_refl; lia|]. specialize (IH H). lia.
Qed.

(** While a shared pointer to a holder exists, the holder is alive. *)
Lemma owned_is_alive dl st q :
  reachable dl st -> In q (roots st) ->
  exists b, heap (shared st) !! q = Some b
            /\ (1 <= strong b)%nat
            /\ dtor_count q (trace (shared st)) = 0%nat
            /\ destroy_count q (trace (shared st)) = 0%nat.
Proof.
  intros Hr Hq. apply occ_In in Hq.
  destruct (reachable_Inv dl st Hr) as [Hc _]. destruct (Hc q) as [Hs Hd].
  pose proof (reachable_destroys_ok dl st Hr q) as Hdes.
  unfold strong_at in Hs. unfold expected_dtors, strong_at in Hd.
  destruct (heap (shared st) !! q) as [b|] eqn:Hb; [|lia].
  exists b. split; [reflexivity|]. split; [lia|].
  assert (Hd0 : dtor_count q (trace (shared st)) = 0%nat).
  { rewrite Hd. replace (Nat.eqb (strong b) 0) with false
      by (symmetry; apply Nat.eqb_neq; lia).
    rewrite andb_false_r. reflexivity. }
  split; [exact Hd0|]. rewrite Hdes, Hd0. destruct (has_instance (obj b)); reflexivity.
Qed.

(* ===================================================================== *)
(** * The demo runs to completion *)
(* ===================================================================== *)

(** With the shipped plug-ins, no interleaving of [main], the
    controller, the workers and the statistics thread reaches a crash: no
    null pointer is dereferenced and no [assert] fails. And in every state
    that can be reached, each shared pointer that exists, in the slot or in
    a local of a thread, points to a holder with a positive use count on
    which neither the destructor nor [destroy_operator] has run: nothing
    is used after it was torn down. *)
Theorem demo_run_never_crashes (dl : DynLinker) (sched : list XLabel) (s : System) :
  shipped_plugins dl ->
  mrun dl sched System_init = Some s ->
  crashed (base (process s)) = false
  /\ forall q,
       In q (roots (base (process s))) ->
       exists b,
         heap (shared (base (process s))) !! q = Some b
         /\ (1 <= strong b)%nat
         /\ dtor_count q (trace (shared (base (process s)))) = 0%nat
         /\ destroy_count q (trace (shared (base (process s)))) = 0%nat.
Proof.
  intros Hsh Hr.
  assert (Hm : mreachable dl s) by (exists sched; exact Hr).
  split; [exact (mreachable_no_crash dl s Hsh Hm)|].
  intros q Hq. apply (owned_is_alive dl _ q); [|exact Hq].
  apply (mreachable_minv dl s Hm).
Qed.

Lemma demo_run_never_crashes_witness :
  crashed (base (process msnapshots_state)) = false
  /\ forall q,
       In q (roots (base (process msnapshots_state))) ->
       exists b,
         heap (shared (base (process msnapshots_state))) !! q = Some b
         /\ (1 <= strong b)%nat
         /\ dtor_count q (trace (shared (base (process msnapshots_state)))) = 0%nat
         /\ destroy_count q (trace (shared (base (process msnapshots_state)))) = 0%nat.
Proof.
  apply (demo_run_never_crashes demo_linker msnapshots_schedule msnapshots_state).
  - exact demo_linker_shipped.
  - vm_compute. reflexivity.
Defined.

(** With the shipped plug-ins the demo terminates, whatever the
    interleaving, statistics thread and output mutex included. From every
    state that can be reached, no run is longer than the measure of that
    state; as long as [main] has not returned some thread can take a step,
    so no thread waits for ever at a [join] or for the mutex; and the state
    can be run on until [main] has returned, without a crash and with the
    mutex free. *)
Theorem demo_run_terminates (dl : DynLinker) (s : System) :
  shipped_plugins dl ->
  mreachable dl s ->
  (forall sched s', mrun dl sched s = Some s' -> (length sched <= mmeasure s)%nat)
  /\ (main_pc (base (process s)) <> Main_exited ->
      exists l s', mstep dl l s = Some s')
  /\ exists sched s',
       mrun dl sched s = Some s'
       /\ main_pc (base (process s')) = Main_exited
       /\ crashed (base (process s')) = false
       /\ g_print_mutex s' = None.
Proof.
  intros Hsh Hr. pose proof (mreachable_minv dl s Hr) as Hi. split; [|split].
  - intros sched s' H. pose proof (mrun_bounded _ _ _ _ Hi H). lia.
  - intros Hm. apply (mcan_step dl s Hi); [|exact Hm].
    exact (mreachable_no_crash dl s Hsh Hr).
  - destruct (mdemo_reaches_exit dl Hsh (mmeasure s) s (Nat.le_refl _) Hr)
      as (sched & s' & Hrun & Hex).
    exists sched, s'. split; [exact Hrun|]. split; [exact Hex|].
    assert (Hr' : mreachable dl s').
    { destruct Hr as [s0 Hr0]. exists (s0 ++ sched). rewrite mrun_app, Hr0. exact Hrun. }
    split; [exact (mreachable_no_crash dl s' Hsh Hr')|].
    destruct (mreachable_minv dl s' Hr') as (Hb & _ & _ & HM).
    destruct (reachable_Inv dl _ Hb) as [_ Ht]. unfold threads_ok in Ht.
    rewrite Hex in Ht. destruct Ht as (Hd & _).
    unfold mutex_inv in HM. destruct (g_print_mutex s') as [tid|]; [|reflexivity].
    destruct HM as (w & Hw & Hg).
    rewrite (forallb_done_lookup _ _ _ Hd Hw) in Hg. discriminate.
Qed.

Lemma demo_run_terminates_witness :
  (forall sched s',
      mrun demo_linker sched msnapshots_state = Some s' ->
      (length sched <= mmeasure msnapshots_state)%nat)
  /\ (main_pc (base (process msnapshots_state)) <> Main_exited ->
      exists l s', mstep demo_linker l msnapshots_state = Some s')
  /\ exists sched s',
       mrun demo_linker sched msnapshots_state = Some s'
       /\ main_pc (base (process s')) = Main_exited
       /\ crashed (base (process s')) = false
       /\ g_print_mutex s' = None.
Proof.
  apply (demo_run_terminates demo_linker msnapshots_state demo_linker_shipped).
  exists msnapshots_schedule. vm_compute. reflexivity.
Defined.

(** One complete run of the demo with the shipped plug-ins: it ends with
    [main] returned, seven reports printed and the mutex free. *)
Lemma mdemo_run_complete :
  mrun demo_linker mdemo_schedule System_init = Some mdemo_final
  /\ main_pc (base (process mdemo_final)) = Main_exited
  /\ crashed (base (process mdemo_final)) = false
  /\ g_print_mutex mdemo_final = None
  /\ length (printed (process mdemo_final)) = 7%nat.
Proof. vm_compute. repeat split; reflexivity. Qed.
